(** * docker-manager: command policy, runtime client and shadow reconciler

    A shallow embedding of the docker-manager sidecar
    (docker-manager/index.js, lib/config.js, lib/command-runner.js,
    lib/docker-client.js, lib/tailscale-shadow-sync.js) and the
    properties of its policy check, argument collection, name
    resolution cache, proxy reload and shadow-backend reconciliation.

    Conventions.  A JavaScript string is a [string] whose characters
    are the code units below 256.  The bytes of a file or of the body
    of a request are a [string] as well; the host decodes bytes to
    text and encodes text to bytes.  A dictionary keyed by strings is a
    [gmap string _]; a [Set] or a [Map] that the code iterates over is
    a list in insertion order.  Methods run in the monad [M] over the
    state of the process and of its surroundings: a method returns a
    value or throws an [Error], and an asynchronous method runs from
    its call to its settlement with no other task in between.  Only
    the scheduled cycle is also cut at its [await], to let the event
    loop run timers and other tasks while a cycle is in progress. *)

From Stdlib Require Import ZArith Ascii String List Bool Lia.
From stdpp Require Import base option list strings pretty gmap fin_maps.

Local Open Scope string_scope.
Local Open Scope Z_scope.
Local Open Scope list_scope.

(** ** JavaScript string primitives *)

Module Js.

(** White space and line terminators among the code units below 256:
    what [String.prototype.trim], the class [\s] and [parseInt] skip. *)
Definition is_ws (c : ascii) : bool :=
  let n := nat_of_ascii c in
  ((9 <=? n) && (n <=? 13) || (n =? 32) || (n =? 160))%nat.

Definition is_empty (s : string) : bool :=
  match s with EmptyString => true | String _ _ => false end.

Fixpoint trimStart (s : string) : string :=
  match s with
  | EmptyString => EmptyString
  | String c r => if is_ws c then trimStart r else s
  end.

Fixpoint trimEnd (s : string) : string :=
  match s with
  | EmptyString => EmptyString
  | String c r =>
      let r' := trimEnd r in
      if is_ws c && is_empty r' then EmptyString else String c r'
  end.

Definition trim (s : string) : string := trimEnd (trimStart s).

(** A string is truthy when it is not empty. *)
Definition truthy (s : string) : bool := negb (is_empty s).

(** [a || b] on strings. *)
Definition or_else (a b : string) : string := if truthy a then a else b.

Definition is_digit (c : ascii) : bool :=
  let n := nat_of_ascii c in ((48 <=? n) && (n <=? 57))%nat.

Definition is_alpha (c : ascii) : bool :=
  let n := nat_of_ascii c in
  ((65 <=? n) && (n <=? 90) || (97 <=? n) && (n <=? 122))%nat.

Definition digit_value (c : ascii) : Z := Z.of_nat (nat_of_ascii c) - 48.

(** [s.includes(c)] for a one-character needle. *)
Fixpoint includes_char (c : ascii) (s : string) : bool :=
  match s with
  | EmptyString => false
  | String d r => if Ascii.eqb c d then true else includes_char c r
  end.

(** [s.includes(needle)]. *)
Fixpoint includes (needle s : string) : bool :=
  String.prefix needle s ||
  match s with
  | EmptyString => false
  | String _ r => includes needle r
  end.

(** [s.split(c)] for a one-character separator: never empty. *)
Fixpoint split_char (c : ascii) (s : string) : list string :=
  match s with
  | EmptyString => [EmptyString]
  | String d r =>
      if Ascii.eqb c d then EmptyString :: split_char c r
      else match split_char c r with
           | [] => [String d EmptyString]
           | w :: ws => String d w :: ws
           end
  end.

(** [parts.join(sep)]. *)
Fixpoint join (sep : string) (parts : list string) : string :=
  match parts with
  | [] => EmptyString
  | [p] => p
  | p :: rest => p +:+ sep +:+ join sep rest
  end.

(** [s.endsWith(suffix)]. *)
Definition endsWith (s suffix : string) : bool :=
  let n := String.length s in
  let k := String.length suffix in
  (k <=? n)%nat && String.eqb (String.substring (n - k) k s) suffix.

(** [s.startsWith(prefix)]. *)
Definition startsWith (s p : string) : bool := String.prefix p s.

(** A JavaScript number as far as the code observes it: the result of
    [Number.parseInt] is NaN, an infinity, or the double nearest to an
    integer.  The integers the code keeps after its range checks are
    below 2^53 and hence exact, and a comparison of the double with
    such a bound agrees with the comparison of the integer itself. *)
Inductive number := NaN | Infinite | Int (z : Z).

Definition isFinite (x : number) : bool :=
  match x with Int _ => true | _ => false end.

(** Magnitudes from here on round to an infinity. *)
Definition overflow_threshold : Z := 2 ^ 1024 - 2 ^ 970.

Fixpoint digits_value (acc : Z) (s : string) : Z :=
  match s with
  | EmptyString => acc
  | String c r => if is_digit c then digits_value (10 * acc + digit_value c) r else acc
  end.

Definition starts_with_digit (s : string) : bool :=
  match s with String c _ => is_digit c | EmptyString => false end.

(** [Number.parseInt(s, 10)]: leading white space, an optional sign,
    then the longest run of decimal digits; NaN when there is none. *)
Definition parseInt10 (s : string) : number :=
  let t := trimStart s in
  let '(neg, body) :=
    match t with
    | String "-" r => (true, r)
    | String "+" r => (false, r)
    | _ => (false, t)
    end in
  if starts_with_digit body then
    let v := digits_value 0 body in
    if overflow_threshold <=? v then Infinite
    else Int (if neg then - v else v)
  else NaN.

(** [String(n)] for an integer below 10^21. *)
Definition string_of_Z (z : Z) : string := pretty z.

(** [s.toLowerCase()] on the code units below 256: the letters A to Z
    and the capital letters of Latin-1, U+00C0 to U+00DE without the
    multiplication sign, move up by 32. *)
Definition lower_char (c : ascii) : ascii :=
  let n := nat_of_ascii c in
  if ((65 <=? n) && (n <=? 90) || (192 <=? n) && (n <=? 222) && negb (n =? 215))%nat
  then ascii_of_nat (n + 32) else c.

Fixpoint toLowerCase (s : string) : string :=
  match s with
  | EmptyString => EmptyString
  | String c r => String (lower_char c) (toLowerCase r)
  end.

(** [s.split(/[...]/g)] for a class of single characters: never empty. *)
Fixpoint split_on (p : ascii → bool) (s : string) : list string :=
  match s with
  | EmptyString => [EmptyString]
  | String d r =>
      if p d then EmptyString :: split_on p r
      else match split_on p r with
           | [] => [String d EmptyString]
           | w :: ws => String d w :: ws
           end
  end.

(** What follows the prefix [p] in [s], when [s] starts with it. *)
Fixpoint strip_prefix (p s : string) : option string :=
  match p, s with
  | EmptyString, _ => Some s
  | String a p', String b s' => if Ascii.eqb a b then strip_prefix p' s' else None
  | String _ _, EmptyString => None
  end.

End Js.

(** ** JavaScript values decoded from JSON *)

Module Json.

(** A value that [JSON.parse] returns, or [undefined] for a property
    that is missing.  A number carries the text that [String] gives for
    it, which is all the code looks at; the fields of an object are in
    enumeration order, each name once. *)
#[warnings="-register-all"]
Inductive value :=
| Undefined
| Null
| Bool (b : bool)
| Num (rendering : string)
| Str (s : string)
| Arr (items : list value)
| Obj (fields : list (string * value)).

(** [v ?? d]. *)
Definition nullish (v : value) : bool :=
  match v with Undefined | Null => true | _ => false end.

(** [String(v)]. *)
Fixpoint to_string (v : value) : string :=
  match v with
  | Undefined => "undefined"
  | Null => "null"
  | Bool true => "true"
  | Bool false => "false"
  | Num r => r
  | Str s => s
  | Arr items =>
      Js.join "," (map (fun x => if nullish x then EmptyString else to_string x) items)
  | Obj _ => "[object Object]"
  end.

Definition truthy (v : value) : bool :=
  match v with
  | Undefined | Null => false
  | Bool b => b
  | Num r => negb (String.eqb r "0")
  | Str s => Js.truthy s
  | Arr _ | Obj _ => true
  end.

Fixpoint assoc (name : string) (fields : list (string * value)) : value :=
  match fields with
  | [] => Undefined
  | (k, v) :: rest => if String.eqb k name then v else assoc name rest
  end.

(** [v.name] for a name that is no built-in property (none of the names
    the code reads is one) on a value that is not nullish. *)
Definition get (v : value) (name : string) : value :=
  match v with
  | Obj fields => assoc name fields
  | _ => Undefined
  end.

(** [a && b], [a || b]. *)
Definition and_then (a b : value) : value := if truthy a then b else a.
Definition or_else (a b : value) : value := if truthy a then a else b.

(** [typeof v === "object"]: objects, arrays and null. *)
Definition is_object (v : value) : bool :=
  match v with Null | Arr _ | Obj _ => true | _ => false end.

(** [Object.values(v)] of an object or an array. *)
Definition values (v : value) : list value :=
  match v with
  | Obj fields => map snd fields
  | Arr items => items
  | _ => []
  end.

End Json.

(** ** lib/config.js *)

Module Config.

Definition SAFE_COMMAND_KEYS : list string :=
  [ "healthz"; "help"; "tailscale.status"; "tailscale.ping"; "tailscale.ip";
    "nginx.test"; "nginx.version"; "nginx.logs.access"; "nginx.logs.error";
    "nginx.logs.shadow"; "system.ps"; "system.images"; "system.networks";
    "system.volumes"; "system.info"; "system.version"; "container.status";
    "container.logs"; "container.inspect"; "container.top"; "container.stats";
    "container.start"; "container.stop"; "container.restart"; "container.pause";
    "container.unpause" ].

Definition DANGEROUS_COMMAND_KEYS : list string :=
  [ "nginx.reload"; "system.prune"; "system.raw"; "container.kill"; "container.rm";
    "container.exec"; "container.rename"; "container.update"; "container.raw" ].

Definition ALL_COMMAND_KEYS : list string := SAFE_COMMAND_KEYS ++ DANGEROUS_COMMAND_KEYS.

(** [String(value ?? "").trim()] on a string and on a decoded value. *)
Definition normalizeValue (s : string) : string := Js.trim s.

Definition normalizeJson (v : Json.value) : string :=
  Js.trim (if Json.nullish v then EmptyString else Json.to_string v).

(** What [parseCommandPolicy] returns. *)
Record policy := { allowAll : bool; set : list string }.

(** The fields of the object that [createConfig] returns. *)
Record config := {
  host : string;
  port : Z;
  dockerBin : string;
  requestBodyLimitBytes : Z;
  commandTimeoutMs : Z;
  maxLogLines : Z;
  defaultLogTail : Z;
  tailscaleSyncEnabled : bool;
  tailscaleSyncIntervalSec : Z;
  tailscaleContainer : string;
  nginxContainer : string;
  shadowDir : string;
  shadowPort : Z;
  enableSafeCommands : bool;
  enableDangerousCommands : bool;
  safeCommandsPolicy : policy;
  dangerousCommandsPolicy : policy;
  blockedCommands : list string;
  execShell : string
}.

(** The object that [createConfig] returns when no variable of the
    environment is set. *)
Definition default_config : config :=
  {| host := "0.0.0.0";
     port := 18080;
     dockerBin := "docker";
     requestBodyLimitBytes := 65536;
     commandTimeoutMs := 120000;
     maxLogLines := 2000;
     defaultLogTail := 200;
     tailscaleSyncEnabled := true;
     tailscaleSyncIntervalSec := 30;
     tailscaleContainer := "tailscale";
     nginxContainer := "nginx";
     shadowDir := "/opt/nginx/shadow-servers";
     shadowPort := 3000;
     enableSafeCommands := true;
     enableDangerousCommands := true;
     safeCommandsPolicy := {| allowAll := true; set := SAFE_COMMAND_KEYS |};
     dangerousCommandsPolicy := {| allowAll := true; set := DANGEROUS_COMMAND_KEYS |};
     blockedCommands := [];
     execShell := "sh" |}.

Definition name_head (c : ascii) : bool := Js.is_alpha c || Js.is_digit c.

Definition name_tail (c : ascii) : bool :=
  name_head c || Ascii.eqb c "_" || Ascii.eqb c "." || Ascii.eqb c "-".

Fixpoint all_chars (p : ascii -> bool) (s : string) : bool :=
  match s with
  | EmptyString => true
  | String c r => p c && all_chars p r
  end.

(** [CONTAINER_NAME_PATTERN.test], the pattern being
    [^[A-Za-z0-9][A-Za-z0-9_.-]*$]. *)
Definition CONTAINER_NAME_PATTERN (s : string) : bool :=
  match s with
  | EmptyString => false
  | String c r => name_head c && all_chars name_tail r
  end.

Definition isContainerNameValid (containerName : string) : bool :=
  CONTAINER_NAME_PATTERN (normalizeValue containerName).

(** *** Reading the environment

    [process.env] is a dictionary of strings; a variable that is not
    set reads as [undefined], which [normalizeValue] turns into the
    empty string. *)

Definition readEnv (env : gmap string string) (key fallback : string) : string :=
  let value := normalizeValue (default EmptyString (env !! key)) in
  if negb (Js.truthy value) then normalizeValue fallback else value.

Definition readBoolEnv (env : gmap string string) (key : string) (fallback : bool) : bool :=
  let fallbackValue := if fallback then "1" else "0" in
  let value := Js.toLowerCase (readEnv env key fallbackValue) in
  if bool_decide (value ∈ ["1"; "true"; "yes"; "on"; "y"]) then true
  else if bool_decide (value ∈ ["0"; "false"; "no"; "off"; "n"]) then false
  else fallback.

Definition readIntEnv (env : gmap string string) (key : string) (fallback min max : Z) : Z :=
  match Js.parseInt10 (readEnv env key (Js.string_of_Z fallback)) with
  | Js.Int value => if (value <? min) || (max <? value) then fallback else value
  | _ => fallback
  end.

(** [new Set(items)]: the items in the order of their first occurrence. *)
Definition new_Set (items : list string) : list string :=
  foldl (fun seen item => if bool_decide (item ∈ seen) then seen else seen ++ [item]) [] items.

(** The class [[,\n\r]] that separates the items of a list. *)
Definition is_separator (c : ascii) : bool :=
  Ascii.eqb c "," || Ascii.eqb c "010" || Ascii.eqb c "013".

Definition parseCsvSet (value : string) : list string :=
  let raw := normalizeValue value in
  if negb (Js.truthy raw) then []
  else new_Set (List.filter Js.truthy (map Js.trim (Js.split_on is_separator raw))).

Definition parseCommandPolicy (value : string) (defaults : list string) : policy :=
  let normalized := normalizeValue value in
  if negb (Js.truthy normalized) || String.eqb normalized "*"
  then {| allowAll := true; set := new_Set defaults |}
  else {| allowAll := false; set := parseCsvSet normalized |}.

(** [createConfig()] in the environment [env].  The three fields of the
    log file, which only the logger reads, are left out as they are in
    [config]. *)
Definition createConfig (env : gmap string string) : config :=
  {| host := readEnv env "DOCKER_MANAGER_HOST" "0.0.0.0";
     port := readIntEnv env "DOCKER_MANAGER_PORT" 18080 1 65535;
     dockerBin := readEnv env "DOCKER_MANAGER_DOCKER_BIN" "docker";
     requestBodyLimitBytes := readIntEnv env "DOCKER_MANAGER_MAX_BODY_BYTES" 65536 1024 1048576;
     commandTimeoutMs := readIntEnv env "DOCKER_MANAGER_COMMAND_TIMEOUT_MS" 120000 500 900000;
     maxLogLines := readIntEnv env "DOCKER_MANAGER_MAX_LOG_LINES" 2000 10 20000;
     defaultLogTail := readIntEnv env "DOCKER_MANAGER_DEFAULT_LOG_TAIL" 200 1 20000;
     tailscaleSyncEnabled := readBoolEnv env "DOCKER_MANAGER_TAILSCALE_SYNC_ENABLED" true;
     tailscaleSyncIntervalSec :=
       readIntEnv env "DOCKER_MANAGER_TAILSCALE_SYNC_INTERVAL_SEC" 30 5 86400;
     tailscaleContainer := readEnv env "DOCKER_MANAGER_TAILSCALE_CONTAINER" "tailscale";
     nginxContainer := readEnv env "DOCKER_MANAGER_NGINX_CONTAINER" "nginx";
     shadowDir := readEnv env "DOCKER_MANAGER_SHADOW_DIR" "/opt/nginx/shadow-servers";
     shadowPort := readIntEnv env "DOCKER_MANAGER_SHADOW_PORT" 3000 1 65535;
     enableSafeCommands := readBoolEnv env "DOCKER_MANAGER_ENABLE_SAFE_COMMANDS" true;
     enableDangerousCommands := readBoolEnv env "DOCKER_MANAGER_ENABLE_DANGEROUS_COMMANDS" true;
     safeCommandsPolicy :=
       parseCommandPolicy (readEnv env "DOCKER_MANAGER_ALLOWED_SAFE_COMMANDS" "*")
         SAFE_COMMAND_KEYS;
     dangerousCommandsPolicy :=
       parseCommandPolicy (readEnv env "DOCKER_MANAGER_ALLOWED_DANGEROUS_COMMANDS" "*")
         DANGEROUS_COMMAND_KEYS;
     blockedCommands := parseCsvSet (readEnv env "DOCKER_MANAGER_BLOCKED_COMMANDS" EmptyString);
     execShell := readEnv env "DOCKER_MANAGER_EXEC_SHELL" "sh" |}.

End Config.

(** ** index.js: the command catalog and the policy check *)

Module Policy.
Import Config.

Inductive category := safe | dangerous.

#[global] Instance category_eq_dec : EqDecision category.
Proof. solve_decision. Defined.

Record command_spec := { key : string; category_of : category }.

Definition COMMAND_SPECS : list command_spec :=
  map (fun k => {| key := k; category_of := safe |}) SAFE_COMMAND_KEYS ++
  map (fun k => {| key := k; category_of := dangerous |}) DANGEROUS_COMMAND_KEYS.

(** [new Map(pairs)] sets the pairs from left to right. *)
Definition COMMAND_MAP : gmap string command_spec :=
  foldl (fun m item => <[key item := item]> m) ∅ COMMAND_SPECS.

Definition isCommandAllowed (cfg : config) (commandKey : string) : bool :=
  match COMMAND_MAP !! commandKey with
  | None => false
  | Some spec =>
      if bool_decide (commandKey ∈ blockedCommands cfg) then false
      else match category_of spec with
           | safe =>
               if negb (enableSafeCommands cfg) then false
               else allowAll (safeCommandsPolicy cfg)
                    || bool_decide (commandKey ∈ set (safeCommandsPolicy cfg))
           | dangerous =>
               if negb (enableDangerousCommands cfg) then false
               else allowAll (dangerousCommandsPolicy cfg)
                    || bool_decide (commandKey ∈ set (dangerousCommandsPolicy cfg))
           end
  end.

End Policy.

(** ** The state of the process and of its surroundings *)

Module State.

(** The record that lib/command-runner.js resolves with. *)
Record CommandResult := {
  command : string;
  stdout : string;
  stderr : string;
  code : Z;
  signal : option string;
  ok : bool
}.

(** An [Error]: its message and, when [runDocker] attached one, the
    result of the command that failed. *)
Record error := { message : string; result : option CommandResult }.

(** How a spawned process ends: its [close] event, with an exit code
    unless a signal killed it, or an [error] event. *)
Inductive proc_end :=
| Close (exit_code : option Z) (exit_signal : option string)
| ErrorEvent (e : error).

(** What a spawned process does: the text it writes, how it ends, and
    after how many milliseconds. *)
Record behaviour := {
  duration : Z;
  out : string;
  err : string;
  ending : proc_end
}.

(** A process that was spawned. *)
Record spawn := {
  program : string;
  argv : list string;
  timeout : Z;
  run : behaviour
}.

(** An entry of [DockerClient.containerResolveCache]. *)
Record cache_entry := { value : string; expiresAt : Z }.

(** An entry of the shadow directory.  A regular file has the number of
    its inode, which two entries share when they are hard links to one
    file, and the bytes that the file holds.  A directory is empty or
    not.  Any other entry (a symbolic link, a FIFO, a socket, a device)
    has the number of its inode; [isFile()] and [isDirectory()] are
    false of it. *)
Inductive dirent :=
| File (ino : N) (content : string)
| Subdir (empty : bool)
| Irregular (ino : N).

(** A call that changed the shadow directory. *)
Inductive fs_op :=
| WriteFile (name content : string)
| Rename (src dst : string)
| Remove (name : string).

(** A line that the logger wrote. *)
Record log_line := {
  level : string;
  scope : string;
  msg : string;
  meta : Json.value
}.

(** What [runTailscaleShadowSync] returns. *)
Record sync_result := {
  changed : bool;
  previousIps : list string;
  nextIps : list string;
  added : list string;
  removed : list string
}.

(** [runtimeState.sync]; an instant stands for its ISO rendering. *)
Record sync_state := {
  enabled : bool;
  inProgress : bool;
  lastRunAt : option Z;
  lastSuccessAt : option Z;
  lastError : string;
  lastResult : option sync_result;
  totalRuns : Z;
  totalFailures : Z
}.

(** What the host brings to the file system calls and to the reading of
    a request.  [utf8_decode] is [buffer.toString("utf8")], the text
    that the program reads from bytes, and [utf8_encode] is
    [Buffer.from(text, "utf8")], the bytes that it writes for a text.
    Where an entry of the shadow directory that is neither a regular
    file nor a directory leads is not told by the directory:
    [open_write] gives what writing bytes through such an entry makes
    of the directory, or the error of the call, and [open_read] gives
    the bytes read through it, or the error. *)
Record host_env := {
  utf8_decode : string → string;
  utf8_encode : string → string;
  open_write : string → gmap string dirent → string → gmap string dirent + error;
  open_read : string → gmap string dirent → string + error
}.

(** The mutable state: the clock that [Date.now()] reads, the processes
    spawned so far (oldest first), the resolution cache of the client,
    the entries of the directory [config.shadowDir] by name ([mkdirSync]
    creates it when it is missing, so a missing directory is the empty
    one) with the changes made to it (oldest first), the log,
    [runtimeState], and the requests, by their number, whose socket the
    handler destroyed.  [environment] and [platform] are not state:
    the first tells how the n-th process spawned behaves, the second
    is the host. *)
Record world := {
  now : Z;
  environment : nat → string → list string → behaviour;
  platform : host_env;
  spawned : list spawn;
  containerResolveCache : gmap string cache_entry;
  shadow : gmap string dirent;
  fs_ops : list fs_op;
  logged : list log_line;
  startedAt : Z;
  requestCount : Z;
  sync : sync_state;
  destroyed : list Z
}.

Definition set_now (t : Z) (w : world) : world :=
  {| now := t; environment := environment w; platform := platform w;
     spawned := spawned w; containerResolveCache := containerResolveCache w;
     shadow := shadow w; fs_ops := fs_ops w; logged := logged w;
     startedAt := startedAt w; requestCount := requestCount w; sync := sync w;
     destroyed := destroyed w |}.

Definition set_spawned (l : list spawn) (w : world) : world :=
  {| now := now w; environment := environment w; platform := platform w; spawned := l;
     containerResolveCache := containerResolveCache w; shadow := shadow w;
     fs_ops := fs_ops w; logged := logged w; startedAt := startedAt w;
     requestCount := requestCount w; sync := sync w; destroyed := destroyed w |}.

Definition set_cache (c : gmap string cache_entry) (w : world) : world :=
  {| now := now w; environment := environment w; platform := platform w;
     spawned := spawned w; containerResolveCache := c; shadow := shadow w;
     fs_ops := fs_ops w; logged := logged w; startedAt := startedAt w;
     requestCount := requestCount w; sync := sync w; destroyed := destroyed w |}.

Definition set_shadow (d : gmap string dirent) (ops : list fs_op) (w : world) : world :=
  {| now := now w; environment := environment w; platform := platform w;
     spawned := spawned w; containerResolveCache := containerResolveCache w;
     shadow := d; fs_ops := ops; logged := logged w; startedAt := startedAt w;
     requestCount := requestCount w; sync := sync w; destroyed := destroyed w |}.

Definition set_logged (l : list log_line) (w : world) : world :=
  {| now := now w; environment := environment w; platform := platform w;
     spawned := spawned w; containerResolveCache := containerResolveCache w;
     shadow := shadow w; fs_ops := fs_ops w; logged := l; startedAt := startedAt w;
     requestCount := requestCount w; sync := sync w; destroyed := destroyed w |}.

Definition set_requestCount (n : Z) (w : world) : world :=
  {| now := now w; environment := environment w; platform := platform w;
     spawned := spawned w; containerResolveCache := containerResolveCache w;
     shadow := shadow w; fs_ops := fs_ops w; logged := logged w;
     startedAt := startedAt w; requestCount := n; sync := sync w;
     destroyed := destroyed w |}.

Definition set_sync (s : sync_state) (w : world) : world :=
  {| now := now w; environment := environment w; platform := platform w;
     spawned := spawned w; containerResolveCache := containerResolveCache w;
     shadow := shadow w; fs_ops := fs_ops w; logged := logged w;
     startedAt := startedAt w; requestCount := requestCount w; sync := s;
     destroyed := destroyed w |}.

Definition set_destroyed (l : list Z) (w : world) : world :=
  {| now := now w; environment := environment w; platform := platform w;
     spawned := spawned w; containerResolveCache := containerResolveCache w;
     shadow := shadow w; fs_ops := fs_ops w; logged := logged w;
     startedAt := startedAt w; requestCount := requestCount w; sync := sync w;
     destroyed := l |}.

(** *** The monad of the methods: state, and an [Error] thrown *)

Inductive outcome (A : Type) := Ok (a : A) | Throw (e : error).
Arguments Ok {A} a.
Arguments Throw {A} e.

Definition M (A : Type) : Type := world → outcome A * world.

Definition ret {A} (a : A) : M A := fun w => (Ok a, w).

Definition throw {A} (e : error) : M A := fun w => (Throw e, w).

Definition bind {A B} (m : M A) (k : A → M B) : M B :=
  fun w => match m w with
           | (Ok a, w') => k a w'
           | (Throw e, w') => (Throw e, w')
           end.

(** [try { m } catch (error) { handler }]. *)
Definition try_catch {A} (m : M A) (handler : error → M A) : M A :=
  fun w => match m w with
           | (Ok a, w') => (Ok a, w')
           | (Throw e, w') => handler e w'
           end.

(** [try { m } finally { cleanup }], for a cleanup that does not throw. *)
Definition finally {A} (m : M A) (cleanup : world → world) : M A :=
  fun w => let '(r, w') := m w in (r, cleanup w').

Definition get : M world := fun w => (Ok w, w).

Definition modify (f : world → world) : M unit := fun w => (Ok tt, f w).

(** [new Error(message)]. *)
Definition Error (message : string) : error := {| message := message; result := None |}.

End State.

Notation "'let*' x ':=' m 'in' k" := (State.bind m (fun x => k))
  (at level 10, x pattern, m at level 100, k at level 200).

(** ** lib/logger.js *)

Module Logger.
Import State.

(** [formatError] of an [Error]. *)
Definition formatError (e : error) : string := Js.or_else (message e) "Error".

Definition write (level scope message : string) (meta : Json.value) : M unit :=
  modify (fun w => set_logged (logged w ++ [{| level := level; scope := Js.or_else scope "docker-manager";
                                              msg := message; meta := meta |}]) w).

Definition info (scope message : string) (meta : Json.value) : M unit :=
  write "info" scope message meta.

Definition warn (scope message : string) (meta : Json.value) : M unit :=
  write "warn" scope message meta.

Definition error (scope : string) (e : State.error) (message : string) (meta : Json.value) : M unit :=
  let errorMessage := formatError e in
  let composed := if Js.truthy message then message +:+ ": " +:+ errorMessage else errorMessage in
  write "error" scope composed meta.

End Logger.

(** ** lib/command-runner.js *)

Module CommandRunner.
Import State.

Definition buildCommandText (command : string) (args : list string) : string :=
  Js.trim (Js.join " " (command :: args)).

(** [runCommand(command, args, { timeoutMs })]: the process is spawned
    with the arguments as a vector; when the timer fires before the
    process ends the promise rejects with a timeout, otherwise it
    settles with what the process did. *)
Definition runCommand (command : string) (args : list string) (timeoutMs : Z) : M CommandResult :=
  fun w =>
    let b := environment w (length (spawned w)) command args in
    let commandText := buildCommandText command args in
    let w1 := set_spawned (spawned w ++ [{| program := command; argv := args;
                                            timeout := timeoutMs; run := b |}]) w in
    if (0 <? timeoutMs) && (timeoutMs <=? duration b) then
      (Throw (Error ("command timeout after " +:+ Js.string_of_Z timeoutMs +:+ "ms: " +:+ commandText)),
       set_now (now w + timeoutMs) w1)
    else
      match ending b with
      | ErrorEvent e => (Throw e, set_now (now w + duration b) w1)
      | Close exit_code exit_signal =>
          (Ok {| command := commandText;
                 stdout := out b;
                 stderr := err b;
                 code := default 1 exit_code;
                 signal := exit_signal;
                 ok := bool_decide (exit_code = Some 0) |},
           set_now (now w + duration b) w1)
      end.

End CommandRunner.

(** ** lib/docker-client.js *)

Module DockerClient.
Import Config State CommandRunner.

(** [parsePositiveInt(value, fallback, { min, max })] of a string. *)
Definition parsePositiveInt (value : string) (fallback min max : Z) : Z :=
  let normalized := normalizeValue value in
  match Js.parseInt10 normalized with
  | Js.Int parsed =>
      if parsed <? min then min
      else if max <? parsed then max
      else parsed
  | _ => fallback
  end.

(** The options of [runDocker] that the client passes. *)
Record options := { allowFailure : bool; timeoutMs : option Z }.

Definition no_options : options := {| allowFailure := false; timeoutMs := None |}.

(** [options.timeoutMs || this.config.commandTimeoutMs]. *)
Definition effective_timeout (cfg : config) (o : options) : Z :=
  match timeoutMs o with
  | Some t => if t =? 0 then commandTimeoutMs cfg else t
  | None => commandTimeoutMs cfg
  end.

Definition runDocker (cfg : config) (args : list string) (o : options) : M CommandResult :=
  let* result := runCommand (dockerBin cfg) args (effective_timeout cfg o) in
  if negb (allowFailure o) && negb (code result =? 0) then
    let detail :=
      Js.or_else (normalizeValue (stderr result))
        (Js.or_else (normalizeValue (stdout result))
           ("exit " +:+ Js.string_of_Z (code result))) in
    throw {| message := "docker command failed: " +:+ detail; result := Some result |}
  else ret result.

Definition assertContainerName (containerName : string) : M unit :=
  if isContainerNameValid containerName then ret tt
  else throw (Error ("invalid container name: " +:+ containerName)).

(** [readFirstLine]: the lines are cut at line feeds; a carriage return
    before one is white space at the end of its line, which the trim
    removes as the pattern of the split would. *)
Definition readFirstLine (text : string) : string :=
  match filter (fun l => Js.truthy l = true) (map Js.trim (Js.split_char "010" text)) with
  | [] => EmptyString
  | line :: _ => line
  end.

Definition containerResolveTtlMs : Z := 10000.

Definition readResolveCache (containerName : string) : M string :=
  fun w =>
    let key := normalizeValue containerName in
    match containerResolveCache w !! key with
    | None => (Ok EmptyString, w)
    | Some cached =>
        if expiresAt cached <=? now w then
          (Ok EmptyString, set_cache (delete key (containerResolveCache w)) w)
        else (Ok (value cached), w)
    end.

Definition writeResolveCache (containerName resolvedName : string) : M unit :=
  fun w =>
    let key := normalizeValue containerName in
    let value := normalizeValue resolvedName in
    if negb (Js.truthy key) || negb (Js.truthy value) then (Ok tt, w)
    else (Ok tt, set_cache (<[key := {| value := value;
                                        expiresAt := now w + containerResolveTtlMs |}]>
                              (containerResolveCache w)) w).

Definition lookup_options : options := {| allowFailure := true; timeoutMs := Some 5000 |}.

Definition findContainerByComposeService (cfg : config) (serviceName : string) : M string :=
  let service := normalizeValue serviceName in
  if negb (Js.truthy service) then ret EmptyString
  else
    let args := [ "--filter"; "label=com.docker.compose.service=" +:+ service;
                  "--format"; "{{.Names}}" ] in
    let* running := runDocker cfg ("ps" :: args) lookup_options in
    let runningName := readFirstLine (stdout running) in
    if Js.truthy runningName then ret runningName
    else
      let* anyState := runDocker cfg ("ps" :: "-a" :: args) lookup_options in
      ret (readFirstLine (stdout anyState)).

Definition resolveContainerTarget (cfg : config) (containerName : string) : M string :=
  let* _ := assertContainerName containerName in
  let directName := normalizeValue containerName in
  let* cached := readResolveCache directName in
  if Js.truthy cached then ret cached
  else
    let* directInspect := runDocker cfg ["container"; "inspect"; directName] lookup_options in
    if code directInspect =? 0 then
      let* _ := writeResolveCache directName directName in
      ret directName
    else
      let* composeResolved := findContainerByComposeService cfg directName in
      if Js.truthy composeResolved then
        let* _ := writeResolveCache directName composeResolved in
        let* _ := writeResolveCache composeResolved composeResolved in
        let* _ := Logger.info "docker-client"
                    ("resolved compose service '" +:+ directName +:+ "' to container '"
                       +:+ composeResolved +:+ "'") Json.Undefined in
        ret composeResolved
      else
        throw (Error ("container not found: " +:+ directName +:+
          ". Hint: set DOCKER_MANAGER_TAILSCALE_CONTAINER/DOCKER_MANAGER_NGINX_CONTAINER to actual container name if needed")).

Definition execInContainer (cfg : config) (containerName : string) (commandArgs : list string)
    (o : options) : M CommandResult :=
  let* resolved := resolveContainerTarget cfg containerName in
  runDocker cfg ("exec" :: resolved :: commandArgs) o.

Definition tailscaleStatus (cfg : config) (asJson : bool) : M CommandResult :=
  if asJson then
    execInContainer cfg (tailscaleContainer cfg) ["tailscale"; "status"; "--json"] no_options
  else execInContainer cfg (tailscaleContainer cfg) ["tailscale"; "status"] no_options.

Definition tailscalePing (cfg : config) (target count : string) : M CommandResult :=
  let normalizedTarget := normalizeValue target in
  if negb (Js.truthy normalizedTarget) then throw (Error "tailscale ping requires target")
  else
    let pingCount := parsePositiveInt count 3 1 10 in
    execInContainer cfg (tailscaleContainer cfg)
      ["tailscale"; "ping"; "-c"; Js.string_of_Z pingCount; normalizedTarget] no_options.

Definition nginxTest (cfg : config) : M CommandResult :=
  execInContainer cfg (nginxContainer cfg) ["nginx"; "-t"] no_options.

Definition nginxReload (cfg : config) : M CommandResult :=
  let* _ := nginxTest cfg in
  execInContainer cfg (nginxContainer cfg) ["nginx"; "-s"; "reload"] no_options.

Definition shell_allowed (shell : string) : bool :=
  bool_decide (shell ∈ ["sh"; "bash"; "zsh"; "ash"]).

Definition containerExec (cfg : config) (containerName shellName commandText : string)
    : M CommandResult :=
  let* resolved := resolveContainerTarget cfg containerName in
  let shell := Js.or_else (normalizeValue shellName) (execShell cfg) in
  let safeShell := if shell_allowed shell then shell else "sh" in
  let command := normalizeValue commandText in
  if negb (Js.truthy command) then throw (Error "container exec requires command")
  else runDocker cfg ["exec"; resolved; safeShell; "-lc"; command]
         {| allowFailure := true; timeoutMs := None |}.

(** *** The other commands of the client *)

(** The options [{ allowFailure: true }]. *)
Definition allow_failure : options := {| allowFailure := true; timeoutMs := None |}.

Definition tailscaleIp (cfg : config) : M CommandResult :=
  execInContainer cfg (tailscaleContainer cfg) ["tailscale"; "ip"; "-4"] no_options.

Definition nginxVersion (cfg : config) : M CommandResult :=
  execInContainer cfg (nginxContainer cfg) ["nginx"; "-v"] no_options.

(** The keys of the table [LOG_TYPES] with their files. *)
Definition LOG_TYPES (name : string) : option string :=
  if String.eqb name "access" then Some "/var/log/nginx/app.access.log"
  else if String.eqb name "error" then Some "/var/log/nginx/app.error.log"
  else if String.eqb name "shadow" then Some "/var/log/nginx/shadow.mirror.log"
  else None.

(** [nginxLogs(logType, tailLines)] for a type that is no name the
    table inherits from [Object.prototype] (the route, which is the
    only caller, passes one of the three keys); the number of lines
    comes as the text that [String] gives for it. *)
Definition nginxLogs (cfg : config) (logType tailLines : string) : M CommandResult :=
  let normalizedType := Js.toLowerCase (normalizeValue logType) in
  match LOG_TYPES normalizedType with
  | None => throw (Error ("unsupported nginx log type: " +:+ logType))
  | Some logFile =>
      let tail := parsePositiveInt tailLines (defaultLogTail cfg) 1 (maxLogLines cfg) in
      execInContainer cfg (nginxContainer cfg) ["tail"; "-n"; Js.string_of_Z tail; logFile]
        allow_failure
  end.

Definition systemCommand (cfg : config) (name : string) : M CommandResult :=
  if String.eqb name "ps" then runDocker cfg ["ps"; "-a"] no_options
  else if String.eqb name "images" then runDocker cfg ["images"] no_options
  else if String.eqb name "networks" then runDocker cfg ["network"; "ls"] no_options
  else if String.eqb name "volumes" then runDocker cfg ["volume"; "ls"] no_options
  else if String.eqb name "info" then runDocker cfg ["info"] no_options
  else if String.eqb name "version" then runDocker cfg ["version"] no_options
  else throw (Error ("unsupported system command: " +:+ name)).

(** [systemPrune(scope)], the scope being a parameter of the query, or
    [null] when the query has none. *)
Definition systemPrune (cfg : config) (scope : option string) : M CommandResult :=
  let normalized := Js.toLowerCase (normalizeValue (default EmptyString scope)) in
  if negb (Js.truthy normalized) || String.eqb normalized "all"
  then runDocker cfg ["system"; "prune"; "-f"] no_options
  else if String.eqb normalized "containers"
  then runDocker cfg ["container"; "prune"; "-f"] no_options
  else if String.eqb normalized "images" then runDocker cfg ["image"; "prune"; "-af"] no_options
  else if String.eqb normalized "networks"
  then runDocker cfg ["network"; "prune"; "-f"] no_options
  else if String.eqb normalized "volumes" then runDocker cfg ["volume"; "prune"; "-f"] no_options
  else if String.eqb normalized "builder"
  then runDocker cfg ["builder"; "prune"; "-af"] no_options
  else throw (Error ("unsupported prune scope: " +:+ default "null" scope)).

Definition systemRaw (cfg : config) (args : list string) : M CommandResult :=
  if (length args =? 0)%nat then throw (Error "system raw command requires non-empty args")
  else runDocker cfg args no_options.

Definition containerStatus (cfg : config) (containerName : string) : M CommandResult :=
  let* resolved := resolveContainerTarget cfg containerName in
  runDocker cfg ["ps"; "-a"; "--filter"; "name=^/" +:+ resolved +:+ "$"] no_options.

(** [containerLogs(containerName, { tail, since, timestamps })], each
    option a parameter of the query or [null]. *)
Definition containerLogs (cfg : config) (containerName : string)
    (tail since timestamps : option string) : M CommandResult :=
  let* resolved := resolveContainerTarget cfg containerName in
  let tail := parsePositiveInt (default EmptyString tail) (defaultLogTail cfg) 1
                (maxLogLines cfg) in
  let since := normalizeValue (default EmptyString since) in
  let timestamps := normalizeValue (default EmptyString timestamps) in
  let args :=
    ["logs"; "--tail"; Js.string_of_Z tail] ++
    (if Js.truthy since then ["--since"; since] else []) ++
    (if String.eqb timestamps "1" then ["--timestamps"] else []) ++
    [resolved] in
  runDocker cfg args allow_failure.

Definition containerInspect (cfg : config) (containerName : string) : M CommandResult :=
  let* resolved := resolveContainerTarget cfg containerName in
  runDocker cfg ["inspect"; resolved] no_options.

Definition containerTop (cfg : config) (containerName : string) : M CommandResult :=
  let* resolved := resolveContainerTarget cfg containerName in
  runDocker cfg ["top"; resolved] allow_failure.

Definition containerStats (cfg : config) (containerName : string) : M CommandResult :=
  let* resolved := resolveContainerTarget cfg containerName in
  runDocker cfg ["stats"; "--no-stream"; resolved] allow_failure.

Definition containerMutate (cfg : config) (containerName commandName : string)
    : M CommandResult :=
  let* resolved := resolveContainerTarget cfg containerName in
  if String.eqb commandName "start" then runDocker cfg ["start"; resolved] allow_failure
  else if String.eqb commandName "stop" then runDocker cfg ["stop"; resolved] allow_failure
  else if String.eqb commandName "restart" then runDocker cfg ["restart"; resolved] allow_failure
  else if String.eqb commandName "pause" then runDocker cfg ["pause"; resolved] allow_failure
  else if String.eqb commandName "unpause" then runDocker cfg ["unpause"; resolved] allow_failure
  else if String.eqb commandName "kill" then runDocker cfg ["kill"; resolved] allow_failure
  else if String.eqb commandName "rm" then runDocker cfg ["rm"; "-f"; resolved] allow_failure
  else throw (Error ("unsupported container command: " +:+ commandName)).

Definition containerRename (cfg : config) (containerName toName : string) : M CommandResult :=
  let* resolved := resolveContainerTarget cfg containerName in
  let* _ := assertContainerName toName in
  runDocker cfg ["rename"; resolved; toName] allow_failure.

Definition containerUpdate (cfg : config) (containerName : string) (updateArgs : list string)
    : M CommandResult :=
  let* resolved := resolveContainerTarget cfg containerName in
  if (length updateArgs =? 0)%nat then throw (Error "container update requires args")
  else runDocker cfg (["update"] ++ updateArgs ++ [resolved]) allow_failure.

Definition containerRaw (cfg : config) (containerName : string) (args : list string)
    : M CommandResult :=
  let* resolved := resolveContainerTarget cfg containerName in
  if (length args =? 0)%nat then throw (Error "container raw command requires args")
  else runDocker cfg (args ++ [resolved]) allow_failure.

End DockerClient.

(** ** lib/tailscale-shadow-sync.js *)

Module ShadowSync.
Import Config State.

Definition octet_shape (part : string) : bool :=
  let n := String.length part in
  (1 <=? n)%nat && (n <=? 3)%nat && all_chars Js.is_digit part.

(** [IPV4_PATTERN.test], the pattern being [^\d{1,3}(\.\d{1,3}){3}$]:
    four runs of one to three digits with a dot between them. *)
Definition IPV4_PATTERN (text : string) : bool :=
  match Js.split_char "." text with
  | [a; b; c; d] => octet_shape a && octet_shape b && octet_shape c && octet_shape d
  | _ => false
  end.

Definition octet_ok (octet : Js.number) : bool :=
  match octet with
  | Js.Int z => (0 <=? z) && (z <=? 255)
  | _ => false
  end.

Definition isIpv4 (value : string) : bool :=
  let text := normalizeValue value in
  if negb (IPV4_PATTERN text) then false
  else forallb octet_ok (map Js.parseInt10 (Js.split_char "." text)).

(** *** The file system calls on the shadow directory *)

Definition path_join (dir name : string) : string := dir +:+ "/" +:+ name.

Definition readdirSync : M (list (string * dirent)) :=
  fun w => (Ok (map_to_list (shadow w)), w).

(** [fs.readFileSync(path, "utf8")]. *)
Definition readFileSync (shadowDir name : string) : M string :=
  fun w => match shadow w !! name with
           | Some (File _ content) => (Ok (utf8_decode (platform w) content), w)
           | Some (Subdir _) =>
               (Throw (Error ("EISDIR: illegal operation on a directory, read '"
                              +:+ path_join shadowDir name +:+ "'")), w)
           | Some (Irregular _) =>
               match open_read (platform w) name (shadow w) with
               | inl content => (Ok (utf8_decode (platform w) content), w)
               | inr e => (Throw e, w)
               end
           | None =>
               (Throw (Error ("ENOENT: no such file or directory, open '"
                              +:+ path_join shadowDir name +:+ "'")), w)
           end.

(** The number of the inode of a file that is created: one that no
    entry of the directory has. *)
Definition inos (d : gmap string dirent) : list N :=
  omap (fun kv => match kv.2 with
                  | File i _ | Irregular i => Some i
                  | Subdir _ => None
                  end) (map_to_list d).

Definition fresh_ino (d : gmap string dirent) : N := N.succ (foldr N.max 0%N (inos d)).

(** What a write to the inode makes of an entry: every hard link to the
    file holds the bytes written. *)
Definition rewrite_inode (i : N) (bytes : string) (entry : dirent) : dirent :=
  match entry with
  | File j _ => if (j =? i)%N then File j bytes else entry
  | _ => entry
  end.

(** [fs.writeFileSync(path, content, "utf8")]: the file is created when
    the path is free, and truncated and written when it is there. *)
Definition writeFileSync (shadowDir name content : string) : M unit :=
  fun w =>
    let bytes := utf8_encode (platform w) content in
    match shadow w !! name with
    | None =>
        (Ok tt, set_shadow (<[name := File (fresh_ino (shadow w)) bytes]> (shadow w))
                  (fs_ops w ++ [WriteFile name content]) w)
    | Some (File i _) =>
        (Ok tt, set_shadow (rewrite_inode i bytes <$> shadow w)
                  (fs_ops w ++ [WriteFile name content]) w)
    | Some (Subdir _) =>
        (Throw (Error ("EISDIR: illegal operation on a directory, open '"
                       +:+ path_join shadowDir name +:+ "'")), w)
    | Some (Irregular _) =>
        match open_write (platform w) name (shadow w) bytes with
        | inl d => (Ok tt, set_shadow d (fs_ops w ++ [WriteFile name content]) w)
        | inr e => (Throw e, w)
        end
    end.

Definition rename_error (code shadowDir src dst : string) : error :=
  Error (code +:+ ", rename '" +:+ path_join shadowDir src +:+ "' -> '"
           +:+ path_join shadowDir dst +:+ "'").

(** Two entries that are hard links to one file. *)
Definition same_file (a b : dirent) : bool :=
  match a, b with
  | File i _, File j _ | Irregular i, Irregular j => (i =? j)%N
  | _, _ => false
  end.

(** [fs.renameSync(src, dst)]: the entry itself is moved, a symbolic
    link is not followed; between two hard links to one file, and from
    a path to itself, the call does nothing. *)
Definition renameSync (shadowDir src dst : string) : M unit :=
  fun w =>
    let moved entry :=
      (Ok tt, set_shadow (<[dst := entry]> (delete src (shadow w)))
                (fs_ops w ++ [Rename src dst]) w) in
    match shadow w !! src with
    | None =>
        (Throw (rename_error "ENOENT: no such file or directory" shadowDir src dst), w)
    | Some entry =>
        if bool_decide (src = dst) then (Ok tt, w)
        else
          match entry, shadow w !! dst with
          | Subdir _, Some (Subdir true) => moved entry
          | Subdir _, Some (Subdir false) =>
              (Throw (rename_error "ENOTEMPTY: directory not empty" shadowDir src dst), w)
          | Subdir _, Some _ =>
              (Throw (rename_error "ENOTDIR: not a directory" shadowDir src dst), w)
          | _, Some (Subdir _) =>
              (Throw (rename_error "EISDIR: illegal operation on a directory"
                        shadowDir src dst), w)
          | _, Some other => if same_file entry other then (Ok tt, w) else moved entry
          | _, None => moved entry
          end
    end.

(** [fs.rmSync(path, { force: true })]. *)
Definition rmSync (shadowDir name : string) : M unit :=
  fun w => match shadow w !! name with
           | None => (Ok tt, w)
           | Some (Subdir _) =>
               (Throw (Error ("Path is a directory: rm returned EISDIR (is a directory) "
                              +:+ path_join shadowDir name)), w)
           | Some _ =>
               (Ok tt, set_shadow (delete name (shadow w)) (fs_ops w ++ [Remove name]) w)
           end.

(** *** A [Map] and a [Set] of strings in insertion order *)

Fixpoint map_set (k v : string) (m : list (string * string)) : list (string * string) :=
  match m with
  | [] => [(k, v)]
  | (k', v') :: rest => if String.eqb k' k then (k, v) :: rest else (k', v') :: map_set k v rest
  end.

Definition map_has (k : string) (m : list (string * string)) : bool :=
  existsb (fun kv => String.eqb (fst kv) k) m.

Definition map_keys (m : list (string * string)) : list string := map fst m.

Definition includes (k : string) (l : list string) : bool := existsb (String.eqb k) l.

Definition set_add (k : string) (l : list string) : list string :=
  if includes k l then l else l ++ [k].

Definition set_delete (k : string) (l : list string) : list string :=
  filter (fun x => x ≠ k) l.

(** *** The shadow directory *)

(** [name.replace(/\.conf$/i, "")] of a name that ends in [.conf]. *)
Definition stem (name : string) : string :=
  String.substring 0 (String.length name - 5) name.

(** The test that both scans of the directory make on an entry. *)
Definition member_ip (name : string) (entry : dirent) : option string :=
  match entry with
  | File _ _ =>
      if Js.endsWith name ".conf" then
        let ip := stem name in
        if isIpv4 ip then Some ip else None
      else None
  | _ => None
  end.

Fixpoint readShadowFiles_loop (shadowDir : string) (entries : list (string * dirent))
    (state : list (string * string)) : M (list (string * string)) :=
  match entries with
  | [] => ret state
  | (name, entry) :: rest =>
      match member_ip name entry with
      | None => readShadowFiles_loop shadowDir rest state
      | Some ip =>
          let* content := readFileSync shadowDir name in
          readShadowFiles_loop shadowDir rest (map_set ip content state)
      end
  end.

Definition readShadowFiles (shadowDir : string) : M (list (string * string)) :=
  let* entries := readdirSync in
  readShadowFiles_loop shadowDir entries [].

Definition renderShadowContent (ip : string) (port : Z) : string :=
  "server " +:+ ip +:+ ":" +:+ Js.string_of_Z port +:+ " max_fails=2 fail_timeout=10s;"
    +:+ String "010" EmptyString.

Fixpoint scan_existing (entries : list (string * dirent)) (existingFiles : list string)
    : list string :=
  match entries with
  | [] => existingFiles
  | (name, entry) :: rest =>
      match member_ip name entry with
      | None => scan_existing rest existingFiles
      | Some ip => scan_existing rest (set_add ip existingFiles)
      end
  end.

Fixpoint write_desired (shadowDir : string) (desired : list (string * string))
    (existingFiles : list string) : M (list string) :=
  match desired with
  | [] => ret existingFiles
  | (ip, content) :: rest =>
      let filePath := ip +:+ ".conf" in
      let tmpPath := filePath +:+ ".tmp" in
      let* _ := writeFileSync shadowDir tmpPath content in
      let* _ := renameSync shadowDir tmpPath filePath in
      write_desired shadowDir rest (set_delete ip existingFiles)
  end.

Fixpoint remove_stale (shadowDir : string) (existingFiles : list string) : M unit :=
  match existingFiles with
  | [] => ret tt
  | ip :: rest =>
      let* _ := rmSync shadowDir (ip +:+ ".conf") in
      remove_stale shadowDir rest
  end.

Definition writeShadowState (shadowDir : string) (desiredState : list (string * string))
    : M unit :=
  let* currentEntries := readdirSync in
  let existingFiles := scan_existing currentEntries [] in
  let* existingFiles := write_desired shadowDir desiredState existingFiles in
  remove_stale shadowDir existingFiles.

(** The two calls that validate the proxy configuration and reload it. *)
Definition test_and_reload (cfg : config) (nginxContainerName : string) : M unit :=
  let* _ := DockerClient.nginxTest cfg in
  let* _ := DockerClient.execInContainer cfg nginxContainerName ["nginx"; "-s"; "reload"]
              DockerClient.no_options in
  ret tt.

Definition applyStateWithRollback (cfg : config) (shadowDir : string)
    (previousState desiredState : list (string * string)) (nginxContainerName : string)
    : M unit :=
  let* _ := writeShadowState shadowDir desiredState in
  try_catch (test_and_reload cfg nginxContainerName)
    (fun error =>
       let* _ := Logger.error "tailscale-sync" error "nginx test/reload failed, rollback started"
                   Json.Null in
       let* _ := writeShadowState shadowDir previousState in
       let* _ := try_catch (test_and_reload cfg nginxContainerName)
                   (fun rollbackError =>
                      Logger.error "tailscale-sync" rollbackError "rollback reload failed"
                        Json.Null) in
       throw error).

(** *** The peers of the overlay network *)

Definition is_flag (v : Json.value) : bool :=
  match v with Json.Bool _ => true | _ => false end.

Definition is_true (v : Json.value) : bool :=
  match v with Json.Bool true => true | _ => false end.

Definition isPeerActive (peer : Json.value) : bool :=
  let rawFlags :=
    [ Json.and_then peer (Json.get peer "Online"); Json.and_then peer (Json.get peer "online");
      Json.and_then peer (Json.get peer "Active"); Json.and_then peer (Json.get peer "active") ] in
  let explicitFlags := List.filter is_flag rawFlags in
  if (0 <? length explicitFlags)%nat then existsb is_true explicitFlags
  else
    let curAddr :=
      normalizeJson (Json.and_then peer
                       (Json.or_else (Json.get peer "CurAddr") (Json.get peer "curAddr"))) in
    Js.truthy curAddr.

Fixpoint collect_items (items : list Json.value) (ipValues : list string) : list string :=
  match items with
  | [] => ipValues
  | item :: rest =>
      let ip := normalizeJson item in
      if isIpv4 ip && negb (includes ip ipValues) then collect_items rest (ipValues ++ [ip])
      else collect_items rest ipValues
  end.

Fixpoint collect_lists (candidates : list Json.value) (ipValues : list string) : list string :=
  match candidates with
  | [] => ipValues
  | Json.Arr items :: rest => collect_lists rest (collect_items items ipValues)
  | _ :: rest => collect_lists rest ipValues
  end.

Definition collectNodeIps (node : Json.value) : list string :=
  collect_lists
    [ Json.and_then node (Json.get node "TailscaleIPs");
      Json.and_then node (Json.get node "tailscaleIPs");
      Json.and_then node (Json.get node "tailscaleIps");
      Json.and_then node (Json.get node "Addresses");
      Json.and_then node (Json.get node "addresses");
      Json.and_then node (Json.get node "ips") ] [].

Fixpoint select_ips (selfIps ips selectedIps : list string) : list string :=
  match ips with
  | [] => selectedIps
  | ip :: rest =>
      if includes ip selfIps then select_ips selfIps rest selectedIps
      else if negb (includes ip selectedIps) then select_ips selfIps rest (selectedIps ++ [ip])
      else select_ips selfIps rest selectedIps
  end.

Fixpoint select_peers (selfIps : list string) (selfId : string) (peers : list Json.value)
    (selectedIps : list string) : list string :=
  match peers with
  | [] => selectedIps
  | peer :: rest =>
      if negb (Json.truthy peer) || negb (Json.is_object peer)
      then select_peers selfIps selfId rest selectedIps
      else
        let peerId := normalizeJson (Json.or_else (Json.get peer "ID") (Json.get peer "id")) in
        if is_true (Json.get peer "Self") then select_peers selfIps selfId rest selectedIps
        else if Js.truthy selfId && Js.truthy peerId && String.eqb selfId peerId
        then select_peers selfIps selfId rest selectedIps
        else if negb (isPeerActive peer) then select_peers selfIps selfId rest selectedIps
        else select_peers selfIps selfId rest (select_ips selfIps (collectNodeIps peer) selectedIps)
  end.

Section WithHost.

(** What the host brings: [JSON.parse], which returns a value or throws
    a [SyntaxError] with a message, and the comparison
    [left.localeCompare(right, undefined, { numeric: true, sensitivity: "base" })]. *)
Variable JSON_parse : string → Json.value + string.
Variable localeCompare : string → string → Z.

(** [Array.prototype.sort] is stable. *)
Fixpoint sort_insert (x : string) (sorted : list string) : list string :=
  match sorted with
  | [] => [x]
  | y :: rest => if localeCompare x y <=? 0 then x :: sorted else y :: sort_insert x rest
  end.

Definition sort (l : list string) : list string := foldr sort_insert [] l.

Definition extractActivePeerIps (statusPayload : Json.value) : list string :=
  let peerField := Json.and_then statusPayload (Json.get statusPayload "Peer") in
  let peers :=
    if Json.truthy peerField && Json.is_object peerField then Json.values peerField else [] in
  let selfNode :=
    if Json.truthy (Json.and_then statusPayload (Json.get statusPayload "Self"))
    then Json.get statusPayload "Self" else Json.Obj [] in
  let selfIps := collectNodeIps selfNode in
  let selfId := normalizeJson (Json.or_else (Json.get selfNode "ID") (Json.get selfNode "id")) in
  sort (select_peers selfIps selfId peers []).

Definition ips_meta (l : list string) : Json.value := Json.Arr (map Json.Str l).

(** The desired state: one rendered stanza per active address. *)
Definition desired_state (cfg : config) (nextIps : list string) : list (string * string) :=
  foldl (fun m ip => map_set ip (renderShadowContent ip (shadowPort cfg)) m) [] nextIps.

(** The comparison of the state on disk with the desired one, as the
    cycle computes it before it decides to write. *)
Definition scan (previousState nextState : list (string * string)) (nextIps : list string)
    : sync_result :=
  let previousIps := sort (map_keys previousState) in
  let added := List.filter (fun ip => negb (map_has ip previousState)) nextIps in
  let removed := List.filter (fun ip => negb (map_has ip nextState)) previousIps in
  let changed := (0 <? length added)%nat || (0 <? length removed)%nat in
  {| changed := changed; previousIps := previousIps; nextIps := nextIps;
     added := added; removed := removed |}.

Definition runTailscaleShadowSync (cfg : config) : M sync_result :=
  let* statusResult := DockerClient.tailscaleStatus cfg true in
  match JSON_parse (Js.or_else (stdout statusResult) "{}") with
  | inr message => throw (Error ("invalid tailscale status json: " +:+ message))
  | inl payload =>
      let nextIps := extractActivePeerIps payload in
      let* previousState := readShadowFiles (shadowDir cfg) in
      let nextState := desired_state cfg nextIps in
      let result := scan previousState nextState nextIps in
      let* _ := Logger.info "tailscale-sync" "tailscale scan result"
                  (Json.Obj [ ("previousIps", ips_meta (previousIps result));
                              ("nextIps", ips_meta nextIps);
                              ("added", ips_meta (added result));
                              ("removed", ips_meta (removed result));
                              ("changed", Json.Bool (changed result)) ]) in
      if negb (changed result) then
        ret {| changed := false; previousIps := previousIps result; nextIps := nextIps;
               added := added result; removed := removed result |}
      else
        let* _ := applyStateWithRollback cfg (shadowDir cfg) previousState nextState
                    (nginxContainer cfg) in
        let* _ := Logger.info "tailscale-sync" "shadow files synced and nginx reloaded"
                    (Json.Obj [ ("added", ips_meta (added result));
                                ("removed", ips_meta (removed result)) ]) in
        ret {| changed := true; previousIps := previousIps result; nextIps := nextIps;
               added := added result; removed := removed result |}
  end.

End WithHost.

End ShadowSync.

(** ** index.js: requests, routes and the scheduled cycle *)

Module Server.
Import Config State Policy.

(** [new URL(req.url, base)]: the path, the raw query and its decoded
    parameters in order. *)
Record url := {
  pathname : string;
  search : string;
  searchParams : list (string * string)
}.

(** An incoming request; [target] is [None] when the URL does not parse,
    and [payload] is the bytes of a body that arrives whole. *)
Record request := {
  method : string;
  target : option url;
  payload : string;
  remoteAddress : string
}.

Record response := {
  statusCode : Z;
  contentType : string;
  content : string
}.

(** What [parseRequestBody] resolves with. *)
Record body := { text : string; json : Json.value }.

(** [searchParams.getAll(name)] and [searchParams.get(name)]. *)
Definition getAll (name : string) (params : list (string * string)) : list string :=
  map snd (List.filter (fun kv => String.eqb (fst kv) name) params).

Definition get_param (name : string) (params : list (string * string)) : option string :=
  head (getAll name params).

(** [normalizeValue] of a parameter that may be [null]. *)
Definition normalizeParam (v : option string) : string :=
  normalizeValue (default EmptyString v).

Definition respondText (statusCode : Z) (text : string) : response :=
  {| statusCode := statusCode;
     contentType := "text/plain; charset=utf-8";
     content := if Js.endsWith text (String "010" EmptyString) then text
                else text +:+ String "010" EmptyString |}.

Definition formatCommandResult (result : CommandResult) : string :=
  let lines :=
    ((if Js.truthy (command result) then ["$ " +:+ command result] else []) ++
     ["exit=" +:+ Js.string_of_Z (code result)] ++
     (let out := Js.trimEnd (stdout result) in
      if Js.truthy out then ["--- stdout ---"; out] else []) ++
     (let err := Js.trimEnd (stderr result) in
      if Js.truthy err then ["--- stderr ---"; err] else []))%list in
  Js.join (String "010" EmptyString) lines.

Definition sendCommandResult (result : CommandResult) : response :=
  if negb (code result =? 0) then respondText 500 (formatCommandResult result)
  else respondText 200 (formatCommandResult result).

Definition handleCommandError (scope : string) (e : error) : M response :=
  match State.result e with
  | Some r =>
      let* _ := Logger.error scope e "command failed"
                  (Json.Obj [("command", Json.Str (command r));
                             ("code", Json.Num (Js.string_of_Z (code r)))]) in
      ret (sendCommandResult r)
  | None =>
      let* _ := Logger.error scope e "unexpected handler error" Json.Null in
      ret (respondText 500 ("error: " +:+ Js.or_else (message e) "Error"))
  end.

(** The quote that opens a quoted word, if the character is one. *)
Definition is_quote (c : ascii) : bool := Ascii.eqb c "034" || Ascii.eqb c "'".

Definition push_word (current : string) (result : list string) : list string :=
  if Js.truthy current then result ++ [current] else result.

Definition snoc_char (s : string) (c : ascii) : string := s +:+ String c EmptyString.

(** The loop of [parseShellWords] over the characters that are left,
    with the word being read and the quote that is open, if any. *)
Fixpoint shell_words (source : string) (current : string) (quote : option ascii)
    (result : list string) : list string :=
  match source with
  | EmptyString => push_word current result
  | String ch rest =>
      match quote with
      | Some q =>
          if Ascii.eqb ch q then shell_words rest current None result
          else if Ascii.eqb ch "\" then
            match rest with
            | String next rest' => shell_words rest' (snoc_char current next) quote result
            | EmptyString => shell_words rest (snoc_char current ch) quote result
            end
          else shell_words rest (snoc_char current ch) quote result
      | None =>
          if is_quote ch then shell_words rest current (Some ch) result
          else if Js.is_ws ch then shell_words rest EmptyString None (push_word current result)
          else if Ascii.eqb ch "\" then
            match rest with
            | String next rest' => shell_words rest' (snoc_char current next) None result
            | EmptyString => shell_words rest (snoc_char current ch) None result
            end
          else shell_words rest (snoc_char current ch) None result
      end
  end.

Definition parseShellWords (text : string) : list string :=
  let source := normalizeValue text in
  if negb (Js.truthy source) then [] else shell_words source EmptyString None [].

(** The values of a list that are not empty once normalized. *)
Definition normalized_values (items : list string) : list string :=
  List.filter Js.truthy (map normalizeValue items).

Definition collectArgs (urlObj : url) (b : body) : list string :=
  let args := normalized_values (getAll "arg" (searchParams urlObj)) in
  let argsCsv := normalizeParam (get_param "args" (searchParams urlObj)) in
  let args :=
    if Js.truthy argsCsv then
      if Js.includes_char "," argsCsv
      then args ++ normalized_values (Js.split_char "," argsCsv)
      else args ++ parseShellWords argsCsv
    else args in
  let args :=
    if Json.truthy (json b) then
      match Json.get (json b) "args" with
      | Json.Arr items => args ++ List.filter Js.truthy (map normalizeJson items)
      | _ => args
      end
    else args in
  if (length args =? 0)%nat && Js.truthy (text b) then args ++ parseShellWords (text b)
  else args.

Definition ensureMethod (req : request) (methods : list string) : option response :=
  if bool_decide (method req ∈ methods) then None
  else Some (respondText 405 ("method not allowed: " +:+ method req +:+ String "010" EmptyString
                               +:+ "allowed: " +:+ Js.join ", " methods)).

Definition requirePermission (cfg : config) (commandKey : string) : option response :=
  if isCommandAllowed cfg commandKey then None
  else Some (respondText 403 ("command is blocked by policy: " +:+ commandKey)).

Definition checkbox (cfg : config) (key : string) : string :=
  (if isCommandAllowed cfg key then "[x]" else "[ ]") +:+ " " +:+ key.

Definition flag (b : bool) : string := if b then "1" else "0".

Definition policy_text (p : policy) : string :=
  if allowAll p then "*" else Js.join "," (set p).

Definition buildHelpText (cfg : config) : string :=
  let safeRows := map (checkbox cfg) SAFE_COMMAND_KEYS in
  let dangerousRows := map (checkbox cfg) DANGEROUS_COMMAND_KEYS in
  let lines :=
    (["docker-manager command groups"; ""; "safe commands:"] ++ safeRows ++
    [""; "dangerous commands:"] ++ dangerousRows ++
    [ ""; "policy env:";
      "DOCKER_MANAGER_ENABLE_SAFE_COMMANDS=" +:+ flag (enableSafeCommands cfg);
      "DOCKER_MANAGER_ENABLE_DANGEROUS_COMMANDS=" +:+ flag (enableDangerousCommands cfg);
      "DOCKER_MANAGER_ALLOWED_SAFE_COMMANDS=" +:+ policy_text (safeCommandsPolicy cfg);
      "DOCKER_MANAGER_ALLOWED_DANGEROUS_COMMANDS=" +:+ policy_text (dangerousCommandsPolicy cfg);
      "DOCKER_MANAGER_BLOCKED_COMMANDS=" +:+ Js.join "," (blockedCommands cfg);
      "";
      "sample endpoints:";
      "GET  /dockerapi/healthz";
      "GET  /dockerapi/help";
      "GET  /dockerapi/tailscale/status";
      "GET  /dockerapi/tailscale/status?format=json";
      "POST /dockerapi/tailscale/ping?target=100.x.x.x";
      "GET  /dockerapi/nginx/test";
      "POST /dockerapi/nginx/reload";
      "GET  /dockerapi/nginx/version";
      "GET  /dockerapi/nginx/logs/access?tail=200";
      "GET  /dockerapi/system/ps";
      "POST /dockerapi/system/prune?scope=all";
      "GET  /dockerapi/{container}/status";
      "GET  /dockerapi/{container}/logs?tail=200";
      "POST /dockerapi/{container}/restart";
      "POST /dockerapi/{container}/exec?cmd=ls%20-la" ])%list in
  Js.join (String "010" EmptyString) lines.

Section WithHost.

(** What the host brings: [JSON.parse], the comparison of the sort, and
    [Date.prototype.toISOString] of an instant. *)
Variable JSON_parse : string → Json.value + string.
Variable localeCompare : string → string → Z.
Variable toISOString : Z → string.

(** [parseRequestBody]: the chunks of the body are counted in bytes;
    past the limit the promise is rejected and the socket of the
    request is destroyed, so that no response reaches the client. *)
Definition parseRequestBody (req : request) (limitBytes : Z) : M body :=
  fun w =>
    if limitBytes <? Z.of_nat (String.length (payload req)) then
      (Throw (Error ("request body too large (>" +:+ Js.string_of_Z limitBytes +:+ " bytes)")),
       set_destroyed (destroyed w ++ [requestCount w]) w)
    else
      let text := utf8_decode (platform w) (payload req) in
      let json :=
        if Js.truthy (normalizeValue text) then
          match JSON_parse text with
          | inl v => v
          | inr _ => Json.Null
          end
        else Json.Null in
      (Ok {| text := text; json := json |}, w).

Definition instant (t : option Z) : string :=
  match t with Some t => toISOString t | None => EmptyString end.

Definition healthReport (w : world) : string :=
  Js.join (String "010" EmptyString)
    [ "status=ok";
      "startedAt=" +:+ toISOString (startedAt w);
      "requestCount=" +:+ Js.string_of_Z (requestCount w);
      "tailscaleSyncEnabled=" +:+ flag (enabled (sync w));
      "tailscaleSyncInProgress=" +:+ flag (inProgress (sync w));
      "tailscaleSyncLastRunAt=" +:+ instant (lastRunAt (sync w));
      "tailscaleSyncLastSuccessAt=" +:+ instant (lastSuccessAt (sync w));
      "tailscaleSyncTotalRuns=" +:+ Js.string_of_Z (totalRuns (sync w));
      "tailscaleSyncTotalFailures=" +:+ Js.string_of_Z (totalFailures (sync w));
      "tailscaleSyncLastError=" +:+ lastError (sync w) ].

(** A route: the method check, the permission check, then the action. *)
Definition guarded (cfg : config) (req : request) (methods : list string) (commandKey : string)
    (action : M response) : M response :=
  match ensureMethod req methods with
  | Some denied => ret denied
  | None =>
      match requirePermission cfg commandKey with
      | Some denied => ret denied
      | None => action
      end
  end.

Definition route_help (cfg : config) (req : request) : M response :=
  guarded cfg req ["GET"] "help" (ret (respondText 200 (buildHelpText cfg))).

Definition route_healthz (cfg : config) (req : request) : M response :=
  guarded cfg req ["GET"] "healthz"
    (let* w := get in ret (respondText 200 (healthReport w))).

Definition route_tailscale_ping (cfg : config) (req : request) (urlObj : url) : M response :=
  guarded cfg req ["POST"] "tailscale.ping"
    (let* b := parseRequestBody req (requestBodyLimitBytes cfg) in
     let target :=
       Js.or_else (normalizeParam (get_param "target" (searchParams urlObj)))
         (Js.or_else (normalizeJson (Json.and_then (json b) (Json.get (json b) "target")))
            (normalizeValue (text b))) in
     let count :=
       Js.or_else (normalizeParam (get_param "count" (searchParams urlObj)))
         (normalizeJson (Json.and_then (json b) (Json.get (json b) "count"))) in
     let* result := DockerClient.tailscalePing cfg target count in
     ret (sendCommandResult result)).

Definition route_nginx_reload (cfg : config) (req : request) : M response :=
  guarded cfg req ["POST"] "nginx.reload"
    (let* result := DockerClient.nginxReload cfg in
     ret (sendCommandResult result)).

(** [requestHandler]; [otherRoutes] stands for the routes that follow
    the fixed paths below in the chain of tests: the remaining fixed
    paths and the patterns of the log, system and container routes. *)
Definition requestHandler (cfg : config) (otherRoutes : request → url → M response)
    (req : request) : M response :=
  let* _ := modify (fun w => set_requestCount (requestCount w + 1) w) in
  let* w := get in
  let requestId := Js.string_of_Z (now w) +:+ "-" +:+ Js.string_of_Z (requestCount w) in
  let scope := "http:" +:+ requestId in
  match target req with
  | None => ret (respondText 400 "invalid request url")
  | Some urlObj =>
      let pathname := pathname urlObj in
      let* _ := Logger.write "request" scope "incoming request"
                  (Json.Obj [ ("method", Json.Str (method req)); ("path", Json.Str pathname);
                              ("query", Json.Str (search urlObj));
                              ("remoteAddress", Json.Str (remoteAddress req)) ]) in
      if negb (Js.startsWith pathname "/dockerapi") then ret (respondText 404 "not found")
      else
        try_catch
          (if String.eqb pathname "/dockerapi" || String.eqb pathname "/dockerapi/"
           then route_help cfg req
           else if String.eqb pathname "/dockerapi/help" then route_help cfg req
           else if String.eqb pathname "/dockerapi/healthz" then route_healthz cfg req
           else if String.eqb pathname "/dockerapi/tailscale/ping"
           then route_tailscale_ping cfg req urlObj
           else if String.eqb pathname "/dockerapi/nginx/reload" then route_nginx_reload cfg req
           else otherRoutes req urlObj)
          (handleCommandError scope)
  end.

(** *** The scheduled cycle *)

(** [runScheduledSync] up to its [await]: whether a cycle starts. *)
Definition sync_begin (cfg : config) (source : string) : M bool :=
  if negb (tailscaleSyncEnabled cfg) then ret false
  else
    let* w := get in
    if inProgress (sync w) then
      let* _ := Logger.warn "tailscale-sync"
                  "skip sync cycle because previous cycle is still running"
                  (Json.Obj [("source", Json.Str source)]) in
      ret false
    else
      let* _ := modify (fun w =>
        set_sync {| enabled := enabled (sync w);
                    inProgress := true;
                    lastRunAt := Some (now w);
                    lastSuccessAt := lastSuccessAt (sync w);
                    lastError := lastError (sync w);
                    lastResult := lastResult (sync w);
                    totalRuns := totalRuns (sync w) + 1;
                    totalFailures := totalFailures (sync w) |} w) in
      ret true.

Definition set_inProgress (b : bool) (s : sync_state) : sync_state :=
  {| enabled := enabled s; inProgress := b; lastRunAt := lastRunAt s;
     lastSuccessAt := lastSuccessAt s; lastError := lastError s;
     lastResult := lastResult s; totalRuns := totalRuns s;
     totalFailures := totalFailures s |}.

(** [runScheduledSync] from its [await] on, with what the cycle gave. *)
Definition sync_settle (source : string) (r : outcome sync_result) : M unit :=
  finally
    (match r with
     | Ok result =>
         modify (fun w =>
           set_sync {| enabled := enabled (sync w);
                       inProgress := inProgress (sync w);
                       lastRunAt := lastRunAt (sync w);
                       lastSuccessAt := Some (now w);
                       lastError := EmptyString;
                       lastResult := Some result;
                       totalRuns := totalRuns (sync w);
                       totalFailures := totalFailures (sync w) |} w)
     | Throw error =>
         let* _ := modify (fun w =>
           set_sync {| enabled := enabled (sync w);
                       inProgress := inProgress (sync w);
                       lastRunAt := lastRunAt (sync w);
                       lastSuccessAt := lastSuccessAt (sync w);
                       lastError := Js.or_else (message error) "Error";
                       lastResult := lastResult (sync w);
                       totalRuns := totalRuns (sync w);
                       totalFailures := totalFailures (sync w) + 1 |} w) in
         Logger.error "tailscale-sync" error "periodic sync failed"
           (Json.Obj [("source", Json.Str source)])
     end)
    (fun w => set_sync (set_inProgress false (sync w)) w).

(** [runScheduledSync] when nothing else runs while it awaits. *)
Definition runScheduledSync (cfg : config) (source : string) : M unit :=
  let* started := sync_begin cfg source in
  if started then
    fun w =>
      let '(r, w') := ShadowSync.runTailscaleShadowSync JSON_parse localeCompare cfg w in
      sync_settle source r w'
  else ret tt.

(** *** The event loop around the scheduled cycle *)

(** What the event loop runs next: a timer that calls
    [runScheduledSync], the cycle that awaits settling with its result
    or its error, or any other task.  Another task does not write
    [runtimeState.sync], and the log is an output to it: it starts from
    an empty log, and what it logs is appended. *)
Inductive event :=
| Trigger (source : string)
| Settle (source : string) (r : outcome sync_result)
| Other (task : world → world).

(** The state with the number of cycles that await their result. *)
Definition loop_state : Type := world * nat.

Definition loop_step (cfg : config) (st : loop_state) (ev : event) : loop_state :=
  let '(w, awaiting) := st in
  match ev with
  | Trigger source =>
      match sync_begin cfg source w with
      | (Ok true, w') => (w', S awaiting)
      | (_, w') => (w', awaiting)
      end
  | Settle source r =>
      match awaiting with
      | O => st
      | S n => (snd (sync_settle source r w), n)
      end
  | Other task =>
      let w' := task (set_logged [] w) in
      (set_logged (logged w ++ logged w') (set_sync (sync w) w'), awaiting)
  end.

Definition loop_run (cfg : config) (st : loop_state) (events : list event) : loop_state :=
  foldl (loop_step cfg) st events.

End WithHost.

(** *** The other routes *)

Definition collectCommandText (urlObj : url) (b : body) : string :=
  let cmd := get_param "cmd" (searchParams urlObj) in
  let fromQuery :=
    normalizeParam (if Js.truthy (default EmptyString cmd) then cmd
                    else get_param "command" (searchParams urlObj)) in
  if Js.truthy fromQuery then fromQuery
  else if Json.truthy (json b) then
    match Json.get (json b) "cmd" with
    | Json.Str cmd => normalizeValue cmd
    | _ =>
        match Json.get (json b) "command" with
        | Json.Str command => normalizeValue command
        | _ => normalizeValue (text b)
        end
    end
  else normalizeValue (text b).

(** The names that an object literal answers without having them as a
    key, among the names in lower case: [constructor] and [__proto__],
    which it inherits from [Object.prototype].  What it answers is
    truthy and has none of the properties [key], [fn] and [methods]. *)
Definition inherited (name : string) : bool :=
  String.eqb name "constructor" || String.eqb name "__proto__".

(** The class [[A-Za-z0-9_-]]; the class [[A-Za-z0-9_.-]] is [name_tail]. *)
Definition word_char (c : ascii) : bool :=
  Js.is_alpha c || Js.is_digit c || Ascii.eqb c "_" || Ascii.eqb c "-".

(** [pathname.match(/^prefix(class+)$/)]: the group, when the pattern
    matches. *)
Definition match_word (prefix : string) (class : ascii → bool) (pathname : string)
    : option string :=
  match Js.strip_prefix prefix pathname with
  | Some group => if Js.truthy group && all_chars class group then Some group else None
  | None => None
  end.

(** [pathname.match(/^\/dockerapi\/([A-Za-z0-9_.-]+)\/([A-Za-z0-9_.-]+)$/)]:
    the two groups; neither class has the slash. *)
Definition match_container (pathname : string) : option (string * string) :=
  match Js.strip_prefix "/dockerapi/" pathname with
  | Some rest =>
      match Js.split_char "/" rest with
      | [containerName; actionName] =>
          if Js.truthy containerName && all_chars name_tail containerName
             && Js.truthy actionName && all_chars name_tail actionName
          then Some (containerName, actionName) else None
      | _ => None
      end
  | None => None
  end.

(** The table [safeMap]: the key of the policy and the name that
    [systemCommand] is called with. *)
Definition safeMap (commandName : string) : option (string * string) :=
  if String.eqb commandName "ps" then Some ("system.ps", "ps")
  else if String.eqb commandName "containers" then Some ("system.ps", "ps")
  else if String.eqb commandName "images" then Some ("system.images", "images")
  else if String.eqb commandName "networks" then Some ("system.networks", "networks")
  else if String.eqb commandName "volumes" then Some ("system.volumes", "volumes")
  else if String.eqb commandName "info" then Some ("system.info", "info")
  else if String.eqb commandName "version" then Some ("system.version", "version")
  else None.

(** The tables [safeMutateActions] and [dangerousActions]: the key of
    the policy; the command is the name of the action. *)
Definition safeMutateActions (actionName : string) : option string :=
  if bool_decide (actionName ∈ ["start"; "stop"; "restart"; "pause"; "unpause"])
  then Some ("container." +:+ actionName) else None.

Definition dangerousActions (actionName : string) : option string :=
  if bool_decide (actionName ∈ ["kill"; "rm"]) then Some ("container." +:+ actionName) else None.

Section Routes.

(** What the host brings: [JSON.parse], [JSON.stringify] with an indent
    of two, and [Date.prototype.toISOString]. *)
Variable JSON_parse : string → Json.value + string.
Variable JSON_stringify : Json.value → string.
Variable toISOString : Z → string.

Definition respondJson (statusCode : Z) (payload : Json.value) : response :=
  {| statusCode := statusCode;
     contentType := "application/json; charset=utf-8";
     content := JSON_stringify payload +:+ String "010" EmptyString |}.

Definition handleSystemRoute (cfg : config) (req : request) (urlObj : url)
    (commandName : string) : M response :=
  match safeMap commandName with
  | Some (key, name) =>
      guarded cfg req ["GET"] key
        (let* result := DockerClient.systemCommand cfg name in
         ret (sendCommandResult result))
  | None =>
      if inherited commandName then
        (* the entry is truthy and its key is undefined, which no policy allows *)
        match ensureMethod req ["GET"] with
        | Some denied => ret denied
        | None => ret (respondText 403 "command is blocked by policy: undefined")
        end
      else if String.eqb commandName "prune" then
        guarded cfg req ["POST"] "system.prune"
          (let* result := DockerClient.systemPrune cfg (get_param "scope" (searchParams urlObj)) in
           ret (sendCommandResult result))
      else if String.eqb commandName "raw" then
        guarded cfg req ["POST"] "system.raw"
          (let* b := parseRequestBody JSON_parse req (requestBodyLimitBytes cfg) in
           let args := collectArgs urlObj b in
           let* result := DockerClient.systemRaw cfg args in
           ret (sendCommandResult result))
      else ret (respondText 404 ("unsupported system command: " +:+ commandName))
  end.

(** The actions of the table [safeReadonlyActions]. *)
Definition safeReadonlyActions (cfg : config) (urlObj : url) (containerName actionName : string)
    : option (string * M CommandResult) :=
  if String.eqb actionName "status"
  then Some ("container.status", DockerClient.containerStatus cfg containerName)
  else if String.eqb actionName "logs"
  then Some ("container.logs",
             DockerClient.containerLogs cfg containerName
               (get_param "tail" (searchParams urlObj))
               (get_param "since" (searchParams urlObj))
               (get_param "timestamps" (searchParams urlObj)))
  else if String.eqb actionName "inspect"
  then Some ("container.inspect", DockerClient.containerInspect cfg containerName)
  else if String.eqb actionName "top"
  then Some ("container.top", DockerClient.containerTop cfg containerName)
  else if String.eqb actionName "stats"
  then Some ("container.stats", DockerClient.containerStats cfg containerName)
  else None.

Definition handleContainerRoute (cfg : config) (req : request) (urlObj : url)
    (containerName actionName : string) : M response :=
  match safeReadonlyActions cfg urlObj containerName actionName with
  | Some (key, fn) =>
      guarded cfg req ["GET"] key (let* result := fn in ret (sendCommandResult result))
  | None =>
      if inherited actionName then
        (* the entry is truthy and its methods are undefined, which no method is *)
        ret (respondText 405 ("method not allowed: " +:+ method req +:+ String "010" EmptyString
                                +:+ "allowed: "))
      else
        match safeMutateActions actionName with
        | Some key =>
            guarded cfg req ["POST"] key
              (let* result := DockerClient.containerMutate cfg containerName actionName in
               ret (sendCommandResult result))
        | None =>
            match dangerousActions actionName with
            | Some key =>
                guarded cfg req ["POST"] key
                  (let* result := DockerClient.containerMutate cfg containerName actionName in
                   ret (sendCommandResult result))
            | None =>
                if String.eqb actionName "exec" then
                  guarded cfg req ["POST"] "container.exec"
                    (let* b := parseRequestBody JSON_parse req (requestBodyLimitBytes cfg) in
                     let commandText := collectCommandText urlObj b in
                     let shell :=
                       Js.or_else (normalizeParam (get_param "shell" (searchParams urlObj)))
                         (execShell cfg) in
                     let* result := DockerClient.containerExec cfg containerName shell commandText in
                     ret (sendCommandResult result))
                else if String.eqb actionName "rename" then
                  guarded cfg req ["POST"] "container.rename"
                    (let* b := parseRequestBody JSON_parse req (requestBodyLimitBytes cfg) in
                     let toName :=
                       Js.or_else (normalizeParam (get_param "to" (searchParams urlObj)))
                         (normalizeJson (Json.and_then (json b) (Json.get (json b) "to"))) in
                     let* result := DockerClient.containerRename cfg containerName toName in
                     ret (sendCommandResult result))
                else if String.eqb actionName "update" then
                  guarded cfg req ["POST"] "container.update"
                    (let* b := parseRequestBody JSON_parse req (requestBodyLimitBytes cfg) in
                     let args := collectArgs urlObj b in
                     let* result := DockerClient.containerUpdate cfg containerName args in
                     ret (sendCommandResult result))
                else if String.eqb actionName "raw" then
                  guarded cfg req ["POST"] "container.raw"
                    (let* b := parseRequestBody JSON_parse req (requestBodyLimitBytes cfg) in
                     let args := collectArgs urlObj b in
                     let* result := DockerClient.containerRaw cfg containerName args in
                     ret (sendCommandResult result))
                else ret (respondText 404 ("unsupported container action: " +:+ actionName))
            end
        end
  end.

Definition route_tailscale_status (cfg : config) (req : request) (urlObj : url) : M response :=
  guarded cfg req ["GET"] "tailscale.status"
    (let format :=
       Js.toLowerCase (normalizeParam (get_param "format" (searchParams urlObj))) in
     let asJson := String.eqb format "json" in
     let* result := DockerClient.tailscaleStatus cfg asJson in
     if asJson then
       let jsonText := Js.or_else (normalizeValue (stdout result)) "{}" in
       match JSON_parse jsonText with
       | inl parsed => ret (respondJson 200 parsed)
       | inr _ => ret (respondText 500 (formatCommandResult result))
       end
     else ret (sendCommandResult result)).

Definition route_tailscale_ip (cfg : config) (req : request) : M response :=
  guarded cfg req ["GET"] "tailscale.ip"
    (let* result := DockerClient.tailscaleIp cfg in ret (sendCommandResult result)).

Definition route_nginx_test (cfg : config) (req : request) : M response :=
  guarded cfg req ["GET"] "nginx.test"
    (let* result := DockerClient.nginxTest cfg in ret (sendCommandResult result)).

Definition route_nginx_version (cfg : config) (req : request) : M response :=
  guarded cfg req ["GET"] "nginx.version"
    (let* result := DockerClient.nginxVersion cfg in ret (sendCommandResult result)).

(** The route of the proxy logs, for the group that its pattern
    matched.  The number of lines is parsed here and again by the
    client, which gets it as a number. *)
Definition route_nginx_logs (cfg : config) (req : request) (urlObj : url) (group : string)
    : M response :=
  match ensureMethod req ["GET"] with
  | Some denied => ret denied
  | None =>
      let logType := Js.toLowerCase (normalizeValue group) in
      if negb (bool_decide (logType ∈ ["access"; "error"; "shadow"])) then
        ret (respondText 404 ("unsupported nginx log type: " +:+ logType))
      else
        match requirePermission cfg ("nginx.logs." +:+ logType) with
        | Some denied => ret denied
        | None =>
            let tail :=
              DockerClient.parsePositiveInt
                (default EmptyString (get_param "tail" (searchParams urlObj)))
                (defaultLogTail cfg) 1 (maxLogLines cfg) in
            let* result := DockerClient.nginxLogs cfg logType (Js.string_of_Z tail) in
            ret (sendCommandResult result)
        end
  end.

(** The routes that [requestHandler] tests besides those it is defined
    with above.  The fixed paths are tested by equality, so that the
    order among them does not matter; the three patterns come last, in
    this order. *)
Definition otherRoutes (cfg : config) (req : request) (urlObj : url) : M response :=
  let pathname := pathname urlObj in
  if String.eqb pathname "/dockerapi/tailscale/status" then route_tailscale_status cfg req urlObj
  else if String.eqb pathname "/dockerapi/tailscale/ip" then route_tailscale_ip cfg req
  else if String.eqb pathname "/dockerapi/nginx/test" then route_nginx_test cfg req
  else if String.eqb pathname "/dockerapi/nginx/version" then route_nginx_version cfg req
  else
    match match_word "/dockerapi/nginx/logs/" word_char pathname with
    | Some group => route_nginx_logs cfg req urlObj group
    | None =>
        match match_word "/dockerapi/system/" word_char pathname with
        | Some group =>
            handleSystemRoute cfg req urlObj (Js.toLowerCase (normalizeValue group))
        | None =>
            match match_container pathname with
            | Some (containerName, actionName) =>
                handleContainerRoute cfg req urlObj (normalizeValue containerName)
                  (Js.toLowerCase (normalizeValue actionName))
            | None => ret (respondText 404 "dockerapi route not found")
            end
        end
    end.

(** [requestHandler] with all its routes. *)
Definition serve (cfg : config) (req : request) : M response :=
  requestHandler JSON_parse toISOString cfg (otherRoutes cfg) req.

End Routes.

End Server.

(** * Properties *)

(** ** Running a computation step by step *)

Lemma bind_inv {A B} (m : State.M A) (k : A → State.M B) w r w' :
  State.bind m k w = (r, w') →
  (∃ a w1, m w = (State.Ok a, w1) ∧ k a w1 = (r, w')) ∨
  (∃ e, m w = (State.Throw e, w') ∧ r = State.Throw e).
Proof.
  unfold State.bind. destruct (m w) as [[a|e] w1]; intros H.
  - left. eauto.
  - right. inversion H; subst. eauto.
Qed.

Lemma bind_assoc {A B C} (m : State.M A) (k1 : A → State.M B) (k2 : B → State.M C) w :
  State.bind (State.bind m k1) k2 w = State.bind m (fun x => State.bind (k1 x) k2) w.
Proof. unfold State.bind. by destruct (m w) as [[a|e] w1]. Qed.

Lemma bind_ok {A B} (m : State.M A) (k : A → State.M B) w a w1 :
  m w = (State.Ok a, w1) → State.bind m k w = k a w1.
Proof. unfold State.bind. by intros ->. Qed.

Lemma bind_throw {A B} (m : State.M A) (k : A → State.M B) w e w1 :
  m w = (State.Throw e, w1) → State.bind m k w = (State.Throw e, w1).
Proof. unfold State.bind. by intros ->. Qed.

(** The two ways a sequence ends; the second goes away when the
    sequence is known to have returned. *)
Tactic Notation "inv_bind" hyp(H) "as" ident(a) ident(w1) ident(Hm) :=
  let e := fresh "e" in
  let Heq := fresh "Heq" in
  apply bind_inv in H as [(a & w1 & Hm & H)|(e & Hm & Heq)];
  [|first [discriminate Heq | revert Heq; intros ->]].


(** ** Trimming *)

Section Trimming.

Lemma trimEnd_idempotent s : Js.trimEnd (Js.trimEnd s) = Js.trimEnd s.
Proof.
  induction s as [|c r IH]; [reflexivity|]. simpl.
  destruct (Js.is_ws c && Js.is_empty (Js.trimEnd r)) eqn:E; [reflexivity|].
  simpl. rewrite IH, E. reflexivity.
Qed.

(** No white space in front: the string is empty or starts otherwise. *)
Definition trimmed_front (s : string) : Prop :=
  match s with
  | EmptyString => True
  | String c _ => Js.is_ws c = false
  end.

Lemma trimStart_front s : trimmed_front (Js.trimStart s).
Proof.
  induction s as [|c r IH]; simpl; [exact I|].
  destruct (Js.is_ws c) eqn:E; [exact IH|exact E].
Qed.

Lemma trimStart_id s : trimmed_front s → Js.trimStart s = s.
Proof. destruct s as [|c r]; simpl; [done|]. by intros ->. Qed.

Lemma trimEnd_front s : trimmed_front s → trimmed_front (Js.trimEnd s).
Proof.
  destruct s as [|c r]; simpl; [done|]. intros Hc. rewrite Hc. simpl. exact Hc.
Qed.

Lemma trim_idempotent s : Js.trim (Js.trim s) = Js.trim s.
Proof.
  unfold Js.trim.
  rewrite (trimStart_id (Js.trimEnd (Js.trimStart s))).
  - apply trimEnd_idempotent.
  - apply trimEnd_front, trimStart_front.
Qed.

Lemma normalizeValue_idempotent s :
  Config.normalizeValue (Config.normalizeValue s) = Config.normalizeValue s.
Proof. apply trim_idempotent. Qed.

End Trimming.

(** ** The policy check *)

Section PolicyCheck.
Import Config Policy.

Lemma ALL_COMMAND_KEYS_NoDup : NoDup ALL_COMMAND_KEYS.
Proof. compute_done. Qed.

(** Setting the items of a list from left to right, with pairwise
    distinct keys, binds each key of the list to its item and leaves
    the other keys as they were. *)
Lemma foldl_insert_lookup (items : list command_spec) (m : gmap string command_spec) k spec :
  NoDup (key <$> items) →
  foldl (fun m item => <[key item := item]> m) m items !! k = Some spec ↔
    (spec ∈ items ∧ key spec = k) ∨ ((k ∉ key <$> items) ∧ m !! k = Some spec).
Proof.
  revert m. induction items as [|i items IH]; intros m Hnd.
  - cbn. split; [intros; right; split; [apply not_elem_of_nil|done] | intros [[H _]|[_ H]]; [inversion H|done]].
  - rewrite fmap_cons in Hnd. apply NoDup_cons in Hnd as [Hni Hnd].
    cbn [foldl]. rewrite IH by done. rewrite fmap_cons.
    assert (Hin : ∀ s, s ∈ items → key s ∈ key <$> items).
    { intros s Hs. apply list_elem_of_fmap. by exists s. }
    destruct (decide (key i = k)) as [Hk|Hne].
    + subst k. rewrite lookup_insert_eq. split.
      * intros [[Hs Hk]|[_ Heq]].
        -- exfalso. apply Hni. rewrite <- Hk. by apply Hin.
        -- inversion Heq; subst. left. split; [left|done].
      * intros [[Hs Hk]|[Hk _]].
        -- apply elem_of_cons in Hs as [->|Hs]; [by right|].
           exfalso. apply Hni. rewrite <- Hk. by apply Hin.
        -- exfalso. apply Hk. by left.
    + rewrite lookup_insert_ne by done. split.
      * intros [[Hs Hk]|[Hk Hm]]; [left; split; [by right|done]|].
        right. split; [|done]. intros [?|?]%elem_of_cons; done.
      * intros [[Hs Hk]|[Hk Hm]].
        -- apply elem_of_cons in Hs as [->|Hs]; [done|]. by left.
        -- right. split; [|done]. intros ?. apply Hk. by right.
Qed.

Lemma COMMAND_MAP_lookup k spec :
  COMMAND_MAP !! k = Some spec ↔
    (k ∈ SAFE_COMMAND_KEYS ∧ spec = {| key := k; category_of := safe |}) ∨
    (k ∈ DANGEROUS_COMMAND_KEYS ∧ spec = {| key := k; category_of := dangerous |}).
Proof.
  unfold COMMAND_MAP. rewrite foldl_insert_lookup.
  - rewrite lookup_empty. unfold COMMAND_SPECS.
    rewrite elem_of_app, !list_elem_of_fmap. split.
    + intros [[[(x & -> & Hx)|(x & -> & Hx)] <-]|[_ ?]]; [left|right|done]; done.
    + intros [[Hk ->]|[Hk ->]]; left; (split; [|done]); [left|right]; by exists k.
  - apply ALL_COMMAND_KEYS_NoDup.
Qed.

Lemma COMMAND_MAP_None k : COMMAND_MAP !! k = None ↔ k ∉ ALL_COMMAND_KEYS.
Proof.
  unfold ALL_COMMAND_KEYS. rewrite elem_of_app. split.
  - intros Hn [H|H].
    + assert (COMMAND_MAP !! k = Some {| key := k; category_of := safe |}) by (apply COMMAND_MAP_lookup; auto).
      congruence.
    + assert (COMMAND_MAP !! k = Some {| key := k; category_of := dangerous |}) by (apply COMMAND_MAP_lookup; auto).
      congruence.
  - intros Hn. destruct (COMMAND_MAP !! k) as [spec|] eqn:E; [|done].
    apply COMMAND_MAP_lookup in E as [[? _]|[? _]]; exfalso; auto.
Qed.

Lemma SAFE_DANGEROUS_disjoint k : k ∈ SAFE_COMMAND_KEYS → k ∈ DANGEROUS_COMMAND_KEYS → False.
Proof.
  intros Hs Hd. pose proof ALL_COMMAND_KEYS_NoDup as Hnd.
  unfold ALL_COMMAND_KEYS in Hnd. apply NoDup_app in Hnd as (_ & Hdis & _).
  by apply (Hdis k).
Qed.

(** The policy decision of the data model, in the words of the catalog:
    the enable flag and the allow-set of the category of a name. *)
Definition category_enabled (cfg : config) (c : category) : bool :=
  match c with safe => enableSafeCommands cfg | dangerous => enableDangerousCommands cfg end.

Definition policy_of (cfg : config) (c : category) : policy :=
  match c with safe => safeCommandsPolicy cfg | dangerous => dangerousCommandsPolicy cfg end.

Definition keys_of (c : category) : list string :=
  match c with safe => SAFE_COMMAND_KEYS | dangerous => DANGEROUS_COMMAND_KEYS end.

Definition permitted (cfg : config) (name : string) : Prop :=
  ∃ c, name ∈ keys_of c ∧ category_enabled cfg c = true ∧
       (allowAll (policy_of cfg c) = true ∨ name ∈ set (policy_of cfg c)) ∧
       name ∉ blockedCommands cfg.

Lemma isCommandAllowed_permitted (cfg : config) (name : string) :
  isCommandAllowed cfg name = true ↔ permitted cfg name.
Proof.
  unfold isCommandAllowed, permitted.
  destruct (COMMAND_MAP !! name) as [spec|] eqn:E.
  - apply COMMAND_MAP_lookup in E.
    assert (Hc : name ∈ keys_of (category_of spec)) by (destruct E as [[? ->]|[? ->]]; done).
    assert (Huniq : ∀ c, name ∈ keys_of c → c = category_of spec).
    { intros c Hin. destruct c, (category_of spec); try done; simpl in *;
        exfalso; eauto using SAFE_DANGEROUS_disjoint. }
    clear E. case_bool_decide as Hb.
    + split; [done|]. intros (c & _ & _ & _ & Hnb). done.
    + split.
      * intros Hallow. exists (category_of spec).
        destruct (category_of spec); simpl in *;
          [destruct (enableSafeCommands cfg)|destruct (enableDangerousCommands cfg)];
          simpl in *; try done;
          apply orb_true_iff in Hallow as [?|?%bool_decide_eq_true]; auto.
      * intros (c & Hin & Hen & Hal & _). rewrite (Huniq c Hin) in Hen, Hal.
        destruct (category_of spec); simpl in *; rewrite Hen; simpl;
          apply orb_true_iff; destruct Hal as [?|?]; auto;
          right; by apply bool_decide_eq_true.
  - apply COMMAND_MAP_None in E. split; [done|].
    intros (c & Hin & _). exfalso. apply E. unfold ALL_COMMAND_KEYS.
    apply elem_of_app. destruct c; auto.
Qed.

(** C1. [isCommandAllowed] returns true exactly for the names of the
    static catalog whose category is enabled, whose category allow-set
    is "all" or contains the name, and that the global deny-set does
    not contain.  Hence a name outside the catalog is denied, and so is
    a catalog name of the deny-set, whatever the allow-set. *)
Theorem isCommandAllowed_spec (cfg : config) (name : string) :
  (isCommandAllowed cfg name = true ↔
     ∃ c, name ∈ keys_of c ∧ category_enabled cfg c = true ∧
          (allowAll (policy_of cfg c) = true ∨ name ∈ set (policy_of cfg c)) ∧
          name ∉ blockedCommands cfg) ∧
  (name ∉ ALL_COMMAND_KEYS → isCommandAllowed cfg name = false) ∧
  (name ∈ ALL_COMMAND_KEYS → name ∈ blockedCommands cfg →
   isCommandAllowed cfg name = false).
Proof.
  split; [apply isCommandAllowed_permitted|]. split.
  - intros Hn. apply not_true_is_false. rewrite isCommandAllowed_permitted.
    intros (c & Hin & _). apply Hn. unfold ALL_COMMAND_KEYS.
    apply elem_of_app. destruct c; auto.
  - intros _ Hb. apply not_true_is_false. rewrite isCommandAllowed_permitted.
    intros (c & _ & _ & _ & Hnb). done.
Qed.

(** The policy that allows everything but the exec of a container. *)
Definition config_no_exec : config :=
  {| host := host default_config; port := port default_config;
     dockerBin := dockerBin default_config;
     requestBodyLimitBytes := requestBodyLimitBytes default_config;
     commandTimeoutMs := commandTimeoutMs default_config;
     maxLogLines := maxLogLines default_config;
     defaultLogTail := defaultLogTail default_config;
     tailscaleSyncEnabled := tailscaleSyncEnabled default_config;
     tailscaleSyncIntervalSec := tailscaleSyncIntervalSec default_config;
     tailscaleContainer := tailscaleContainer default_config;
     nginxContainer := nginxContainer default_config;
     shadowDir := shadowDir default_config;
     shadowPort := shadowPort default_config;
     enableSafeCommands := true; enableDangerousCommands := true;
     safeCommandsPolicy := safeCommandsPolicy default_config;
     dangerousCommandsPolicy := dangerousCommandsPolicy default_config;
     blockedCommands := ["container.exec"];
     execShell := "sh" |}.

Lemma isCommandAllowed_spec_witness :
  (isCommandAllowed config_no_exec "container.shell" = false) ∧
  (isCommandAllowed config_no_exec "container.exec" = false) ∧
  (isCommandAllowed config_no_exec "container.rm" = true).
Proof.
  split; [|split].
  - apply (proj1 (proj2 (isCommandAllowed_spec config_no_exec "container.shell"))).
    apply (bool_decide_unpack _). vm_compute. exact I.
  - apply (proj2 (proj2 (isCommandAllowed_spec config_no_exec "container.exec"))).
    + apply (bool_decide_unpack _). vm_compute. exact I.
    + apply (bool_decide_unpack _). vm_compute. exact I.
  - apply (proj1 (isCommandAllowed_spec config_no_exec "container.rm")).
    exists dangerous. split; [|split; [reflexivity|split; [left; reflexivity|]]].
    + apply (bool_decide_unpack _). vm_compute. exact I.
    + apply (bool_decide_unpack _). vm_compute. exact I.
Defined.

End PolicyCheck.

(** ** Argument collection *)

Section ArgumentCollection.
Import Config State Server.

(** The four sources of arguments, as the request gives them. *)
Definition from_arg (urlObj : url) : list string :=
  normalized_values (getAll "arg" (searchParams urlObj)).

Definition from_args (urlObj : url) : list string :=
  let argsCsv := normalizeParam (get_param "args" (searchParams urlObj)) in
  if Js.includes_char "," argsCsv then normalized_values (Js.split_char "," argsCsv)
  else parseShellWords argsCsv.

Definition from_json (b : body) : list string :=
  match Json.get (json b) "args" with
  | Json.Arr items => List.filter Js.truthy (map normalizeJson items)
  | _ => []
  end.

Definition from_text (b : body) : list string := parseShellWords (text b).

(** The request [?arg=foo] with the body [{"args":["bar"]}]. *)
Definition url_arg_foo : url :=
  {| pathname := "/dockerapi/system/raw"; search := "?arg=foo";
     searchParams := [("arg", "foo")] |}.

Definition quoted (s : string) : string :=
  String "034" EmptyString +:+ s +:+ String "034" EmptyString.

Definition body_args_bar : body :=
  {| text := "{" +:+ quoted "args" +:+ ":[" +:+ quoted "bar" +:+ "]}";
     json := Json.Obj [("args", Json.Arr [Json.Str "bar"])] |}.

Lemma parseShellWords_empty : parseShellWords EmptyString = [].
Proof. reflexivity. Qed.

Lemma normalized_values_nil : normalized_values [] = [].
Proof. reflexivity. Qed.

Lemma from_args_absent urlObj :
  Js.truthy (normalizeParam (get_param "args" (searchParams urlObj))) = false →
  from_args urlObj = [].
Proof.
  unfold from_args. intros H.
  destruct (normalizeParam _) as [|c r]; [reflexivity|discriminate].
Qed.

Lemma from_json_falsy b : Json.truthy (json b) = false → from_json b = [].
Proof.
  unfold from_json. destruct (json b) as [| |[]|r|s|items|fields]; simpl; try done.
Qed.

Lemma from_text_empty b : Js.truthy (text b) = false → from_text b = [].
Proof.
  unfold from_text. destruct (text b); [reflexivity|discriminate].
Qed.

(** C2, as the code has it.  The arguments are the values of the
    repeated [arg] parameters, then the tokens of the [args] parameter,
    then the items of the [args] array of the JSON body, one after the
    other; the words of the raw body text are taken only when these
    three give nothing.  The request [?arg=foo] with the body
    [{"args":["bar"]}] gives [foo] and then [bar]. *)
Theorem collectArgs_concatenates (urlObj : url) (b : body) :
  collectArgs urlObj b =
    (match from_arg urlObj ++ from_args urlObj ++ from_json b with
     | [] => from_text b
     | args => args
     end) ∧
  collectArgs url_arg_foo body_args_bar = ["foo"; "bar"].
Proof.
  split; [|reflexivity].
  unfold collectArgs. fold (from_arg urlObj).
  set (csv := normalizeParam (get_param "args" (searchParams urlObj))).
  assert (Hq : (if Js.truthy csv
                then if Js.includes_char "," csv
                     then from_arg urlObj ++ normalized_values (Js.split_char "," csv)
                     else from_arg urlObj ++ parseShellWords csv
                else from_arg urlObj) = from_arg urlObj ++ from_args urlObj).
  { destruct (Js.truthy csv) eqn:E.
    - unfold from_args. fold csv. by destruct (Js.includes_char "," csv).
    - rewrite from_args_absent by done. by rewrite app_nil_r. }
  rewrite Hq. clear Hq.
  assert (Hj : (if Json.truthy (json b)
                then match Json.get (json b) "args" with
                     | Json.Arr items =>
                         (from_arg urlObj ++ from_args urlObj)
                           ++ List.filter Js.truthy (map normalizeJson items)
                     | _ => from_arg urlObj ++ from_args urlObj
                     end
                else from_arg urlObj ++ from_args urlObj)
               = from_arg urlObj ++ from_args urlObj ++ from_json b).
  { destruct (Json.truthy (json b)) eqn:E.
    - unfold from_json. destruct (Json.get (json b) "args");
        rewrite ?app_nil_r, <- ?app_assoc; reflexivity.
    - rewrite from_json_falsy by done. by rewrite app_nil_r. }
  rewrite Hj. clear Hj.
  destruct (from_arg urlObj ++ from_args urlObj ++ from_json b) as [|a l] eqn:E; simpl.
  - destruct (Js.truthy (text b)) eqn:Et; [reflexivity|].
    by rewrite from_text_empty.
  - reflexivity.
Qed.

(** C2, as the specification words it, fails: with a non-empty [arg]
    parameter and a non-empty [args] array in the JSON body, the
    arguments are not those of the query parameter alone. *)
Lemma collectArgs_merges_sources :
  from_arg url_arg_foo = ["foo"] ∧
  from_json body_args_bar = ["bar"] ∧
  collectArgs url_arg_foo body_args_bar ≠ ["foo"].
Proof. repeat split. discriminate. Qed.

End ArgumentCollection.

(** ** Worlds to run the code in *)

Section Worlds.
Import Config State.

(** Every process exits with code 0 after a millisecond, silently. *)
Definition quiet : nat → string → list string → behaviour :=
  fun _ _ _ => {| duration := 1; out := EmptyString; err := EmptyString;
                  ending := Close (Some 0) None |}.

Definition idle_sync : sync_state :=
  {| enabled := true; inProgress := false; lastRunAt := None; lastSuccessAt := None;
     lastError := EmptyString; lastResult := None; totalRuns := 0; totalFailures := 0 |}.

(** A host for texts of ASCII characters, which are their own bytes; an
    entry that is neither a file nor a directory is a symbolic link
    that leads back to itself. *)
Definition ascii_host : host_env :=
  {| utf8_decode := fun bytes => bytes;
     utf8_encode := fun text => text;
     open_write := fun name _ _ =>
       inr (Error ("ELOOP: too many symbolic links encountered, open '" +:+ name +:+ "'"));
     open_read := fun name _ =>
       inr (Error ("ELOOP: too many symbolic links encountered, open '" +:+ name +:+ "'")) |}.

(** The process just started, at instant 1000, next to an empty shadow
    directory. *)
Definition fresh (env : nat → string → list string → behaviour) : world :=
  {| now := 1000; environment := env; platform := ascii_host; spawned := [];
     containerResolveCache := ∅; shadow := ∅; fs_ops := []; logged := [];
     startedAt := 1000; requestCount := 0; sync := idle_sync; destroyed := [] |}.

End Worlds.

(** ** The interpreter of a container exec *)

Section ExecInterpreter.
Import Config State DockerClient.

Definition interpreters : list string := ["sh"; "bash"; "zsh"; "ash"].

Lemma shell_allowed_iff shell : shell_allowed shell = true ↔ shell ∈ interpreters.
Proof. unfold shell_allowed. apply bool_decide_eq_true. Qed.

(** C8, as the code has it.  The interpreter that [containerExec] puts
    in the argument vector is always one of sh, bash, zsh and ash: the
    requested one when it is one of them; the literal sh when another
    one is requested; and when none is requested, the configured
    default if it is one of the four and sh otherwise. *)
Theorem containerExec_interpreter (cfg : config) (containerName shellName commandText : string) :
  ∃ interpreter,
    interpreter ∈ interpreters ∧
    (normalizeValue shellName ∈ interpreters → interpreter = normalizeValue shellName) ∧
    (normalizeValue shellName ≠ EmptyString → normalizeValue shellName ∉ interpreters →
     interpreter = "sh") ∧
    (normalizeValue shellName = EmptyString →
     interpreter = if bool_decide (execShell cfg ∈ interpreters) then execShell cfg else "sh") ∧
    containerExec cfg containerName shellName commandText =
      (let* resolved := resolveContainerTarget cfg containerName in
       if negb (Js.truthy (normalizeValue commandText))
       then throw (Error "container exec requires command")
       else runDocker cfg ["exec"; resolved; interpreter; "-lc"; normalizeValue commandText]
              {| allowFailure := true; timeoutMs := None |}).
Proof.
  set (shell := Js.or_else (normalizeValue shellName) (execShell cfg)).
  exists (if shell_allowed shell then shell else "sh").
  split; [|split; [|split; [|split]]].
  - destruct (shell_allowed shell) eqn:E.
    + by apply shell_allowed_iff.
    + apply shell_allowed_iff. reflexivity.
  - intros Hin. subst shell. unfold Js.or_else.
    destruct (normalizeValue shellName) as [|c r] eqn:En.
    + apply shell_allowed_iff in Hin. discriminate Hin.
    + simpl. apply shell_allowed_iff in Hin. by rewrite Hin.
  - intros Hne Hnot. subst shell. unfold Js.or_else.
    destruct (normalizeValue shellName) as [|c r] eqn:En; [done|]. simpl.
    destruct (shell_allowed (String c r)) eqn:E; [|done].
    apply shell_allowed_iff in E. done.
  - intros He. subst shell. rewrite He. reflexivity.
  - reflexivity.
Qed.

(** A configuration whose default interpreter is bash. *)
Definition config_bash : config :=
  {| host := host default_config; port := port default_config;
     dockerBin := dockerBin default_config;
     requestBodyLimitBytes := requestBodyLimitBytes default_config;
     commandTimeoutMs := commandTimeoutMs default_config;
     maxLogLines := maxLogLines default_config;
     defaultLogTail := defaultLogTail default_config;
     tailscaleSyncEnabled := tailscaleSyncEnabled default_config;
     tailscaleSyncIntervalSec := tailscaleSyncIntervalSec default_config;
     tailscaleContainer := tailscaleContainer default_config;
     nginxContainer := nginxContainer default_config;
     shadowDir := shadowDir default_config;
     shadowPort := shadowPort default_config;
     enableSafeCommands := true; enableDangerousCommands := true;
     safeCommandsPolicy := safeCommandsPolicy default_config;
     dangerousCommandsPolicy := dangerousCommandsPolicy default_config;
     blockedCommands := [];
     execShell := "bash" |}.

(** C8, as the specification words it, fails: with bash as the
    configured default, a request for the interpreter fish runs sh. *)
Lemma containerExec_fallback_is_sh :
  execShell config_bash = "bash" ∧
  argv <$> last (spawned (snd (containerExec config_bash "web" "fish" "ls" (fresh quiet))))
    = Some ["exec"; "web"; "sh"; "-lc"; "ls"] ∧
  ¬ (argv <$> last (spawned (snd (containerExec config_bash "web" "fish" "ls" (fresh quiet))))
       = Some ["exec"; "web"; execShell config_bash; "-lc"; "ls"]).
Proof.
  split; [reflexivity|]. split; [vm_compute; reflexivity|].
  vm_compute. discriminate.
Qed.

End ExecInterpreter.

(** ** The ping of the overlay network *)

Section Ping.
Import Config State Policy DockerClient Server.

Lemma parsePositiveInt_range value fallback min max :
  min ≤ max → min ≤ fallback ≤ max →
  min ≤ parsePositiveInt value fallback min max ≤ max.
Proof.
  intros Hmm Hf. unfold parsePositiveInt.
  destruct (Js.parseInt10 _) as [| |parsed]; try lia.
  destruct (parsed <? min) eqn:E1; [lia|].
  destruct (max <? parsed) eqn:E2; lia.
Qed.



End Ping.

(** ** The health and help endpoints *)

Section HealthAndHelp.
Import Config State Policy Server.

Lemma safe_key_denied (cfg : config) (key : string) :
  key ∈ SAFE_COMMAND_KEYS →
  (isCommandAllowed cfg key = false ↔
     enableSafeCommands cfg = false ∨
     (allowAll (safeCommandsPolicy cfg) = false ∧ key ∉ set (safeCommandsPolicy cfg)) ∨
     key ∈ blockedCommands cfg).
Proof.
  intros Hsafe. rewrite <- not_true_iff_false, isCommandAllowed_permitted.
  unfold permitted. split.
  - intros Hno.
    destruct (enableSafeCommands cfg) eqn:Hen; [|by left].
    destruct (decide (key ∈ blockedCommands cfg)) as [?|Hnb]; [by right; right|].
    right; left.
    destruct (allowAll (safeCommandsPolicy cfg)) eqn:Hall.
    + exfalso. apply Hno. exists safe. simpl. rewrite Hen, Hall. auto.
    + split; [done|]. intros Hin. apply Hno. exists safe. simpl. rewrite Hen. auto.
  - intros Hden (c & Hin & Hen & Hal & Hnb).
    assert (c = safe) as ->.
    { destruct c; [done|]. exfalso. eapply SAFE_DANGEROUS_disjoint; eauto. }
    simpl in *. destruct Hden as [Hd|[[Hd1 Hd2]|Hd]]; [congruence| |done].
    destruct Hal; congruence.
Qed.

(** The paths of the two endpoints and the name that gates each. *)
Definition gate_of (path : string) : option string :=
  if String.eqb path "/dockerapi/healthz" then Some "healthz"
  else if String.eqb path "/dockerapi" || String.eqb path "/dockerapi/"
          || String.eqb path "/dockerapi/help" then Some "help"
  else None.

(** C10.  The health and help endpoints are gated by the names healthz
    and help of the safe catalog: when the safe category is disabled,
    or the safe allow-set is not "all" and lacks the name, or the
    deny-set has it, a GET request to the endpoint is answered with
    403 and the denied name, not with the report. *)
Theorem health_and_help_are_gated
    (JSON_parse : string → Json.value + string) (toISOString : Z → string)
    (otherRoutes : request → url → M response)
    (cfg : config) (req : request) (urlObj : url) (key : string) (w : world) :
  method req = "GET" →
  target req = Some urlObj →
  gate_of (pathname urlObj) = Some key →
  enableSafeCommands cfg = false ∨
  (allowAll (safeCommandsPolicy cfg) = false ∧ key ∉ set (safeCommandsPolicy cfg)) ∨
  key ∈ blockedCommands cfg →
  key ∈ SAFE_COMMAND_KEYS ∧
  fst (requestHandler JSON_parse toISOString cfg otherRoutes req w)
    = Ok (respondText 403 ("command is blocked by policy: " +:+ key)).
Proof.
  intros Hm Ht Hgate Hden.
  assert (Hsafe : key ∈ SAFE_COMMAND_KEYS).
  { unfold gate_of in Hgate.
    destruct (String.eqb _ "/dockerapi/healthz"); [inversion Hgate; compute_done|].
    destruct (_ || _); inversion Hgate. compute_done. }
  split; [exact Hsafe|].
  apply (safe_key_denied cfg key Hsafe) in Hden.
  unfold requestHandler, bind, modify, get, Logger.write. simpl. rewrite Ht. simpl.
  unfold gate_of in Hgate.
  destruct (String.eqb (pathname urlObj) "/dockerapi/healthz") eqn:Eh.
  - apply String.eqb_eq in Eh. rewrite Eh. simpl. inversion Hgate; subst key.
    unfold try_catch, route_healthz, guarded, ensureMethod, requirePermission.
    rewrite Hm, Hden. reflexivity.
  - destruct (String.eqb (pathname urlObj) "/dockerapi" || String.eqb (pathname urlObj) "/dockerapi/"
              || String.eqb (pathname urlObj) "/dockerapi/help") eqn:Ep; [|discriminate].
    inversion Hgate; subst key.
    assert (Hstart : Js.startsWith (pathname urlObj) "/dockerapi" = true).
    { apply orb_true_iff in Ep as [Ep|Ep]; [apply orb_true_iff in Ep as [Ep|Ep]|];
        apply String.eqb_eq in Ep; rewrite Ep; reflexivity. }
    rewrite Hstart. simpl.
    assert (Hroute : ∀ rest : M response,
      (if String.eqb (pathname urlObj) "/dockerapi" || String.eqb (pathname urlObj) "/dockerapi/"
       then route_help cfg req
       else if String.eqb (pathname urlObj) "/dockerapi/help" then route_help cfg req
       else rest) = route_help cfg req).
    { intros rest. destruct (String.eqb (pathname urlObj) "/dockerapi" || _); [done|].
      simpl in Ep. by rewrite Ep. }
    unfold try_catch. rewrite Hroute.
    unfold route_help, guarded, ensureMethod, requirePermission.
    rewrite Hm, Hden. reflexivity.
Qed.

(** The default policy with the safe category disabled. *)
Definition config_safe_off : config :=
  {| host := host default_config; port := port default_config;
     dockerBin := dockerBin default_config;
     requestBodyLimitBytes := requestBodyLimitBytes default_config;
     commandTimeoutMs := commandTimeoutMs default_config;
     maxLogLines := maxLogLines default_config;
     defaultLogTail := defaultLogTail default_config;
     tailscaleSyncEnabled := tailscaleSyncEnabled default_config;
     tailscaleSyncIntervalSec := tailscaleSyncIntervalSec default_config;
     tailscaleContainer := tailscaleContainer default_config;
     nginxContainer := nginxContainer default_config;
     shadowDir := shadowDir default_config;
     shadowPort := shadowPort default_config;
     enableSafeCommands := false; enableDangerousCommands := true;
     safeCommandsPolicy := safeCommandsPolicy default_config;
     dangerousCommandsPolicy := dangerousCommandsPolicy default_config;
     blockedCommands := [];
     execShell := "sh" |}.

Definition healthz_url : url :=
  {| pathname := "/dockerapi/healthz"; search := EmptyString; searchParams := [] |}.

Definition healthz_request : request :=
  {| method := "GET"; target := Some healthz_url; payload := EmptyString;
     remoteAddress := "127.0.0.1" |}.

Lemma health_and_help_are_gated_witness :
  "healthz" ∈ SAFE_COMMAND_KEYS ∧
  fst (requestHandler (fun _ => inr EmptyString) Js.string_of_Z config_safe_off
         (fun _ _ => ret (respondText 404 "dockerapi route not found"))
         healthz_request (fresh quiet))
    = Ok (respondText 403 "command is blocked by policy: healthz").
Proof.
  apply (health_and_help_are_gated (fun _ => inr EmptyString) Js.string_of_Z
           (fun _ _ => ret (respondText 404 "dockerapi route not found"))
           config_safe_off healthz_request healthz_url "healthz" (fresh quiet)).
  - reflexivity.
  - reflexivity.
  - reflexivity.
  - left. reflexivity.
Defined.

End HealthAndHelp.

(** ** Running the methods of the client *)

Section ClientRuns.
Import Config State CommandRunner DockerClient.

(** The process ended before its timer with exit code 0. *)
Definition completed_ok (s : spawn) : bool :=
  negb ((0 <? timeout s) && (timeout s <=? duration (run s))) &&
  match ending (run s) with
  | Close (Some 0) _ => true
  | _ => false
  end.

Lemma runCommand_inv command args t w r w' :
  runCommand command args t w = (r, w') →
  ∃ s, spawned w' = spawned w ++ [s] ∧ program s = command ∧ argv s = args ∧
       containerResolveCache w' = containerResolveCache w ∧
       (∀ res, r = Ok res → (code res = 0 ↔ completed_ok s = true)).
Proof.
  unfold runCommand. intros H.
  eexists {| program := command; argv := args; timeout := t;
             run := environment w (length (spawned w)) command args |}.
  unfold completed_ok. simpl.
  destruct ((0 <? t) && (t <=? duration _)) eqn:Et.
  - inversion H; subst; simpl. split; [done|]. split; [done|]. split; [done|].
    split; [done|]. intros res Hres. discriminate.
  - destruct (ending _) as [c sg|e] eqn:Ee; inversion H; subst; simpl.
    + split; [done|]. split; [done|]. split; [done|]. split; [done|].
      intros res' [= <-]. simpl. destruct c as [[| |]|]; simpl; split; done.
    + split; [done|]. split; [done|]. split; [done|]. split; [done|].
      intros res Hres. discriminate.
Qed.

Lemma runDocker_inv cfg args o w r w' :
  runDocker cfg args o w = (r, w') →
  ∃ s, spawned w' = spawned w ++ [s] ∧ argv s = args ∧
       containerResolveCache w' = containerResolveCache w ∧
       (∀ res, r = Ok res → allowFailure o = true → (code res = 0 ↔ completed_ok s = true)) ∧
       (∀ res, r = Ok res → allowFailure o = false → completed_ok s = true).
Proof.
  unfold runDocker. intros H.
  apply bind_inv in H as [(res & w1 & Hrun & Hk)|(e & Hrun & ->)];
    apply runCommand_inv in Hrun as (s & Hs & _ & Ha & Hc & Hcode); exists s.
  - destruct (negb (allowFailure o) && negb (code res =? 0)) eqn:E;
      inversion Hk; subst.
    + split; [done|]. split; [done|]. split; [done|]. split; intros; discriminate.
    + split; [done|]. split; [done|]. split; [done|]. split.
      * intros res' [= <-] _. by apply Hcode.
      * intros res' [= <-] Hstrict. rewrite Hstrict in E. simpl in E.
        apply negb_false_iff, Z.eqb_eq in E. by apply (Hcode res).
  - split; [done|]. split; [done|]. split; [done|]. split; intros; discriminate.
Qed.

(** A spawn that runs a command inside a container. *)
Definition is_exec (s : spawn) : Prop := head (argv s) = Some "exec".

Lemma readResolveCache_spawned name w r w' :
  readResolveCache name w = (r, w') → spawned w' = spawned w.
Proof.
  unfold readResolveCache. intros H.
  destruct (containerResolveCache w !! _) as [c|]; [|by inversion H].
  destruct (expiresAt c <=? now w); by inversion H.
Qed.

Lemma writeResolveCache_spawned name v w r w' :
  writeResolveCache name v w = (r, w') → spawned w' = spawned w.
Proof.
  unfold writeResolveCache. intros H.
  destruct (negb _ || negb _); by inversion H.
Qed.

Lemma assertContainerName_inv name w r w' :
  assertContainerName name w = (r, w') →
  w' = w ∧ (∀ u, r = Ok u → isContainerNameValid name = true).
Proof.
  unfold assertContainerName. destruct (isContainerNameValid name); intros H;
    inversion H; subst; split; try done.
Qed.

Lemma findContainerByComposeService_spawned cfg service w r w' :
  findContainerByComposeService cfg service w = (r, w') →
  ∃ l, spawned w' = spawned w ++ l ∧ Forall (fun s => ¬ is_exec s) l.
Proof.
  unfold findContainerByComposeService. intros H.
  destruct (negb (Js.truthy (normalizeValue service))).
  { inversion H; subst. exists []. by rewrite app_nil_r. }
  inv_bind H as running w1 Hrun;
    apply runDocker_inv in Hrun as (s1 & Hs1 & Ha1 & _);
    assert (Hn1 : ¬ is_exec s1) by (unfold is_exec; by rewrite Ha1).
  2:{ exists [s1]. split; [done|]. by constructor. }
  destruct (Js.truthy (readFirstLine (stdout running))).
  { inversion H; subst. exists [s1]. split; [done|]. by constructor. }
  inv_bind H as anyState w2 Hany;
    apply runDocker_inv in Hany as (s2 & Hs2 & Ha2 & _);
    assert (Hn2 : ¬ is_exec s2) by (unfold is_exec; by rewrite Ha2).
  - inversion H; subst. exists [s1; s2]. split.
    + rewrite Hs2, Hs1, <- app_assoc. done.
    + by repeat constructor.
  - exists [s1; s2]. split.
    + rewrite Hs2, Hs1, <- app_assoc. done.
    + by repeat constructor.
Qed.

(** A resolution spawns no command inside a container. *)
Lemma resolveContainerTarget_spawned cfg name w r w' :
  resolveContainerTarget cfg name w = (r, w') →
  ∃ l, spawned w' = spawned w ++ l ∧ Forall (fun s => ¬ is_exec s) l.
Proof.
  unfold resolveContainerTarget. intros H.
  inv_bind H as u w0 Hassert; apply assertContainerName_inv in Hassert as [-> _].
  2:{ exists []. by rewrite app_nil_r. }
  inv_bind H as cached w1 Hread; apply readResolveCache_spawned in Hread.
  2:{ exists []. by rewrite app_nil_r. }
  rewrite <- Hread. clear Hread.
  destruct (Js.truthy cached).
  { inversion H; subst. exists []. by rewrite app_nil_r. }
  inv_bind H as directInspect w2 Hrun;
    apply runDocker_inv in Hrun as (s1 & Hs1 & Ha1 & _);
    assert (Hn1 : ¬ is_exec s1) by (unfold is_exec; by rewrite Ha1).
  2:{ exists [s1]. split; [done|]. by constructor. }
  destruct (code directInspect =? 0).
  - inv_bind H as u1 w3 Hwrite; apply writeResolveCache_spawned in Hwrite.
    + inversion H; subst. exists [s1]. split; [congruence|by constructor].
    + exists [s1]. split; [congruence|by constructor].
  - inv_bind H as composeResolved w3 Hfind;
      apply findContainerByComposeService_spawned in Hfind as (l & Hl & Hf).
    2:{ exists (s1 :: l). split; [|by constructor].
        rewrite Hl, Hs1, <- app_assoc. done. }
    assert (Hsp : spawned w3 = spawned w1 ++ s1 :: l).
    { rewrite Hl, Hs1, <- app_assoc. done. }
    destruct (Js.truthy composeResolved).
    + inv_bind H as u1 w4 Hw1; apply writeResolveCache_spawned in Hw1.
      2:{ exists (s1 :: l). split; [congruence|by constructor]. }
      inv_bind H as u2 w5 Hw2; apply writeResolveCache_spawned in Hw2.
      2:{ exists (s1 :: l). split; [congruence|by constructor]. }
      inv_bind H as u3 w6 Hlog;
        unfold Logger.info, Logger.write, modify in Hlog; inversion Hlog; subst.
      inversion H; subst. simpl. exists (s1 :: l). split; [congruence|by constructor].
    + inversion H; subst. exists (s1 :: l). split; [done|by constructor].
Qed.

(** What a call of [execInContainer] spawns: the processes of the
    resolution, none of which runs inside a container, and then, when
    the name resolved, the command itself. *)
Lemma execInContainer_inv cfg name args o w r w' :
  execInContainer cfg name args o w = (r, w') →
  ∃ l, Forall (fun s => ¬ is_exec s) l ∧
       ((spawned w' = spawned w ++ l ∧ ∃ e, r = Throw e) ∨
        (∃ c s, spawned w' = spawned w ++ l ++ [s] ∧ argv s = "exec" :: c :: args ∧
                (∀ res, r = Ok res → allowFailure o = false → completed_ok s = true))).
Proof.
  unfold execInContainer. intros H.
  inv_bind H as resolved w1 Hres;
    apply resolveContainerTarget_spawned in Hres as (l & Hl & Hf); exists l; (split; [done|]).
  - right. apply runDocker_inv in H as (s & Hs & Ha & _ & _ & Hok).
    exists resolved, s. split; [|split; [done|]].
    + rewrite Hs, Hl, <- app_assoc. done.
    + intros res Hr Hstrict. by apply (Hok res).
  - left. split; [done|]. eauto.
Qed.

End ClientRuns.

(** ** The resolution cache *)

Section ResolutionCache.
Import Config State CommandRunner DockerClient.

Lemma readFirstLine_trimmed text : normalizeValue (readFirstLine text) = readFirstLine text.
Proof.
  unfold readFirstLine.
  destruct (filter _ _) as [|line rest] eqn:E; [reflexivity|].
  assert (Hin : line ∈ filter (fun l => Js.truthy l = true) (map Js.trim (Js.split_char "010" text))).
  { rewrite E. by left. }
  apply list_elem_of_filter in Hin as [_ Hin].
  apply list_elem_of_fmap in Hin as (l & -> & _).
  apply trim_idempotent.
Qed.

Lemma valid_name_truthy name :
  isContainerNameValid name = true → Js.truthy (normalizeValue name) = true.
Proof.
  unfold isContainerNameValid, CONTAINER_NAME_PATTERN.
  by destruct (normalizeValue name).
Qed.







Lemma findContainerByComposeService_cache cfg service w r w' :
  findContainerByComposeService cfg service w = (r, w') →
  containerResolveCache w' = containerResolveCache w.
Proof.
  unfold findContainerByComposeService. intros H.
  destruct (negb (Js.truthy (normalizeValue service))).
  { by inversion H. }
  inv_bind H as running w1 Hrun; apply runDocker_inv in Hrun as (s1 & _ & _ & Hc1 & _);
    [|done].
  destruct (Js.truthy (readFirstLine (stdout running))).
  { by inversion H; subst. }
  inv_bind H as anyState w2 Hany; apply runDocker_inv in Hany as (s2 & _ & _ & Hc2 & _).
  - inversion H; subst. congruence.
  - congruence.
Qed.






End ResolutionCache.

(** ** The reload of the proxy *)

Section Reload.
Import Config State CommandRunner DockerClient.

(** The validation of the proxy configuration and the reload signal, as
    commands run inside some container. *)
Definition is_validate (s : spawn) : Prop := ∃ c, argv s = ["exec"; c; "nginx"; "-t"].

Definition is_reload (s : spawn) : Prop := ∃ c, argv s = ["exec"; c; "nginx"; "-s"; "reload"].

Lemma Forall_take_app {A} (P : A → Prop) (l k : list A) :
  Forall P l → Forall P (take (length l) (l ++ k)).
Proof. intros H. by rewrite take_app_length. Qed.

(** C6.  Of the processes that one call of [nginxReload] spawns, each
    command run inside a container is either the validation of the
    configuration, with no such command before it, or the reload signal,
    with a validation before it that ended with exit code 0 before its
    timer: the validation comes first, and no reload is spawned unless
    the validation succeeded. *)
Theorem nginxReload_validates_first (cfg : config) (w : world) :
  ∃ new, spawned (snd (nginxReload cfg w)) = spawned w ++ new ∧
    ∀ i s, new !! i = Some s → is_exec s →
      (is_validate s ∧ Forall (fun x => ¬ is_exec x) (take i new)) ∨
      (is_reload s ∧ ∃ j t, (j < i)%nat ∧ new !! j = Some t ∧ is_validate t ∧
                            completed_ok t = true).
Proof.
  destruct (nginxReload cfg w) as [r w'] eqn:H. simpl.
  unfold nginxReload, nginxTest in H.
  inv_bind H as tested w1 Htest;
    apply execInContainer_inv in Htest
      as (l1 & Hf1 & [[Hs1 [e1 He1]]|(c1 & t & Hs1 & Ha1 & Hok1)]).
  - discriminate He1.
  - apply execInContainer_inv in H as (l2 & Hf2 & [[Hs2 _]|(c2 & rl & Hs2 & Ha2 & _)]).
    + exists (l1 ++ [t] ++ l2). split.
      { rewrite Hs2, Hs1, <- !app_assoc. done. }
      intros i s Hi Hex. left.
      apply lookup_app_Some in Hi as [Hi|[Hlen Hi]].
      { exfalso. eapply Forall_lookup_1 in Hf1; eauto. }
      apply lookup_app_Some in Hi as [Hi|[Hlen2 Hi]].
      2:{ exfalso. eapply Forall_lookup_1 in Hf2; eauto. }
      destruct (i - length l1)%nat as [|n] eqn:En; [|done].
      inversion Hi; subst s. split; [by exists c1|].
      assert (i = length l1) as -> by lia. by apply Forall_take_app.
    + exists (l1 ++ [t] ++ l2 ++ [rl]). split.
      { rewrite Hs2, Hs1, <- !app_assoc. done. }
      intros i s Hi Hex.
      apply lookup_app_Some in Hi as [Hi|[Hlen Hi]].
      { exfalso. eapply Forall_lookup_1 in Hf1; eauto. }
      apply lookup_app_Some in Hi as [Hi|[Hlen2 Hi]].
      { left. destruct (i - length l1)%nat as [|n] eqn:En; [|done].
        inversion Hi; subst s. split; [by exists c1|].
        assert (i = length l1) as -> by lia. by apply Forall_take_app. }
      apply lookup_app_Some in Hi as [Hi|[Hlen3 Hi]].
      { exfalso. eapply Forall_lookup_1 in Hf2; eauto. }
      right. destruct (i - length l1 - length [t] - length l2)%nat as [|n] eqn:En; [|done].
      inversion Hi; subst s. split; [by exists c2|].
      exists (length l1), t. simpl in *. split; [lia|]. split.
      * rewrite lookup_app_r by lia. by rewrite Nat.sub_diag.
      * split; [by exists c1|]. by apply (Hok1 tested).
  - exists l1. split; [done|].
    intros i s Hi Hex. exfalso. eapply Forall_lookup_1 in Hf1; eauto.
  - exists (l1 ++ [t]). split; [done|].
    intros i s Hi Hex. left.
    apply lookup_app_Some in Hi as [Hi|[Hlen Hi]].
    { exfalso. eapply Forall_lookup_1 in Hf1; eauto. }
    destruct (i - length l1)%nat as [|n] eqn:En; [|done].
    inversion Hi; subst s. split; [by exists c1|].
    assert (i = length l1) as -> by lia. by apply Forall_take_app.
Qed.

End Reload.

(** ** The scheduled cycle and its guard *)

Section ScheduledCycle.
Import Config State Server.

Variable cfg : config.

(** The flag is set exactly while one cycle awaits its result. *)
Definition guard_holds (st : loop_state) : Prop :=
  (inProgress (sync (fst st)) = false ∧ snd st = 0%nat) ∨
  (inProgress (sync (fst st)) = true ∧ snd st = 1%nat).

Lemma loop_step_guard st ev : guard_holds st → guard_holds (loop_step cfg st ev).
Proof.
  destruct st as [w k]. unfold guard_holds. simpl. intros Hg.
  destruct ev as [source|source r|task]; simpl.
  - unfold sync_begin. destruct (tailscaleSyncEnabled cfg); simpl; [|done].
    unfold bind, get. destruct (inProgress (sync w)) eqn:E; simpl.
    + destruct Hg as [[? ?]|[_ ->]]; [done|]. by right.
    + destruct Hg as [[_ ->]|[? ?]]; [|done]. by right.
  - destruct k as [|k]; [done|]. simpl.
    destruct Hg as [[_ ?]|[_ Hk]]; [done|]. injection Hk as ->.
    left. split; [|done].
    unfold sync_settle, finally. destruct r as [result|e]; simpl; reflexivity.
  - done.
Qed.

Lemma loop_run_cons st ev events :
  loop_run cfg st (ev :: events) = loop_run cfg (loop_step cfg st ev) events.
Proof. reflexivity. Qed.

Lemma loop_run_guard st events : guard_holds st → guard_holds (loop_run cfg st events).
Proof.
  revert st. induction events as [|ev events IH]; intros st Hg; [done|].
  simpl. apply IH. by apply loop_step_guard.
Qed.

(** Two worlds that differ in the log at most. *)
Definition same_but_log (w w' : world) : Prop := set_logged [] w = set_logged [] w'.

Lemma same_but_log_fields w w' :
  same_but_log w w' →
  now w = now w' ∧ sync w = sync w' ∧ environment w = environment w' ∧
  spawned w = spawned w' ∧ containerResolveCache w = containerResolveCache w' ∧
  shadow w = shadow w' ∧ fs_ops w = fs_ops w' ∧ startedAt w = startedAt w' ∧
  requestCount w = requestCount w' ∧ platform w = platform w' ∧
  destroyed w = destroyed w'.
Proof.
  unfold same_but_log, set_logged. intros H. inversion H. repeat split; done.
Qed.

Lemma same_but_log_intro w w' :
  now w = now w' → sync w = sync w' → environment w = environment w' →
  spawned w = spawned w' → containerResolveCache w = containerResolveCache w' →
  shadow w = shadow w' → fs_ops w = fs_ops w' → startedAt w = startedAt w' →
  requestCount w = requestCount w' → platform w = platform w' →
  destroyed w = destroyed w' → same_but_log w w'.
Proof.
  unfold same_but_log, set_logged. destruct w, w'; simpl. intros; subst. reflexivity.
Qed.

Lemma loop_step_same_but_log w w' k ev :
  same_but_log w w' →
  same_but_log (fst (loop_step cfg (w, k) ev)) (fst (loop_step cfg (w', k) ev)) ∧
  snd (loop_step cfg (w, k) ev) = snd (loop_step cfg (w', k) ev).
Proof.
  intros Hs. pose proof (same_but_log_fields _ _ Hs) as (Hn & Hy & He & Hp & Hc & Hd & Hf & Ha & Hr & Hpl & Hde).
  destruct ev as [source|source r|task]; simpl.
  - unfold sync_begin. destruct (tailscaleSyncEnabled cfg); simpl; [|done].
    unfold bind, get. rewrite <- Hy. destruct (inProgress (sync w)); simpl.
    + split; [|done]. apply same_but_log_intro; simpl; done.
    + split; [|done]. apply same_but_log_intro; simpl; try done. by rewrite ?Hn, ?Hy.
  - destruct k as [|k]; [done|]. simpl. split; [|done].
    unfold sync_settle, finally. destruct r as [result|e]; simpl.
    + apply same_but_log_intro; simpl; try done. by rewrite ?Hn, ?Hy.
    + apply same_but_log_intro; simpl; try done. by rewrite ?Hn, ?Hy.
  - split; [|done]. unfold same_but_log in Hs. rewrite Hs.
    apply same_but_log_intro; simpl; done.
Qed.

Lemma loop_run_same_but_log events w w' k :
  same_but_log w w' →
  same_but_log (fst (loop_run cfg (w, k) events)) (fst (loop_run cfg (w', k) events)) ∧
  snd (loop_run cfg (w, k) events) = snd (loop_run cfg (w', k) events).
Proof.
  revert w w' k. induction events as [|ev events IH]; intros w w' k Hs; [done|].
  rewrite !loop_run_cons. pose proof (loop_step_same_but_log w w' k ev Hs) as [H1 H2].
  destruct (loop_step cfg (w, k) ev) as [w1 k1], (loop_step cfg (w', k) ev) as [w1' k1'].
  simpl in *. subst k1'. by apply IH.
Qed.

(** A trigger that fires while a cycle is in progress only logs. *)
Lemma trigger_skipped w k source :
  inProgress (sync w) = true →
  same_but_log (fst (loop_step cfg (w, k) (Trigger source))) w ∧
  snd (loop_step cfg (w, k) (Trigger source)) = k.
Proof.
  intros Hp. simpl. unfold sync_begin.
  destruct (tailscaleSyncEnabled cfg); simpl; [|done].
  unfold bind, get. rewrite Hp. simpl. done.
Qed.

(** C5.  From a state in which no cycle is in progress, whatever the
    event loop runs, at most one cycle awaits its result and the flag
    is set exactly then.  A trigger that fires while a cycle is in
    progress starts nothing and leaves the run state as it is, so that
    whatever follows ends with the run state, counters included, that
    it ends with when that trigger never fires.  The settling of a
    cycle, with a result or with an error, resets the flag. *)
Theorem scheduled_sync_is_guarded :
  (∀ w events,
     inProgress (sync w) = false →
     let final := loop_run cfg (w, 0%nat) events in
     (snd final ≤ 1)%nat ∧ (inProgress (sync (fst final)) = true ↔ snd final = 1%nat)) ∧
  (∀ w k source,
     inProgress (sync w) = true →
     let after := loop_step cfg (w, k) (Trigger source) in
     sync (fst after) = sync w ∧ snd after = k) ∧
  (∀ w k source events,
     inProgress (sync w) = true →
     let with_trigger := loop_run cfg (w, k) (Trigger source :: events) in
     let without := loop_run cfg (w, k) events in
     sync (fst with_trigger) = sync (fst without) ∧ snd with_trigger = snd without) ∧
  (∀ w k source r,
     let after := loop_step cfg (w, S k) (Settle source r) in
     inProgress (sync (fst after)) = false ∧ snd after = k).
Proof.
  split; [|split; [|split]].
  - intros w events Hidle final.
    assert (Hg : guard_holds final).
    { apply loop_run_guard. left. done. }
    destruct Hg as [[Hp Hk]|[Hp Hk]]; rewrite Hp, Hk; split; try lia; split; done.
  - intros w k source Hp after.
    destruct (trigger_skipped w k source Hp) as [Hs Hk].
    split; [|done]. by apply same_but_log_fields in Hs as (_ & ? & _).
  - intros w k source events Hp with_trigger without.
    subst with_trigger without. rewrite loop_run_cons.
    destruct (trigger_skipped w k source Hp) as [Hs Hk].
    destruct (loop_step cfg (w, k) (Trigger source)) as [w1 k1]. simpl in *. subst k1.
    destruct (loop_run_same_but_log events w1 w k Hs) as [Hs' Hk'].
    split; [|done]. by apply same_but_log_fields in Hs' as (_ & ? & _).
  - intros w k source r after. subst after. simpl. split; [|done].
    unfold sync_settle, finally. destruct r as [result|e]; reflexivity.
Qed.

End ScheduledCycle.

(** ** What leaves the shadow directory alone *)

Section KeepsDirectory.
Import Config State CommandRunner DockerClient.

(** The computation neither changes the shadow directory nor calls the
    file system on it. *)
Definition keeps_fs {A} (m : M A) : Prop :=
  ∀ w r w', m w = (r, w') → shadow w' = shadow w ∧ fs_ops w' = fs_ops w.

Lemma keeps_ret {A} (a : A) : keeps_fs (ret a).
Proof. intros w r w' [= <- <-]. done. Qed.

Lemma keeps_throw {A} e : keeps_fs (@throw A e).
Proof. intros w r w' [= <- <-]. done. Qed.

Lemma keeps_bind {A B} (m : M A) (k : A → M B) :
  keeps_fs m → (∀ a, keeps_fs (k a)) → keeps_fs (bind m k).
Proof.
  intros Hm Hk w r w' H. inv_bind H as a w1 Hrun.
  - apply Hm in Hrun as [Hs1 Hf1]. apply (Hk a) in H as [Hs2 Hf2]. split; congruence.
  - by apply Hm in Hrun.
Qed.

Lemma keeps_try_catch {A} (m : M A) (handler : error → M A) :
  keeps_fs m → (∀ e, keeps_fs (handler e)) → keeps_fs (try_catch m handler).
Proof.
  intros Hm Hk w r w'. unfold try_catch.
  destruct (m w) as [[a|e] w1] eqn:Hrun; apply Hm in Hrun as [Hs Hf].
  - intros [= <- <-]. done.
  - intros H. apply (Hk e) in H as [Hs2 Hf2]. split; congruence.
Qed.

Lemma keeps_log level scope message meta : keeps_fs (Logger.write level scope message meta).
Proof. intros w r w' [= <- <-]. done. Qed.

Lemma keeps_runCommand command args t : keeps_fs (runCommand command args t).
Proof.
  intros w r w'. unfold runCommand.
  destruct (_ && _); [by intros [= <- <-]|].
  destruct (ending _); by intros [= <- <-].
Qed.

Lemma keeps_runDocker cfg args o : keeps_fs (runDocker cfg args o).
Proof.
  unfold runDocker. apply keeps_bind; [apply keeps_runCommand|].
  intros result. destruct (_ && _); [apply keeps_throw|apply keeps_ret].
Qed.

Lemma keeps_readResolveCache name : keeps_fs (readResolveCache name).
Proof.
  intros w r w'. unfold readResolveCache.
  destruct (_ !! _) as [c|]; [|by intros [= <- <-]].
  destruct (_ <=? _); by intros [= <- <-].
Qed.

Lemma keeps_writeResolveCache name resolved : keeps_fs (writeResolveCache name resolved).
Proof.
  intros w r w'. unfold writeResolveCache. destruct (_ || _); by intros [= <- <-].
Qed.

Lemma keeps_findContainerByComposeService cfg service :
  keeps_fs (findContainerByComposeService cfg service).
Proof.
  unfold findContainerByComposeService.
  destruct (negb _); [apply keeps_ret|].
  apply keeps_bind; [apply keeps_runDocker|]. intros running.
  destruct (Js.truthy _); [apply keeps_ret|].
  apply keeps_bind; [apply keeps_runDocker|]. intros anyState. apply keeps_ret.
Qed.

Lemma keeps_resolveContainerTarget cfg name : keeps_fs (resolveContainerTarget cfg name).
Proof.
  unfold resolveContainerTarget, assertContainerName.
  apply keeps_bind; [destruct (isContainerNameValid name); [apply keeps_ret|apply keeps_throw]|].
  intros _. apply keeps_bind; [apply keeps_readResolveCache|]. intros cached.
  destruct (Js.truthy cached); [apply keeps_ret|].
  apply keeps_bind; [apply keeps_runDocker|]. intros directInspect.
  destruct (_ =? _).
  - apply keeps_bind; [apply keeps_writeResolveCache|]. intros _. apply keeps_ret.
  - apply keeps_bind; [apply keeps_findContainerByComposeService|]. intros composeResolved.
    destruct (Js.truthy composeResolved); [|apply keeps_throw].
    apply keeps_bind; [apply keeps_writeResolveCache|]. intros _.
    apply keeps_bind; [apply keeps_writeResolveCache|]. intros _.
    apply keeps_bind; [apply keeps_log|]. intros _. apply keeps_ret.
Qed.

Lemma keeps_execInContainer cfg name args o : keeps_fs (execInContainer cfg name args o).
Proof.
  unfold execInContainer. apply keeps_bind; [apply keeps_resolveContainerTarget|].
  intros resolved. apply keeps_runDocker.
Qed.

Lemma keeps_test_and_reload cfg name : keeps_fs (ShadowSync.test_and_reload cfg name).
Proof.
  unfold ShadowSync.test_and_reload, nginxTest.
  apply keeps_bind; [apply keeps_execInContainer|]. intros _.
  apply keeps_bind; [apply keeps_execInContainer|]. intros _. apply keeps_ret.
Qed.

Lemma keeps_tailscaleStatus cfg asJson : keeps_fs (tailscaleStatus cfg asJson).
Proof. unfold tailscaleStatus. destruct asJson; apply keeps_execInContainer. Qed.

End KeepsDirectory.

(** ** File names of the shadow directory *)

Section FileNames.
Import Config State ShadowSync.

(** The file of a backend and the temporary file it is written through. *)
Definition conf (ip : string) : string := ip +:+ ".conf".
Definition tmp (ip : string) : string := (ip +:+ ".conf") +:+ ".tmp".

Lemma append_nil (b : string) : EmptyString +:+ b = b.
Proof. reflexivity. Qed.

Lemma append_cons (x : ascii) (a b : string) : String x a +:+ b = String x (a +:+ b).
Proof. reflexivity. Qed.

Lemma length_append (a b : string) :
  String.length (a +:+ b) = (String.length a + String.length b)%nat.
Proof.
  induction a as [|c a IH]; [done|]. rewrite append_cons. simpl. by rewrite IH.
Qed.

Lemma append_assoc (a b c : string) : (a +:+ b) +:+ c = a +:+ (b +:+ c).
Proof.
  induction a as [|x a IH]; [done|]. rewrite !append_cons. by rewrite IH.
Qed.

Lemma substring_all (b : string) : String.substring 0 (String.length b) b = b.
Proof. induction b as [|c b IH]; simpl; [done|]. by rewrite IH. Qed.

Lemma substring_append_l (a b : string) :
  String.substring 0 (String.length a) (a +:+ b) = a.
Proof.
  induction a as [|c a IH]; [by destruct b|]. rewrite append_cons. simpl. by rewrite IH.
Qed.

Lemma substring_append_r (a b : string) (m : nat) :
  String.substring (String.length a) m (a +:+ b) = String.substring 0 m b.
Proof. induction a as [|c a IH]; [done|]. rewrite append_cons. exact IH. Qed.

Lemma substring_split (s : string) (i : nat) :
  (i ≤ String.length s)%nat →
  s = String.substring 0 i s +:+ String.substring i (String.length s - i) s.
Proof.
  revert i. induction s as [|c s IH]; intros i Hi; simpl in *.
  - assert (i = 0%nat) as -> by lia. reflexivity.
  - destruct i as [|i]; simpl.
    + by rewrite substring_all.
    + rewrite append_cons. f_equal. apply IH. lia.
Qed.

Lemma append_inj_r (a b t : string) : a +:+ t = b +:+ t → a = b.
Proof.
  intros H.
  assert (Hlen : String.length a = String.length b).
  { apply (f_equal String.length) in H. rewrite !length_append in H. lia. }
  rewrite <- (substring_append_l a t), <- (substring_append_l b t), H, Hlen. reflexivity.
Qed.

Lemma conf_inj ip ip' : conf ip = conf ip' → ip = ip'.
Proof. apply append_inj_r. Qed.

Lemma tmp_inj ip ip' : tmp ip = tmp ip' → ip = ip'.
Proof. intros H. by apply append_inj_r, append_inj_r in H. Qed.

Lemma conf_not_tmp ip ip' : conf ip ≠ tmp ip'.
Proof.
  unfold conf, tmp. intros H.
  assert (Hl : (String.length ip + 1 = String.length ip' + 5)%nat).
  { apply (f_equal String.length) in H. rewrite !length_append in H. simpl in H. lia. }
  assert (H1 : String.substring (String.length ip + 1) 4 (ip +:+ ".conf") = "conf").
  { change ".conf" with ("." +:+ "conf"). rewrite <- append_assoc.
    replace (String.length ip + 1)%nat with (String.length (ip +:+ ".")).
    - by rewrite substring_append_r.
    - rewrite length_append. reflexivity. }
  assert (H2 : String.substring (String.length ip' + 5) 4 ((ip' +:+ ".conf") +:+ ".tmp") = ".tmp").
  { replace (String.length ip' + 5)%nat with (String.length (ip' +:+ ".conf")).
    - by rewrite substring_append_r.
    - rewrite length_append. reflexivity. }
  rewrite H, Hl, H2 in H1. discriminate.
Qed.

Lemma endsWith_append (a b : string) : Js.endsWith (a +:+ b) b = true.
Proof.
  unfold Js.endsWith. rewrite length_append.
  replace (String.length a + String.length b - String.length b)%nat with (String.length a) by lia.
  rewrite substring_append_r, substring_all, String.eqb_refl.
  apply andb_true_intro. split; [|done]. apply Nat.leb_le. lia.
Qed.

Lemma endsWith_split (s suffix : string) :
  Js.endsWith s suffix = true →
  s = String.substring 0 (String.length s - String.length suffix) s +:+ suffix.
Proof.
  unfold Js.endsWith. intros H. apply andb_true_iff in H as [Hle Heq].
  apply Nat.leb_le in Hle. apply String.eqb_eq in Heq.
  rewrite (substring_split s (String.length s - String.length suffix)) at 1 by lia.
  replace (String.length s - (String.length s - String.length suffix))%nat
    with (String.length suffix) by lia.
  by rewrite Heq.
Qed.

Lemma stem_conf ip : stem (conf ip) = ip.
Proof.
  unfold stem, conf. rewrite length_append. simpl.
  replace (String.length ip + 5 - 5)%nat with (String.length ip) by lia.
  apply substring_append_l.
Qed.

Lemma conf_stem name : Js.endsWith name ".conf" = true → conf (stem name) = name.
Proof. intros H. unfold conf, stem. symmetry. by apply (endsWith_split name ".conf"). Qed.

(** An entry is a member of the backend set exactly when it is the file
    of a valid address. *)
Lemma member_ip_Some name entry ip :
  member_ip name entry = Some ip ↔
  (∃ i content, entry = File i content) ∧ name = conf ip ∧ isIpv4 ip = true.
Proof.
  unfold member_ip. split.
  - destruct entry as [i content| |]; [|done|done].
    destruct (Js.endsWith name ".conf") eqn:He; [|done].
    destruct (isIpv4 (stem name)) eqn:Hv; [|done].
    intros [= <-]. split; [eauto|]. split; [|done]. symmetry. by apply conf_stem.
  - intros [(i & content & ->) [-> Hv]]. unfold conf at 1. rewrite endsWith_append.
    rewrite stem_conf, Hv. reflexivity.
Qed.

End FileNames.

(** ** What leaves the host alone *)

Section KeepsPlatform.
Import Config State CommandRunner DockerClient.

(** The computation runs on one host from its start to its end. *)
Definition keeps_platform {A} (m : M A) : Prop :=
  ∀ w r w', m w = (r, w') → platform w' = platform w.

Ltac keeps_platform_primitive :=
  let H := fresh "H" in
  intros ? ? ? H;
  repeat match type of H with
         | context [match ?x with _ => _ end] => destruct x
         end;
  inversion H; subst; reflexivity.

Lemma keeps_platform_ret {A} (a : A) : keeps_platform (ret a).
Proof. keeps_platform_primitive. Qed.

Lemma keeps_platform_throw {A} e : keeps_platform (@throw A e).
Proof. keeps_platform_primitive. Qed.

Lemma keeps_platform_bind {A B} (m : M A) (k : A → M B) :
  keeps_platform m → (∀ a, keeps_platform (k a)) → keeps_platform (bind m k).
Proof.
  intros Hm Hk w r w' H. inv_bind H as a w1 Hrun.
  - rewrite (Hk a _ _ _ H). by eapply Hm.
  - by eapply Hm.
Qed.

Lemma keeps_platform_try_catch {A} (m : M A) (handler : error → M A) :
  keeps_platform m → (∀ e, keeps_platform (handler e)) → keeps_platform (try_catch m handler).
Proof.
  intros Hm Hh w r w' H. unfold try_catch in H. destruct (m w) as [[a|e] w1] eqn:E1.
  - inversion H; subst. by eapply Hm.
  - rewrite (Hh e _ _ _ H). by eapply Hm.
Qed.

Lemma keeps_platform_log level scope message meta :
  keeps_platform (Logger.write level scope message meta).
Proof. keeps_platform_primitive. Qed.

Lemma keeps_platform_runCommand command args t : keeps_platform (runCommand command args t).
Proof. unfold runCommand. keeps_platform_primitive. Qed.

Lemma keeps_platform_runDocker cfg args o : keeps_platform (runDocker cfg args o).
Proof.
  unfold runDocker. apply keeps_platform_bind; [apply keeps_platform_runCommand|].
  intros result. destruct (_ && _); [apply keeps_platform_throw|apply keeps_platform_ret].
Qed.

Lemma keeps_platform_readResolveCache name : keeps_platform (readResolveCache name).
Proof. unfold readResolveCache. keeps_platform_primitive. Qed.

Lemma keeps_platform_writeResolveCache name v : keeps_platform (writeResolveCache name v).
Proof. unfold writeResolveCache. keeps_platform_primitive. Qed.

Lemma keeps_platform_findContainerByComposeService cfg service :
  keeps_platform (findContainerByComposeService cfg service).
Proof.
  unfold findContainerByComposeService. destruct (negb _); [apply keeps_platform_ret|].
  apply keeps_platform_bind; [apply keeps_platform_runDocker|intros running].
  destruct (Js.truthy _); [apply keeps_platform_ret|].
  apply keeps_platform_bind; [apply keeps_platform_runDocker|intros; apply keeps_platform_ret].
Qed.

Lemma keeps_platform_resolveContainerTarget cfg name :
  keeps_platform (resolveContainerTarget cfg name).
Proof.
  unfold resolveContainerTarget, assertContainerName.
  apply keeps_platform_bind.
  { destruct (isContainerNameValid name); [apply keeps_platform_ret|apply keeps_platform_throw]. }
  intros _. apply keeps_platform_bind; [apply keeps_platform_readResolveCache|intros cached].
  destruct (Js.truthy cached); [apply keeps_platform_ret|].
  apply keeps_platform_bind; [apply keeps_platform_runDocker|intros directInspect].
  destruct (code directInspect =? 0).
  { apply keeps_platform_bind; [apply keeps_platform_writeResolveCache|].
    intros; apply keeps_platform_ret. }
  apply keeps_platform_bind; [apply keeps_platform_findContainerByComposeService|].
  intros composeResolved.
  destruct (Js.truthy composeResolved); [|apply keeps_platform_throw].
  apply keeps_platform_bind; [apply keeps_platform_writeResolveCache|intros _].
  apply keeps_platform_bind; [apply keeps_platform_writeResolveCache|intros _].
  apply keeps_platform_bind; [apply keeps_platform_log|intros _]. apply keeps_platform_ret.
Qed.

Lemma keeps_platform_execInContainer cfg name args o :
  keeps_platform (execInContainer cfg name args o).
Proof.
  apply keeps_platform_bind; [apply keeps_platform_resolveContainerTarget|].
  intros c. apply keeps_platform_runDocker.
Qed.

Lemma keeps_platform_test_and_reload cfg name :
  keeps_platform (ShadowSync.test_and_reload cfg name).
Proof.
  unfold ShadowSync.test_and_reload, nginxTest.
  apply keeps_platform_bind; [apply keeps_platform_execInContainer|intros _].
  apply keeps_platform_bind; [apply keeps_platform_execInContainer|intros _].
  apply keeps_platform_ret.
Qed.

Lemma keeps_platform_tailscaleStatus cfg asJson : keeps_platform (tailscaleStatus cfg asJson).
Proof. unfold tailscaleStatus. destruct asJson; apply keeps_platform_execInContainer. Qed.

End KeepsPlatform.

(** ** Writing the shadow directory *)

Section ShadowDirectory.
Import Config State ShadowSync.

Variable shadowDir : string.

(** The host that the calls run on. *)
Variable h : host_env.

(** No other entry of the directory is a hard link to the file. *)
Definition unshared (d : gmap string dirent) (name : string) (i : N) : Prop :=
  ∀ x j c, d !! x = Some (File j c) → j = i → x = name.

(** The temporary path of the address is free, or holds a regular file
    that has no other name in the directory: no directory, no symbolic
    link and no hard link to another entry sits there. *)
Definition clear (d : gmap string dirent) (ip : string) : Prop :=
  d !! tmp ip = None ∨ ∃ i c, d !! tmp ip = Some (File i c) ∧ unshared d (tmp ip) i.

(** No directory sits at the path of the address. *)
Definition free (d : gmap string dirent) (ip : string) : Prop :=
  ∀ e, d !! conf ip ≠ Some (Subdir e).

(** The inode that the file of a backend ends on: the one of its
    temporary file when there is one, a new one otherwise. *)
Definition put_ino (d : gmap string dirent) (ip : string) : N :=
  match d !! tmp ip with
  | Some (File i _) => i
  | _ => fresh_ino d
  end.

(** What writing one backend through its temporary file makes of the
    directory, then a whole state, then the removal of stale files. *)
Definition put (d : gmap string dirent) (kv : string * string) : gmap string dirent :=
  <[conf kv.1 := File (put_ino d kv.1) (utf8_encode h kv.2)]> (delete (tmp kv.1) d).

Definition put_all (st : list (string * string)) (d : gmap string dirent) : gmap string dirent :=
  foldl put d st.

Definition remove_all (ips : list string) (d : gmap string dirent) : gmap string dirent :=
  foldl (fun d ip => delete (conf ip) d) d ips.

Lemma set_shadow_id w : set_shadow (shadow w) (fs_ops w) w = w.
Proof. by destruct w. Qed.

Lemma shadow_set_shadow d ops w : shadow (set_shadow d ops w) = d.
Proof. reflexivity. Qed.

Lemma max_ge (j : N) (l : list N) : j ∈ l → (j ≤ foldr N.max 0 l)%N.
Proof.
  induction l as [|k l IH]; [by intros ?%elem_of_nil|].
  intros [->|Hin]%elem_of_cons; simpl; [lia|]. specialize (IH Hin). lia.
Qed.

Lemma fresh_ino_lt d x j c : d !! x = Some (File j c) → (j < fresh_ino d)%N.
Proof.
  intros H. assert (Hin : j ∈ inos d).
  { unfold inos. apply list_elem_of_omap. exists (x, File j c).
    split; [by apply elem_of_map_to_list|done]. }
  apply max_ge in Hin. unfold fresh_ino. lia.
Qed.

Lemma rewrite_unshared d name i c bytes :
  d !! name = Some (File i c) → unshared d name i →
  rewrite_inode i bytes <$> d = <[name := File i bytes]> d.
Proof.
  intros Hl Hun. apply map_eq. intros x. rewrite lookup_fmap.
  destruct (decide (x = name)) as [->|Hx].
  - rewrite Hl, lookup_insert_eq. simpl. by rewrite N.eqb_refl.
  - rewrite lookup_insert_ne by done.
    destruct (d !! x) as [[j c'| |]|] eqn:E; simpl; try done.
    destruct (N.eqb_spec j i) as [->|]; [|done]. exfalso. apply Hx. by eapply Hun.
Qed.

(** With the temporary path clear, the two calls that write a backend
    succeed unless a directory sits at the path of the backend. *)
Lemma put_step ip content w r w' :
  platform w = h → clear (shadow w) ip →
  (let* _ := writeFileSync shadowDir (tmp ip) content in
   renameSync shadowDir (tmp ip) (conf ip)) w = (r, w') →
  (free (shadow w) ip ∧ r = Ok tt ∧
   w' = set_shadow (put (shadow w) (ip, content))
          (fs_ops w ++ [WriteFile (tmp ip) content; Rename (tmp ip) (conf ip)]) w) ∨
  (¬ free (shadow w) ip ∧ ∃ e, r = Throw e).
Proof.
  intros Hh Hclear. unfold bind, writeFileSync, renameSync, free, put, put_ino. simpl.
  rewrite Hh.
  pose proof (conf_not_tmp ip ip) as Hne.
  assert (Hdec : bool_decide (tmp ip = conf ip) = false).
  { apply bool_decide_eq_false_2. congruence. }
  destruct Hclear as [Et|(i & c0 & Et & Hun)]; rewrite Et; simpl.
  - rewrite lookup_insert_eq, Hdec, lookup_insert_ne by done.
    destruct (shadow w !! conf ip) as [[j c1|e1|j]|] eqn:Ec; simpl.
    + assert (Hj : (fresh_ino (shadow w) =? j)%N = false).
      { apply N.eqb_neq. apply fresh_ino_lt in Ec. lia. }
      rewrite Hj. intros [= <- <-]. left. split; [done|]. split; [done|].
      by rewrite delete_insert_eq, <- app_assoc.
    + intros [= <- <-]. right. split; [|eauto]. intros H. by apply (H e1).
    + intros [= <- <-]. left. split; [done|]. split; [done|].
      by rewrite delete_insert_eq, <- app_assoc.
    + intros [= <- <-]. left. split; [done|]. split; [done|].
      by rewrite delete_insert_eq, <- app_assoc.
  - rewrite (rewrite_unshared _ _ _ _ _ Et Hun).
    rewrite lookup_insert_eq, Hdec, lookup_insert_ne by done.
    destruct (shadow w !! conf ip) as [[j c1|e1|j]|] eqn:Ec; simpl.
    + assert (Hj : (i =? j)%N = false).
      { apply N.eqb_neq. intros <-. apply Hne. by eapply Hun. }
      rewrite Hj. intros [= <- <-]. left. split; [done|]. split; [done|].
      by rewrite delete_insert_eq, <- app_assoc.
    + intros [= <- <-]. right. split; [|eauto]. intros H. by apply (H e1).
    + intros [= <- <-]. left. split; [done|]. split; [done|].
      by rewrite delete_insert_eq, <- app_assoc.
    + intros [= <- <-]. left. split; [done|]. split; [done|].
      by rewrite delete_insert_eq, <- app_assoc.
Qed.

Lemma put_lookup_other d kv x :
  x ≠ conf kv.1 → x ≠ tmp kv.1 → put d kv !! x = d !! x.
Proof. intros H1 H2. unfold put. by rewrite lookup_insert_ne, lookup_delete_ne. Qed.

Lemma put_lookup_tmp d kv : put d kv !! tmp kv.1 = None.
Proof.
  unfold put. rewrite lookup_insert_ne by apply conf_not_tmp. by rewrite lookup_delete_eq.
Qed.

Lemma put_lookup_conf d kv :
  put d kv !! conf kv.1 = Some (File (put_ino d kv.1) (utf8_encode h kv.2)).
Proof. unfold put. by rewrite lookup_insert_eq. Qed.

(** Writing a backend leaves the temporary paths of the others clear. *)
Lemma put_clear d kv ip : clear d ip → clear (put d kv) ip.
Proof.
  intros Hc. destruct (decide (ip = kv.1)) as [->|Hne].
  { left. apply put_lookup_tmp. }
  assert (Hl : put d kv !! tmp ip = d !! tmp ip).
  { apply put_lookup_other; [|intros ?%tmp_inj; done].
    intros Heq. symmetry in Heq. by apply conf_not_tmp in Heq. }
  destruct Hc as [Hnone|(j & cj & Hj & Hun)]; [left; congruence|].
  right. exists j, cj. split; [congruence|].
  intros x j' c' Hx ->.
  destruct (decide (x = conf kv.1)) as [->|Hx1].
  { rewrite put_lookup_conf in Hx. injection Hx as Hino _. exfalso.
    unfold put_ino in Hino. destruct (d !! tmp kv.1) as [[i c0| |]|] eqn:Et.
    - subst i. apply Hne. apply tmp_inj. symmetry. by eapply Hun.
    - apply fresh_ino_lt in Hj. lia.
    - apply fresh_ino_lt in Hj. lia.
    - apply fresh_ino_lt in Hj. lia. }
  destruct (decide (x = tmp kv.1)) as [->|Hx2].
  { by rewrite put_lookup_tmp in Hx. }
  rewrite put_lookup_other in Hx by done. by eapply Hun.
Qed.

Lemma put_Subdir d kv x e :
  clear d kv.1 → free d kv.1 → (put d kv !! x = Some (Subdir e) ↔ d !! x = Some (Subdir e)).
Proof.
  intros Hc Hf.
  destruct (decide (x = conf kv.1)) as [->|Hx1].
  { rewrite put_lookup_conf. split; [done|]. intros H. by apply Hf in H. }
  destruct (decide (x = tmp kv.1)) as [->|Hx2].
  { rewrite put_lookup_tmp. split; [done|].
    destruct Hc as [->|(i & c & -> & _)]; done. }
  by rewrite put_lookup_other.
Qed.

Lemma put_free d kv ip : clear d kv.1 → free d kv.1 → (free (put d kv) ip ↔ free d ip).
Proof.
  intros Hc Hf. unfold free. split; intros H e.
  - rewrite <- (put_Subdir d kv) by done. apply H.
  - rewrite (put_Subdir d kv) by done. apply H.
Qed.

Definition drop_written (existingFiles : list string) (st : list (string * string)) : list string :=
  foldl (fun l kv => set_delete kv.1 l) existingFiles st.

Lemma write_desired_inv st existingFiles w r w' :
  platform w = h →
  Forall (clear (shadow w)) st.*1 →
  write_desired shadowDir st existingFiles w = (r, w') →
  (Forall (free (shadow w)) st.*1 ∧ r = Ok (drop_written existingFiles st) ∧
   ∃ ops, w' = set_shadow (put_all st (shadow w)) (fs_ops w ++ ops) w) ∨
  (¬ Forall (free (shadow w)) st.*1 ∧ ∃ e, r = Throw e).
Proof.
  revert existingFiles w. induction st as [|[ip content] st IH]; intros existingFiles w Hh Hclear; simpl.
  - intros [= <- <-]. left. split; [constructor|]. split; [done|].
    exists []. by rewrite app_nil_r, set_shadow_id.
  - intros H. simpl in Hclear. inversion Hclear as [|? ? Hc Hclear']; subst.
    change (bind (writeFileSync shadowDir (tmp ip) content)
              (fun _ => bind (renameSync shadowDir (tmp ip) (conf ip))
                 (fun _ => write_desired shadowDir st (set_delete ip existingFiles))) w
            = (r, w')) in H.
    rewrite <- bind_assoc in H.
    inv_bind H as u w1 Hstep.
    + apply put_step in Hstep as [(Hw & _ & ->)|(_ & e & He)]; [|discriminate He|done|done].
      apply IH in H as [(Hall & -> & ops & ->)|(Hnot & e & ->)]; simpl in *.
      * left. split; [|split; [done|]].
        -- constructor; [done|]. eapply Forall_impl; [exact Hall|].
           intros ip' Hip'. by apply (put_free _ (ip, content)).
        -- eexists. by rewrite <- app_assoc.
      * right. split; [|eauto]. intros Hall. apply Hnot.
        inversion Hall as [|? ? Hw' Hall']; subst.
        eapply Forall_impl; [exact Hall'|].
        intros ip' Hip'. by apply (put_free _ (ip, content)).
      * done.
      * eapply Forall_impl; [exact Hclear'|]. intros ip'. apply put_clear.
    + apply put_step in Hstep as [(_ & He & _)|(Hnot & _)]; [discriminate He| |done|done].
      right. split; [|eauto]. intros Hall. apply Hnot. by inversion Hall.
Qed.

Lemma put_all_snoc st kv d : put_all (st ++ [kv]) d = put (put_all st d) kv.
Proof. unfold put_all. by rewrite foldl_snoc. Qed.

Lemma put_all_clear st d ip : clear d ip → clear (put_all st d) ip.
Proof.
  induction st as [|kv st IH] using rev_ind; [done|].
  intros Hc. rewrite put_all_snoc. by apply put_clear, IH.
Qed.

Lemma put_all_tmp st d ip : ip ∈ st.*1 → put_all st d !! tmp ip = None.
Proof.
  induction st as [|kv st IH] using rev_ind; [by intros ?%elem_of_nil|].
  rewrite fmap_app, elem_of_app, put_all_snoc. simpl. intros Hin.
  unfold put. rewrite lookup_insert_ne by apply conf_not_tmp.
  destruct (decide (ip = kv.1)) as [->|Hne]; [by rewrite lookup_delete_eq|].
  rewrite lookup_delete_ne by (intros ?%tmp_inj; congruence).
  apply IH. destruct Hin as [?|Hin]; [done|].
  apply list_elem_of_singleton in Hin. done.
Qed.

Lemma put_all_conf st d ip :
  ip ∈ st.*1 →
  ∃ i content, (ip, content) ∈ st ∧ put_all st d !! conf ip = Some (File i (utf8_encode h content)).
Proof.
  induction st as [|kv st IH] using rev_ind; [by intros ?%elem_of_nil|].
  rewrite fmap_app, elem_of_app, put_all_snoc. simpl. intros Hin.
  destruct (decide (ip = kv.1)) as [->|Hne].
  - eexists _, kv.2. rewrite put_lookup_conf. split; [|done].
    apply elem_of_app. right. destruct kv. by apply list_elem_of_singleton.
  - rewrite put_lookup_other.
    + destruct Hin as [Hin|Hin]; [|by apply list_elem_of_singleton in Hin].
      destruct (IH Hin) as (i & content & Hc & Hl). exists i, content. split; [|done].
      apply elem_of_app. by left.
    + intros ?%conf_inj; congruence.
    + apply conf_not_tmp.
Qed.

Lemma put_all_other st d x :
  x ∉ tmp <$> st.*1 → x ∉ conf <$> st.*1 → put_all st d !! x = d !! x.
Proof.
  induction st as [|kv st IH] using rev_ind; [done|].
  rewrite !fmap_app, !not_elem_of_app, put_all_snoc. simpl.
  intros [Ht Ht'] [Hc Hc']. rewrite put_lookup_other.
  - by apply IH.
  - intros ->. apply Hc'. by apply list_elem_of_singleton.
  - intros ->. apply Ht'. by apply list_elem_of_singleton.
Qed.

Lemma remove_all_lookup ips d x :
  remove_all ips d !! x = if decide (x ∈ conf <$> ips) then None else d !! x.
Proof.
  revert d. induction ips as [|ip ips IH]; intros d.
  - destruct (decide (x ∈ conf <$> [])) as [H|H]; [by apply elem_of_nil in H|done].
  - change (remove_all (ip :: ips) d) with (remove_all ips (delete (conf ip) d)).
    rewrite IH, fmap_cons.
    destruct (decide (x ∈ conf <$> ips)) as [H1|H1],
             (decide (x ∈ conf ip :: (conf <$> ips))) as [H2|H2]; try done.
    + exfalso. apply H2. by right.
    + apply elem_of_cons in H2 as [->|H2]; [by rewrite lookup_delete_eq|done].
    + rewrite lookup_delete_ne; [done|]. intros <-. apply H2. by left.
Qed.

Lemma remove_all_clear ips d ip : clear d ip → clear (remove_all ips d) ip.
Proof.
  assert (Hl : ∀ x e, remove_all ips d !! x = Some e → d !! x = Some e).
  { intros x e. rewrite remove_all_lookup. by case_decide. }
  assert (Ht : remove_all ips d !! tmp ip = d !! tmp ip).
  { rewrite remove_all_lookup. rewrite decide_False; [done|].
    intros (ip' & Heq & _)%list_elem_of_fmap. symmetry in Heq. by apply conf_not_tmp in Heq. }
  intros [Hnone|(i & c & Hi & Hun)]; [left; congruence|].
  right. exists i, c. split; [congruence|].
  intros x j c' Hx Hj. apply Hl in Hx. by eapply Hun.
Qed.

Lemma rmSync_entry name w :
  (∀ e, shadow w !! name ≠ Some (Subdir e)) →
  rmSync shadowDir name w
    = (Ok tt, match shadow w !! name with
              | Some _ => set_shadow (delete name (shadow w)) (fs_ops w ++ [Remove name]) w
              | None => w
              end).
Proof.
  unfold rmSync. intros H. destruct (shadow w !! name) as [[i c|e|i]|] eqn:E; try done.
  by destruct (H e).
Qed.

Lemma remove_stale_ok ips w :
  Forall (free (shadow w)) ips →
  ∃ ops, remove_stale shadowDir ips w
         = (Ok tt, set_shadow (remove_all ips (shadow w)) (fs_ops w ++ ops) w).
Proof.
  revert w. induction ips as [|ip ips IH]; intros w Hall.
  - exists []. simpl. by rewrite app_nil_r, set_shadow_id.
  - inversion Hall as [|? ? Hip Hall']; subst.
    change (remove_stale shadowDir (ip :: ips) w)
      with (bind (rmSync shadowDir (conf ip)) (fun _ => remove_stale shadowDir ips) w).
    change (remove_all (ip :: ips) (shadow w))
      with (remove_all ips (delete (conf ip) (shadow w))).
    rewrite (bind_ok _ _ _ _ _ (rmSync_entry _ _ Hip)).
    destruct (shadow w !! conf ip) as [entry|] eqn:E.
    + edestruct (IH (set_shadow (delete (conf ip) (shadow w))
                       (fs_ops w ++ [Remove (conf ip)]) w)) as [ops Hops].
      { simpl. eapply Forall_impl; [exact Hall'|]. intros ip' Hip' e. simpl.
        destruct (decide (conf ip' = conf ip)) as [->|Hne];
          [by rewrite lookup_delete_eq|rewrite lookup_delete_ne by done; apply Hip']. }
      rewrite Hops. simpl. eexists. by rewrite <- app_assoc.
    + destruct (IH w Hall') as [ops Hops]. rewrite Hops.
      exists ops. by rewrite (delete_id (shadow w) (conf ip)).
Qed.

Lemma includes_true k l : includes k l = true ↔ k ∈ l.
Proof.
  unfold includes. rewrite existsb_exists, list_elem_of_In. split.
  - intros (x & Hx & Heq). apply String.eqb_eq in Heq. by subst.
  - intros H. exists k. split; [done|]. apply String.eqb_refl.
Qed.

Lemma elem_of_set_add x k l : x ∈ set_add k l ↔ x = k ∨ x ∈ l.
Proof.
  unfold set_add. destruct (includes k l) eqn:E.
  - apply includes_true in E. split; [auto|]. intros [->|?]; done.
  - rewrite elem_of_app, list_elem_of_singleton. tauto.
Qed.

Lemma elem_of_scan_existing entries acc ip :
  ip ∈ scan_existing entries acc ↔
  ip ∈ acc ∨ ∃ name entry, (name, entry) ∈ entries ∧ member_ip name entry = Some ip.
Proof.
  revert acc. induction entries as [|[name entry] entries IH]; intros acc; simpl.
  - split; [auto|]. intros [?|(? & ? & H & _)]; [done|]. by apply elem_of_nil in H.
  - destruct (member_ip name entry) as [ip'|] eqn:Em; rewrite IH.
    + rewrite elem_of_set_add. split.
      * intros [[->|?]|(n & e & Hin & Hm)]; [right|by left|right].
        -- exists name, entry. split; [by left|done].
        -- exists n, e. split; [by right|done].
      * intros [?|(n & e & Hin & Hm)]; [by left; right|].
        apply elem_of_cons in Hin as [[= -> ->]|Hin].
        -- left. left. congruence.
        -- right. eauto.
    + split.
      * intros [?|(n & e & Hin & Hm)]; [by left|right].
        exists n, e. split; [by right|done].
      * intros [?|(n & e & Hin & Hm)]; [by left|].
        apply elem_of_cons in Hin as [[= -> ->]|Hin]; [congruence|].
        right. eauto.
Qed.

Lemma elem_of_drop_written ip existingFiles st :
  ip ∈ drop_written existingFiles st ↔ ip ∈ existingFiles ∧ ip ∉ st.*1.
Proof.
  revert existingFiles. induction st as [|kv st IH]; intros existingFiles; simpl.
  - split; [intros ?; split; [done|apply not_elem_of_nil]|by intros [? _]].
  - change (foldl _ (set_delete kv.1 existingFiles) st)
      with (drop_written (set_delete kv.1 existingFiles) st).
    rewrite IH. unfold set_delete. rewrite list_elem_of_filter, not_elem_of_cons. tauto.
Qed.

(** The files that a write of the state removes: the members of the
    directory whose address the state lacks. *)
Definition stale (d : gmap string dirent) (st : list (string * string)) : list string :=
  drop_written (scan_existing (map_to_list d) []) st.

Definition written (d : gmap string dirent) (st : list (string * string)) : gmap string dirent :=
  remove_all (stale d st) (put_all st d).

Lemma elem_of_stale d st ip :
  ip ∈ stale d st ↔
  (∃ i content, d !! conf ip = Some (File i content)) ∧ isIpv4 ip = true ∧ ip ∉ st.*1.
Proof.
  unfold stale. rewrite elem_of_drop_written, elem_of_scan_existing. split.
  - intros [[H|(name & entry & Hin & Hm)] Hn]; [by apply elem_of_nil in H|].
    apply elem_of_map_to_list in Hin.
    apply member_ip_Some in Hm as ((i & content & ->) & -> & Hv). eauto.
  - intros ((i & content & Hl) & Hv & Hn). split; [|done]. right.
    exists (conf ip), (File i content). split; [by apply elem_of_map_to_list|].
    apply member_ip_Some. eauto.
Qed.

(** With the temporary paths of the state clear, a write of the state
    succeeds unless a directory sits at the path of a backend, and it
    then makes [written] of the directory. *)
Lemma writeShadowState_inv st w r w' :
  platform w = h →
  Forall (clear (shadow w)) st.*1 →
  writeShadowState shadowDir st w = (r, w') →
  (Forall (free (shadow w)) st.*1 ∧ r = Ok tt ∧
   ∃ ops, w' = set_shadow (written (shadow w) st) (fs_ops w ++ ops) w) ∨
  (¬ Forall (free (shadow w)) st.*1 ∧ ∃ e, r = Throw e).
Proof.
  unfold writeShadowState. intros Hh Hclear H.
  inv_bind H as currentEntries w0 Hread.
  2:{ unfold readdirSync in Hread. discriminate Hread. }
  unfold readdirSync in Hread. injection Hread as <- <-.
  inv_bind H as existingFiles w1 Hwrite;
    apply write_desired_inv in Hwrite as [(Hall & Hr & ops & ->)|(Hnot & e' & He)];
    try discriminate; try done.
  - injection Hr as ->. left. split; [done|].
    destruct (remove_stale_ok (stale (shadow w) st)
                (set_shadow (put_all st (shadow w)) (fs_ops w ++ ops) w)) as [ops' Hrm].
    { simpl. apply Forall_forall. intros ip Hip e.
      apply elem_of_stale in Hip as ((i & content & Hl) & _ & Hn).
      rewrite put_all_other, Hl; [done| |].
      - intros (ip' & Heq & _)%list_elem_of_fmap. by apply conf_not_tmp in Heq.
      - intros (ip' & Heq & Hin)%list_elem_of_fmap. apply conf_inj in Heq. congruence. }
    unfold stale in Hrm. rewrite Hrm in H. injection H as <- <-.
    split; [done|]. simpl. eexists. by rewrite <- app_assoc.
  - right. split; [done|]. eauto.
Qed.

Lemma writeShadowState_ok st w :
  platform w = h →
  Forall (clear (shadow w)) st.*1 →
  Forall (free (shadow w)) st.*1 →
  ∃ ops, writeShadowState shadowDir st w
         = (Ok tt, set_shadow (written (shadow w) st) (fs_ops w ++ ops) w).
Proof.
  intros Hh Hclear Hall. destruct (writeShadowState shadowDir st w) as [r w'] eqn:H.
  apply writeShadowState_inv in H as [(_ & -> & ops & ->)|(Hnot & _)]; [eauto|done|done|done].
Qed.

(** The entry is a file of the backend set. *)
Definition is_member (d : gmap string dirent) (x : string) : Prop :=
  ∃ entry ip, d !! x = Some entry ∧ member_ip x entry = Some ip.

Lemma conf_in_stale d st x :
  x ∉ conf <$> st.*1 → (x ∈ conf <$> stale d st ↔ is_member d x).
Proof.
  intros Hx. rewrite list_elem_of_fmap. split.
  - intros (ip & -> & Hip). apply elem_of_stale in Hip as ((i & content & Hl) & Hv & _).
    exists (File i content), ip. split; [done|]. apply member_ip_Some. eauto.
  - intros (entry & ip & Hl & Hm).
    apply member_ip_Some in Hm as ((i & content & ->) & -> & Hv).
    exists ip. split; [done|]. apply elem_of_stale. split; [eauto|]. split; [done|].
    intros Hin. apply Hx. apply list_elem_of_fmap. eauto.
Qed.

Lemma written_tmp d st ip : ip ∈ st.*1 → written d st !! tmp ip = None.
Proof.
  intros Hin. unfold written. rewrite remove_all_lookup.
  case_decide; [done|]. by apply put_all_tmp.
Qed.

Lemma written_conf d st ip :
  ip ∈ st.*1 →
  ∃ i content, (ip, content) ∈ st ∧
    written d st !! conf ip = Some (File i (utf8_encode h content)).
Proof.
  intros Hin. destruct (put_all_conf st d ip Hin) as (i & content & Hc & Hl).
  exists i, content. split; [done|]. unfold written. rewrite remove_all_lookup.
  case_decide as Hs; [|done]. exfalso.
  apply list_elem_of_fmap in Hs as (ip' & Heq & Hs). apply conf_inj in Heq as <-.
  apply elem_of_stale in Hs as (_ & _ & Hn). done.
Qed.

Lemma written_other d st x :
  x ∉ tmp <$> st.*1 → x ∉ conf <$> st.*1 →
  (is_member d x → written d st !! x = None) ∧
  (¬ is_member d x → written d st !! x = d !! x).
Proof.
  intros Ht Hc. unfold written. rewrite remove_all_lookup.
  pose proof (conf_in_stale d st x Hc) as Hs.
  case_decide as Hd; split; intros Hm; try done; try tauto.
  by apply put_all_other.
Qed.

Lemma written_clear d st ip : clear d ip → clear (written d st) ip.
Proof. intros Hc. unfold written. by apply remove_all_clear, put_all_clear. Qed.

Lemma is_member_dec d x : is_member d x ∨ ¬ is_member d x.
Proof.
  unfold is_member. destruct (d !! x) as [entry|] eqn:E.
  - destruct (member_ip x entry) as [ip|] eqn:Em.
    + left. eauto.
    + right. intros (entry' & ip & [= <-] & Hm). congruence.
  - right. intros (entry & ip & H & _). done.
Qed.

(** Every file of a valid address that a write leaves is one that it
    wrote. *)
Lemma written_member d st ip i content :
  written d st !! conf ip = Some (File i content) → isIpv4 ip = true → ip ∈ st.*1.
Proof.
  intros Hl Hv. destruct (decide (ip ∈ st.*1)) as [|Hn]; [done|]. exfalso.
  assert (Hc : conf ip ∉ conf <$> st.*1).
  { intros (ip' & Heq & Hin)%list_elem_of_fmap. apply conf_inj in Heq. congruence. }
  assert (Ht : conf ip ∉ tmp <$> st.*1).
  { intros (ip' & Heq & _)%list_elem_of_fmap. by apply conf_not_tmp in Heq. }
  destruct (written_other d st (conf ip) Ht Hc) as [Hmem Hnot].
  destruct (is_member_dec d (conf ip)) as [Hm|Hm].
  - rewrite Hmem in Hl by done. discriminate.
  - rewrite Hnot in Hl by done. apply Hm.
    exists (File i content), ip. split; [done|]. apply member_ip_Some. eauto.
Qed.

(** *** The snapshot that a cycle reads *)

(** The state holds, for each member file of the directory and for
    nothing else, the address of the file with the text decoded from
    its bytes. *)
Definition snapshot (d : gmap string dirent) (st : list (string * string)) : Prop :=
  (∀ ip text, (ip, text) ∈ st →
     ∃ i content, d !! conf ip = Some (File i content) ∧ text = utf8_decode h content ∧
                  isIpv4 ip = true) ∧
  (∀ ip i content, d !! conf ip = Some (File i content) → isIpv4 ip = true → ip ∈ st.*1).

Lemma elem_of_map_set k v k' v' m :
  (k, v) ∈ map_set k' v' m → (k, v) = (k', v') ∨ (k, v) ∈ m.
Proof.
  induction m as [|[k0 v0] m IH]; simpl.
  - intros H. apply list_elem_of_singleton in H. by left.
  - destruct (String.eqb k0 k').
    + intros [?|?]%elem_of_cons; [by left|right; by right].
    + intros [->|H]%elem_of_cons; [right; by left|].
      destruct (IH H) as [?|?]; [by left|right; by right].
Qed.

Lemma map_set_keys k k' v' m : k ∈ (map_set k' v' m).*1 ↔ k = k' ∨ k ∈ m.*1.
Proof.
  induction m as [|[k0 v0] m IH]; simpl.
  - rewrite list_elem_of_singleton. split; [auto|]. intros [?|H]; [done|]. by apply elem_of_nil in H.
  - destruct (String.eqb k0 k') eqn:E.
    + apply String.eqb_eq in E as ->. simpl. rewrite !elem_of_cons. tauto.
    + simpl. rewrite !elem_of_cons, IH. tauto.
Qed.

Lemma readShadowFiles_loop_ok entries state w :
  platform w = h →
  (∀ name entry, (name, entry) ∈ entries → shadow w !! name = Some entry) →
  ∃ state', readShadowFiles_loop shadowDir entries state w = (Ok state', w) ∧
    (∀ ip text, (ip, text) ∈ state' →
       (ip, text) ∈ state ∨
       ∃ name i content, (name, File i content) ∈ entries ∧
         member_ip name (File i content) = Some ip ∧ text = utf8_decode h content) ∧
    (∀ ip, ip ∈ state.*1 ∨ (∃ name entry, (name, entry) ∈ entries ∧ member_ip name entry = Some ip)
           → ip ∈ state'.*1).
Proof.
  intros Hh. revert state. induction entries as [|[name entry] entries IH]; intros state Hin.
  - exists state. split; [done|]. split; [auto|].
    intros ip [?|(? & ? & H & _)]; [done|]. by apply elem_of_nil in H.
  - assert (Hrest : ∀ n e, (n, e) ∈ entries → shadow w !! n = Some e).
    { intros n e Hne. apply Hin. by right. }
    simpl. destruct (member_ip name entry) as [ip0|] eqn:Em.
    + apply member_ip_Some in Em as Hfile. destruct Hfile as ((i0 & content0 & ->) & Hname & Hv).
      assert (Hread : readFileSync shadowDir name w = (Ok (utf8_decode h content0), w)).
      { unfold readFileSync. rewrite (Hin name (File i0 content0)) by by left. by rewrite Hh. }
      rewrite (bind_ok _ _ _ _ _ Hread).
      destruct (IH (map_set ip0 (utf8_decode h content0) state) Hrest)
        as (state' & Hrun & Hsub & Hkeys).
      exists state'. split; [done|]. split.
      * intros ip text Hic. destruct (Hsub ip text Hic) as [Hs|(n & i & c & Hn & Hm & Ht)].
        -- apply elem_of_map_set in Hs as [[= -> ->]|Hs]; [|by left].
           right. exists name, i0, content0. split; [by left|done].
        -- right. exists n, i, c. split; [by right|done].
      * intros ip Hip. apply Hkeys. rewrite map_set_keys.
        destruct Hip as [?|(n & e & Hne & Hm)]; [by left; right|].
        apply elem_of_cons in Hne as [[= -> ->]|Hne].
        -- left. left. congruence.
        -- right. eauto.
    + destruct (IH state Hrest) as (state' & Hrun & Hsub & Hkeys).
      exists state'. split; [done|]. split.
      * intros ip text Hic.
        destruct (Hsub ip text Hic) as [?|(n & i & c & Hn & Hm & Ht)]; [by left|].
        right. exists n, i, c. split; [by right|done].
      * intros ip Hip. apply Hkeys.
        destruct Hip as [?|(n & e & Hne & Hm)]; [by left|].
        apply elem_of_cons in Hne as [[= -> ->]|Hne]; [congruence|].
        right. eauto.
Qed.

(** Reading the directory changes nothing and returns its snapshot. *)
Lemma readShadowFiles_snapshot w :
  platform w = h →
  ∃ st, readShadowFiles shadowDir w = (Ok st, w) ∧ snapshot (shadow w) st.
Proof.
  intros Hh. unfold readShadowFiles.
  destruct (readShadowFiles_loop_ok (map_to_list (shadow w)) [] w Hh)
    as (st & Hrun & Hsub & Hkeys).
  { intros name entry. apply elem_of_map_to_list. }
  exists st. split.
  - unfold bind, readdirSync. exact Hrun.
  - split.
    + intros ip text Hic. destruct (Hsub ip text Hic) as [H|(name & i & c & Hin & Hm & Ht)];
        [by apply elem_of_nil in H|].
      apply elem_of_map_to_list in Hin.
      apply member_ip_Some in Hm as (_ & -> & Hv). eauto.
    + intros ip i content Hl Hv. apply Hkeys. right.
      exists (conf ip), (File i content). split; [by apply elem_of_map_to_list|].
      apply member_ip_Some. eauto.
Qed.

(** *** A write of the new state, undone by a write of the snapshot *)

Lemma not_member_tmp d ip : ¬ is_member d (tmp ip).
Proof.
  intros (entry & ip' & _ & Hm). apply member_ip_Some in Hm as (_ & Heq & _).
  symmetry in Heq. by apply conf_not_tmp in Heq.
Qed.

Lemma rollback_tmp d previous desired x :
  x ∈ tmp <$> (previous.*1 ++ desired.*1) →
  written (written d desired) previous !! x = None.
Proof.
  rewrite fmap_app, elem_of_app. intros Hx.
  destruct (decide (x ∈ tmp <$> previous.*1)) as [Htp|Htp].
  { apply list_elem_of_fmap in Htp as (ip & -> & Hip). by apply written_tmp. }
  destruct Hx as [?|Htd]; [done|].
  apply list_elem_of_fmap in Htd as (ip & -> & Hip).
  destruct (written_other (written d desired) previous (tmp ip) Htp) as [_ Hnot].
  { intros (ip' & Heq & _)%list_elem_of_fmap. symmetry in Heq. by apply conf_not_tmp in Heq. }
  rewrite Hnot by apply not_member_tmp. by apply written_tmp.
Qed.

Lemma rollback_previous d previous desired ip i content :
  snapshot d previous →
  d !! conf ip = Some (File i content) → isIpv4 ip = true →
  ∃ i', written (written d desired) previous !! conf ip
        = Some (File i' (utf8_encode h (utf8_decode h content))).
Proof.
  intros [Hsnap1 Hsnap2] Hl Hv.
  destruct (written_conf (written d desired) previous ip (Hsnap2 ip i content Hl Hv))
    as (i' & text & Hin & Hw).
  destruct (Hsnap1 ip text Hin) as (i0 & content0 & Hl0 & -> & _).
  exists i'. rewrite Hw. congruence.
Qed.

Lemma rollback_added d previous desired ip :
  Forall (fun kv => isIpv4 kv.1 = true) desired →
  ip ∈ desired.*1 → ip ∉ previous.*1 →
  written (written d desired) previous !! conf ip = None.
Proof.
  intros Hvalid Hin Hnot.
  destruct (written_conf d desired ip Hin) as (i & text & Hc & Hl).
  assert (Hv : isIpv4 ip = true).
  { by apply (proj1 (Forall_forall _ _) Hvalid (ip, text)). }
  apply written_other.
  - intros (ip' & Heq & _)%list_elem_of_fmap. by apply conf_not_tmp in Heq.
  - intros (ip' & Heq & ?)%list_elem_of_fmap. apply conf_inj in Heq. congruence.
  - eexists _, ip. split; [exact Hl|]. apply member_ip_Some. eauto.
Qed.

Lemma rollback_other d previous desired x :
  snapshot d previous →
  x ∉ tmp <$> (previous.*1 ++ desired.*1) →
  x ∉ conf <$> desired.*1 →
  ¬ is_member d x →
  written (written d desired) previous !! x = d !! x.
Proof.
  rewrite fmap_app, not_elem_of_app. intros [Hsnap1 _] [Htp Htd] Hcd Hnm.
  destruct (written_other d desired x Htd Hcd) as [_ Hsame].
  specialize (Hsame Hnm).
  assert (Hnm1 : ¬ is_member (written d desired) x).
  { intros (entry & ip & Hl & Hm). apply Hnm. exists entry, ip. by rewrite <- Hsame. }
  assert (Hcp : x ∉ conf <$> previous.*1).
  { intros (ip & -> & ([ip' text] & -> & Hin)%list_elem_of_fmap)%list_elem_of_fmap.
    simpl in *. destruct (Hsnap1 ip' text Hin) as (i & content & Hl & _ & Hv).
    apply Hnm. exists (File i content), ip'. split; [done|]. apply member_ip_Some. eauto. }
  destruct (written_other (written d desired) previous x Htp Hcp) as [_ Hnot].
  by rewrite Hnot.
Qed.

End ShadowDirectory.

(** ** The rollback *)

Section Rollback.
Import Config State ShadowSync.

(** The world once the failure of the validation or of the reload is
    logged, and the world once the validation and the reload have been
    attempted again, one time, a second failure being logged. *)
Definition rollback_started (e : error) (w : world) : world :=
  snd (Logger.error "tailscale-sync" e "nginx test/reload failed, rollback started" Json.Null w).

Definition retried (cfg : config) (nginxContainerName : string) (w : world) : world :=
  match test_and_reload cfg nginxContainerName w with
  | (Ok _, w') => w'
  | (Throw rollbackError, w') =>
      snd (Logger.error "tailscale-sync" rollbackError "rollback reload failed" Json.Null w')
  end.

Lemma retried_shadow cfg name w : shadow (retried cfg name w) = shadow w.
Proof.
  unfold retried. destruct (test_and_reload cfg name w) as [[u|e] w'] eqn:H;
    apply keeps_test_and_reload in H as [Hs _]; done.
Qed.

(** When the validation or the reload fails after the desired state was
    written, and the snapshot is then written back, the validation and
    the reload are attempted once more, and the first error is thrown. *)
Lemma applyStateWithRollback_fails cfg shadowDir name previous desired w w1 e w2 w3 :
  writeShadowState shadowDir desired w = (Ok tt, w1) →
  test_and_reload cfg name w1 = (Throw e, w2) →
  writeShadowState shadowDir previous (rollback_started e w2) = (Ok tt, w3) →
  applyStateWithRollback cfg shadowDir previous desired name w
    = (Throw e, retried cfg name w3).
Proof.
  intros Hwrite Hfail Hback. unfold applyStateWithRollback.
  rewrite (bind_ok _ _ _ _ _ Hwrite). unfold try_catch at 1. rewrite Hfail.
  unfold bind at 1. unfold Logger.error at 1, Logger.write at 1, modify at 1.
  change (set_logged _ w2) with (rollback_started e w2).
  rewrite (bind_ok _ _ _ _ _ Hback).
  unfold bind, try_catch, retried, throw.
  destruct (test_and_reload cfg name w3) as [[u|e2] w4]; reflexivity.
Qed.

(** The directory between the two writes. *)
Lemma rollback_between cfg shadowDir name desired w w1 e w2 :
  Forall (clear (shadow w)) desired.*1 →
  writeShadowState shadowDir desired w = (Ok tt, w1) →
  test_and_reload cfg name w1 = (Throw e, w2) →
  Forall (free (shadow w)) desired.*1 ∧
  platform (rollback_started e w2) = platform w ∧
  shadow (rollback_started e w2) = written (platform w) (shadow w) desired.
Proof.
  intros Hclear Hwrite Hfail.
  apply (writeShadowState_inv shadowDir (platform w)) in Hwrite as Hw1; [|done|done].
  destruct Hw1 as [(Hall & _ & ops & Hw1)|(_ & e' & He')]; [|discriminate He'].
  apply keeps_test_and_reload in Hfail as Hkeep. destruct Hkeep as [Hs2 _].
  apply keeps_platform_test_and_reload in Hfail as Hp2.
  split; [done|]. unfold rollback_started. simpl. rewrite Hs2, Hp2, Hw1. done.
Qed.

(** With the temporary paths of both states clear, the snapshot is what
    the second write is made on, and nothing in the directory makes it
    fail. *)
Lemma rollback_written cfg shadowDir name previous desired w w1 e w2 w3 :
  (∀ ip, ip ∈ previous.*1 ∨ ip ∈ desired.*1 → clear (shadow w) ip) →
  writeShadowState shadowDir desired w = (Ok tt, w1) →
  test_and_reload cfg name w1 = (Throw e, w2) →
  writeShadowState shadowDir previous (rollback_started e w2) = (Ok tt, w3) →
  shadow w3 = written (platform w) (written (platform w) (shadow w) desired) previous.
Proof.
  intros Hclear Hwrite Hfail Hback.
  destruct (rollback_between cfg shadowDir name desired w w1 e w2) as (_ & Hp & Hs); try done.
  { apply Forall_forall. intros ip Hip. apply Hclear. by right. }
  apply (writeShadowState_inv shadowDir (platform w)) in Hback.
  - destruct Hback as [(_ & _ & ops & ->)|(_ & e' & He')]; [|discriminate He'].
    by rewrite shadow_set_shadow, Hs.
  - done.
  - rewrite Hs. apply Forall_forall. intros ip Hip. apply written_clear, Hclear. by left.
Qed.

Lemma rollback_write_ok cfg shadowDir name previous desired w w1 e w2 :
  snapshot (platform w) (shadow w) previous →
  (∀ ip, ip ∈ previous.*1 ∨ ip ∈ desired.*1 → clear (shadow w) ip) →
  writeShadowState shadowDir desired w = (Ok tt, w1) →
  test_and_reload cfg name w1 = (Throw e, w2) →
  ∃ w3, writeShadowState shadowDir previous (rollback_started e w2) = (Ok tt, w3).
Proof.
  intros [Hsnap1 _] Hclear Hwrite Hfail.
  destruct (rollback_between cfg shadowDir name desired w w1 e w2) as (_ & Hp & Hs); try done.
  { apply Forall_forall. intros ip Hip. apply Hclear. by right. }
  destruct (writeShadowState_ok shadowDir (platform w) previous (rollback_started e w2))
    as [ops Hok]; [done| | |eauto].
  - rewrite Hs. apply Forall_forall. intros ip Hip. apply written_clear, Hclear. by left.
  - rewrite Hs. apply Forall_forall.
    intros ip ([ip' text] & -> & Hin)%list_elem_of_fmap dir. simpl.
    destruct (Hsnap1 ip' text Hin) as (i & content & Hl & _ & Hv).
    destruct (decide (ip' ∈ desired.*1)) as [Hd|Hd].
    + destruct (written_conf (platform w) (shadow w) desired ip' Hd) as (i' & t' & _ & ->).
      done.
    + destruct (written_other (platform w) (shadow w) desired (conf ip')) as [Hmem _].
      * intros (ip'' & Heq & _)%list_elem_of_fmap. by apply conf_not_tmp in Heq.
      * intros (ip'' & Heq & ?)%list_elem_of_fmap. apply conf_inj in Heq. congruence.
      * rewrite Hmem; [done|]. eexists _, ip'. split; [exact Hl|].
        apply member_ip_Some. eauto.
Qed.

End Rollback.

(** ** The comparison of a cycle *)

Section StateMaps.
Import Config State ShadowSync.

Lemma map_has_true k (m : list (string * string)) : map_has k m = true ↔ k ∈ m.*1.
Proof.
  unfold map_has. rewrite existsb_exists, list_elem_of_fmap. split.
  - intros (kv & Hin & Heq). apply String.eqb_eq in Heq. apply list_elem_of_In in Hin. eauto.
  - intros (kv & -> & Hin). exists kv. split; [by apply list_elem_of_In|apply String.eqb_refl].
Qed.

Lemma map_has_false k (m : list (string * string)) : map_has k m = false ↔ k ∉ m.*1.
Proof. rewrite <- map_has_true. by destruct (map_has k m). Qed.

Lemma desired_state_keys cfg nextIps k : k ∈ (desired_state cfg nextIps).*1 ↔ k ∈ nextIps.
Proof.
  unfold desired_state.
  assert (H : ∀ m, k ∈ (foldl (fun m ip => map_set ip (renderShadowContent ip (shadowPort cfg)) m)
                          m nextIps).*1 ↔ k ∈ m.*1 ∨ k ∈ nextIps).
  { induction nextIps as [|ip l IH]; intros m; simpl.
    - split; [auto|]. intros [?|H]; [done|]. by apply elem_of_nil in H.
    - rewrite IH, map_set_keys, elem_of_cons. tauto. }
  rewrite H. simpl. split; [|auto]. intros [H'|?]; [|done]. by apply elem_of_nil in H'.
Qed.

Lemma desired_state_content cfg nextIps ip content :
  (ip, content) ∈ desired_state cfg nextIps → ip ∈ nextIps.
Proof.
  intros H. apply desired_state_keys with (cfg := cfg).
  apply list_elem_of_fmap. by exists (ip, content).
Qed.

Lemma elem_of_List_filter (f : string → bool) x l : x ∈ List.filter f l ↔ x ∈ l ∧ f x = true.
Proof. rewrite !list_elem_of_In. apply filter_In. Qed.

Lemma length_pos_iff {A} (l : list A) : (0 <? length l)%nat = true ↔ l ≠ [].
Proof. destruct l; simpl; split; done. Qed.

End StateMaps.

Section Comparison.
Import Config State ShadowSync.

Variable localeCompare : string → string → Z.

Lemma elem_of_sort_insert x y l : x ∈ sort_insert localeCompare y l ↔ x = y ∨ x ∈ l.
Proof.
  induction l as [|z l IH]; simpl.
  - rewrite list_elem_of_singleton. split; [auto|]. intros [?|H]; [done|]. by apply elem_of_nil in H.
  - destruct (localeCompare y z <=? 0).
    + rewrite elem_of_cons. tauto.
    + rewrite !elem_of_cons, IH. tauto.
Qed.

Lemma elem_of_sort x l : x ∈ sort localeCompare l ↔ x ∈ l.
Proof.
  unfold sort. induction l as [|y l IH]; simpl; [done|].
  rewrite elem_of_sort_insert, IH, elem_of_cons. tauto.
Qed.

(** What the comparison gives, as sets of addresses. *)
Lemma scan_sets cfg previousState nextIps :
  let result := scan localeCompare previousState (desired_state cfg nextIps) nextIps in
  (∀ ip, ip ∈ previousIps result ↔ ip ∈ previousState.*1) ∧
  (∀ ip, ip ∈ added result ↔ ip ∈ nextIps ∧ ip ∉ previousState.*1) ∧
  (∀ ip, ip ∈ removed result ↔ ip ∈ previousState.*1 ∧ ip ∉ nextIps) ∧
  (changed result = true ↔ added result ≠ [] ∨ removed result ≠ []).
Proof.
  simpl. split; [|split; [|split]].
  - intros ip. apply elem_of_sort.
  - intros ip. rewrite elem_of_List_filter, negb_true_iff, map_has_false. done.
  - intros ip. rewrite elem_of_List_filter, negb_true_iff, map_has_false, elem_of_sort.
    by rewrite desired_state_keys.
  - rewrite orb_true_iff, !length_pos_iff. done.
Qed.

Lemma scan_equal_sets cfg previousState nextIps :
  (∀ ip, ip ∈ previousState.*1 ↔ ip ∈ nextIps) →
  changed (scan localeCompare previousState (desired_state cfg nextIps) nextIps) = false.
Proof.
  intros Heq. destruct (scan_sets cfg previousState nextIps) as (_ & Ha & Hr & Hc).
  apply not_true_is_false. rewrite Hc. intros [Hne|Hne].
  - destruct (added _) as [|ip l] eqn:E; [done|].
    assert (Hin : ip ∈ ip :: l) by by left.
    apply Ha in Hin as [H1 H2]. apply H2. by apply Heq.
  - destruct (removed _) as [|ip l] eqn:E; [done|].
    assert (Hin : ip ∈ ip :: l) by by left.
    apply Hr in Hin as [H1 H2]. apply H2. by apply Heq.
Qed.

End Comparison.

(** ** The reconciliation cycle *)

Section Cycle.
Import Config State ShadowSync.

Variable JSON_parse : string → Json.value + string.
Variable localeCompare : string → string → Z.

(** The address has a member file in the directory. *)
Definition on_disk (d : gmap string dirent) (ip : string) : Prop :=
  (∃ i content, d !! conf ip = Some (File i content)) ∧ isIpv4 ip = true.

Lemma snapshot_on_disk h d st ip : snapshot h d st → (ip ∈ st.*1 ↔ on_disk d ip).
Proof.
  intros [H1 H2]. unfold on_disk. split.
  - intros ([ip' text] & -> & Hin)%list_elem_of_fmap. simpl.
    destruct (H1 ip' text Hin) as (i & content & Hl & _ & Hv). eauto.
  - intros [(i & content & Hl) Hv]. eauto.
Qed.

(** The world once the comparison is logged. *)
Definition scan_logged (result : sync_result) (w : world) : world :=
  snd (Logger.info "tailscale-sync" "tailscale scan result"
         (Json.Obj [ ("previousIps", ips_meta (previousIps result));
                     ("nextIps", ips_meta (nextIps result));
                     ("added", ips_meta (added result));
                     ("removed", ips_meta (removed result));
                     ("changed", Json.Bool (changed result)) ]) w).

(** A cycle whose status query and decoding succeed reads the snapshot
    of the directory, compares, logs, and then returns when nothing
    changed and applies the desired state otherwise. *)
Lemma runTailscaleShadowSync_steps cfg w statusResult w0 payload :
  DockerClient.tailscaleStatus cfg true w = (Ok statusResult, w0) →
  JSON_parse (Js.or_else (stdout statusResult) "{}") = inl payload →
  ∃ previousState,
    snapshot (platform w) (shadow w) previousState ∧
    readShadowFiles (shadowDir cfg) w0 = (Ok previousState, w0) ∧
    shadow w0 = shadow w ∧ fs_ops w0 = fs_ops w ∧ platform w0 = platform w ∧
    let nextIps := extractActivePeerIps localeCompare payload in
    let nextState := desired_state cfg nextIps in
    let result := scan localeCompare previousState nextState nextIps in
    runTailscaleShadowSync JSON_parse localeCompare cfg w =
      if negb (changed result) then
        (Ok {| changed := false; previousIps := previousIps result; nextIps := nextIps;
               added := added result; removed := removed result |},
         scan_logged result w0)
      else
        (let* _ := applyStateWithRollback cfg (shadowDir cfg) previousState nextState
                     (nginxContainer cfg) in
         let* _ := Logger.info "tailscale-sync" "shadow files synced and nginx reloaded"
                     (Json.Obj [ ("added", ips_meta (added result));
                                 ("removed", ips_meta (removed result)) ]) in
         ret {| changed := true; previousIps := previousIps result; nextIps := nextIps;
                added := added result; removed := removed result |})
          (scan_logged result w0).
Proof.
  intros Hstatus Hparse.
  apply keeps_tailscaleStatus in Hstatus as Hkeep. destruct Hkeep as [Hs Hf].
  apply keeps_platform_tailscaleStatus in Hstatus as Hp.
  destruct (readShadowFiles_snapshot (shadowDir cfg) (platform w) w0 Hp)
    as (previousState & Hread & Hsnap).
  exists previousState. rewrite Hs in Hsnap.
  split; [done|]. split; [done|]. split; [done|]. split; [done|]. split; [done|].
  intros nextIps nextState result.
  unfold runTailscaleShadowSync.
  rewrite (bind_ok _ _ _ _ _ Hstatus), Hparse.
  rewrite (bind_ok _ _ _ _ _ Hread).
  fold nextIps. fold nextState. fold result.
  unfold scan_logged.
  destruct (changed result) eqn:Hc; reflexivity.
Qed.

Lemma sync_result_eta (r : sync_result) (b : bool) :
  changed r = b →
  {| changed := b; previousIps := previousIps r; nextIps := nextIps r;
     added := added r; removed := removed r |} = r.
Proof. destruct r. simpl. by intros ->. Qed.

(** The result that a cycle returns is the comparison of the snapshot
    of the directory with the active addresses of the status. *)
Lemma runTailscaleShadowSync_result cfg w result w' :
  runTailscaleShadowSync JSON_parse localeCompare cfg w = (Ok result, w') →
  ∃ statusResult w0 payload previousState,
    DockerClient.tailscaleStatus cfg true w = (Ok statusResult, w0) ∧
    JSON_parse (Js.or_else (stdout statusResult) "{}") = inl payload ∧
    snapshot (platform w) (shadow w) previousState ∧
    shadow w0 = shadow w ∧ fs_ops w0 = fs_ops w ∧
    result = scan localeCompare previousState
               (desired_state cfg (extractActivePeerIps localeCompare payload))
               (extractActivePeerIps localeCompare payload) ∧
    (changed result = false → w' = scan_logged result w0).
Proof.
  intros Hrun.
  destruct (DockerClient.tailscaleStatus cfg true w) as [[statusResult|e] w0] eqn:Hstatus.
  2:{ unfold runTailscaleShadowSync in Hrun. by rewrite (bind_throw _ _ _ _ _ Hstatus) in Hrun. }
  destruct (JSON_parse (Js.or_else (stdout statusResult) "{}")) as [payload|message] eqn:Hparse.
  2:{ unfold runTailscaleShadowSync in Hrun.
      rewrite (bind_ok _ _ _ _ _ Hstatus), Hparse in Hrun. discriminate Hrun. }
  destruct (runTailscaleShadowSync_steps cfg w statusResult w0 payload Hstatus Hparse)
    as (previousState & Hsnap & _ & Hs & Hf & _ & Hsteps).
  cbv zeta in Hsteps. rewrite Hsteps in Hrun.
  exists statusResult, w0, payload, previousState.
  split; [done|]. split; [done|]. split; [done|]. split; [done|]. split; [done|].
  set (nextIps := extractActivePeerIps localeCompare payload) in *.
  set (scanned := scan localeCompare previousState (desired_state cfg nextIps) nextIps) in *.
  pose proof (sync_result_eta scanned) as Heta. change (State.nextIps scanned) with nextIps in Heta.
  destruct (changed scanned) eqn:Hc; cbn [negb] in Hrun.
  - inv_bind Hrun as u w1 Happly. inv_bind Hrun as u' w2 Hlog.
    injection Hrun as Hr Hw.
    assert (result = scanned) as -> by (rewrite <- Hr; exact (Heta true eq_refl)).
    split; [done|]. by rewrite Hc.
  - injection Hrun as Hr Hw.
    assert (result = scanned) as -> by (rewrite <- Hr; exact (Heta false eq_refl)).
    done.
Qed.

(** C4.  Whatever the directory and the status of the overlay network,
    the result that a cycle returns has, as the next addresses, the
    active addresses derived from the status; as the previous ones, the
    addresses on disk; as added, the next addresses that are not on
    disk; as removed, the addresses on disk that are not next; and as
    changed, whether one of the two is not empty.  A cycle that returns
    changed as false has left the directory as it was, without a call
    that writes or deletes a file, and when the addresses on disk are
    the active ones the cycle does return so.  With 10.0.0.2 and
    10.0.0.5 on disk and 10.0.0.5 and 10.0.0.10 next, 10.0.0.10 is
    added, 10.0.0.2 is removed and changed is true.  The same holds of
    the comparison that the cycle makes, whatever the state read and
    the active addresses. *)
Theorem shadow_diff (cfg : config) :
  (∀ w result w',
     runTailscaleShadowSync JSON_parse localeCompare cfg w = (Ok result, w') →
     (∃ statusResult w0 payload,
        DockerClient.tailscaleStatus cfg true w = (Ok statusResult, w0) ∧
        JSON_parse (Js.or_else (stdout statusResult) "{}") = inl payload ∧
        nextIps result = extractActivePeerIps localeCompare payload) ∧
     (∀ ip, ip ∈ previousIps result ↔ on_disk (shadow w) ip) ∧
     (∀ ip, ip ∈ added result ↔ ip ∈ nextIps result ∧ ¬ on_disk (shadow w) ip) ∧
     (∀ ip, ip ∈ removed result ↔ on_disk (shadow w) ip ∧ ip ∉ nextIps result) ∧
     (changed result = true ↔ added result ≠ [] ∨ removed result ≠ []) ∧
     (changed result = false → shadow w' = shadow w ∧ fs_ops w' = fs_ops w)) ∧
  (∀ w result w',
     runTailscaleShadowSync JSON_parse localeCompare cfg w = (Ok result, w') →
     (∀ ip, on_disk (shadow w) ip ↔ ip ∈ ["10.0.0.2"; "10.0.0.5"]) →
     (∀ ip, ip ∈ nextIps result ↔ ip ∈ ["10.0.0.5"; "10.0.0.10"]) →
     (∀ ip, ip ∈ added result ↔ ip = "10.0.0.10") ∧
     (∀ ip, ip ∈ removed result ↔ ip = "10.0.0.2") ∧
     changed result = true) ∧
  (∀ w statusResult w0 payload,
     DockerClient.tailscaleStatus cfg true w = (Ok statusResult, w0) →
     JSON_parse (Js.or_else (stdout statusResult) "{}") = inl payload →
     (∀ ip, on_disk (shadow w) ip ↔ ip ∈ extractActivePeerIps localeCompare payload) →
     ∃ result w',
       runTailscaleShadowSync JSON_parse localeCompare cfg w = (Ok result, w') ∧
       changed result = false ∧ added result = [] ∧ removed result = [] ∧
       shadow w' = shadow w ∧ fs_ops w' = fs_ops w) ∧
  (∀ previousState nextIps,
     let result := scan localeCompare previousState (desired_state cfg nextIps) nextIps in
     (∀ ip, ip ∈ added result ↔ ip ∈ nextIps ∧ ip ∉ previousState.*1) ∧
     (∀ ip, ip ∈ removed result ↔ ip ∈ previousState.*1 ∧ ip ∉ nextIps) ∧
     (changed result = true ↔ added result ≠ [] ∨ removed result ≠ []) ∧
     ((∀ ip, ip ∈ previousState.*1 ↔ ip ∈ nextIps) → changed result = false)) ∧
  (∀ content2 content5,
     let result := scan localeCompare [("10.0.0.2", content2); ("10.0.0.5", content5)]
                     (desired_state cfg ["10.0.0.5"; "10.0.0.10"]) ["10.0.0.5"; "10.0.0.10"] in
     added result = ["10.0.0.10"] ∧ removed result = ["10.0.0.2"] ∧ changed result = true).
Proof.
  assert (Hgeneral : ∀ w result w',
     runTailscaleShadowSync JSON_parse localeCompare cfg w = (Ok result, w') →
     (∃ statusResult w0 payload,
        DockerClient.tailscaleStatus cfg true w = (Ok statusResult, w0) ∧
        JSON_parse (Js.or_else (stdout statusResult) "{}") = inl payload ∧
        nextIps result = extractActivePeerIps localeCompare payload) ∧
     (∀ ip, ip ∈ previousIps result ↔ on_disk (shadow w) ip) ∧
     (∀ ip, ip ∈ added result ↔ ip ∈ nextIps result ∧ ¬ on_disk (shadow w) ip) ∧
     (∀ ip, ip ∈ removed result ↔ on_disk (shadow w) ip ∧ ip ∉ nextIps result) ∧
     (changed result = true ↔ added result ≠ [] ∨ removed result ≠ []) ∧
     (changed result = false → shadow w' = shadow w ∧ fs_ops w' = fs_ops w)).
  { intros w result w' Hrun.
    apply runTailscaleShadowSync_result in Hrun
      as (statusResult & w0 & payload & previousState & Hstatus & Hparse & Hsnap & Hs & Hf
          & -> & Hsame).
    destruct (scan_sets localeCompare cfg previousState
                (extractActivePeerIps localeCompare payload)) as (Hp & Ha & Hr & Hc).
    cbv zeta in Hp, Ha, Hr, Hc.
    pose proof (λ ip, snapshot_on_disk _ _ _ ip Hsnap) as Hdisk.
    split; [by exists statusResult, w0, payload|].
    split; [intros ip; by rewrite Hp, Hdisk|].
    split; [intros ip; by rewrite Ha, Hdisk|].
    split; [intros ip; by rewrite Hr, Hdisk|].
    split; [exact Hc|].
    intros Hfalse. rewrite (Hsame Hfalse). split; [exact Hs|exact Hf]. }
  split; [exact Hgeneral|]. split; [|split; [|split]].
  - intros w result w' Hrun Hdisk Hnext.
    destruct (Hgeneral w result w' Hrun) as (_ & _ & Ha & Hr & Hc & _).
    assert (Hadded : ∀ ip, ip ∈ added result ↔ ip = "10.0.0.10").
    { intros ip. rewrite Ha, Hnext, Hdisk. rewrite !elem_of_cons, !elem_of_nil.
      split; [intros [[->|[->|[]]] Hn]; [exfalso; apply Hn; auto|done]|].
      intros ->. split; [auto|]. intros [?|[?|[]]]; done. }
    assert (Hremoved : ∀ ip, ip ∈ removed result ↔ ip = "10.0.0.2").
    { intros ip. rewrite Hr, Hnext, Hdisk. rewrite !elem_of_cons, !elem_of_nil.
      split; [intros [[->|[->|[]]] Hn]; [done|exfalso; apply Hn; auto]|].
      intros ->. split; [auto|]. intros [?|[?|[]]]; done. }
    split; [exact Hadded|]. split; [exact Hremoved|].
    apply Hc. left. intros Hnil.
    assert (Hin : "10.0.0.10" ∈ added result) by by apply Hadded.
    rewrite Hnil in Hin. by apply elem_of_nil in Hin.
  - intros w statusResult w0 payload Hstatus Hparse Hsame.
    destruct (runTailscaleShadowSync_steps cfg w statusResult w0 payload Hstatus Hparse)
      as (previousState & Hsnap & _ & Hs & Hf & _ & Hrun).
    cbv zeta in Hrun.
    set (nextIps := extractActivePeerIps localeCompare payload) in *.
    set (result := scan localeCompare previousState (desired_state cfg nextIps) nextIps) in *.
    assert (Hc : changed result = false).
    { apply scan_equal_sets. intros ip. rewrite <- Hsame. by apply (snapshot_on_disk (platform w)). }
    destruct (scan_sets localeCompare cfg previousState nextIps) as (_ & _ & _ & Hch).
    fold result in Hch.
    assert (Hempty : added result = [] ∧ removed result = []).
    { destruct (added result) as [|a l]; destruct (removed result) as [|r l'];
        try done; exfalso; (assert (changed result = true) by (apply Hch; auto)); congruence. }
    rewrite Hc in Hrun. change (negb false) with true in Hrun. cbv iota in Hrun.
    eexists _, _. split; [exact Hrun|].
    split; [reflexivity|]. split; [exact (proj1 Hempty)|]. split; [exact (proj2 Hempty)|].
    split; [exact Hs|exact Hf].
  - intros previousState nextIps result.
    destruct (scan_sets localeCompare cfg previousState nextIps) as (_ & Ha & Hr & Hc).
    split; [exact Ha|]. split; [exact Hr|]. split; [exact Hc|].
    apply scan_equal_sets.
  - intros content2 content5. unfold scan, sort. simpl.
    destruct (localeCompare "10.0.0.2" "10.0.0.5" <=? 0); done.
Qed.

(** *** The active addresses are valid *)

Definition all_valid (l : list string) : Prop := Forall (fun ip => isIpv4 ip = true) l.

Lemma collect_items_valid items acc : all_valid acc → all_valid (collect_items items acc).
Proof.
  revert acc. induction items as [|item items IH]; intros acc Hacc; simpl; [done|].
  destruct (isIpv4 (normalizeJson item)) eqn:Hv; simpl; [|by apply IH].
  destruct (negb (includes (normalizeJson item) acc)); apply IH; [|done].
  apply Forall_app. split; [done|]. by constructor.
Qed.

Lemma collect_lists_valid candidates acc :
  all_valid acc → all_valid (collect_lists candidates acc).
Proof.
  revert acc. induction candidates as [|c candidates IH]; intros acc Hacc; simpl; [done|].
  destruct c; try by apply IH. apply IH. by apply collect_items_valid.
Qed.

Lemma collectNodeIps_valid node : all_valid (collectNodeIps node).
Proof. apply collect_lists_valid. constructor. Qed.

Lemma select_ips_valid selfIps ips selected :
  all_valid ips → all_valid selected → all_valid (select_ips selfIps ips selected).
Proof.
  revert selected. induction ips as [|ip ips IH]; intros selected Hips Hsel; simpl; [done|].
  inversion Hips as [|? ? Hv Hips']; subst.
  destruct (includes ip selfIps); [by apply IH|].
  destruct (negb (includes ip selected)); apply IH; try done.
  apply Forall_app. split; [done|]. by constructor.
Qed.

Lemma select_peers_valid selfIps selfId peers selected :
  all_valid selected → all_valid (select_peers selfIps selfId peers selected).
Proof.
  revert selected. induction peers as [|peer peers IH]; intros selected Hsel; simpl; [done|].
  destruct (_ || _); [by apply IH|].
  destruct (is_true _); [by apply IH|].
  destruct (_ && _); [by apply IH|].
  destruct (negb (isPeerActive peer)); [by apply IH|].
  apply IH. apply select_ips_valid; [apply collectNodeIps_valid|done].
Qed.

Lemma extractActivePeerIps_valid payload ip :
  ip ∈ extractActivePeerIps localeCompare payload → isIpv4 ip = true.
Proof.
  unfold extractActivePeerIps. rewrite elem_of_sort.
  match goal with
  | |- _ ∈ select_peers ?a ?b ?c [] → _ =>
      pose proof (select_peers_valid a b c [] (List.Forall_nil _)) as Hall
  end.
  intros Hin. unfold all_valid in Hall. rewrite Forall_forall in Hall. by apply Hall.
Qed.

Lemma desired_state_valid cfg payload :
  Forall (fun kv => isIpv4 kv.1 = true)
    (desired_state cfg (extractActivePeerIps localeCompare payload)).
Proof.
  apply Forall_forall. intros [ip content] Hin. simpl.
  apply desired_state_content in Hin. by apply extractActivePeerIps_valid in Hin.
Qed.

(** C3.  In a cycle that finds the desired backend set different from
    the one on disk and writes it, when the validation of the proxy or
    its reload then fails and the snapshot read at the start of the
    cycle is written back without an error of the file system, the
    directory holds the snapshot again, provided that the temporary
    path of each address on disk or desired was free or held a regular
    file with no other name in the directory: every file of the
    snapshot is there, a regular file with the bytes that its text
    encodes to, which are the bytes it had when decoding and encoding
    them gives them back, as it does of valid UTF-8; every file added
    for a desired address is gone; the addresses on disk are those of
    before the cycle; and every entry that is neither a temporary file
    nor at the path of a desired address is as it was.  The validation
    and the reload are then attempted again, one time, on that
    directory, and the cycle throws the first error, whatever this
    second attempt gives. *)
Theorem failed_reload_rolls_back (cfg : config) (w : world)
    (statusResult : CommandResult) (w0 : world) (payload : Json.value)
    (previous : list (string * string)) (w1 : world) (e : error) (w2 w3 : world) :
  let nextIps := extractActivePeerIps localeCompare payload in
  let desired := desired_state cfg nextIps in
  let result := scan localeCompare previous desired nextIps in
  DockerClient.tailscaleStatus cfg true w = (Ok statusResult, w0) →
  JSON_parse (Js.or_else (stdout statusResult) "{}") = inl payload →
  readShadowFiles (shadowDir cfg) w0 = (Ok previous, w0) →
  changed result = true →
  (∀ ip, on_disk (shadow w) ip ∨ ip ∈ nextIps → clear (shadow w) ip) →
  writeShadowState (shadowDir cfg) desired (scan_logged result w0) = (Ok tt, w1) →
  test_and_reload cfg (nginxContainer cfg) w1 = (Throw e, w2) →
  writeShadowState (shadowDir cfg) previous (rollback_started e w2) = (Ok tt, w3) →
  runTailscaleShadowSync JSON_parse localeCompare cfg w
    = (Throw e, retried cfg (nginxContainer cfg) w3) ∧
  let final := retried cfg (nginxContainer cfg) w3 in
  (∀ ip i content,
     shadow w !! conf ip = Some (File i content) → isIpv4 ip = true →
     ∃ i', shadow final !! conf ip
           = Some (File i' (utf8_encode (platform w) (utf8_decode (platform w) content)))) ∧
  (∀ ip, ip ∈ nextIps → ¬ on_disk (shadow w) ip → shadow final !! conf ip = None) ∧
  (∀ ip, on_disk (shadow final) ip ↔ on_disk (shadow w) ip) ∧
  (∀ x, (∀ ip, x ≠ tmp ip) → (∀ ip, ip ∈ nextIps → x ≠ conf ip) →
        ¬ is_member (shadow w) x → shadow final !! x = shadow w !! x).
Proof.
  intros nextIps desired result Hstatus Hparse Hread Hchanged Hclear Hwrite Hfail Hback.
  destruct (runTailscaleShadowSync_steps cfg w statusResult w0 payload Hstatus Hparse)
    as (previous' & Hsnap & Hread' & Hs & Hf & Hp & Hrun).
  rewrite Hread in Hread'. injection Hread' as <-.
  cbv zeta in Hrun. fold nextIps in Hrun. fold desired in Hrun. fold result in Hrun.
  rewrite Hchanged in Hrun. change (negb true) with false in Hrun. cbv iota in Hrun.
  set (ws := scan_logged result w0) in *.
  assert (Hbefore : shadow ws = shadow w) by exact Hs.
  assert (Hhost : platform ws = platform w) by exact Hp.
  assert (Hclear' : ∀ ip, ip ∈ previous.*1 ∨ ip ∈ desired.*1 → clear (shadow ws) ip).
  { intros ip Hip. rewrite Hbefore. apply Hclear.
    destruct Hip as [Hip|Hip]; [left|right].
    - by apply (snapshot_on_disk (platform w) (shadow w) previous).
    - by apply desired_state_keys in Hip. }
  pose proof (rollback_written cfg (shadowDir cfg) (nginxContainer cfg) previous desired
                ws w1 e w2 w3 Hclear' Hwrite Hfail Hback) as Hdir.
  rewrite Hbefore, Hhost in Hdir.
  pose proof (applyStateWithRollback_fails cfg (shadowDir cfg) (nginxContainer cfg)
                previous desired ws w1 e w2 w3 Hwrite Hfail Hback) as Happly.
  split.
  { rewrite Hrun. by rewrite (bind_throw _ _ _ _ _ Happly). }
  intros final. unfold final. rewrite retried_shadow, Hdir.
  assert (Hrestored : ∀ ip i content,
            shadow w !! conf ip = Some (File i content) → isIpv4 ip = true →
            ∃ i', written (platform w) (written (platform w) (shadow w) desired) previous
                    !! conf ip
                  = Some (File i' (utf8_encode (platform w) (utf8_decode (platform w) content)))).
  { intros ip i content Hl Hv. by apply (rollback_previous (platform w) (shadow w)) with i. }
  split; [exact Hrestored|]. split; [|split].
  - intros ip Hin Hnot. apply rollback_added.
    + apply desired_state_valid.
    + by apply desired_state_keys.
    + intros Hprev. apply Hnot. by apply (snapshot_on_disk (platform w) (shadow w) previous).
  - intros ip. split.
    + intros [(i & content & Hl) Hv].
      apply written_member in Hl; [|done].
      by apply (snapshot_on_disk (platform w) (shadow w) previous).
    + intros [(i & content & Hl) Hv]. destruct (Hrestored ip i content Hl Hv) as [i' Hl'].
      split; [eauto|done].
  - intros x Htmp Hconf Hnm. apply rollback_other; [done| | |done].
    + intros (ip & -> & _)%list_elem_of_fmap. by apply (Htmp ip).
    + intros (ip & -> & Hin)%list_elem_of_fmap. apply (Hconf ip); [|done].
      by apply desired_state_keys in Hin.
Qed.

End Cycle.

(** ** A cycle that fails to reload *)

Section FailedReload.
Import Config State ShadowSync.

(** One peer is online, with the address 10.0.0.5. *)
Definition peers_payload : Json.value :=
  Json.Obj [("Peer",
             Json.Obj [("nodekey:a",
                        Json.Obj [("Online", Json.Bool true);
                                  ("TailscaleIPs", Json.Arr [Json.Str "10.0.0.5"])])])].

Definition parse_peers : string → Json.value + string := fun _ => inl peers_payload.

Definition compare_equal : string → string → Z := fun _ _ => 0.

(** The validation of the proxy configuration exits with code 1, every
    other process with code 0. *)
Definition invalid_config : nat → string → list string → behaviour :=
  fun _ _ args =>
    {| duration := 1; out := EmptyString; err := EmptyString;
       ending := Close (Some (if bool_decide (args = ["exec"; "nginx"; "nginx"; "-t"])
                              then 1 else 0)) None |}.

Definition stanza (ip : string) : string := renderShadowContent ip 3000.

(** The directory holds the backend 10.0.0.2, a regular file that an
    interrupted write left at the temporary path of 10.0.0.5, and a
    symbolic link; in the second one a directory sits where the
    temporary file of the backend 10.0.0.2 goes. *)
Definition dir_one : gmap string dirent :=
  <[ "10.0.0.2.conf" := File 1 (stanza "10.0.0.2") ]>
    (<[ "10.0.0.5.conf.tmp" := File 2 "server 10.0.0.5:30" ]>
       (<[ "current" := Irregular 3 ]> ∅)).

Definition dir_blocked : gmap string dirent := <[ "10.0.0.2.conf.tmp" := Subdir true ]> dir_one.

Definition world_one : world := set_shadow dir_one [] (fresh invalid_config).

Definition world_blocked : world := set_shadow dir_blocked [] (fresh invalid_config).

Definition validation_failed : error :=
  {| message := "docker command failed: exit 1";
     result := Some {| command := "docker exec nginx nginx -t"; stdout := EmptyString;
                       stderr := EmptyString; code := 1; signal := None; ok := false |} |}.

Lemma dir_one_on_disk ip : on_disk dir_one ip → ip = "10.0.0.2".
Proof.
  intros [(i & c & Hl) _]. unfold dir_one in Hl.
  apply lookup_insert_Some in Hl as [[Hk _]|[_ Hl]].
  { by apply (conf_inj "10.0.0.2") in Hk. }
  apply lookup_insert_Some in Hl as [[Hk _]|[_ Hl]].
  { symmetry in Hk. by apply (conf_not_tmp ip "10.0.0.5") in Hk. }
  apply lookup_insert_Some in Hl as [[_ Hk]|[_ Hl]]; [discriminate Hk|].
  by rewrite lookup_empty in Hl.
Qed.

Lemma dir_one_clear ip : ip = "10.0.0.2" ∨ ip = "10.0.0.5" → clear dir_one ip.
Proof.
  intros [->| ->].
  - left. reflexivity.
  - right. exists 2%N, "server 10.0.0.5:30". split; [reflexivity|].
    intros x j c Hl ->. unfold dir_one in Hl.
    apply lookup_insert_Some in Hl as [[_ Hk]|[_ Hl]]; [discriminate Hk|].
    apply lookup_insert_Some in Hl as [[Hk _]|[_ Hl]]; [done|].
    apply lookup_insert_Some in Hl as [[_ Hk]|[_ Hl]]; [discriminate Hk|].
    by rewrite lookup_empty in Hl.
Qed.

Lemma failed_reload_rolls_back_witness :
  let run := runTailscaleShadowSync parse_peers compare_equal default_config world_one in
  fst run = Throw validation_failed ∧
  (∃ i, shadow (snd run) !! "10.0.0.2.conf" = Some (File i (stanza "10.0.0.2"))) ∧
  shadow (snd run) !! "10.0.0.5.conf" = None ∧
  shadow (snd run) !! "current" = Some (Irregular 3).
Proof.
  intros run.
  edestruct (failed_reload_rolls_back parse_peers compare_equal default_config world_one)
    as (Hrun & Hfiles & Hadded & Hdisk & Hrest).
  - vm_compute. reflexivity.
  - reflexivity.
  - vm_compute. reflexivity.
  - vm_compute. reflexivity.
  - intros ip [Hip|Hip]; apply dir_one_clear.
    + left. by apply dir_one_on_disk.
    + right. vm_compute in Hip. by apply list_elem_of_singleton in Hip.
  - vm_compute. reflexivity.
  - vm_compute. reflexivity.
  - vm_compute. reflexivity.
  - unfold run. rewrite Hrun. split; [reflexivity|]. split; [|split].
    + apply (Hfiles "10.0.0.2" 1%N (stanza "10.0.0.2")); reflexivity.
    + apply (Hadded "10.0.0.5").
      * vm_compute. by left.
      * intros Hd. apply dir_one_on_disk in Hd. discriminate Hd.
    + transitivity (shadow world_one !! "current"); [|reflexivity].
      apply (Hrest "current").
      * intros ip Heq. apply (f_equal String.length) in Heq.
        unfold tmp in Heq. rewrite !length_append in Heq. simpl in Heq. lia.
      * intros ip Hin Heq. vm_compute in Hin. apply list_elem_of_singleton in Hin.
        subst ip. discriminate Heq.
      * intros (entry & ip & Hl & Hm). vm_compute in Hl. injection Hl as <-. discriminate Hm.
Defined.

(** C3, as the specification words it, fails.  In this cycle the
    desired state is written, the validation then fails, and the
    rollback cannot write its temporary file: the cycle throws the error
    of the file system, not the error of the validation; the file of
    the snapshot is not restored and the added file stays. *)
Lemma rollback_write_can_fail :
  let run := runTailscaleShadowSync parse_peers compare_equal default_config world_blocked in
  fs_ops (snd run) = [ WriteFile "10.0.0.5.conf.tmp" (stanza "10.0.0.5");
                       Rename "10.0.0.5.conf.tmp" "10.0.0.5.conf";
                       Remove "10.0.0.2.conf" ] ∧
  (argv <$> last (spawned (snd run))) = Some ["exec"; "nginx"; "nginx"; "-t"] ∧
  (completed_ok <$> last (spawned (snd run))) = Some false ∧
  fst run ≠ Throw validation_failed ∧
  fst run = Throw (Error "EISDIR: illegal operation on a directory, open '/opt/nginx/shadow-servers/10.0.0.2.conf.tmp'") ∧
  shadow world_blocked !! "10.0.0.2.conf" = Some (File 1 (stanza "10.0.0.2")) ∧
  shadow (snd run) !! "10.0.0.2.conf" = None ∧
  shadow (snd run) !! "10.0.0.5.conf" = Some (File 2 (stanza "10.0.0.5")).
Proof.
  vm_compute. repeat split; try reflexivity. discriminate.
Qed.

(** Two peers are online, with the addresses 10.0.0.5 and 10.0.0.10;
    the directory holds the backends 10.0.0.2 and 10.0.0.5. *)
Definition two_peers_payload : Json.value :=
  Json.Obj [("Peer",
             Json.Obj [("nodekey:a",
                        Json.Obj [("Online", Json.Bool true);
                                  ("TailscaleIPs", Json.Arr [Json.Str "10.0.0.5"])]);
                       ("nodekey:b",
                        Json.Obj [("Online", Json.Bool true);
                                  ("TailscaleIPs", Json.Arr [Json.Str "10.0.0.10"])])])].

Definition parse_two_peers : string → Json.value + string := fun _ => inl two_peers_payload.

Definition dir_two : gmap string dirent :=
  <[ "10.0.0.2.conf" := File 1 (stanza "10.0.0.2") ]>
    (<[ "10.0.0.5.conf" := File 2 (stanza "10.0.0.5") ]> ∅).

Definition world_two : world := set_shadow dir_two [] (fresh quiet).

Lemma dir_two_on_disk ip : on_disk dir_two ip ↔ ip ∈ ["10.0.0.2"; "10.0.0.5"].
Proof.
  split.
  - intros [(i & c & Hl) _]. unfold dir_two in Hl.
    apply lookup_insert_Some in Hl as [[Hk _]|[_ Hl]].
    { apply (conf_inj "10.0.0.2") in Hk. subst ip. by left. }
    apply lookup_insert_Some in Hl as [[Hk _]|[_ Hl]].
    { apply (conf_inj "10.0.0.5") in Hk. subst ip. right. by left. }
    by rewrite lookup_empty in Hl.
  - intros [->|[->|Hin%elem_of_nil]%elem_of_cons]%elem_of_cons; [| |done].
    + split; [by exists 1%N, (stanza "10.0.0.2")|reflexivity].
    + split; [by exists 2%N, (stanza "10.0.0.5")|reflexivity].
Qed.

Lemma shadow_diff_witness :
  ∃ result w',
    runTailscaleShadowSync parse_two_peers compare_equal default_config world_two
      = (Ok result, w') ∧
    (∀ ip, ip ∈ added result ↔ ip = "10.0.0.10") ∧
    (∀ ip, ip ∈ removed result ↔ ip = "10.0.0.2") ∧
    changed result = true.
Proof.
  destruct (runTailscaleShadowSync parse_two_peers compare_equal default_config world_two)
    as [[result|e] w'] eqn:Hrun; [|vm_compute in Hrun; discriminate Hrun].
  exists result, w'. split; [reflexivity|].
  destruct (shadow_diff parse_two_peers compare_equal default_config) as (_ & Hexample & _).
  apply (Hexample world_two result w' Hrun).
  - exact dir_two_on_disk.
  - intros ip. vm_compute in Hrun. injection Hrun as <- _. simpl.
    rewrite !elem_of_cons. tauto.
Defined.

End FailedReload.

(** ** Numerals *)

Section Numerals.
Import Config DockerClient.

Lemma all_chars_app p a b :
  all_chars p (a +:+ b) = all_chars p a && all_chars p b.
Proof.
  induction a as [|c a IH]; [by rewrite append_nil|].
  rewrite append_cons. simpl. rewrite IH. by rewrite andb_assoc.
Qed.

Lemma all_chars_impl (p q : ascii → bool) s :
  (∀ c, p c = true → q c = true) → all_chars p s = true → all_chars q s = true.
Proof.
  intros Hpq. induction s as [|c r IH]; [done|]. simpl.
  intros [Hc Hr]%andb_true_iff. rewrite (Hpq c Hc). by apply IH.
Qed.

Lemma digit_not_ws c : Js.is_digit c = true → Js.is_ws c = false.
Proof. destruct c as [[] [] [] [] [] [] [] []]; intros H; try discriminate H; reflexivity. Qed.

(** A text without white space is its own trim. *)
Lemma trimEnd_solid s :
  all_chars (fun c => negb (Js.is_ws c)) s = true → Js.trimEnd s = s.
Proof.
  induction s as [|c r IH]; [done|]. simpl.
  intros [Hc Hr]%andb_true_iff. rewrite (IH Hr).
  apply negb_true_iff in Hc. by rewrite Hc.
Qed.

Lemma trim_solid s :
  all_chars (fun c => negb (Js.is_ws c)) s = true → Js.trim s = s.
Proof.
  intros H. unfold Js.trim. rewrite (trimStart_id s).
  - by apply trimEnd_solid.
  - destruct s as [|c r]; [done|]. simpl in *.
    apply andb_true_iff in H as [Hc _]. by apply negb_true_iff in Hc.
Qed.

Lemma pretty_N_char_digit k :
  (k < 10)%N →
  Js.is_digit (pretty_N_char k) = true ∧ Js.digit_value (pretty_N_char k) = Z.of_N k.
Proof.
  intros H.
  assert (k = 0 ∨ k = 1 ∨ k = 2 ∨ k = 3 ∨ k = 4 ∨ k = 5 ∨ k = 6 ∨ k = 7 ∨ k = 8 ∨ k = 9)%N
    as Hk by lia.
  repeat (destruct Hk as [->|Hk]; [by split|]). subst k. by split.
Qed.

(** The digits that [pretty_N_go] puts in front of its accumulator, and
    what the loop of [parseInt] reads from them. *)
Lemma pretty_N_go_digits x s :
  ∃ d, pretty_N_go x s = d +:+ s ∧ all_chars Js.is_digit d = true ∧
       ((0 < x)%N → d ≠ EmptyString) ∧
       ∀ acc rest, Js.digits_value acc (d +:+ rest)
                   = Js.digits_value (acc * 10 ^ Z.of_nat (String.length d) + Z.of_N x) rest.
Proof.
  revert s. induction (N.lt_wf_0 x) as [x _ IH]. intros s.
  destruct (decide (x = 0)%N) as [->|Hx].
  { exists EmptyString. rewrite pretty_N_go_0. split; [done|]. split; [done|].
    split; [lia|]. intros acc rest. rewrite append_nil. f_equal. simpl. lia. }
  rewrite pretty_N_go_step by lia.
  destruct (IH (x `div` 10)%N) with (s := String (pretty_N_char (x `mod` 10)) s)
    as (d & Hd & Hall & _ & Hval).
  { apply N.div_lt; lia. }
  destruct (pretty_N_char_digit (x `mod` 10)) as [Hc Hv].
  { apply N.mod_lt. lia. }
  exists (d +:+ String (pretty_N_char (x `mod` 10)) EmptyString).
  split; [|split; [|split]].
  - rewrite Hd, append_assoc, append_cons, append_nil. done.
  - rewrite all_chars_app, Hall. simpl. by rewrite Hc.
  - intros _. destruct d; discriminate.
  - intros acc rest. rewrite append_assoc, append_cons, append_nil, Hval.
    simpl. rewrite Hc, Hv. f_equal.
    rewrite length_append. simpl String.length.
    rewrite Nat2Z.inj_add, Z.pow_add_r by lia.
    rewrite N2Z.inj_div, N2Z.inj_mod.
    pose proof (Z.div_mod (Z.of_N x) 10 ltac:(lia)). change (Z.of_N 10) with 10.
    change (Z.of_nat 1) with 1. rewrite Z.pow_1_r. lia.
Qed.

Lemma pretty_N_digits x :
  (0 < x)%N →
  ∃ c d, pretty x = String c d ∧ Js.is_digit c = true ∧ all_chars Js.is_digit d = true ∧
         Js.digits_value 0 (String c d) = Z.of_N x.
Proof.
  intros Hx. unfold pretty, pretty_N. rewrite decide_False by lia.
  destruct (pretty_N_go_digits x EmptyString) as (d & Hd & Hall & Hne & Hval).
  rewrite Hd. specialize (Hval 0 EmptyString).
  destruct (d +:+ EmptyString) as [|c r] eqn:E.
  { exfalso. apply Hne; [done|]. by destruct d. }
  exists c, r. split; [done|].
  assert (Hd' : d = String c r).
  { rewrite <- E. clear. induction d as [|x d IH]; [done|]. rewrite append_cons. by f_equal. }
  subst d. simpl in Hall. apply andb_true_iff in Hall as [Hc Hr].
  split; [done|]. split; [done|]. rewrite Hval. simpl Js.digits_value. lia.
Qed.

Lemma parseInt10_digits c d :
  Js.is_digit c = true →
  Js.parseInt10 (String c d) =
    if Js.overflow_threshold <=? Js.digits_value 0 (String c d) then Js.Infinite
    else Js.Int (Js.digits_value 0 (String c d)).
Proof.
  intros Hd. unfold Js.parseInt10. simpl Js.trimStart. rewrite (digit_not_ws c Hd).
  destruct c as [[] [] [] [] [] [] [] []]; try discriminate Hd; reflexivity.
Qed.

Lemma parseInt10_negative c d :
  Js.is_digit c = true →
  Js.parseInt10 (String "-" (String c d)) =
    if Js.overflow_threshold <=? Js.digits_value 0 (String c d) then Js.Infinite
    else Js.Int (- Js.digits_value 0 (String c d)).
Proof.
  intros Hd. unfold Js.parseInt10. simpl Js.trimStart.
  change (Js.is_ws "-") with false. cbv iota. cbv beta iota.
  unfold Js.starts_with_digit. rewrite Hd. reflexivity.
Qed.

(** [parseInt] reads back the integer that [String] has rendered. *)
Lemma parseInt10_string_of_Z z :
  Z.abs z < Js.overflow_threshold → Js.parseInt10 (Js.string_of_Z z) = Js.Int z.
Proof.
  intros Hz. unfold Js.string_of_Z. destruct z as [|p|p].
  - reflexivity.
  - change (pretty (Z.pos p)) with (pretty (N.pos p)).
    destruct (pretty_N_digits (N.pos p)) as (c & d & -> & Hc & _ & Hval); [lia|].
    rewrite (parseInt10_digits c d Hc), Hval.
    destruct (Js.overflow_threshold <=? _) eqn:E; [|done].
    apply Z.leb_le in E. simpl in *. lia.
  - change (pretty (Z.neg p)) with ("-" +:+ pretty (N.pos p)).
    destruct (pretty_N_digits (N.pos p)) as (c & d & -> & Hc & _ & Hval); [lia|].
    rewrite append_cons, append_nil.
    rewrite (parseInt10_negative c d Hc), Hval.
    destruct (Js.overflow_threshold <=? _) eqn:E; [|done].
    apply Z.leb_le in E. simpl in *. lia.
Qed.

Lemma string_of_Z_solid z :
  all_chars (fun c => negb (Js.is_ws c)) (Js.string_of_Z z) = true.
Proof.
  assert (Hdig : ∀ s, all_chars Js.is_digit s = true →
                      all_chars (fun c => negb (Js.is_ws c)) s = true).
  { intros s. apply all_chars_impl. intros c Hc. by rewrite (digit_not_ws c Hc). }
  unfold Js.string_of_Z. destruct z as [|p|p].
  - reflexivity.
  - change (pretty (Z.pos p)) with (pretty (N.pos p)).
    destruct (pretty_N_digits (N.pos p)) as (c & d & -> & Hc & Hd & _); [lia|].
    apply Hdig. simpl. by rewrite Hc, Hd.
  - change (pretty (Z.neg p)) with ("-" +:+ pretty (N.pos p)).
    destruct (pretty_N_digits (N.pos p)) as (c & d & -> & Hc & Hd & _); [lia|].
    rewrite append_cons, append_nil.
    change (all_chars _ (String "-" ?s)) with (all_chars (fun c => negb (Js.is_ws c)) s).
    apply Hdig. simpl. by rewrite Hc, Hd.
Qed.

Lemma normalizeValue_string_of_Z z : normalizeValue (Js.string_of_Z z) = Js.string_of_Z z.
Proof. apply trim_solid, string_of_Z_solid. Qed.

(** The clamp that [parsePositiveInt] applies to a number it reads. *)
Definition clamp (min max n : Z) : Z := if n <? min then min else if max <? n then max else n.

Lemma parsePositiveInt_string_of_Z n fallback min max :
  Z.abs n < Js.overflow_threshold →
  parsePositiveInt (Js.string_of_Z n) fallback min max = clamp min max n.
Proof.
  intros Hn. unfold parsePositiveInt.
  by rewrite normalizeValue_string_of_Z, parseInt10_string_of_Z.
Qed.

End Numerals.

(** ** The configuration read from the environment *)

Section Environment.
Import Config Policy.

Lemma readIntEnv_cases env key fallback min max :
  readIntEnv env key fallback min max = fallback ∨
  (min ≤ readIntEnv env key fallback min max ≤ max ∧
   Js.parseInt10 (readEnv env key (Js.string_of_Z fallback))
     = Js.Int (readIntEnv env key fallback min max)).
Proof.
  unfold readIntEnv. destruct (Js.parseInt10 _) as [| |value]; [by left..|].
  destruct ((value <? min) || (max <? value)) eqn:E; [by left|].
  right. apply orb_false_iff in E as [E1 E2]. split; [lia|done].
Qed.

Lemma readIntEnv_range env key fallback min max :
  min ≤ fallback ≤ max → min ≤ readIntEnv env key fallback min max ≤ max.
Proof. intros H. destruct (readIntEnv_cases env key fallback min max) as [->|[? _]]; done. Qed.

(** Whatever the environment holds, the numbers of the configuration
    are within the ranges that [createConfig] names: a value that does
    not parse, or that is out of its range, is replaced by the default,
    which is within the range. *)
Theorem createConfig_in_range (env : gmap string string) :
  (1 ≤ port (createConfig env) ≤ 65535 ∧
   1024 ≤ requestBodyLimitBytes (createConfig env) ≤ 1048576 ∧
   500 ≤ commandTimeoutMs (createConfig env) ≤ 900000 ∧
   10 ≤ maxLogLines (createConfig env) ≤ 20000 ∧
   1 ≤ defaultLogTail (createConfig env) ≤ 20000 ∧
   5 ≤ tailscaleSyncIntervalSec (createConfig env) ≤ 86400 ∧
   1 ≤ shadowPort (createConfig env) ≤ 65535) ∧
  ∀ key fallback min max,
    readIntEnv env key fallback min max = fallback ∨
    (min ≤ readIntEnv env key fallback min max ≤ max ∧
     Js.parseInt10 (readEnv env key (Js.string_of_Z fallback))
       = Js.Int (readIntEnv env key fallback min max)).
Proof.
  split; [|apply readIntEnv_cases].
  unfold createConfig; simpl. repeat split; apply readIntEnv_range; lia.
Qed.

(** *** Lists of names *)

Lemma new_Set_foldl (items seen : list string) :
  let f := fun (seen : list string) item =>
             if bool_decide (item ∈ seen) then seen else seen ++ [item] in
  (∀ x, x ∈ foldl f seen items ↔ x ∈ seen ∨ x ∈ items) ∧
  (NoDup seen → NoDup (foldl f seen items)) ∧
  (NoDup (seen ++ items) → foldl f seen items = seen ++ items).
Proof.
  intros f. revert seen. induction items as [|item items IH]; intros seen.
  { simpl. split; [|split].
    - intros x. rewrite elem_of_nil. tauto.
    - done.
    - by rewrite app_nil_r. }
  simpl. destruct (IH (f seen item)) as (Hin & Hnd & Hid).
  assert (Hf : ∀ x, x ∈ f seen item ↔ x ∈ seen ∨ x = item).
  { intros x. unfold f. case_bool_decide as Hb.
    - split; [by left|]. intros [?| ->]; done.
    - rewrite elem_of_app, list_elem_of_singleton. done. }
  split; [|split].
  - intros x. rewrite Hin, Hf, elem_of_cons. tauto.
  - intros Hs. apply Hnd. unfold f. case_bool_decide as Hb; [done|].
    apply NoDup_app. split; [done|]. split.
    + intros x Hx ->%list_elem_of_singleton. done.
    + apply NoDup_singleton.
  - intros Hs. assert (Hfi : f seen item = seen ++ [item]).
    { unfold f. rewrite bool_decide_eq_false_2; [done|].
      apply NoDup_app in Hs as (_ & Hs & _). intros Hi. apply (Hs item Hi). by left. }
    rewrite Hfi in Hid |- *. rewrite Hid; rewrite <- app_assoc; done.
Qed.

Lemma elem_of_new_Set x items : x ∈ new_Set items ↔ x ∈ items.
Proof.
  unfold new_Set. destruct (new_Set_foldl items []) as (H & _ & _).
  rewrite H, elem_of_nil. tauto.
Qed.

Lemma NoDup_new_Set items : NoDup (new_Set items).
Proof.
  unfold new_Set. destruct (new_Set_foldl items []) as (_ & H & _).
  apply H, NoDup_nil_2.
Qed.

Lemma new_Set_NoDup items : NoDup items → new_Set items = items.
Proof.
  unfold new_Set. destruct (new_Set_foldl items []) as (_ & _ & H). intros Hn. by apply H.
Qed.

(** No separator, which is what a piece of a split is made of. *)
Definition plain (item : string) : bool := all_chars (fun c => negb (is_separator c)) item.

Lemma split_on_pieces p s piece :
  piece ∈ Js.split_on p s → all_chars (fun c => negb (p c)) piece = true.
Proof.
  revert piece. induction s as [|d r IH]; intros piece; simpl.
  { by intros ->%list_elem_of_singleton. }
  destruct (p d) eqn:Ed.
  - intros [->|Hin]%elem_of_cons; [done|by apply IH].
  - destruct (Js.split_on p r) as [|w ws].
    + intros ->%list_elem_of_singleton. simpl. by rewrite Ed.
    + intros [->|Hin]%elem_of_cons.
      * simpl. rewrite Ed. simpl. apply IH. by left.
      * apply IH. by right.
Qed.

Lemma all_chars_trimStart p s : all_chars p s = true → all_chars p (Js.trimStart s) = true.
Proof.
  induction s as [|c r IH]; [done|]. simpl.
  intros [Hc Hr]%andb_true_iff. destruct (Js.is_ws c); [by apply IH|].
  simpl. by rewrite Hc, Hr.
Qed.

Lemma all_chars_trimEnd p s : all_chars p s = true → all_chars p (Js.trimEnd s) = true.
Proof.
  induction s as [|c r IH]; [done|]. simpl.
  intros [Hc Hr]%andb_true_iff. destruct (Js.is_ws c && Js.is_empty (Js.trimEnd r)); [done|].
  simpl. by rewrite Hc, IH.
Qed.

Lemma all_chars_trim p s : all_chars p s = true → all_chars p (Js.trim s) = true.
Proof. intros H. by apply all_chars_trimEnd, all_chars_trimStart. Qed.

Lemma truthy_ne s : Js.truthy s = true ↔ s ≠ EmptyString.
Proof. destruct s; simpl; split; done. Qed.

Lemma parseCsvSet_elem value item :
  item ∈ parseCsvSet value →
  item ≠ EmptyString ∧ normalizeValue item = item ∧ plain item = true.
Proof.
  unfold parseCsvSet. destruct (negb (Js.truthy (normalizeValue value))).
  { by intros ?%elem_of_nil. }
  rewrite elem_of_new_Set, elem_of_List_filter, truthy_ne.
  intros [Hin Hne]. apply list_elem_of_In, in_map_iff in Hin as (piece & <- & Hp).
  split; [done|]. split; [apply normalizeValue_idempotent|].
  apply all_chars_trim. apply (split_on_pieces is_separator (normalizeValue value)).
  by apply list_elem_of_In.
Qed.

(** The items of a list of names, as [parseCsvSet] reads it from a
    variable: none is empty, none has white space around it or a
    separator (a comma, a line feed or a carriage return) inside, and
    none comes twice. *)
Theorem parseCsvSet_items (value : string) :
  NoDup (parseCsvSet value) ∧
  ∀ item, item ∈ parseCsvSet value →
    item ≠ EmptyString ∧ normalizeValue item = item ∧
    all_chars (fun c => negb (is_separator c)) item = true.
Proof.
  split; [|apply parseCsvSet_elem].
  unfold parseCsvSet. destruct (negb _); [apply NoDup_nil_2|apply NoDup_new_Set].
Qed.

(** *** Writing a list of names and reading it back *)

Lemma trimEnd_append a b :
  b ≠ EmptyString → Js.trimEnd b = b → Js.trimEnd (a +:+ b) = a +:+ b.
Proof.
  intros Hb Hfix. induction a as [|c a IH]; [by rewrite append_nil|].
  rewrite append_cons. simpl. rewrite IH.
  destruct (a +:+ b) eqn:E; [|by rewrite andb_false_r].
  destruct a; [rewrite append_nil in E; done|rewrite append_cons in E; done].
Qed.

Lemma trim_fixed s : Js.trim s = s → trimmed_front s ∧ Js.trimEnd s = s.
Proof.
  intros H. assert (Hf : trimmed_front s).
  { rewrite <- H. apply trimEnd_front, trimStart_front. }
  split; [done|]. unfold Js.trim in H. by rewrite (trimStart_id s Hf) in H.
Qed.

Lemma join_cons2 sep x y rest :
  Js.join sep (x :: y :: rest) = x +:+ sep +:+ Js.join sep (y :: rest).
Proof. reflexivity. Qed.

(** A name as [parseCsvSet] returns it. *)
Definition well_formed (item : string) : Prop :=
  item ≠ EmptyString ∧ normalizeValue item = item ∧ plain item = true.

Lemma join_trimmed items :
  items ≠ [] → Forall well_formed items →
  Js.join "," items ≠ EmptyString ∧
  trimmed_front (Js.join "," items) ∧ Js.trimEnd (Js.join "," items) = Js.join "," items.
Proof.
  induction items as [|x [|y rest] IH]; [done|..]; intros _ Hall.
  - apply Forall_cons in Hall as [(Hne & Htrim & _) _]. simpl.
    split; [done|]. by apply trim_fixed.
  - apply Forall_cons in Hall as [(Hne & Htrim & _) Hall].
    destruct IH as (Hj & _ & Hend); [done|done|].
    rewrite join_cons2. apply trim_fixed in Htrim as [Hfront _].
    split; [|split].
    + destruct x; [done|]. by rewrite append_cons.
    + destruct x; [done|]. by rewrite append_cons.
    + rewrite <- append_assoc. apply trimEnd_append; done.
Qed.

Lemma split_on_plain p x :
  all_chars (fun c => negb (p c)) x = true → Js.split_on p x = [x].
Proof.
  induction x as [|d x IH]; [done|]. simpl. intros [Hd Hx]%andb_true_iff.
  apply negb_true_iff in Hd. by rewrite Hd, (IH Hx).
Qed.

Lemma split_on_append p x c y :
  all_chars (fun c => negb (p c)) x = true → p c = true →
  Js.split_on p (x +:+ String c y) = x :: Js.split_on p y.
Proof.
  intros Hx Hc. induction x as [|d x IH].
  - rewrite append_nil. simpl. by rewrite Hc.
  - rewrite append_cons. simpl in *. apply andb_true_iff in Hx as [Hd Hx].
    apply negb_true_iff in Hd. by rewrite Hd, (IH Hx).
Qed.

Lemma split_on_join items :
  items ≠ [] → Forall well_formed items → Js.split_on is_separator (Js.join "," items) = items.
Proof.
  induction items as [|x [|y rest] IH]; [done|..]; intros _ Hall.
  - apply Forall_cons in Hall as [(_ & _ & Hp) _]. simpl. by apply split_on_plain.
  - apply Forall_cons in Hall as [(_ & _ & Hp) Hall].
    rewrite join_cons2, append_cons, append_nil, split_on_append, IH; done.
Qed.

Lemma parseCsvSet_join items :
  NoDup items → Forall well_formed items → parseCsvSet (Js.join "," items) = items.
Proof.
  intros Hnd Hall. destruct (decide (items = [])) as [->|Hne]; [reflexivity|].
  destruct (join_trimmed items Hne Hall) as (Hj & Hfront & Hend).
  assert (Hn : normalizeValue (Js.join "," items) = Js.join "," items).
  { unfold normalizeValue, Js.trim. by rewrite (trimStart_id _ Hfront), Hend. }
  unfold parseCsvSet. rewrite Hn.
  apply truthy_ne in Hj. rewrite Hj. simpl.
  rewrite (split_on_join items Hne Hall).
  assert (Hmap : map Js.trim items = items).
  { clear -Hall. induction Hall as [|x l (_ & Ht & _) _ IH]; [done|]. simpl.
    unfold normalizeValue in Ht. by rewrite Ht, IH. }
  rewrite Hmap.
  assert (Hfil : List.filter Js.truthy items = items).
  { clear -Hall. induction Hall as [|x l (Hx & _ & _) _ IH]; [done|]. simpl.
    apply truthy_ne in Hx. by rewrite Hx, IH. }
  rewrite Hfil. by apply new_Set_NoDup.
Qed.

(** The list that [parseCsvSet] has read, written with commas as the
    help text writes the blocked names, reads back as the same list. *)
Theorem parseCsvSet_round_trip (value : string) :
  parseCsvSet (Js.join "," (parseCsvSet value)) = parseCsvSet value.
Proof.
  apply parseCsvSet_join.
  - unfold parseCsvSet. destruct (negb _); [apply NoDup_nil_2|apply NoDup_new_Set].
  - apply Forall_forall. intros item Hin. exact (parseCsvSet_elem value item Hin).
Qed.

(** *** Variables that are blank *)

Lemma readEnv_blank env name value key fallback :
  Js.trim value = EmptyString →
  readEnv (<[name := value]> env) key fallback = readEnv (delete name env) key fallback.
Proof.
  intros Hb. unfold readEnv. destruct (decide (name = key)) as [->|Hne].
  - rewrite lookup_insert_eq, lookup_delete_eq.
    change (normalizeValue (default EmptyString (Some value))) with (Js.trim value).
    by rewrite Hb.
  - by rewrite lookup_insert_ne, lookup_delete_ne.
Qed.

(** A variable that holds nothing but white space configures what the
    variable not being set configures. *)
Theorem createConfig_blank_is_unset (env : gmap string string) (name value : string) :
  Js.trim value = EmptyString →
  createConfig (<[name := value]> env) = createConfig (delete name env).
Proof.
  intros Hb. unfold createConfig, readBoolEnv, readIntEnv.
  by rewrite !(readEnv_blank env name value _ _ Hb).
Qed.

Lemma createConfig_blank_is_unset_witness :
  createConfig (<["DOCKER_MANAGER_PORT" := "   "]> ∅) = createConfig (delete "DOCKER_MANAGER_PORT" ∅).
Proof. apply createConfig_blank_is_unset. reflexivity. Defined.

(** *** The policy that the environment sets *)

Definition enable_variable (c : category) : string :=
  match c with
  | safe => "DOCKER_MANAGER_ENABLE_SAFE_COMMANDS"
  | dangerous => "DOCKER_MANAGER_ENABLE_DANGEROUS_COMMANDS"
  end.

Definition allowed_variable (c : category) : string :=
  match c with
  | safe => "DOCKER_MANAGER_ALLOWED_SAFE_COMMANDS"
  | dangerous => "DOCKER_MANAGER_ALLOWED_DANGEROUS_COMMANDS"
  end.

Lemma readEnv_trimmed env key fallback :
  normalizeValue (readEnv env key fallback) = readEnv env key fallback.
Proof. unfold readEnv. destruct (negb _); apply normalizeValue_idempotent. Qed.

Lemma readEnv_star env key : readEnv env key "*" ≠ EmptyString.
Proof.
  unfold readEnv. destruct (Js.truthy _) eqn:E; simpl; [by apply truthy_ne|done].
Qed.

Lemma parseCommandPolicy_read env key defaults :
  (allowAll (parseCommandPolicy (readEnv env key "*") defaults) = true
   ↔ readEnv env key "*" = "*") ∧
  (readEnv env key "*" ≠ "*" →
   set (parseCommandPolicy (readEnv env key "*") defaults)
     = parseCsvSet (readEnv env key "*")).
Proof.
  unfold parseCommandPolicy.
  rewrite (readEnv_trimmed env key "*").
  assert (Hv : Js.truthy (readEnv env key "*") = true) by apply truthy_ne, readEnv_star.
  set (v := readEnv env key "*") in *.
  rewrite Hv. simpl. destruct (String.eqb v "*") eqn:E.
  - apply String.eqb_eq in E. simpl. split; [done|]. done.
  - apply String.eqb_neq in E. simpl. split; [split; [done|by intros ?]|].
    intros _. done.
Qed.

(** The decision of the policy in terms of the variables of the
    environment: a name is allowed exactly when it is in the catalog of
    a category whose switch reads as true, the list of the category is
    the star (or blank or unset) or has the name among its items, and
    the blocked list does not have it. *)
Theorem policy_from_environment (env : gmap string string) (name : string) :
  isCommandAllowed (createConfig env) name = true ↔
  ∃ c, name ∈ keys_of c ∧
       readBoolEnv env (enable_variable c) true = true ∧
       (readEnv env (allowed_variable c) "*" = "*" ∨
        name ∈ parseCsvSet (readEnv env (allowed_variable c) "*")) ∧
       name ∉ parseCsvSet (readEnv env "DOCKER_MANAGER_BLOCKED_COMMANDS" EmptyString).
Proof.
  rewrite isCommandAllowed_permitted. unfold permitted.
  assert (Hpol : ∀ c,
    (allowAll (policy_of (createConfig env) c) = true ∨
     name ∈ set (policy_of (createConfig env) c)) ↔
    (readEnv env (allowed_variable c) "*" = "*" ∨
     name ∈ parseCsvSet (readEnv env (allowed_variable c) "*"))).
  { intros c.
    assert (∃ defaults, policy_of (createConfig env) c
              = parseCommandPolicy (readEnv env (allowed_variable c) "*") defaults)
      as [defaults ->] by (destruct c; eexists; reflexivity).
    destruct (parseCommandPolicy_read env (allowed_variable c) defaults) as [Hall Hset].
    destruct (decide (readEnv env (allowed_variable c) "*" = "*")) as [Hs|Hs].
    - split; intros _; [by left|]. left. by apply Hall.
    - rewrite (Hset Hs). rewrite Hall. done. }
  split; intros (c & Hin & Hen & Hal & Hnb); exists c.
  - split; [done|]. split; [by destruct c|]. split; [by apply Hpol|done].
  - split; [done|]. split; [by destruct c|]. split; [by apply Hpol|done].
Qed.

End Environment.

(** ** What the client spawns *)

Section Footprints.
Import Config State CommandRunner DockerClient.

(** Every process that [m] spawns satisfies [P]. *)
Definition runs {A} (P : spawn → Prop) (m : M A) : Prop :=
  ∀ w r w', m w = (r, w') → ∃ l, spawned w' = spawned w ++ l ∧ Forall P l.

Lemma runs_still {A} P (m : M A) :
  (∀ w r w', m w = (r, w') → spawned w' = spawned w) → runs P m.
Proof.
  intros H w r w' Hm. exists []. rewrite app_nil_r. split; [by eapply H|constructor].
Qed.

Lemma runs_ret {A} P (a : A) : runs P (ret a).
Proof. apply runs_still. intros w r w' H. by inversion H. Qed.

Lemma runs_throw {A} P e : runs P (@throw A e).
Proof. apply runs_still. intros w r w' H. by inversion H. Qed.

Lemma runs_get P : runs P get.
Proof. apply runs_still. intros w r w' H. by inversion H. Qed.

Lemma runs_bind {A B} P (m : M A) (k : A → M B) :
  runs P m → (∀ a, runs P (k a)) → runs P (bind m k).
Proof.
  intros Hm Hk w r w' H. apply bind_inv in H as [(a & w1 & H1 & H2)|(e & H1 & ->)].
  - destruct (Hm _ _ _ H1) as (l1 & E1 & F1). destruct (Hk a _ _ _ H2) as (l2 & E2 & F2).
    exists (l1 ++ l2). rewrite E2, E1, app_assoc. split; [done|]. by apply Forall_app.
  - by eapply Hm.
Qed.

Lemma runs_try_catch {A} P (m : M A) (handler : error → M A) :
  runs P m → (∀ e, runs P (handler e)) → runs P (try_catch m handler).
Proof.
  intros Hm Hh w r w' H. unfold try_catch in H.
  destruct (m w) as [[a|e] w1] eqn:E1.
  - inversion H; subst. by eapply Hm.
  - destruct (Hm _ _ _ E1) as (l1 & E1' & F1). destruct (Hh e _ _ _ H) as (l2 & E2 & F2).
    exists (l1 ++ l2). rewrite E2, E1', app_assoc. split; [done|]. by apply Forall_app.
Qed.

Lemma runs_impl {A} (P Q : spawn → Prop) (m : M A) :
  (∀ s, P s → Q s) → runs P m → runs Q m.
Proof.
  intros HPQ Hm w r w' H. destruct (Hm _ _ _ H) as (l & E & F).
  exists l. split; [done|]. eapply Forall_impl; eauto.
Qed.

Lemma runs_log P level scope message meta : runs P (Logger.write level scope message meta).
Proof. apply runs_still. intros w r w' H. by inversion H. Qed.

Lemma runs_log_error P scope e message meta : runs P (Logger.error scope e message meta).
Proof. apply runs_log. Qed.

Lemma runs_runCommand P command args t :
  (∀ s, program s = command → argv s = args → P s) → runs P (runCommand command args t).
Proof.
  intros HP w r w' H. apply runCommand_inv in H as (s & Hs & Hp & Ha & _).
  exists [s]. split; [done|]. constructor; [by apply HP|constructor].
Qed.

Lemma runs_runDocker P cfg args o :
  (∀ s, program s = dockerBin cfg → argv s = args → P s) → runs P (runDocker cfg args o).
Proof.
  intros HP. unfold runDocker. apply runs_bind; [by apply runs_runCommand|].
  intros result. destruct (_ && _); [apply runs_throw|apply runs_ret].
Qed.

(** The vectors that the resolution of a container name runs docker
    with: the inspection of the name, and the two listings of the
    containers of a compose service. *)
Definition lookup_vector (a : list string) : Prop :=
  (∃ name, a = ["container"; "inspect"; name]) ∨
  (∃ filter, a = ["ps"; "--filter"; filter; "--format"; "{{.Names}}"]) ∨
  (∃ filter, a = ["ps"; "-a"; "--filter"; filter; "--format"; "{{.Names}}"]).

Definition is_lookup (cfg : config) (s : spawn) : Prop :=
  program s = dockerBin cfg ∧ lookup_vector (argv s).

Lemma runs_findContainerByComposeService cfg service :
  runs (is_lookup cfg) (findContainerByComposeService cfg service).
Proof.
  unfold findContainerByComposeService. destruct (negb _); [apply runs_ret|].
  apply runs_bind.
  { apply runs_runDocker. intros s Hp Ha. split; [done|]. rewrite Ha. right; left. eauto. }
  intros running. destruct (Js.truthy _); [apply runs_ret|].
  apply runs_bind; [|intros; apply runs_ret].
  apply runs_runDocker. intros s Hp Ha. split; [done|]. rewrite Ha. right; right. eauto.
Qed.

Lemma runs_readResolveCache P name : runs P (readResolveCache name).
Proof. apply runs_still. intros w r w'. apply readResolveCache_spawned. Qed.

Lemma runs_writeResolveCache P name v : runs P (writeResolveCache name v).
Proof. apply runs_still. intros w r w'. apply writeResolveCache_spawned. Qed.

Lemma runs_assertContainerName P name : runs P (assertContainerName name).
Proof.
  apply runs_still. intros w r w' H. by apply assertContainerName_inv in H as [-> _].
Qed.

Lemma runs_resolveContainerTarget cfg name :
  runs (is_lookup cfg) (resolveContainerTarget cfg name).
Proof.
  unfold resolveContainerTarget.
  apply runs_bind; [apply runs_assertContainerName|intros _].
  apply runs_bind; [apply runs_readResolveCache|intros cached].
  destruct (Js.truthy cached); [apply runs_ret|].
  apply runs_bind.
  { apply runs_runDocker. intros s Hp Ha. split; [done|]. rewrite Ha. left. eauto. }
  intros directInspect. destruct (code directInspect =? 0).
  { apply runs_bind; [apply runs_writeResolveCache|intros; apply runs_ret]. }
  apply runs_bind; [apply runs_findContainerByComposeService|intros composeResolved].
  destruct (Js.truthy composeResolved); [|apply runs_throw].
  apply runs_bind; [apply runs_writeResolveCache|intros _].
  apply runs_bind; [apply runs_writeResolveCache|intros _].
  apply runs_bind; [apply runs_log|intros _]. apply runs_ret.
Qed.

(** A process of the client: docker, run for a look-up or with a
    vector among [V]. *)
Definition client_spawn (cfg : config) (V : list string → Prop) (s : spawn) : Prop :=
  program s = dockerBin cfg ∧ (lookup_vector (argv s) ∨ V (argv s)).

Lemma runs_resolved {A} cfg V name (k : string → M A) :
  (∀ resolved, runs (client_spawn cfg V) (k resolved)) →
  runs (client_spawn cfg V) (let* resolved := resolveContainerTarget cfg name in k resolved).
Proof.
  intros Hk. apply runs_bind; [|done].
  eapply runs_impl; [|apply runs_resolveContainerTarget].
  intros s [Hp Hl]. split; [done|by left].
Qed.

Lemma runs_docker cfg (V : list string → Prop) args o :
  V args → runs (client_spawn cfg V) (runDocker cfg args o).
Proof.
  intros HV. apply runs_runDocker. intros s Hp Ha. split; [done|]. right. by rewrite Ha.
Qed.

Lemma runs_execInContainer cfg (V : list string → Prop) name args o :
  (∀ c, V ("exec" :: c :: args)) →
  runs (client_spawn cfg V) (execInContainer cfg name args o).
Proof. intros HV. apply runs_resolved. intros c. by apply runs_docker. Qed.

End Footprints.

(** ** What a request spawns *)

Section Commands.
Import Config State Policy CommandRunner DockerClient Server.

(** The vectors that the command of each key of the policy runs docker
    with, once the container it names is resolved to [c]. *)
Inductive vector : string → list string → Prop :=
| v_tailscale_status c : vector "tailscale.status" ["exec"; c; "tailscale"; "status"]
| v_tailscale_status_json c :
    vector "tailscale.status" ["exec"; c; "tailscale"; "status"; "--json"]
| v_tailscale_ping c n target :
    1 ≤ n ≤ 10 → target ≠ EmptyString →
    vector "tailscale.ping" ["exec"; c; "tailscale"; "ping"; "-c"; Js.string_of_Z n; target]
| v_tailscale_ip c : vector "tailscale.ip" ["exec"; c; "tailscale"; "ip"; "-4"]
| v_nginx_test c : vector "nginx.test" ["exec"; c; "nginx"; "-t"]
| v_nginx_reload_test c : vector "nginx.reload" ["exec"; c; "nginx"; "-t"]
| v_nginx_reload c : vector "nginx.reload" ["exec"; c; "nginx"; "-s"; "reload"]
| v_nginx_version c : vector "nginx.version" ["exec"; c; "nginx"; "-v"]
| v_nginx_logs c logType logFile n :
    LOG_TYPES logType = Some logFile →
    vector ("nginx.logs." +:+ logType) ["exec"; c; "tail"; "-n"; Js.string_of_Z n; logFile]
| v_system_ps : vector "system.ps" ["ps"; "-a"]
| v_system_images : vector "system.images" ["images"]
| v_system_networks : vector "system.networks" ["network"; "ls"]
| v_system_volumes : vector "system.volumes" ["volume"; "ls"]
| v_system_info : vector "system.info" ["info"]
| v_system_version : vector "system.version" ["version"]
| v_system_prune kind flag :
    (kind, flag) ∈ [ ("system", "-f"); ("container", "-f"); ("image", "-af");
                     ("network", "-f"); ("volume", "-f"); ("builder", "-af") ] →
    vector "system.prune" [kind; "prune"; flag]
| v_system_raw args : args ≠ [] → vector "system.raw" args
| v_container_status c :
    vector "container.status" ["ps"; "-a"; "--filter"; "name=^/" +:+ c +:+ "$"]
| v_container_logs c n options :
    vector "container.logs" (["logs"; "--tail"; Js.string_of_Z n] ++ options ++ [c])
| v_container_inspect c : vector "container.inspect" ["inspect"; c]
| v_container_top c : vector "container.top" ["top"; c]
| v_container_stats c : vector "container.stats" ["stats"; "--no-stream"; c]
| v_container_mutate action c :
    action ∈ ["start"; "stop"; "restart"; "pause"; "unpause"; "kill"] →
    vector ("container." +:+ action) [action; c]
| v_container_rm c : vector "container.rm" ["rm"; "-f"; c]
| v_container_exec c shell command :
    shell ∈ interpreters → command ≠ EmptyString →
    vector "container.exec" ["exec"; c; shell; "-lc"; command]
| v_container_rename c toName :
    isContainerNameValid toName = true →
    vector "container.rename" ["rename"; c; toName]
| v_container_update c args :
    args ≠ [] → vector "container.update" (["update"] ++ args ++ [c])
| v_container_raw c args : args ≠ [] → vector "container.raw" (args ++ [c]).

(** The method that the route of a key asks for. *)
Definition method_of (key : string) : string :=
  if bool_decide (key ∈ ["tailscale.ping"; "container.start"; "container.stop";
                         "container.restart"; "container.pause"; "container.unpause"]
                        ++ DANGEROUS_COMMAND_KEYS)
  then "POST" else "GET".

(** A process that a request may spawn: docker, for a command that the
    policy allows and whose method is the method of the request, run
    for a look-up of the container or with a vector of the command. *)
Definition permitted_spawn (cfg : config) (req : request) (s : spawn) : Prop :=
  program s = dockerBin cfg ∧
  ∃ key, isCommandAllowed cfg key = true ∧ method req = method_of key ∧
         (lookup_vector (argv s) ∨ vector key (argv s)).

Lemma runs_guarded cfg req m key action :
  method_of key = m →
  runs (client_spawn cfg (vector key)) action →
  runs (permitted_spawn cfg req) (guarded cfg req [m] key action).
Proof.
  intros Hm Ha. unfold guarded, ensureMethod.
  case_bool_decide as Hin; [|apply runs_ret].
  apply list_elem_of_singleton in Hin.
  unfold requirePermission. destruct (isCommandAllowed cfg key) eqn:Hal; [|apply runs_ret].
  eapply runs_impl; [|exact Ha]. intros s [Hp Hv]. split; [done|].
  exists key. by rewrite Hin, Hm.
Qed.

Lemma runs_send P (m : M CommandResult) :
  runs P m → runs P (let* result := m in ret (sendCommandResult result)).
Proof. intros H. apply runs_bind; [done|intros; apply runs_ret]. Qed.

Lemma runs_parseRequestBody P JSON_parse req limit :
  runs P (parseRequestBody JSON_parse req limit).
Proof.
  apply runs_still. intros w r w' H. unfold parseRequestBody in H.
  destruct (_ <? _); by inversion H.
Qed.

(** *** The commands of the client *)

Lemma runs_tailscaleStatus cfg asJson :
  runs (client_spawn cfg (vector "tailscale.status")) (tailscaleStatus cfg asJson).
Proof.
  unfold tailscaleStatus. destruct asJson; apply runs_execInContainer; intros c; constructor.
Qed.

Lemma runs_tailscalePing cfg target count :
  runs (client_spawn cfg (vector "tailscale.ping")) (tailscalePing cfg target count).
Proof.
  unfold tailscalePing. destruct (Js.truthy (normalizeValue target)) eqn:Et; simpl;
    [|apply runs_throw].
  apply runs_execInContainer. intros c. constructor.
  - apply parsePositiveInt_range; lia.
  - by apply truthy_ne.
Qed.

Lemma runs_tailscaleIp cfg : runs (client_spawn cfg (vector "tailscale.ip")) (tailscaleIp cfg).
Proof. apply runs_execInContainer. intros c. constructor. Qed.

Lemma runs_nginxTest cfg : runs (client_spawn cfg (vector "nginx.test")) (nginxTest cfg).
Proof. apply runs_execInContainer. intros c. constructor. Qed.

Lemma runs_nginxReload cfg : runs (client_spawn cfg (vector "nginx.reload")) (nginxReload cfg).
Proof.
  unfold nginxReload. apply runs_bind.
  - apply runs_execInContainer. intros c. constructor.
  - intros _. apply runs_execInContainer. intros c. constructor.
Qed.

Lemma runs_nginxVersion cfg :
  runs (client_spawn cfg (vector "nginx.version")) (nginxVersion cfg).
Proof. apply runs_execInContainer. intros c. constructor. Qed.

Lemma runs_nginxLogs cfg logType tailLines :
  Js.toLowerCase (normalizeValue logType) = logType →
  runs (client_spawn cfg (vector ("nginx.logs." +:+ logType))) (nginxLogs cfg logType tailLines).
Proof.
  intros Hl. unfold nginxLogs. rewrite Hl.
  destruct (LOG_TYPES logType) as [logFile|] eqn:E; [|apply runs_throw].
  apply runs_execInContainer. intros c. by constructor.
Qed.

Lemma runs_systemCommand cfg key name :
  (key, name) ∈ [ ("system.ps", "ps"); ("system.images", "images");
                  ("system.networks", "networks"); ("system.volumes", "volumes");
                  ("system.info", "info"); ("system.version", "version") ] →
  runs (client_spawn cfg (vector key)) (systemCommand cfg name).
Proof.
  intros Hin. repeat (apply elem_of_cons in Hin as [[= -> ->]|Hin];
    [apply runs_docker; constructor|]).
  by apply elem_of_nil in Hin.
Qed.

Lemma runs_systemPrune cfg scope :
  runs (client_spawn cfg (vector "system.prune")) (systemPrune cfg scope).
Proof.
  unfold systemPrune.
  repeat (lazymatch goal with |- runs _ (if ?b then _ else _) => destruct b end;
          [apply runs_docker; constructor; compute_done|]).
  apply runs_throw.
Qed.

Lemma length_zero {A} (l : list A) : (length l =? 0)%nat = false → l ≠ [].
Proof. by destruct l. Qed.

Lemma runs_systemRaw cfg args :
  runs (client_spawn cfg (vector "system.raw")) (systemRaw cfg args).
Proof.
  unfold systemRaw. destruct (length args =? 0)%nat eqn:E; [apply runs_throw|].
  apply runs_docker. constructor. by apply length_zero.
Qed.

Lemma runs_containerStatus cfg name :
  runs (client_spawn cfg (vector "container.status")) (containerStatus cfg name).
Proof. apply runs_resolved. intros c. apply runs_docker. constructor. Qed.

Lemma runs_containerLogs cfg name tail since timestamps :
  runs (client_spawn cfg (vector "container.logs"))
    (containerLogs cfg name tail since timestamps).
Proof.
  apply runs_resolved. intros c. apply runs_docker.
  rewrite (app_assoc (if Js.truthy _ then _ else _)). constructor.
Qed.

Lemma runs_containerInspect cfg name :
  runs (client_spawn cfg (vector "container.inspect")) (containerInspect cfg name).
Proof. apply runs_resolved. intros c. apply runs_docker. constructor. Qed.

Lemma runs_containerTop cfg name :
  runs (client_spawn cfg (vector "container.top")) (containerTop cfg name).
Proof. apply runs_resolved. intros c. apply runs_docker. constructor. Qed.

Lemma runs_containerStats cfg name :
  runs (client_spawn cfg (vector "container.stats")) (containerStats cfg name).
Proof. apply runs_resolved. intros c. apply runs_docker. constructor. Qed.

Lemma runs_containerMutate cfg name action :
  action ∈ ["start"; "stop"; "restart"; "pause"; "unpause"; "kill"; "rm"] →
  runs (client_spawn cfg (vector ("container." +:+ action))) (containerMutate cfg name action).
Proof.
  intros Hin. apply runs_resolved. intros c.
  repeat (apply elem_of_cons in Hin as [->|Hin];
    [apply runs_docker; first [apply v_container_rm|apply v_container_mutate; compute_done]|]).
  by apply elem_of_nil in Hin.
Qed.

Lemma runs_containerExec cfg name shellName commandText :
  runs (client_spawn cfg (vector "container.exec"))
    (containerExec cfg name shellName commandText).
Proof.
  apply runs_resolved. intros c.
  destruct (Js.truthy (normalizeValue commandText)) eqn:Et; simpl; [|apply runs_throw].
  apply runs_docker. constructor; [|by apply truthy_ne].
  destruct (shell_allowed _) eqn:E; [by apply shell_allowed_iff|compute_done].
Qed.

Lemma runs_containerRename cfg name toName :
  runs (client_spawn cfg (vector "container.rename")) (containerRename cfg name toName).
Proof.
  apply runs_resolved. intros c. unfold assertContainerName.
  destruct (isContainerNameValid toName) eqn:E.
  - apply runs_bind; [apply runs_ret|intros _]. apply runs_docker. by constructor.
  - apply runs_still. intros w r w' H. by inversion H.
Qed.

Lemma runs_containerUpdate cfg name args :
  runs (client_spawn cfg (vector "container.update")) (containerUpdate cfg name args).
Proof.
  apply runs_resolved. intros c. destruct (length args =? 0)%nat eqn:E; [apply runs_throw|].
  apply runs_docker. constructor. by apply length_zero.
Qed.

Lemma runs_containerRaw cfg name args :
  runs (client_spawn cfg (vector "container.raw")) (containerRaw cfg name args).
Proof.
  apply runs_resolved. intros c. destruct (length args =? 0)%nat eqn:E; [apply runs_throw|].
  apply runs_docker. constructor. by apply length_zero.
Qed.

(** *** The routes *)

Section Routes.

Variable JSON_parse : string → Json.value + string.
Variable JSON_stringify : Json.value → string.
Variable toISOString : Z → string.
Variable cfg : config.
Variable req : request.

Let permitted := permitted_spawn cfg req.

Lemma runs_route_help : runs permitted (route_help cfg req).
Proof. apply runs_guarded; [reflexivity|apply runs_ret]. Qed.

Lemma runs_route_healthz : runs permitted (route_healthz toISOString cfg req).
Proof.
  apply runs_guarded; [reflexivity|]. apply runs_bind; [apply runs_get|intros; apply runs_ret].
Qed.

Lemma runs_route_tailscale_ping urlObj :
  runs permitted (route_tailscale_ping JSON_parse cfg req urlObj).
Proof.
  apply runs_guarded; [reflexivity|].
  apply runs_bind; [apply runs_parseRequestBody|intros b].
  apply runs_send, runs_tailscalePing.
Qed.

Lemma runs_route_nginx_reload : runs permitted (route_nginx_reload cfg req).
Proof. apply runs_guarded; [reflexivity|]. apply runs_send, runs_nginxReload. Qed.

Lemma runs_route_tailscale_status urlObj :
  runs permitted (route_tailscale_status JSON_parse JSON_stringify cfg req urlObj).
Proof.
  apply runs_guarded; [reflexivity|]. cbv zeta.
  apply runs_bind; [apply runs_tailscaleStatus|intros result].
  destruct (String.eqb _ "json"); [|apply runs_ret].
  destruct (JSON_parse _); apply runs_ret.
Qed.

Lemma runs_route_tailscale_ip : runs permitted (route_tailscale_ip cfg req).
Proof. apply runs_guarded; [reflexivity|]. apply runs_send, runs_tailscaleIp. Qed.

Lemma runs_route_nginx_test : runs permitted (route_nginx_test cfg req).
Proof. apply runs_guarded; [reflexivity|]. apply runs_send, runs_nginxTest. Qed.

Lemma runs_route_nginx_version : runs permitted (route_nginx_version cfg req).
Proof. apply runs_guarded; [reflexivity|]. apply runs_send, runs_nginxVersion. Qed.

Lemma runs_route_nginx_logs urlObj group :
  runs permitted (route_nginx_logs cfg req urlObj group).
Proof.
  unfold route_nginx_logs, ensureMethod.
  case_bool_decide as Hm; [|apply runs_ret]. apply list_elem_of_singleton in Hm.
  cbv zeta. set (logType := Js.toLowerCase (normalizeValue group)).
  destruct (decide (logType ∈ ["access"; "error"; "shadow"])) as [Hin|Hin];
    [rewrite (bool_decide_eq_true_2 _ Hin)|rewrite (bool_decide_eq_false_2 _ Hin)];
    cbv [negb]; [|apply runs_ret].
  unfold requirePermission.
  destruct (isCommandAllowed cfg ("nginx.logs." +:+ logType)) eqn:Hal; [|apply runs_ret].
  apply runs_send. eapply runs_impl; [|apply runs_nginxLogs].
  - intros s [Hp Hv]. split; [done|]. exists ("nginx.logs." +:+ logType).
    split; [done|]. split; [|done]. rewrite Hm.
    repeat (apply elem_of_cons in Hin as [->|Hin]; [reflexivity|]).
    by apply elem_of_nil in Hin.
  - repeat (apply elem_of_cons in Hin as [->|Hin]; [reflexivity|]).
    by apply elem_of_nil in Hin.
Qed.

Lemma runs_handleSystemRoute urlObj commandName :
  runs permitted (handleSystemRoute JSON_parse cfg req urlObj commandName).
Proof.
  unfold handleSystemRoute. destruct (safeMap commandName) as [[key name]|] eqn:Es.
  - assert (Hin : (key, name) ∈ [ ("system.ps", "ps"); ("system.images", "images");
                    ("system.networks", "networks"); ("system.volumes", "volumes");
                    ("system.info", "info"); ("system.version", "version") ]).
    { unfold safeMap in Es.
      repeat (lazymatch type of Es with
              | (if ?b then _ else _) = _ => destruct b; [inversion Es; compute_done|]
              end).
      discriminate Es. }
    apply runs_guarded.
    + repeat (apply elem_of_cons in Hin as [[= -> ->]|Hin]; [reflexivity|]).
      by apply elem_of_nil in Hin.
    + apply runs_send. by apply runs_systemCommand.
  - destruct (inherited commandName).
    { destruct (ensureMethod req ["GET"]); apply runs_ret. }
    destruct (String.eqb commandName "prune").
    { apply runs_guarded; [reflexivity|]. apply runs_send, runs_systemPrune. }
    destruct (String.eqb commandName "raw"); [|apply runs_ret].
    apply runs_guarded; [reflexivity|].
    apply runs_bind; [apply runs_parseRequestBody|intros b].
    apply runs_send, runs_systemRaw.
Qed.

Lemma runs_handleContainerRoute urlObj containerName actionName :
  runs permitted (handleContainerRoute JSON_parse cfg req urlObj containerName actionName).
Proof.
  unfold handleContainerRoute.
  destruct (safeReadonlyActions cfg urlObj containerName actionName) as [[key fn]|] eqn:Es.
  { unfold safeReadonlyActions in Es.
    repeat (lazymatch type of Es with
            | (if ?b then _ else _) = _ =>
                destruct b;
                [inversion Es; subst; apply runs_guarded; [reflexivity|]; apply runs_send;
                 first [apply runs_containerStatus | apply runs_containerLogs
                       | apply runs_containerInspect | apply runs_containerTop
                       | apply runs_containerStats]|]
            end).
    discriminate Es. }
  destruct (inherited actionName); [apply runs_ret|].
  destruct (safeMutateActions actionName) as [key|] eqn:Em.
  { unfold safeMutateActions in Em. case_bool_decide as Hin; [|discriminate Em].
    inversion Em; subst key. apply runs_guarded.
    - repeat (apply elem_of_cons in Hin as [->|Hin]; [reflexivity|]).
      by apply elem_of_nil in Hin.
    - apply runs_send, runs_containerMutate.
      repeat (apply elem_of_cons in Hin as [->|Hin]; [compute_done|]).
      by apply elem_of_nil in Hin. }
  destruct (dangerousActions actionName) as [key|] eqn:Ed.
  { unfold dangerousActions in Ed. case_bool_decide as Hin; [|discriminate Ed].
    inversion Ed; subst key. apply runs_guarded.
    - repeat (apply elem_of_cons in Hin as [->|Hin]; [reflexivity|]).
      by apply elem_of_nil in Hin.
    - apply runs_send, runs_containerMutate.
      repeat (apply elem_of_cons in Hin as [->|Hin]; [compute_done|]).
      by apply elem_of_nil in Hin. }
  destruct (String.eqb actionName "exec").
  { apply runs_guarded; [reflexivity|].
    apply runs_bind; [apply runs_parseRequestBody|intros b].
    apply runs_send, runs_containerExec. }
  destruct (String.eqb actionName "rename").
  { apply runs_guarded; [reflexivity|].
    apply runs_bind; [apply runs_parseRequestBody|intros b].
    apply runs_send, runs_containerRename. }
  destruct (String.eqb actionName "update").
  { apply runs_guarded; [reflexivity|].
    apply runs_bind; [apply runs_parseRequestBody|intros b].
    apply runs_send, runs_containerUpdate. }
  destruct (String.eqb actionName "raw"); [|apply runs_ret].
  apply runs_guarded; [reflexivity|].
  apply runs_bind; [apply runs_parseRequestBody|intros b].
  apply runs_send, runs_containerRaw.
Qed.

Lemma runs_otherRoutes urlObj :
  runs permitted (otherRoutes JSON_parse JSON_stringify cfg req urlObj).
Proof.
  unfold otherRoutes.
  destruct (String.eqb _ "/dockerapi/tailscale/status"); [apply runs_route_tailscale_status|].
  destruct (String.eqb _ "/dockerapi/tailscale/ip"); [apply runs_route_tailscale_ip|].
  destruct (String.eqb _ "/dockerapi/nginx/test"); [apply runs_route_nginx_test|].
  destruct (String.eqb _ "/dockerapi/nginx/version"); [apply runs_route_nginx_version|].
  destruct (match_word "/dockerapi/nginx/logs/" _ _); [apply runs_route_nginx_logs|].
  destruct (match_word "/dockerapi/system/" _ _); [apply runs_handleSystemRoute|].
  destruct (match_container _) as [[c a]|]; [apply runs_handleContainerRoute|apply runs_ret].
Qed.

Lemma runs_handleCommandError P scope e : runs P (handleCommandError scope e).
Proof.
  unfold handleCommandError. destruct (result e).
  - apply runs_bind; [apply runs_log_error|intros; apply runs_ret].
  - apply runs_bind; [apply runs_log_error|intros; apply runs_ret].
Qed.

Lemma runs_requestHandler otherRoutes :
  (∀ urlObj, runs permitted (otherRoutes req urlObj)) →
  runs permitted (requestHandler JSON_parse toISOString cfg otherRoutes req).
Proof.
  intros Hother. unfold requestHandler.
  apply runs_bind; [apply runs_still; intros w r w' H; by inversion H|intros _].
  apply runs_bind; [apply runs_get|intros w].
  destruct (target req) as [urlObj|]; [|apply runs_ret].
  apply runs_bind; [apply runs_log|intros _].
  destruct (negb _); [apply runs_ret|].
  apply runs_try_catch; [|intros e; apply runs_handleCommandError].
  destruct (_ || _); [apply runs_route_help|].
  destruct (String.eqb _ "/dockerapi/help"); [apply runs_route_help|].
  destruct (String.eqb _ "/dockerapi/healthz"); [apply runs_route_healthz|].
  destruct (String.eqb _ "/dockerapi/tailscale/ping"); [apply runs_route_tailscale_ping|].
  destruct (String.eqb _ "/dockerapi/nginx/reload"); [apply runs_route_nginx_reload|].
  apply Hother.
Qed.

Lemma runs_serve :
  runs permitted (serve JSON_parse JSON_stringify toISOString cfg req).
Proof. apply runs_requestHandler. apply runs_otherRoutes. Qed.

End Routes.

(** *** What the service runs *)

(** Every process that the handling of a request spawns is docker, and
    belongs to a command that the policy allows and whose route asks
    for the method of the request: it is a look-up of the container
    that the command names, or it has a vector of that command. *)
Theorem serve_spawns_permitted
    (JSON_parse : string → Json.value + string) (JSON_stringify : Json.value → string)
    (toISOString : Z → string) (cfg : config) (req : request) (w : world) :
  ∃ l, spawned (snd (serve JSON_parse JSON_stringify toISOString cfg req w)) = spawned w ++ l ∧
       Forall (permitted_spawn cfg req) l.
Proof.
  destruct (serve JSON_parse JSON_stringify toISOString cfg req w) as [r w'] eqn:E.
  exact (runs_serve JSON_parse JSON_stringify toISOString cfg req w r w' E).
Qed.

(** The word of a vector at a position, empty when there is none. *)
Definition word (a : list string) (i : nat) : string := default EmptyString (a !! i).

(** The vectors that only read: the listings, the inspections and the
    logs of docker, and inside a container the status and the address
    of the overlay network, the test and the version of the proxy, and
    the tail of a file. *)
Definition read_only (a : list string) : bool :=
  bool_decide (word a 0 ∈ ["ps"; "logs"; "images"; "info"; "version"; "inspect"; "top"; "stats"])
  || bool_decide ((word a 0, word a 1)
                    ∈ [("container", "inspect"); ("network", "ls"); ("volume", "ls")])
  || bool_decide (word a 0 = "exec" ∧
                  (word a 2, word a 3)
                    ∈ [("tailscale", "status"); ("tailscale", "ip"); ("nginx", "-t");
                       ("nginx", "-v"); ("tail", "-n")]).

Lemma lookup_read_only a : lookup_vector a → read_only a = true.
Proof. intros [[n ->]|[[f ->]|[f ->]]]; reflexivity. Qed.

Lemma get_vector_read_only key a :
  method_of key = "GET" → vector key a → read_only a = true.
Proof.
  intros Hm Hv. destruct Hv; try discriminate Hm; try reflexivity.
  repeat (apply elem_of_cons in H as [->|H]; [discriminate Hm|]). by apply elem_of_nil in H.
Qed.

(** A GET request only reads: every process that it spawns has a
    vector that only reads. *)
Theorem get_is_read_only
    (JSON_parse : string → Json.value + string) (JSON_stringify : Json.value → string)
    (toISOString : Z → string) (cfg : config) (req : request) (w : world) :
  method req = "GET" →
  ∃ l, spawned (snd (serve JSON_parse JSON_stringify toISOString cfg req w)) = spawned w ++ l ∧
       Forall (fun s => program s = dockerBin cfg ∧ read_only (argv s) = true) l.
Proof.
  intros Hget.
  destruct (serve JSON_parse JSON_stringify toISOString cfg req w) as [r w'] eqn:E.
  destruct (runs_serve JSON_parse JSON_stringify toISOString cfg req w r w' E) as (l & Hl & Hall).
  exists l. split; [done|]. eapply Forall_impl; [exact Hall|].
  intros s (Hp & key & _ & Hm & [Hv|Hv]); (split; [done|]).
  - by apply lookup_read_only.
  - apply (get_vector_read_only key); [|done]. by rewrite <- Hm.
Qed.

(** The request [GET /dockerapi/system/images]. *)
Definition images_request : request :=
  {| method := "GET";
     target := Some {| pathname := "/dockerapi/system/images"; search := EmptyString;
                       searchParams := [] |};
     payload := EmptyString;
     remoteAddress := "127.0.0.1" |}.

Lemma get_is_read_only_witness :
  ∃ l, spawned (snd (serve (fun _ => inr EmptyString) (fun _ => EmptyString) Js.string_of_Z
                       default_config images_request (fresh quiet)))
       = spawned (fresh quiet) ++ l ∧
       Forall (fun s => program s = dockerBin default_config ∧ read_only (argv s) = true) l.
Proof.
  apply (get_is_read_only (fun _ => inr EmptyString) (fun _ => EmptyString) Js.string_of_Z
           default_config images_request (fresh quiet)).
  reflexivity.
Defined.

Lemma Forall_False_nil {A} (l : list A) : Forall (fun _ => False) l → l = [].
Proof. destruct l as [|x l]; [done|]. by intros [? _]%Forall_cons. Qed.

(** Under a policy that allows no command, no request spawns a process. *)
Theorem nothing_allowed_nothing_spawned
    (JSON_parse : string → Json.value + string) (JSON_stringify : Json.value → string)
    (toISOString : Z → string) (cfg : config) (req : request) (w : world) :
  (∀ key, isCommandAllowed cfg key = false) →
  spawned (snd (serve JSON_parse JSON_stringify toISOString cfg req w)) = spawned w.
Proof.
  intros Hnone.
  destruct (serve JSON_parse JSON_stringify toISOString cfg req w) as [r w'] eqn:E.
  destruct (runs_serve JSON_parse JSON_stringify toISOString cfg req w r w' E) as (l & Hl & Hall).
  simpl. rewrite Hl. rewrite (Forall_False_nil l); [by rewrite app_nil_r|].
  eapply Forall_impl; [exact Hall|].
  intros s (_ & key & Hal & _). by rewrite Hnone in Hal.
Qed.

(** The default configuration with both categories switched off. *)
Definition config_all_off : config :=
  {| host := host default_config; port := port default_config;
     dockerBin := dockerBin default_config;
     requestBodyLimitBytes := requestBodyLimitBytes default_config;
     commandTimeoutMs := commandTimeoutMs default_config;
     maxLogLines := maxLogLines default_config;
     defaultLogTail := defaultLogTail default_config;
     tailscaleSyncEnabled := tailscaleSyncEnabled default_config;
     tailscaleSyncIntervalSec := tailscaleSyncIntervalSec default_config;
     tailscaleContainer := tailscaleContainer default_config;
     nginxContainer := nginxContainer default_config;
     shadowDir := shadowDir default_config;
     shadowPort := shadowPort default_config;
     enableSafeCommands := false; enableDangerousCommands := false;
     safeCommandsPolicy := safeCommandsPolicy default_config;
     dangerousCommandsPolicy := dangerousCommandsPolicy default_config;
     blockedCommands := [];
     execShell := "sh" |}.

Lemma config_all_off_denies key : isCommandAllowed config_all_off key = false.
Proof.
  unfold isCommandAllowed. destruct (COMMAND_MAP !! key) as [spec|]; [|done].
  case_bool_decide; [done|]. by destruct (category_of spec).
Qed.

Lemma nothing_allowed_nothing_spawned_witness :
  spawned (snd (serve (fun _ => inr EmptyString) (fun _ => EmptyString) Js.string_of_Z
                  config_all_off images_request (fresh quiet)))
  = spawned (fresh quiet).
Proof.
  apply (nothing_allowed_nothing_spawned (fun _ => inr EmptyString) (fun _ => EmptyString)
           Js.string_of_Z config_all_off images_request (fresh quiet)).
  exact config_all_off_denies.
Defined.

Lemma method_of_cases key : method_of key = "GET" ∨ method_of key = "POST".
Proof. unfold method_of. case_bool_decide; auto. Qed.

(** A request whose method is neither GET nor POST spawns no process. *)
Theorem other_methods_spawn_nothing
    (JSON_parse : string → Json.value + string) (JSON_stringify : Json.value → string)
    (toISOString : Z → string) (cfg : config) (req : request) (w : world) :
  method req ≠ "GET" → method req ≠ "POST" →
  spawned (snd (serve JSON_parse JSON_stringify toISOString cfg req w)) = spawned w.
Proof.
  intros Hget Hpost.
  destruct (serve JSON_parse JSON_stringify toISOString cfg req w) as [r w'] eqn:E.
  destruct (runs_serve JSON_parse JSON_stringify toISOString cfg req w r w' E) as (l & Hl & Hall).
  simpl. rewrite Hl. rewrite (Forall_False_nil l); [by rewrite app_nil_r|].
  eapply Forall_impl; [exact Hall|].
  intros s (_ & key & _ & Hm & _). destruct (method_of_cases key); congruence.
Qed.

(** The request [DELETE /dockerapi/web/rm]. *)
Definition delete_request : request :=
  {| method := "DELETE";
     target := Some {| pathname := "/dockerapi/web/rm"; search := EmptyString;
                       searchParams := [] |};
     payload := EmptyString;
     remoteAddress := "127.0.0.1" |}.

Lemma other_methods_spawn_nothing_witness :
  spawned (snd (serve (fun _ => inr EmptyString) (fun _ => EmptyString) Js.string_of_Z
                  default_config delete_request (fresh quiet)))
  = spawned (fresh quiet).
Proof.
  apply (other_methods_spawn_nothing (fun _ => inr EmptyString) (fun _ => EmptyString)
           Js.string_of_Z default_config delete_request (fresh quiet)); discriminate.
Defined.

End Commands.

(** ** The number of lines of a log *)

Section LogTail.
Import Config State CommandRunner DockerClient Server.

Lemma threshold_large : 2 ^ 53 < Js.overflow_threshold.
Proof. reflexivity. Qed.

Lemma clamp_range min max n : min ≤ max → min ≤ clamp min max n ≤ max.
Proof.
  intros H. unfold clamp. destruct (n <? min) eqn:E1; [lia|]. destruct (max <? n) eqn:E2; lia.
Qed.

Lemma parsePositiveInt_cases value fallback min max :
  min ≤ max →
  parsePositiveInt value fallback min max = fallback ∨
  min ≤ parsePositiveInt value fallback min max ≤ max.
Proof.
  intros H. unfold parsePositiveInt. destruct (Js.parseInt10 _) as [| |parsed]; [by left..|].
  right. destruct (parsed <? min) eqn:E1; [lia|]. destruct (max <? parsed) eqn:E2; lia.
Qed.

(** The number that the client reads back from the number that the
    route has read. *)
Lemma parsePositiveInt_twice value fallback max :
  1 ≤ max ≤ 20000 → 1 ≤ fallback ≤ 20000 →
  1 ≤ parsePositiveInt
        (Js.string_of_Z (parsePositiveInt value fallback 1 max)) fallback 1 max ≤ max.
Proof.
  intros Hmax Hf. rewrite parsePositiveInt_string_of_Z.
  - apply clamp_range. lia.
  - pose proof threshold_large.
    destruct (parsePositiveInt_cases value fallback 1 max) as [->|?]; lia.
Qed.

Lemma createConfig_log_lines env :
  1 ≤ maxLogLines (createConfig env) ≤ 20000 ∧ 1 ≤ defaultLogTail (createConfig env) ≤ 20000.
Proof.
  unfold createConfig; simpl. split.
  - pose proof (readIntEnv_range env "DOCKER_MANAGER_MAX_LOG_LINES" 2000 10 20000). lia.
  - apply readIntEnv_range. lia.
Qed.

(** The tail of a proxy log with a number of lines within the bounds. *)
Definition bounded_tail (cfg : config) (a : list string) : Prop :=
  ∃ c n logFile,
    a = ["exec"; c; "tail"; "-n"; Js.string_of_Z n; logFile] ∧
    1 ≤ n ≤ maxLogLines cfg ∧
    logFile ∈ [ "/var/log/nginx/app.access.log"; "/var/log/nginx/app.error.log";
                "/var/log/nginx/shadow.mirror.log" ].

(** The logs of a container with a number of lines within the bounds,
    or the default number. *)
Definition container_tail (cfg : config) (a : list string) : Prop :=
  ∃ c n options,
    a = ["logs"; "--tail"; Js.string_of_Z n] ++ options ++ [c] ∧
    (1 ≤ n ≤ maxLogLines cfg ∨ n = defaultLogTail cfg).

Lemma runs_nginx_logs_bounded cfg req urlObj group :
  1 ≤ maxLogLines cfg ≤ 20000 → 1 ≤ defaultLogTail cfg ≤ 20000 →
  runs (client_spawn cfg (bounded_tail cfg)) (route_nginx_logs cfg req urlObj group).
Proof.
  intros Hmax Hdef. unfold route_nginx_logs.
  destruct (ensureMethod req ["GET"]); [apply runs_ret|]. cbv zeta.
  set (logType := Js.toLowerCase (normalizeValue group)).
  destruct (decide (logType ∈ ["access"; "error"; "shadow"])) as [Hin|Hin];
    [rewrite (bool_decide_eq_true_2 _ Hin)|rewrite (bool_decide_eq_false_2 _ Hin)];
    cbv [negb]; [|apply runs_ret].
  destruct (requirePermission cfg _); [apply runs_ret|].
  apply runs_send. unfold nginxLogs.
  assert (Hfile : Js.toLowerCase (normalizeValue logType) = logType ∧
                  ∃ logFile, LOG_TYPES logType = Some logFile ∧
                    logFile ∈ [ "/var/log/nginx/app.access.log"; "/var/log/nginx/app.error.log";
                                "/var/log/nginx/shadow.mirror.log" ]).
  { clearbody logType.
    repeat (apply elem_of_cons in Hin as [->|Hin];
      [split; [reflexivity|eexists; split; [reflexivity|compute_done]]|]).
    by apply elem_of_nil in Hin. }
  destruct Hfile as (-> & logFile & -> & Hfile).
  apply runs_execInContainer. intros c. eexists c, _, logFile.
  split; [reflexivity|]. split; [|done]. by apply parsePositiveInt_twice.
Qed.

Lemma runs_containerLogs_tail cfg name tail since timestamps :
  1 ≤ maxLogLines cfg →
  runs (client_spawn cfg (container_tail cfg)) (containerLogs cfg name tail since timestamps).
Proof.
  intros Hmax. apply runs_resolved. intros c. apply runs_docker.
  rewrite (app_assoc (if Js.truthy _ then _ else _)). eexists c, _, _.
  split; [reflexivity|].
  destruct (parsePositiveInt_cases (default EmptyString tail) (defaultLogTail cfg) 1
              (maxLogLines cfg) Hmax) as [->|?]; auto.
Qed.

(** Under a configuration read from the environment, the route of the
    proxy logs tails one of the three log files with a number of lines
    between 1 and the configured maximum, whatever the request asks
    for: the number is parsed by the route and again by the client, so
    that the default is clamped as well.  The logs of a container are
    parsed once: their number of lines is within the same bounds, or it
    is the configured default, which may exceed the maximum. *)
Theorem log_tail_bounds (env : gmap string string) (req : request) (urlObj : url)
    (group name : string) (tail since timestamps : option string) (w : world) :
  (∃ l, spawned (snd (route_nginx_logs (createConfig env) req urlObj group w)) = spawned w ++ l ∧
        Forall (client_spawn (createConfig env) (bounded_tail (createConfig env))) l) ∧
  (∃ l, spawned (snd (containerLogs (createConfig env) name tail since timestamps w))
        = spawned w ++ l ∧
        Forall (client_spawn (createConfig env) (container_tail (createConfig env))) l).
Proof.
  destruct (createConfig_log_lines env) as [Hmax Hdef]. split.
  - destruct (route_nginx_logs (createConfig env) req urlObj group w) as [r w'] eqn:E.
    exact (runs_nginx_logs_bounded _ req urlObj group Hmax Hdef w r w' E).
  - destruct (containerLogs (createConfig env) name tail since timestamps w) as [r w'] eqn:E.
    refine (runs_containerLogs_tail _ name tail since timestamps _ w r w' E). lia.
Qed.

End LogTail.

(** ** Container names that are not valid *)

Section InvalidNames.
Import Config State CommandRunner DockerClient Server.

(** The computation leaves the state as it is, but for the socket of a
    request whose body is too large, which it destroys as it throws. *)
Definition inert (large : bool) {A} (m : M A) : Prop :=
  ∀ w, snd (m w) = w ∨
       (large = true ∧
        ∃ e, m w = (Throw e, set_destroyed (destroyed w ++ [requestCount w]) w)).

Lemma inert_ret large {A} (a : A) : inert large (ret a).
Proof. intros w. by left. Qed.

Lemma inert_throw large {A} e : inert large (@throw A e).
Proof. intros w. by left. Qed.

Lemma inert_bind large {A B} (m : M A) (k : A → M B) :
  inert large m → (∀ a, inert large (k a)) → inert large (bind m k).
Proof.
  intros Hm Hk w. unfold bind. destruct (Hm w) as [Hw|(Hl & e & He)].
  - destruct (m w) as [[a|e] w1]; simpl in Hw; subst w1; [apply Hk|by left].
  - rewrite He. right. eauto.
Qed.

Lemma inert_guarded large cfg req methods key (action : M response) :
  inert large action → inert large (guarded cfg req methods key action).
Proof.
  intros Ha. unfold guarded. destruct (ensureMethod _ _); [apply inert_ret|].
  destruct (requirePermission _ _); [apply inert_ret|done].
Qed.

Lemma inert_parseRequestBody JSON_parse req limit :
  inert (limit <? Z.of_nat (String.length (payload req)))
    (parseRequestBody JSON_parse req limit).
Proof.
  intros w. unfold parseRequestBody. destruct (_ <? _); [right|by left].
  split; [done|]. eauto.
Qed.

Lemma resolveContainerTarget_invalid cfg name w :
  isContainerNameValid name = false →
  resolveContainerTarget cfg name w = (Throw (Error ("invalid container name: " +:+ name)), w).
Proof.
  intros H. unfold resolveContainerTarget, assertContainerName. by rewrite H.
Qed.

Lemma inert_resolved large {A} cfg name (k : string → M A) :
  isContainerNameValid name = false →
  inert large (let* resolved := resolveContainerTarget cfg name in k resolved).
Proof.
  intros H w. left. unfold bind. by rewrite (resolveContainerTarget_invalid cfg name w H).
Qed.

Lemma inert_send large (m : M CommandResult) :
  inert large m → inert large (let* result := m in ret (sendCommandResult result)).
Proof. intros H. apply inert_bind; [done|intros; apply inert_ret]. Qed.

(** A container route with a name that is not valid (one that starts
    with a dash, a dot or an underscore, say) leaves the state as it
    is: nothing is spawned, cached or logged, whatever the action, the
    method and the policy.  Only the socket of a request whose body
    exceeds the limit is destroyed, by a route that reads the body. *)
Theorem invalid_container_name_is_refused
    (JSON_parse : string → Json.value + string) (cfg : config) (req : request) (urlObj : url)
    (containerName actionName : string) (w : world) :
  isContainerNameValid containerName = false →
  snd (handleContainerRoute JSON_parse cfg req urlObj containerName actionName w) = w ∨
  (requestBodyLimitBytes cfg < Z.of_nat (String.length (payload req)) ∧
   snd (handleContainerRoute JSON_parse cfg req urlObj containerName actionName w)
   = set_destroyed (destroyed w ++ [requestCount w]) w).
Proof.
  intros Hinv.
  assert (H : inert (requestBodyLimitBytes cfg <? Z.of_nat (String.length (payload req)))
                (handleContainerRoute JSON_parse cfg req urlObj containerName actionName)).
  2:{ destruct (H w) as [Hw|(Hl & e & He)]; [by left|right].
      apply Z.ltb_lt in Hl. split; [done|]. by rewrite He. }
  unfold handleContainerRoute.
  destruct (safeReadonlyActions cfg urlObj containerName actionName) as [[key fn]|] eqn:Es.
  { apply inert_guarded, inert_send. unfold safeReadonlyActions in Es.
    repeat (lazymatch type of Es with
            | (if ?b then _ else _) = _ =>
                destruct b; [inversion Es; subst; by apply inert_resolved|]
            end).
    discriminate Es. }
  destruct (inherited actionName); [apply inert_ret|].
  destruct (safeMutateActions actionName).
  { apply inert_guarded, inert_send. by apply inert_resolved. }
  destruct (dangerousActions actionName).
  { apply inert_guarded, inert_send. by apply inert_resolved. }
  repeat (lazymatch goal with
          | |- inert _ (if ?c then _ else _) =>
              destruct c;
              [apply inert_guarded, inert_bind; [apply inert_parseRequestBody|intros body];
               cbv beta zeta; apply inert_send; by apply inert_resolved|]
          end).
  apply inert_ret.
Qed.

(** A request for the status of a container named [-rf]: the name is
    looked at, and refused. *)
Definition status_request : request :=
  {| method := "GET";
     target := Some {| pathname := "/dockerapi/-rf/status"; search := EmptyString;
                       searchParams := [] |};
     payload := EmptyString;
     remoteAddress := "127.0.0.1" |}.

Lemma invalid_container_name_is_refused_witness :
  handleContainerRoute (fun _ => inr EmptyString) default_config status_request
    {| pathname := "/dockerapi/-rf/status"; search := EmptyString; searchParams := [] |}
    "-rf" "status" (fresh quiet)
  = (Throw (Error "invalid container name: -rf"), fresh quiet).
Proof.
  destruct (invalid_container_name_is_refused (fun _ => inr EmptyString) default_config
              status_request
              {| pathname := "/dockerapi/-rf/status"; search := EmptyString;
                 searchParams := [] |}
              "-rf" "status" (fresh quiet)) as [H|[Hlarge _]].
  - reflexivity.
  - reflexivity.
  - vm_compute in Hlarge. discriminate Hlarge.
Defined.

End InvalidNames.

(** ** The addresses of the active peers *)

Section PeerAddresses.
Import Config State ShadowSync.

(** An address as the reconciler keeps it: valid, and without white
    space around it. *)
Definition address (ip : string) : Prop := isIpv4 ip = true ∧ normalizeValue ip = ip.

Lemma normalizeJson_trimmed v : normalizeValue (normalizeJson v) = normalizeJson v.
Proof. apply trim_idempotent. Qed.

Lemma NoDup_snoc (l : list string) x : NoDup l → x ∉ l → NoDup (l ++ [x]).
Proof.
  intros Hl Hx. apply NoDup_app. split; [done|]. split; [|apply NoDup_singleton].
  intros y Hy ->%list_elem_of_singleton. done.
Qed.

Lemma includes_false k l : includes k l = false ↔ k ∉ l.
Proof. rewrite <- not_true_iff_false, includes_true. done. Qed.

Lemma collect_items_spec items acc :
  (∀ ip, ip ∈ collect_items items acc → ip ∈ acc ∨ address ip) ∧
  (NoDup acc → NoDup (collect_items items acc)).
Proof.
  revert acc. induction items as [|item items IH]; intros acc; simpl; [by split; [left|]|].
  destruct (isIpv4 (normalizeJson item)) eqn:Hv; simpl; [|apply IH].
  destruct (includes (normalizeJson item) acc) eqn:Hi; simpl; [apply IH|].
  destruct (IH (acc ++ [normalizeJson item])) as [Hin Hnd]. split.
  - intros ip [[H| ->%list_elem_of_singleton]%elem_of_app|H]%Hin; auto.
    right. split; [done|apply normalizeJson_trimmed].
  - intros Hacc. apply Hnd, NoDup_snoc; [done|]. by apply includes_false.
Qed.

Lemma collect_lists_spec candidates acc :
  (∀ ip, ip ∈ collect_lists candidates acc → ip ∈ acc ∨ address ip) ∧
  (NoDup acc → NoDup (collect_lists candidates acc)).
Proof.
  revert acc. induction candidates as [|c candidates IH]; intros acc; simpl; [by split; [left|]|].
  destruct c; try apply IH.
  destruct (IH (collect_items items acc)) as [Hin Hnd].
  destruct (collect_items_spec items acc) as [Hin' Hnd']. split.
  - intros ip [H|H]%Hin; auto.
  - auto.
Qed.

Lemma collectNodeIps_spec node :
  Forall address (collectNodeIps node) ∧ NoDup (collectNodeIps node).
Proof.
  unfold collectNodeIps.
  match goal with |- context [collect_lists ?c []] =>
    destruct (collect_lists_spec c []) as [Hin Hnd] end.
  split; [|apply Hnd, NoDup_nil_2].
  apply Forall_forall. intros ip [H|H]%Hin; [by apply elem_of_nil in H|done].
Qed.

Lemma select_ips_spec selfIps ips selected :
  (∀ ip, ip ∈ select_ips selfIps ips selected → ip ∈ selected ∨ (ip ∈ ips ∧ ip ∉ selfIps)) ∧
  (NoDup selected → NoDup (select_ips selfIps ips selected)).
Proof.
  revert selected. induction ips as [|x ips IH]; intros selected; simpl; [by split; [left|]|].
  destruct (includes x selfIps) eqn:Hs.
  { destruct (IH selected) as [Hin Hnd]. split; [|done].
    intros ip [H|[H ?]]%Hin; [by left|]. right. split; [by right|done]. }
  destruct (includes x selected) eqn:Hi; simpl.
  { destruct (IH selected) as [Hin Hnd]. split; [|done].
    intros ip [H|[H ?]]%Hin; [by left|]. right. split; [by right|done]. }
  destruct (IH (selected ++ [x])) as [Hin Hnd]. split.
  - intros ip [[H| ->%list_elem_of_singleton]%elem_of_app|[H ?]]%Hin.
    + by left.
    + right. split; [by left|]. by apply includes_false.
    + right. split; [by right|done].
  - intros Hsel. apply Hnd, NoDup_snoc; [done|]. by apply includes_false.
Qed.

Lemma select_peers_spec selfIps selfId peers selected :
  (∀ ip, ip ∈ select_peers selfIps selfId peers selected →
         ip ∈ selected ∨ (address ip ∧ ip ∉ selfIps)) ∧
  (NoDup selected → NoDup (select_peers selfIps selfId peers selected)).
Proof.
  revert selected. induction peers as [|peer peers IH]; intros selected; simpl;
    [by split; [left|]|].
  destruct (_ || _); [apply IH|].
  destruct (is_true _); [apply IH|].
  destruct (_ && _); [apply IH|].
  destruct (negb (isPeerActive peer)); [apply IH|].
  destruct (IH (select_ips selfIps (collectNodeIps peer) selected)) as [Hin Hnd].
  destruct (select_ips_spec selfIps (collectNodeIps peer) selected) as [Hin' Hnd'].
  destruct (collectNodeIps_spec peer) as [Hall _]. rewrite Forall_forall in Hall.
  split; [|auto].
  intros ip [[H|[H ?]]%Hin'|H]%Hin; auto.
Qed.

Lemma NoDup_sort_insert localeCompare x l :
  NoDup l → x ∉ l → NoDup (sort_insert localeCompare x l).
Proof.
  induction l as [|y l IH]; intros Hl Hx; simpl; [apply NoDup_singleton|].
  destruct (localeCompare x y <=? 0); [by apply NoDup_cons|].
  apply NoDup_cons in Hl as [Hy Hl]. apply not_elem_of_cons in Hx as [Hxy Hx].
  apply NoDup_cons. split; [|by apply IH].
  rewrite elem_of_sort_insert. intros [->|?]; done.
Qed.

Lemma NoDup_sort localeCompare l : NoDup l → NoDup (sort localeCompare l).
Proof.
  induction l as [|x l IH]; intros Hl; simpl; [apply NoDup_nil_2|].
  apply NoDup_cons in Hl as [Hx Hl]. apply NoDup_sort_insert; [by apply IH|].
  by rewrite elem_of_sort.
Qed.

(** The characters of a text that splits into pieces of one class. *)
Lemma split_char_all (p : ascii → bool) c s :
  p c = true → Forall (fun piece => all_chars p piece = true) (Js.split_char c s) →
  all_chars p s = true.
Proof.
  intros Hc. induction s as [|d r IH]; [done|]. simpl.
  destruct (Ascii.eqb_spec c d) as [<-|Hne].
  - intros [_ H]%Forall_cons. rewrite Hc. by apply IH.
  - destruct (Js.split_char c r) as [|w ws] eqn:E.
    + intros [H _]%Forall_cons. simpl in H. rewrite andb_true_r in H.
      rewrite H. apply IH. by repeat constructor.
    + intros [H Hws]%Forall_cons. simpl in H. apply andb_true_iff in H as [Hd Hw].
      rewrite Hd. apply IH. by constructor.
Qed.

(** A digit or a dot. *)
Definition dotted (c : ascii) : bool := Js.is_digit c || Ascii.eqb c ".".

Lemma address_dotted ip : address ip → all_chars dotted ip = true.
Proof.
  intros [Hv Ht]. unfold isIpv4 in Hv. rewrite Ht in Hv.
  destruct (IPV4_PATTERN ip) eqn:Hp; [|discriminate Hv]. clear Hv.
  unfold IPV4_PATTERN in Hp. apply (split_char_all dotted "." ip); [reflexivity|].
  assert (Hshape : ∀ part, octet_shape part = true → all_chars dotted part = true).
  { intros part [_ H]%andb_true_iff. revert H. apply all_chars_impl.
    intros c Hc. unfold dotted. by rewrite Hc. }
  destruct (Js.split_char "." ip) as [|a [|b [|c [|d [|? ?]]]]]; try discriminate Hp.
  apply andb_true_iff in Hp as [[[Ha Hb]%andb_true_iff Hc]%andb_true_iff Hd].
  repeat constructor; by apply Hshape.
Qed.

Lemma collectNodeIps_falsy node : Json.truthy node = false → collectNodeIps node = [].
Proof.
  intros H. unfold collectNodeIps, Json.and_then. rewrite H.
  destruct node; try discriminate H; reflexivity.
Qed.

(** The addresses that the reconciler reads from the status of the
    overlay network, whatever the status holds: each is a valid IPv4
    address made of digits and dots only, so that the file named after
    it stays in the shadow directory; none is an address of the node
    itself; none comes twice. *)
Theorem extractActivePeerIps_sound (localeCompare : string → string → Z)
    (statusPayload : Json.value) :
  NoDup (extractActivePeerIps localeCompare statusPayload) ∧
  ∀ ip, ip ∈ extractActivePeerIps localeCompare statusPayload →
    isIpv4 ip = true ∧ all_chars dotted ip = true ∧
    ip ∉ collectNodeIps (Json.get statusPayload "Self").
Proof.
  unfold extractActivePeerIps.
  set (selfNode := if Json.truthy (Json.and_then statusPayload (Json.get statusPayload "Self"))
                   then Json.get statusPayload "Self" else Json.Obj []).
  assert (Hself : collectNodeIps selfNode = collectNodeIps (Json.get statusPayload "Self")).
  { subst selfNode.
    destruct (Json.truthy (Json.and_then statusPayload (Json.get statusPayload "Self"))) eqn:E;
      [done|].
    unfold Json.and_then in E. destruct (Json.truthy statusPayload) eqn:Ep.
    - by rewrite (collectNodeIps_falsy _ E).
    - destruct statusPayload; try discriminate Ep; reflexivity. }
  match goal with |- context [select_peers ?a ?b ?c []] =>
    destruct (select_peers_spec a b c []) as [Hin Hnd] end.
  split; [apply NoDup_sort, Hnd, NoDup_nil_2|].
  intros ip [H|[Ha Hn]]%elem_of_sort%Hin; [by apply elem_of_nil in H|].
  split; [apply Ha|]. split; [by apply address_dotted|]. by rewrite <- Hself.
Qed.

End PeerAddresses.

(** ** Writing the shadow state and reading it back *)

Section WriteRead.
Import Config State ShadowSync.

Lemma member_conf d ip i content :
  d !! conf ip = Some (File i content) → isIpv4 ip = true → is_member d (conf ip).
Proof.
  intros Hd Hv. exists (File i content), ip. split; [done|].
  apply member_ip_Some. eauto.
Qed.

Lemma NoDup_keys_content (st : list (string * string)) ip c c' :
  NoDup st.*1 → (ip, c) ∈ st → (ip, c') ∈ st → c = c'.
Proof.
  induction st as [|[k v] st IH]; intros Hnd H1 H2; [by apply elem_of_nil in H1|].
  simpl in Hnd. apply NoDup_cons in Hnd as [Hk Hnd].
  apply elem_of_cons in H1 as [[= E1 E1']|H1]; apply elem_of_cons in H2 as [[= E2 E2']|H2].
  - congruence.
  - exfalso. apply Hk. apply list_elem_of_fmap. exists (ip, c'). by subst.
  - exfalso. apply Hk. apply list_elem_of_fmap. exists (ip, c). by subst.
  - by apply IH.
Qed.

(** A state, with each address once and each address valid, that was
    written to the shadow directory through temporary paths that were
    clear, is the state that is read back: the same addresses, each
    with the text that the bytes written for it decode to, which is
    the text written when encoding and decoding give it back; whatever
    else the directory held before. *)
Theorem shadow_state_round_trip (shadowDir : string) (st : list (string * string))
    (w w1 : world) :
  NoDup st.*1 →
  Forall (fun kv => isIpv4 kv.1 = true) st →
  Forall (clear (shadow w)) st.*1 →
  writeShadowState shadowDir st w = (Ok tt, w1) →
  ∃ st', readShadowFiles shadowDir w1 = (Ok st', w1) ∧
         ∀ ip text, (ip, text) ∈ st' ↔
           ∃ content, (ip, content) ∈ st ∧
                      text = utf8_decode (platform w) (utf8_encode (platform w) content).
Proof.
  intros Hnd Hvalid Hclear Hwrite.
  apply (writeShadowState_inv shadowDir (platform w)) in Hwrite
    as [(Hw & _ & ops & ->)|(_ & e & He)]; [|discriminate He|done|done].
  destruct (readShadowFiles_snapshot shadowDir (platform w)
              (set_shadow (written (platform w) (shadow w) st) (fs_ops w ++ ops) w) eq_refl)
    as (st' & Hread & Hsnap).
  exists st'. split; [done|]. rewrite shadow_set_shadow in Hsnap.
  destruct Hsnap as [Hin Hall]. rewrite Forall_forall in Hvalid.
  intros ip text. split.
  - intros (i & bytes & Hfile & -> & Hv)%Hin.
    pose proof (written_member _ _ _ _ _ _ Hfile Hv) as Hkey.
    destruct (written_conf (platform w) (shadow w) st ip Hkey) as (i' & c' & Hst & Hfile').
    rewrite Hfile in Hfile'. injection Hfile' as _ ->. eauto.
  - intros (content & Hst & ->).
    assert (Hkey : ip ∈ st.*1) by (apply list_elem_of_fmap; by exists (ip, content)).
    destruct (written_conf (platform w) (shadow w) st ip Hkey) as (i' & c' & Hst' & Hfile').
    rewrite <- (NoDup_keys_content st ip content c' Hnd Hst Hst') in Hfile'.
    pose proof (Hall ip _ _ Hfile' (Hvalid (ip, content) Hst)) as Hk.
    apply list_elem_of_fmap in Hk as ([ip' t''] & Heq & Hin'). simpl in Heq. subst ip'.
    destruct (Hin _ _ Hin') as (i'' & bytes & Hfile'' & -> & _).
    rewrite Hfile' in Hfile''. by injection Hfile'' as _ <-.
Qed.

(** Two backends, written to a directory that holds another backend, a
    regular file left at the temporary path of one of the two, and a
    symbolic link. *)
Definition two_backends : list (string * string) :=
  [("10.0.0.5", renderShadowContent "10.0.0.5" 3000);
   ("10.0.0.10", renderShadowContent "10.0.0.10" 3000)].

Lemma two_backends_clear : Forall (clear dir_one) two_backends.*1.
Proof.
  constructor; [apply dir_one_clear; by right|].
  constructor; [left; reflexivity|constructor].
Qed.

Lemma shadow_state_round_trip_witness :
  ∃ st', readShadowFiles "/opt/nginx/shadow-servers"
           (snd (writeShadowState "/opt/nginx/shadow-servers" two_backends world_one))
         = (Ok st', snd (writeShadowState "/opt/nginx/shadow-servers" two_backends world_one)) ∧
         ∀ ip text, (ip, text) ∈ st' ↔
           ∃ content, (ip, content) ∈ two_backends ∧ text = content.
Proof.
  apply (shadow_state_round_trip "/opt/nginx/shadow-servers" two_backends world_one
           (snd (writeShadowState "/opt/nginx/shadow-servers" two_backends world_one))).
  - repeat constructor; [|by intros ?%elem_of_nil].
    intros H%list_elem_of_singleton. discriminate H.
  - repeat constructor.
  - exact two_backends_clear.
  - vm_compute. reflexivity.
Defined.

(** A write of the state through temporary paths that were clear
    touches the files of the backend set only: an entry that is no
    regular file named after a valid address with the suffix [.conf],
    and that does not sit at the path or at the temporary path of an
    address of the state, is after the write what it was before. *)
Theorem writeShadowState_keeps_others (shadowDir : string) (st : list (string * string))
    (w w1 : world) (x : string) :
  Forall (clear (shadow w)) st.*1 →
  writeShadowState shadowDir st w = (Ok tt, w1) →
  ¬ is_member (shadow w) x →
  x ∉ conf <$> st.*1 → x ∉ tmp <$> st.*1 →
  shadow w1 !! x = shadow w !! x.
Proof.
  intros Hclear Hwrite Hnm Hc Ht.
  apply (writeShadowState_inv shadowDir (platform w)) in Hwrite
    as [(Hw & _ & ops & ->)|(_ & e & He)]; [|discriminate He|done|done].
  rewrite shadow_set_shadow. by apply written_other.
Qed.

Lemma writeShadowState_keeps_others_witness :
  shadow (snd (writeShadowState "/opt/nginx/shadow-servers" two_backends world_one))
    !! "current"
  = shadow world_one !! "current".
Proof.
  apply (writeShadowState_keeps_others "/opt/nginx/shadow-servers" two_backends world_one
           (snd (writeShadowState "/opt/nginx/shadow-servers" two_backends world_one))
           "current").
  - exact two_backends_clear.
  - vm_compute. reflexivity.
  - intros (entry & ip & He & Hm). vm_compute in He. inversion He; subst. vm_compute in Hm.
    discriminate Hm.
  - vm_compute. intros H. repeat (apply elem_of_cons in H as [H|H]; [discriminate H|]).
    by apply elem_of_nil in H.
  - vm_compute. intros H. repeat (apply elem_of_cons in H as [H|H]; [discriminate H|]).
    by apply elem_of_nil in H.
Defined.

End WriteRead.

(** ** Words of a command line *)

Section ShellWords.
Import Config State Server.

Definition words_not_empty (l : list string) : Prop := Forall (fun w => w ≠ EmptyString) l.

Lemma push_word_not_empty current result :
  words_not_empty result → words_not_empty (push_word current result).
Proof.
  intros H. unfold push_word. destruct (Js.truthy current) eqn:E; [|done].
  apply Forall_app. split; [done|]. constructor; [by apply truthy_ne|constructor].
Qed.

Lemma shell_words_not_empty n source current quote result :
  (String.length source ≤ n)%nat →
  words_not_empty result → words_not_empty (shell_words source current quote result).
Proof.
  revert source current quote result.
  induction n as [|n IH]; intros source current quote result Hlen Hres.
  { destruct source; [|simpl in Hlen; lia]. by apply push_word_not_empty. }
  destruct source as [|ch rest]; [by apply push_word_not_empty|].
  simpl in Hlen. simpl.
  assert (Hrest : ∀ current quote result, words_not_empty result →
            words_not_empty (shell_words rest current quote result)).
  { intros. apply IH; [lia|done]. }
  assert (Hnext : ∀ current quote result, words_not_empty result →
            words_not_empty
              match rest with
              | String next rest' => shell_words rest' (snoc_char current next) quote result
              | EmptyString => shell_words rest (snoc_char current ch) quote result
              end).
  { intros c q r Hr. destruct rest as [|next rest']; [by apply Hrest|].
    apply IH; [simpl in Hlen; lia|done]. }
  destruct quote as [q|].
  - destruct (Ascii.eqb ch q); [by apply Hrest|].
    destruct (Ascii.eqb ch "\"); [by apply Hnext|by apply Hrest].
  - destruct (is_quote ch); [by apply Hrest|].
    destruct (Js.is_ws ch); [by apply Hrest, push_word_not_empty|].
    destruct (Ascii.eqb ch "\"); [by apply Hnext|by apply Hrest].
Qed.

(** No word of a command line is empty, whatever the line: white space
    between words, at the ends and inside empty quotes makes no word. *)
Theorem parseShellWords_words_not_empty (text : string) :
  Forall (fun w => w ≠ EmptyString) (parseShellWords text).
Proof.
  unfold parseShellWords. destruct (negb _); [constructor|].
  apply (shell_words_not_empty (String.length (normalizeValue text))); [lia|constructor].
Qed.

(** A character that stands for itself in a command line: no white
    space, no quote, no backslash. *)
Definition plain_char (c : ascii) : bool :=
  negb (Js.is_ws c) && negb (is_quote c) && negb (Ascii.eqb c "\").

Lemma snoc_char_append s c : snoc_char s c = s +:+ String c EmptyString.
Proof. reflexivity. Qed.

Lemma append_empty s : s +:+ EmptyString = s.
Proof. induction s as [|x s IH]; [done|]. rewrite append_cons. by f_equal. Qed.

Lemma shell_words_plain word rest current result :
  all_chars plain_char word = true →
  shell_words (word +:+ rest) current None result
  = shell_words rest (current +:+ word) None result.
Proof.
  revert current. induction word as [|c word IH]; intros current Hw.
  { by rewrite append_nil, append_empty. }
  simpl in Hw. apply andb_true_iff in Hw as [Hc Hw].
  unfold plain_char in Hc.
  apply andb_true_iff in Hc as [[Hws Hq]%andb_true_iff Hb].
  apply negb_true_iff in Hws, Hq, Hb.
  rewrite append_cons. simpl. rewrite Hq, Hws, Hb.
  rewrite (IH (snoc_char current c) Hw). f_equal.
  rewrite snoc_char_append, append_assoc, append_cons, append_nil. done.
Qed.

Lemma shell_words_space rest current result :
  shell_words (String " " rest) current None result
  = shell_words rest EmptyString None (push_word current result).
Proof. reflexivity. Qed.

(** A word of plain characters. *)
Definition plain_word (w : string) : Prop := w ≠ EmptyString ∧ all_chars plain_char w = true.

Lemma shell_words_join words result :
  words ≠ [] → Forall plain_word words →
  shell_words (Js.join " " words) EmptyString None result = result ++ words.
Proof.
  revert result. induction words as [|w [|w' rest] IH]; [done|..]; intros result _ Hall.
  - apply Forall_cons in Hall as [[Hne Hp] _]. simpl Js.join.
    rewrite <- (append_empty w) at 1.
    rewrite (shell_words_plain w EmptyString EmptyString result Hp).
    rewrite append_nil. simpl. unfold push_word. apply truthy_ne in Hne. by rewrite Hne.
  - apply Forall_cons in Hall as [[Hne Hp] Hall].
    rewrite join_cons2, append_cons, append_nil.
    rewrite (shell_words_plain w _ EmptyString result Hp), append_nil, shell_words_space.
    rewrite IH; [|done|done]. unfold push_word. apply truthy_ne in Hne. rewrite Hne.
    by rewrite <- app_assoc.
Qed.

Lemma plain_solid w : all_chars plain_char w = true →
  all_chars (fun c => negb (Js.is_ws c)) w = true.
Proof.
  apply all_chars_impl. intros c Hc. unfold plain_char in Hc.
  by apply andb_true_iff in Hc as [[? _]%andb_true_iff _].
Qed.

Lemma join_space_solid words :
  words ≠ [] → Forall plain_word words →
  Js.join " " words ≠ EmptyString ∧
  trimmed_front (Js.join " " words) ∧ Js.trimEnd (Js.join " " words) = Js.join " " words.
Proof.
  induction words as [|w [|w' rest] IH]; [done|..]; intros _ Hall.
  - apply Forall_cons in Hall as [[Hne Hp] _]. simpl. split; [done|].
    apply trim_fixed, trim_solid, plain_solid, Hp.
  - apply Forall_cons in Hall as [[Hne Hp] Hall].
    destruct IH as (Hj & _ & Hend); [done|done|].
    rewrite join_cons2.
    pose proof (trim_fixed w (trim_solid w (plain_solid w Hp))) as [Hfront _].
    split; [|split].
    + destruct w; [done|]. by rewrite append_cons.
    + destruct w; [done|]. by rewrite append_cons.
    + rewrite <- append_assoc. apply trimEnd_append; done.
Qed.

(** Words of plain characters, written with a space between them, are
    read back as the same words. *)
Theorem parseShellWords_join (words : list string) :
  Forall (fun w => w ≠ EmptyString ∧ all_chars plain_char w = true) words →
  parseShellWords (Js.join " " words) = words.
Proof.
  intros Hall. destruct (decide (words = [])) as [->|Hne]; [reflexivity|].
  destruct (join_space_solid words Hne Hall) as (Hj & Hfront & Hend).
  unfold parseShellWords.
  assert (Hn : normalizeValue (Js.join " " words) = Js.join " " words).
  { unfold normalizeValue, Js.trim. by rewrite (trimStart_id _ Hfront), Hend. }
  rewrite Hn. apply truthy_ne in Hj. rewrite Hj. simpl.
  by rewrite (shell_words_join words [] Hne Hall).
Qed.

Lemma parseShellWords_join_witness :
  parseShellWords (Js.join " " ["ps"; "-a"; "--no-trunc"]) = ["ps"; "-a"; "--no-trunc"].
Proof.
  apply (parseShellWords_join ["ps"; "-a"; "--no-trunc"]).
  repeat constructor; discriminate.
Defined.

End ShellWords.

(** ** The first line of a listing *)

Section FirstLine.
Import Config State DockerClient.

Lemma all_ws_trimStart s : all_chars Js.is_ws s = true → Js.trimStart s = EmptyString.
Proof.
  induction s as [|c r IH]; [done|]. simpl. intros [Hc Hr]%andb_true_iff.
  rewrite Hc. by apply IH.
Qed.

Lemma trim_empty s : Js.trim s = EmptyString ↔ all_chars Js.is_ws s = true.
Proof.
  split.
  - unfold Js.trim. induction s as [|c r IH]; [done|]. simpl.
    destruct (Js.is_ws c) eqn:Hc; [done|]. simpl. rewrite Hc. discriminate.
  - intros H. unfold Js.trim. by rewrite (all_ws_trimStart s H).
Qed.

Lemma split_char_pieces (p : ascii → bool) c s :
  all_chars p s = true → Forall (fun piece => all_chars p piece = true) (Js.split_char c s).
Proof.
  induction s as [|d r IH]; [by repeat constructor|]. simpl.
  intros [Hd Hr]%andb_true_iff. specialize (IH Hr).
  destruct (Ascii.eqb c d); [by constructor|].
  destruct (Js.split_char c r) as [|w ws].
  - repeat constructor. simpl. by rewrite Hd.
  - apply Forall_cons in IH as [Hw Hws]. constructor; [|done]. simpl. by rewrite Hd, Hw.
Qed.

Lemma split_char_has c s : ∀ piece, piece ∈ Js.split_char c s → Js.includes_char c piece = false.
Proof.
  induction s as [|d r IH]; intros piece; simpl.
  { by intros ->%list_elem_of_singleton. }
  destruct (Ascii.eqb c d) eqn:E.
  - intros [->|H]%elem_of_cons; [done|by apply IH].
  - destruct (Js.split_char c r) as [|w ws].
    + intros ->%list_elem_of_singleton. simpl. by rewrite E.
    + intros [->|H]%elem_of_cons.
      * simpl. rewrite E. apply IH. by left.
      * apply IH. by right.
Qed.

Lemma includes_char_all c s :
  Js.includes_char c s = false ↔ all_chars (fun d => negb (Ascii.eqb c d)) s = true.
Proof.
  induction s as [|d r IH]; [done|]. simpl. destruct (Ascii.eqb c d); simpl; [done|apply IH].
Qed.

(** The first line of a listing, as the resolution reads the name of a
    container from it: it has no line feed inside and no white space
    around it, and it is empty exactly when the listing holds nothing
    but white space. *)
Theorem readFirstLine_line (text : string) :
  Js.includes_char "010" (readFirstLine text) = false ∧
  normalizeValue (readFirstLine text) = readFirstLine text ∧
  (readFirstLine text = EmptyString ↔ normalizeValue text = EmptyString).
Proof.
  split; [|split; [apply readFirstLine_trimmed|]].
  - unfold readFirstLine.
    destruct (filter _ _) as [|line lines] eqn:E; [done|].
    assert (Hin : line ∈ filter (fun l => Js.truthy l = true)
                           (map Js.trim (Js.split_char "010" text))) by (rewrite E; by left).
    apply list_elem_of_filter in Hin as [_ Hin].
    apply list_elem_of_In, in_map_iff in Hin as (piece & <- & Hp).
    apply includes_char_all, all_chars_trim, includes_char_all.
    apply (split_char_has "010" text). by apply list_elem_of_In.
  - unfold normalizeValue. rewrite trim_empty. unfold readFirstLine.
    destruct (filter _ _) as [|line lines] eqn:E.
    + split; [intros _|done]. apply (split_char_all Js.is_ws "010"); [reflexivity|].
      apply Forall_forall. intros piece Hp. apply trim_empty.
      destruct (Js.trim piece) as [|x s] eqn:Et; [done|]. exfalso.
      assert (Hin : String x s ∈ filter (fun l => Js.truthy l = true)
                                   (map Js.trim (Js.split_char "010" text))).
      { apply list_elem_of_filter. split; [done|]. rewrite <- Et.
        apply list_elem_of_In, in_map. by apply list_elem_of_In. }
      rewrite E in Hin. by apply elem_of_nil in Hin.
    + assert (Hin : line ∈ filter (fun l => Js.truthy l = true)
                             (map Js.trim (Js.split_char "010" text))) by (rewrite E; by left).
      apply list_elem_of_filter in Hin as [Ht Hin].
      apply list_elem_of_In, in_map_iff in Hin as (piece & <- & Hp).
      split; [intros Hl; by rewrite Hl in Ht|]. intros Hall. exfalso.
      pose proof (split_char_pieces Js.is_ws "010" text Hall) as Hpieces.
      rewrite Forall_forall in Hpieces.
      apply list_elem_of_In, Hpieces, trim_empty in Hp. by rewrite Hp in Ht.
Qed.

End FirstLine.

(** ** The counters of the scheduled cycle *)

Section Counters.
Import Config State Server.

Variable cfg : config.

(** The cycles that failed and the cycle that awaits are among the
    cycles that ran. *)
Definition counted (st : loop_state) : Prop :=
  0 ≤ totalFailures (sync st.1) ∧
  totalFailures (sync st.1) + Z.of_nat st.2 ≤ totalRuns (sync st.1).

Lemma loop_step_counted st ev : counted st → counted (loop_step cfg st ev).
Proof.
  destruct st as [w k]. unfold counted. simpl. intros [H0 H].
  destruct ev as [source|source r|task]; simpl.
  - unfold sync_begin. destruct (negb (tailscaleSyncEnabled cfg)); simpl; [done|].
    unfold bind, get. destruct (inProgress (sync w)); simpl; [done|].
    split; [done|]. lia.
  - destruct k as [|k]; simpl; [done|].
    unfold sync_settle, finally. destruct r as [result|e]; simpl; lia.
  - done.
Qed.

Lemma loop_run_counted st events : counted st → counted (loop_run cfg st events).
Proof.
  revert st. induction events as [|ev events IH]; intros st H; [done|].
  rewrite loop_run_cons. by apply IH, loop_step_counted.
Qed.

(** Whatever the timers, the settlements and the other tasks of the
    event loop do, in any order: the count of the failed cycles, plus
    one for a cycle that awaits its result, never exceeds the count of
    the cycles that ran. *)
Theorem sync_counters_consistent (w : world) (awaiting : nat) (events : list event) :
  0 ≤ totalFailures (sync w) →
  totalFailures (sync w) + Z.of_nat awaiting ≤ totalRuns (sync w) →
  0 ≤ totalFailures (sync (loop_run cfg (w, awaiting) events).1) ∧
  totalFailures (sync (loop_run cfg (w, awaiting) events).1)
    + Z.of_nat (loop_run cfg (w, awaiting) events).2
  ≤ totalRuns (sync (loop_run cfg (w, awaiting) events).1).
Proof. intros H0 H. by apply (loop_run_counted (w, awaiting) events). Qed.

End Counters.

Lemma sync_counters_consistent_witness :
  0 ≤ State.totalFailures
        (State.sync (Server.loop_run Config.default_config (fresh quiet, 0%nat)
           [Server.Trigger "startup"; Server.Trigger "interval";
            Server.Settle "startup" (State.Throw (State.Error "status failed"))]).1) ∧
  State.totalFailures
    (State.sync (Server.loop_run Config.default_config (fresh quiet, 0%nat)
       [Server.Trigger "startup"; Server.Trigger "interval";
        Server.Settle "startup" (State.Throw (State.Error "status failed"))]).1)
    + Z.of_nat (Server.loop_run Config.default_config (fresh quiet, 0%nat)
        [Server.Trigger "startup"; Server.Trigger "interval";
         Server.Settle "startup" (State.Throw (State.Error "status failed"))]).2
  ≤ State.totalRuns
      (State.sync (Server.loop_run Config.default_config (fresh quiet, 0%nat)
         [Server.Trigger "startup"; Server.Trigger "interval";
          Server.Settle "startup" (State.Throw (State.Error "status failed"))]).1).
Proof.
  apply (sync_counters_consistent Config.default_config (fresh quiet) 0
           [Server.Trigger "startup"; Server.Trigger "interval";
            Server.Settle "startup" (State.Throw (State.Error "status failed"))]).
  - vm_compute. discriminate.
  - vm_compute. discriminate.
Defined.

(** ** The answer and the exit code *)

Section Outcomes.
Import Config State CommandRunner DockerClient Server.

(** An [error] event of a process is an error of the host: it carries
    no result of a command. *)
Definition plain_errors (w : world) : Prop :=
  ∀ n command args e, ending (environment w n command args) = ErrorEvent e → result e = None.

(** An error that carries a result carries one of a command that
    failed. *)
Definition failed (e : error) : Prop := ∀ res, result e = Some res → code res ≠ 0.

(** A step on the way to a command: it keeps the environment, and what
    it throws is an error of a command that failed, if of a command at
    all. *)
Definition steady {A} (m : M A) : Prop :=
  ∀ w r w', plain_errors w → m w = (r, w') →
    environment w' = environment w ∧ (∃ l, spawned w' = spawned w ++ l) ∧
    ∀ e, r = Throw e → failed e.

(** A command: when it returns a result with code 0 (or any result,
    for a strict command), the last process spawned exited with code 0
    before its timer. *)
Definition settles (strict : bool) (m : M CommandResult) : Prop :=
  ∀ w r w', plain_errors w → m w = (r, w') →
    environment w' = environment w ∧
    ∃ l, spawned w' = spawned w ++ l ∧
         (∀ e, r = Throw e → failed e) ∧
         (∀ res, r = Ok res → strict = true ∨ code res = 0 →
                 ∃ s, last l = Some s ∧ completed_ok s = true).

(** A route: when it answers 200, it has spawned nothing or the last
    process spawned exited with code 0 before its timer. *)
Definition answers (m : M response) : Prop :=
  ∀ w r w', plain_errors w → m w = (r, w') →
    environment w' = environment w ∧
    ∃ l, spawned w' = spawned w ++ l ∧
         (∀ e, r = Throw e → failed e) ∧
         (∀ answer, r = Ok answer → statusCode answer = 200 →
                    l = [] ∨ ∃ s, last l = Some s ∧ completed_ok s = true).

Lemma plain_errors_env w w' : environment w' = environment w → plain_errors w → plain_errors w'.
Proof. intros E H n c a e. rewrite E. apply H. Qed.

Lemma failed_Error message : failed (Error message).
Proof. intros res H. discriminate H. Qed.

Lemma steady_quiet {A} (m : M A) :
  (∀ w r w', m w = (r, w') →
     environment w' = environment w ∧ spawned w' = spawned w ∧ ∀ e, r = Throw e → failed e) →
  steady m.
Proof.
  intros H w r w' _ Hm. destruct (H _ _ _ Hm) as (He & Hs & Hf).
  split; [done|]. split; [|done]. exists []. by rewrite app_nil_r.
Qed.

Lemma steady_ret {A} (a : A) : steady (ret a).
Proof. apply steady_quiet. intros w r w' H. inversion H; subst. by repeat split. Qed.

Lemma steady_throw {A} message : steady (@throw A (Error message)).
Proof.
  apply steady_quiet. intros w r w' H. inversion H; subst. repeat split.
  intros e [= <-]. apply failed_Error.
Qed.

Lemma steady_bind {A B} (m : M A) (k : A → M B) :
  steady m → (∀ a, steady (k a)) → steady (bind m k).
Proof.
  intros Hm Hk w r w' Hw H. apply bind_inv in H as [(a & w1 & H1 & H2)|(e & H1 & ->)].
  - destruct (Hm _ _ _ Hw H1) as (E1 & [l1 S1] & _).
    destruct (Hk a _ _ _ (plain_errors_env _ _ E1 Hw) H2) as (E2 & [l2 S2] & F2).
    split; [congruence|]. split; [|done]. exists (l1 ++ l2). by rewrite S2, S1, app_assoc.
  - destruct (Hm _ _ _ Hw H1) as (E1 & S1 & F1). split; [done|]. split; [done|].
    intros e' [= <-]. by apply F1.
Qed.

Lemma steady_log level scope message meta : steady (Logger.write level scope message meta).
Proof. apply steady_quiet. intros w r w' H. inversion H; subst. by repeat split. Qed.

Lemma steady_readResolveCache name : steady (readResolveCache name).
Proof.
  apply steady_quiet. intros w r w' H. unfold readResolveCache in H.
  destruct (containerResolveCache w !! _) as [c|]; [destruct (expiresAt c <=? now w)|];
    inversion H; subst; by repeat split.
Qed.

Lemma steady_writeResolveCache name v : steady (writeResolveCache name v).
Proof.
  apply steady_quiet. intros w r w' H. unfold writeResolveCache in H.
  destruct (_ || _); inversion H; subst; by repeat split.
Qed.

Lemma steady_assertContainerName name : steady (assertContainerName name).
Proof.
  unfold assertContainerName. destruct (isContainerNameValid name);
    [apply steady_ret|apply steady_throw].
Qed.

Lemma runCommand_settles command args t w r w' :
  plain_errors w → runCommand command args t w = (r, w') →
  environment w' = environment w ∧
  ∃ s, spawned w' = spawned w ++ [s] ∧
       (∀ e, r = Throw e → result e = None) ∧
       (∀ res, r = Ok res → (code res = 0 ↔ completed_ok s = true)).
Proof.
  intros Hw H. unfold runCommand in H.
  eexists; [|eexists {| program := command; argv := args; timeout := t;
                        run := environment w (length (spawned w)) command args |}].
  all: unfold completed_ok; simpl;
    destruct ((0 <? t) && (t <=? duration _)) eqn:Et;
    [|destruct (ending _) as [c sg|e0] eqn:Ee]; inversion H; subst; simpl; try done.
  - split; [done|]. split; [by intros e [= <-]|]. intros res Hres. discriminate.
  - split; [done|]. split; [intros e He; discriminate|].
    intros res' [= <-]. simpl. destruct c as [[| |]|]; simpl; split; done.
  - split; [done|]. split; [|intros res Hres; discriminate].
    intros e [= <-]. by apply (Hw _ _ _ _ Ee).
Qed.

Lemma settles_runDocker cfg args o : settles (negb (allowFailure o)) (runDocker cfg args o).
Proof.
  intros w r w' Hw H. unfold runDocker in H.
  apply bind_inv in H as [(res & w1 & Hrun & Hk)|(e & Hrun & ->)];
    apply (runCommand_settles _ _ _ _ _ _ Hw) in Hrun as (He & s & Hs & Hthrow & Hcode).
  - destruct (negb (allowFailure o) && negb (code res =? 0)) eqn:E; inversion Hk; subst.
    + split; [done|]. exists [s]. split; [done|]. split; [|intros; discriminate].
      intros e [= <-] res' [= <-]. apply andb_true_iff in E as [_ E].
      apply negb_true_iff, Z.eqb_neq in E. done.
    + split; [done|]. exists [s]. split; [done|]. split; [intros; discriminate|].
      intros res' [= <-] Hor. exists s. split; [done|]. apply (Hcode res eq_refl).
      destruct Hor as [Hstrict|Hzero]; [|done]. rewrite Hstrict in E. simpl in E.
      by apply negb_false_iff, Z.eqb_eq in E.
  - split; [done|]. exists [s]. split; [done|]. split; [|intros; discriminate].
    intros e' [= <-] res Hres. by rewrite (Hthrow e eq_refl) in Hres.
Qed.

Lemma settles_steady strict (m : M CommandResult) : settles strict m → steady m.
Proof.
  intros H w r w' Hw Hm. destruct (H _ _ _ Hw Hm) as (He & l & Hs & Hf & _).
  split; [done|]. split; [by exists l|done].
Qed.

Lemma steady_runDocker cfg args o : steady (runDocker cfg args o).
Proof. eapply settles_steady, settles_runDocker. Qed.

Lemma steady_findContainerByComposeService cfg service :
  steady (findContainerByComposeService cfg service).
Proof.
  unfold findContainerByComposeService. destruct (negb _); [apply steady_ret|].
  apply steady_bind; [apply steady_runDocker|intros running].
  destruct (Js.truthy _); [apply steady_ret|].
  apply steady_bind; [apply steady_runDocker|intros; apply steady_ret].
Qed.

Lemma steady_resolveContainerTarget cfg name : steady (resolveContainerTarget cfg name).
Proof.
  unfold resolveContainerTarget.
  apply steady_bind; [apply steady_assertContainerName|intros _].
  apply steady_bind; [apply steady_readResolveCache|intros cached].
  destruct (Js.truthy cached); [apply steady_ret|].
  apply steady_bind; [apply steady_runDocker|intros directInspect].
  destruct (code directInspect =? 0).
  { apply steady_bind; [apply steady_writeResolveCache|intros; apply steady_ret]. }
  apply steady_bind; [apply steady_findContainerByComposeService|intros composeResolved].
  destruct (Js.truthy composeResolved); [|apply steady_throw].
  apply steady_bind; [apply steady_writeResolveCache|intros _].
  apply steady_bind; [apply steady_writeResolveCache|intros _].
  apply steady_bind; [apply steady_log|intros _]. apply steady_ret.
Qed.

Lemma last_app_snoc {A} (l1 l2 : list A) s : last l2 = Some s → last (l1 ++ l2) = Some s.
Proof.
  intros H. destruct l2 as [|x l2] using rev_ind; [done|].
  rewrite last_snoc in H. by rewrite app_assoc, last_snoc.
Qed.

Lemma settles_bind {A} strict (m : M A) (k : A → M CommandResult) :
  steady m → (∀ a, settles strict (k a)) → settles strict (bind m k).
Proof.
  intros Hm Hk w r w' Hw H. apply bind_inv in H as [(a & w1 & H1 & H2)|(e & H1 & ->)].
  - destruct (Hm _ _ _ Hw H1) as (E1 & [l1 S1] & _).
    destruct (Hk a _ _ _ (plain_errors_env _ _ E1 Hw) H2) as (E2 & l2 & S2 & F2 & L2).
    split; [congruence|]. exists (l1 ++ l2). split; [by rewrite S2, S1, app_assoc|].
    split; [done|]. intros res Hr Hor. destruct (L2 res Hr Hor) as (s & Hl & Hc).
    exists s. split; [by apply last_app_snoc|done].
  - destruct (Hm _ _ _ Hw H1) as (E1 & [l1 S1] & F1).
    split; [done|]. exists l1. split; [done|].
    split; [intros e' [= <-]; by apply F1|intros; discriminate].
Qed.

Lemma settles_throw strict message : settles strict (throw (Error message)).
Proof.
  intros w r w' _ H. inversion H; subst. split; [done|]. exists []. rewrite app_nil_r.
  split; [done|]. split; [|intros; discriminate]. intros e [= <-]. apply failed_Error.
Qed.

Lemma settles_weaken (m : M CommandResult) : settles true m → settles false m.
Proof.
  intros H w r w' Hw Hm. destruct (H _ _ _ Hw Hm) as (He & l & Hs & Hf & Hl).
  split; [done|]. exists l. split; [done|]. split; [done|].
  intros res Hr _. apply (Hl res Hr). by left.
Qed.

Lemma settles_any strict (m : M CommandResult) : settles strict m → settles false m.
Proof. destruct strict; [apply settles_weaken|done]. Qed.

Lemma settles_docker cfg args o : settles false (runDocker cfg args o).
Proof. eapply settles_any, settles_runDocker. Qed.

Lemma settles_resolved strict cfg name (k : string → M CommandResult) :
  (∀ resolved, settles strict (k resolved)) →
  settles strict (let* resolved := resolveContainerTarget cfg name in k resolved).
Proof. intros Hk. apply settles_bind; [apply steady_resolveContainerTarget|done]. Qed.

Lemma settles_execInContainer cfg name args o :
  settles (negb (allowFailure o)) (execInContainer cfg name args o).
Proof. apply settles_resolved. intros c. apply settles_runDocker. Qed.

Lemma settles_exec cfg name args o : settles false (execInContainer cfg name args o).
Proof. eapply settles_any, settles_execInContainer. Qed.

(** *** The commands of the client *)

Lemma settles_tailscaleStatus cfg asJson : settles true (tailscaleStatus cfg asJson).
Proof.
  unfold tailscaleStatus. destruct asJson; apply (settles_execInContainer _ _ _ no_options).
Qed.

Lemma settles_tailscalePing cfg target count : settles false (tailscalePing cfg target count).
Proof.
  unfold tailscalePing. destruct (negb _); [apply settles_throw|apply settles_exec].
Qed.

Lemma settles_nginxReload cfg : settles false (nginxReload cfg).
Proof.
  unfold nginxReload. apply settles_bind; [|intros _; apply settles_exec].
  eapply settles_steady, settles_exec.
Qed.

Lemma settles_nginxLogs cfg logType tailLines : settles false (nginxLogs cfg logType tailLines).
Proof.
  unfold nginxLogs. destruct (LOG_TYPES _); [apply settles_exec|apply settles_throw].
Qed.

Lemma settles_systemCommand cfg name : settles false (systemCommand cfg name).
Proof.
  unfold systemCommand.
  repeat (lazymatch goal with |- settles _ (if ?c then _ else _) => destruct c end;
          [apply settles_docker|]).
  apply settles_throw.
Qed.

Lemma settles_systemPrune cfg scope : settles false (systemPrune cfg scope).
Proof.
  unfold systemPrune.
  repeat (lazymatch goal with |- settles _ (if ?c then _ else _) => destruct c end;
          [apply settles_docker|]).
  apply settles_throw.
Qed.

Lemma settles_systemRaw cfg args : settles false (systemRaw cfg args).
Proof. unfold systemRaw. destruct (_ =? _)%nat; [apply settles_throw|apply settles_docker]. Qed.

Lemma settles_containerMutate cfg name action : settles false (containerMutate cfg name action).
Proof.
  apply settles_resolved. intros c.
  repeat (lazymatch goal with |- settles _ (if ?c then _ else _) => destruct c end;
          [apply settles_docker|]).
  apply settles_throw.
Qed.

Lemma settles_containerExec cfg name shell commandText :
  settles false (containerExec cfg name shell commandText).
Proof.
  apply settles_resolved. intros c. cbv zeta.
  destruct (negb _); [apply settles_throw|apply settles_docker].
Qed.

Lemma settles_containerRename cfg name toName : settles false (containerRename cfg name toName).
Proof.
  apply settles_resolved. intros c.
  apply settles_bind; [apply steady_assertContainerName|intros _; apply settles_docker].
Qed.

Lemma settles_containerUpdate cfg name args : settles false (containerUpdate cfg name args).
Proof.
  apply settles_resolved. intros c.
  destruct (_ =? _)%nat; [apply settles_throw|apply settles_docker].
Qed.

Lemma settles_containerRaw cfg name args : settles false (containerRaw cfg name args).
Proof.
  apply settles_resolved. intros c.
  destruct (_ =? _)%nat; [apply settles_throw|apply settles_docker].
Qed.

(** *** The routes *)

Lemma answers_ret answer : answers (ret answer).
Proof.
  intros w r w' _ H. inversion H; subst. split; [done|]. exists []. rewrite app_nil_r.
  split; [done|]. split; [intros; discriminate|]. intros; by left.
Qed.

Lemma answers_send strict (m : M CommandResult) :
  settles strict m → answers (let* result := m in ret (sendCommandResult result)).
Proof.
  intros Hm w r w' Hw H. apply bind_inv in H as [(res & w1 & H1 & H2)|(e & H1 & ->)].
  - destruct (Hm _ _ _ Hw H1) as (E1 & l & S1 & _ & L1). inversion H2; subst.
    split; [done|]. exists l. split; [done|]. split; [intros; discriminate|].
    intros answer [= <-] Hstatus. right. apply (L1 res eq_refl). right.
    unfold sendCommandResult in Hstatus.
    destruct (code res =? 0) eqn:E; [by apply Z.eqb_eq|discriminate Hstatus].
  - destruct (Hm _ _ _ Hw H1) as (E1 & l & S1 & F1 & _).
    split; [done|]. exists l. split; [done|].
    split; [intros e' [= <-]; by apply F1|intros; discriminate].
Qed.

Lemma answers_guarded cfg req methods key action :
  answers action → answers (guarded cfg req methods key action).
Proof.
  intros Ha. unfold guarded. destruct (ensureMethod _ _); [apply answers_ret|].
  destruct (requirePermission _ _); [apply answers_ret|done].
Qed.

Lemma answers_body JSON_parse req limit (k : body → M response) :
  (∀ b, answers (k b)) → answers (let* b := parseRequestBody JSON_parse req limit in k b).
Proof.
  intros Hk w r w' Hw H. unfold bind, parseRequestBody in H.
  destruct (limit <? _).
  - inversion H; subst. split; [done|]. exists []. rewrite app_nil_r. split; [done|].
    split; [|intros; discriminate]. intros e [= <-]. apply failed_Error.
  - by apply (Hk _ _ _ _ Hw H).
Qed.

Section Routes.

Variable JSON_parse : string → Json.value + string.
Variable JSON_stringify : Json.value → string.
Variable toISOString : Z → string.
Variable cfg : config.
Variable req : request.

Lemma answers_route_tailscale_status urlObj :
  answers (route_tailscale_status JSON_parse JSON_stringify cfg req urlObj).
Proof.
  apply answers_guarded. cbv zeta.
  intros w r w' Hw H. apply bind_inv in H as [(res & w1 & H1 & H2)|(e & H1 & ->)].
  - destruct (settles_tailscaleStatus _ _ _ _ _ Hw H1) as (E1 & l & S1 & _ & L1).
    destruct (L1 res eq_refl (or_introl eq_refl)) as (s & Hl & Hc).
    assert (w' = w1 ∧ ∃ answer, r = Ok answer) as [-> [answer ->]].
    { destruct (String.eqb _ "json"); [destruct (JSON_parse _)|];
        inversion H2; subst; eauto. }
    split; [done|]. exists l. split; [done|]. split; [intros; discriminate|]. eauto.
  - destruct (settles_tailscaleStatus _ _ _ _ _ Hw H1) as (E1 & l & S1 & F1 & _).
    split; [done|]. exists l. split; [done|].
    split; [intros e' [= <-]; by apply F1|intros; discriminate].
Qed.

Lemma answers_route_nginx_logs urlObj group : answers (route_nginx_logs cfg req urlObj group).
Proof.
  unfold route_nginx_logs. destruct (ensureMethod _ _); [apply answers_ret|]. cbv zeta.
  destruct (negb _); [apply answers_ret|].
  destruct (requirePermission _ _); [apply answers_ret|].
  eapply answers_send, settles_nginxLogs.
Qed.

Lemma answers_handleSystemRoute urlObj commandName :
  answers (handleSystemRoute JSON_parse cfg req urlObj commandName).
Proof.
  unfold handleSystemRoute. destruct (safeMap commandName) as [[key name]|].
  { eapply answers_guarded, answers_send, settles_systemCommand. }
  destruct (inherited commandName).
  { destruct (ensureMethod req ["GET"]); apply answers_ret. }
  destruct (String.eqb commandName "prune").
  { eapply answers_guarded, answers_send, settles_systemPrune. }
  destruct (String.eqb commandName "raw"); [|apply answers_ret].
  apply answers_guarded, answers_body. intros b.
  eapply answers_send, settles_systemRaw.
Qed.

Lemma settles_safeReadonlyActions urlObj containerName actionName key fn :
  safeReadonlyActions cfg urlObj containerName actionName = Some (key, fn) → settles false fn.
Proof.
  unfold safeReadonlyActions. intros Es.
  repeat (lazymatch type of Es with
          | (if ?c then _ else _) = _ =>
              destruct c;
              [inversion Es; subst; apply settles_resolved; intros c'; apply settles_docker|]
          end).
  discriminate Es.
Qed.

Lemma answers_handleContainerRoute urlObj containerName actionName :
  answers (handleContainerRoute JSON_parse cfg req urlObj containerName actionName).
Proof.
  unfold handleContainerRoute.
  destruct (safeReadonlyActions cfg urlObj containerName actionName) as [[key fn]|] eqn:Es.
  { eapply answers_guarded, answers_send, settles_safeReadonlyActions, Es. }
  destruct (inherited actionName); [apply answers_ret|].
  destruct (safeMutateActions actionName).
  { eapply answers_guarded, answers_send, settles_containerMutate. }
  destruct (dangerousActions actionName).
  { eapply answers_guarded, answers_send, settles_containerMutate. }
  destruct (String.eqb actionName "exec").
  { apply answers_guarded, answers_body. intros b.
    eapply answers_send, settles_containerExec. }
  destruct (String.eqb actionName "rename").
  { apply answers_guarded, answers_body. intros b.
    eapply answers_send, settles_containerRename. }
  destruct (String.eqb actionName "update").
  { apply answers_guarded, answers_body. intros b.
    eapply answers_send, settles_containerUpdate. }
  destruct (String.eqb actionName "raw"); [|apply answers_ret].
  apply answers_guarded, answers_body. intros b.
  eapply answers_send, settles_containerRaw.
Qed.

Lemma answers_otherRoutes urlObj :
  answers (otherRoutes JSON_parse JSON_stringify cfg req urlObj).
Proof.
  unfold otherRoutes.
  destruct (String.eqb _ "/dockerapi/tailscale/status"); [apply answers_route_tailscale_status|].
  destruct (String.eqb _ "/dockerapi/tailscale/ip").
  { eapply answers_guarded, answers_send, settles_exec. }
  destruct (String.eqb _ "/dockerapi/nginx/test").
  { eapply answers_guarded, answers_send, settles_exec. }
  destruct (String.eqb _ "/dockerapi/nginx/version").
  { eapply answers_guarded, answers_send, settles_exec. }
  destruct (match_word "/dockerapi/nginx/logs/" _ _); [apply answers_route_nginx_logs|].
  destruct (match_word "/dockerapi/system/" _ _); [apply answers_handleSystemRoute|].
  destruct (match_container _) as [[c a]|]; [apply answers_handleContainerRoute|].
  apply answers_ret.
Qed.

Lemma handleCommandError_failed scope e w r w' :
  failed e → handleCommandError scope e w = (r, w') →
  environment w' = environment w ∧ spawned w' = spawned w ∧
  ∃ answer, r = Ok answer ∧ statusCode answer ≠ 200.
Proof.
  intros Hf H. unfold handleCommandError in H. destruct (result e) as [res|] eqn:Er.
  - inversion H; subst. split; [done|]. split; [done|]. eexists. split; [done|].
    unfold sendCommandResult. specialize (Hf res Er).
    apply Z.eqb_neq in Hf. rewrite Hf. simpl. done.
  - inversion H; subst. split; [done|]. split; [done|]. eexists. split; [done|]. done.
Qed.

Lemma answers_try_catch (m : M response) scope :
  answers m → answers (try_catch m (handleCommandError scope)).
Proof.
  intros Hm w r w' Hw H. unfold try_catch in H. destruct (m w) as [[a|e] w1] eqn:E1.
  - inversion H; subst. by apply (Hm _ _ _ Hw E1).
  - destruct (Hm _ _ _ Hw E1) as (He & l & Hs & Hf & _).
    destruct (handleCommandError_failed scope e w1 r w' (Hf e eq_refl) H)
      as (He' & Hs' & answer & -> & Hno).
    split; [congruence|]. exists l. split; [congruence|]. split; [intros; discriminate|].
    intros answer' [= <-] Hst. done.
Qed.

Lemma answers_serve : answers (serve JSON_parse JSON_stringify toISOString cfg req).
Proof.
  unfold serve, requestHandler.
  intros w r w' Hw H. unfold bind at 1, modify in H. unfold bind at 1, get in H.
  set (w0 := set_requestCount (requestCount w + 1) w) in H.
  assert (Hw0 : plain_errors w0) by done.
  change (spawned w) with (spawned w0). change (environment w) with (environment w0).
  clearbody w0. clear w Hw.
  destruct (target req) as [urlObj|]; [|by apply (answers_ret _ _ _ _ Hw0 H)].
  unfold bind at 1, Logger.write, modify in H.
  match type of H with (if _ then _ else _) ?w1 = _ => set (w2 := w1) in H end.
  assert (Hw2 : plain_errors w2) by done.
  change (spawned w0) with (spawned w2). change (environment w0) with (environment w2).
  clearbody w2.
  destruct (negb _); [by apply (answers_ret _ _ _ _ Hw2 H)|].
  revert H. apply answers_try_catch; [|done].
  destruct (_ || _).
  { apply answers_guarded, answers_ret. }
  destruct (String.eqb _ "/dockerapi/help").
  { apply answers_guarded, answers_ret. }
  destruct (String.eqb _ "/dockerapi/healthz").
  { apply answers_guarded. intros w r0 w'0 Hw H. inversion H; subst.
    by apply (answers_ret _ _ _ _ Hw H). }
  destruct (String.eqb _ "/dockerapi/tailscale/ping").
  { apply answers_guarded, answers_body. intros b. eapply answers_send, settles_tailscalePing. }
  destruct (String.eqb _ "/dockerapi/nginx/reload").
  { eapply answers_guarded, answers_send, settles_nginxReload. }
  apply answers_otherRoutes.
Qed.

End Routes.

(** Where the errors of the processes are errors of the host, a request
    that is answered 200 has spawned nothing, or the process it spawned
    last exited with code 0 before its timer: a command that fails, is
    killed or outlives its timer is never answered 200. *)
Theorem ok_means_exit_zero
    (JSON_parse : string → Json.value + string) (JSON_stringify : Json.value → string)
    (toISOString : Z → string) (cfg : config) (req : request) (w : world) (answer : response) :
  plain_errors w →
  fst (serve JSON_parse JSON_stringify toISOString cfg req w) = Ok answer →
  statusCode answer = 200 →
  spawned (snd (serve JSON_parse JSON_stringify toISOString cfg req w)) = spawned w ∨
  ∃ s, last (spawned (snd (serve JSON_parse JSON_stringify toISOString cfg req w))) = Some s ∧
       completed_ok s = true.
Proof.
  intros Hw Hr Hst.
  destruct (serve JSON_parse JSON_stringify toISOString cfg req w) as [r w'] eqn:E.
  simpl in *. subst r.
  destruct (answers_serve JSON_parse JSON_stringify toISOString cfg req w _ w' Hw E)
    as (_ & l & Hs & _ & Hl).
  destruct (Hl answer eq_refl Hst) as [->|(s & Hlast & Hc)].
  - left. by rewrite Hs, app_nil_r.
  - right. exists s. split; [|done]. rewrite Hs. by apply last_app_snoc.
Qed.

Lemma quiet_plain_errors : plain_errors (fresh quiet).
Proof. intros n command args e H. discriminate H. Qed.

Lemma ok_means_exit_zero_witness :
  spawned (snd (serve (fun _ => inr EmptyString) (fun _ => EmptyString) Js.string_of_Z
                  default_config images_request (fresh quiet)))
  = spawned (fresh quiet) ∨
  ∃ s, last (spawned (snd (serve (fun _ => inr EmptyString) (fun _ => EmptyString)
                             Js.string_of_Z default_config images_request (fresh quiet))))
       = Some s ∧ completed_ok s = true.
Proof.
  eapply (ok_means_exit_zero (fun _ => inr EmptyString) (fun _ => EmptyString) Js.string_of_Z
            default_config images_request (fresh quiet)).
  - exact quiet_plain_errors.
  - vm_compute. reflexivity.
  - reflexivity.
Defined.

End Outcomes.

(** ** A cycle that succeeds *)

Section RenderedState.
Import Config State ShadowSync.

Lemma desired_state_rendered cfg nextIps ip content :
  (ip, content) ∈ desired_state cfg nextIps → content = renderShadowContent ip (shadowPort cfg).
Proof.
  unfold desired_state.
  assert (Hgen : ∀ acc,
    (∀ ip content, (ip, content) ∈ acc → content = renderShadowContent ip (shadowPort cfg)) →
    (ip, content) ∈ foldl (fun m ip => map_set ip (renderShadowContent ip (shadowPort cfg)) m)
                      acc nextIps →
    content = renderShadowContent ip (shadowPort cfg)).
  { induction nextIps as [|x l IH]; intros acc Hacc Hin; simpl in Hin; [by apply Hacc|].
    apply (IH (map_set x (renderShadowContent x (shadowPort cfg)) acc)); [|done].
    intros ip' content' [E|H']%elem_of_map_set; [by inversion E|by apply Hacc]. }
  apply Hgen. intros ? ? H. by apply elem_of_nil in H.
Qed.

Lemma applyStateWithRollback_ok cfg shadowDir previous desired name w w' :
  applyStateWithRollback cfg shadowDir previous desired name w = (Ok tt, w') →
  ∃ w1, writeShadowState shadowDir desired w = (Ok tt, w1) ∧
        test_and_reload cfg name w1 = (Ok tt, w').
Proof.
  unfold applyStateWithRollback. intros H.
  inv_bind H as u w1 Hwrite. destruct u. exists w1. split; [done|].
  unfold try_catch in H. destruct (test_and_reload cfg name w1) as [[[]|e] w2] eqn:Et.
  { by inversion H. }
  exfalso.
  inv_bind H as u1 w3 Hlog. inv_bind H as u2 w4 Hback. inv_bind H as u3 w5 Hretry.
  discriminate H.
Qed.

End RenderedState.

Section Convergence.
Import Config State ShadowSync.

Variable JSON_parse : string → Json.value + string.
Variable localeCompare : string → string → Z.

(** After a cycle that succeeds, the member files of the shadow
    directory are the files of the active peers: an address has a file
    exactly when the cycle found it active.  When the cycle found a
    change, and wrote through temporary paths that were clear, each of
    these files is a regular file that holds the bytes of the stanza
    rendered for its address and the configured port; when it found
    none, the directory is left as it was, whatever it holds. *)
Theorem successful_cycle_converges (cfg : config) (w : world) (result : sync_result) :
  fst (runTailscaleShadowSync JSON_parse localeCompare cfg w) = Ok result →
  (changed result = true → ∀ ip, ip ∈ nextIps result → clear (shadow w) ip) →
  (∀ ip, on_disk (shadow (snd (runTailscaleShadowSync JSON_parse localeCompare cfg w))) ip
         ↔ ip ∈ nextIps result) ∧
  (changed result = true →
   ∀ ip, ip ∈ nextIps result →
     ∃ i, shadow (snd (runTailscaleShadowSync JSON_parse localeCompare cfg w)) !! conf ip
          = Some (File i (utf8_encode (platform w)
                            (renderShadowContent ip (shadowPort cfg))))) ∧
  (changed result = false →
   shadow (snd (runTailscaleShadowSync JSON_parse localeCompare cfg w)) = shadow w).
Proof.
  destruct (runTailscaleShadowSync JSON_parse localeCompare cfg w) as [r w'] eqn:Hrun.
  simpl. intros -> Hclear.
  assert (∃ statusResult w0 payload,
            DockerClient.tailscaleStatus cfg true w = (Ok statusResult, w0) ∧
            JSON_parse (Js.or_else (stdout statusResult) "{}") = inl payload)
    as (statusResult & w0 & payload & Hstatus & Hparse).
  { unfold runTailscaleShadowSync in Hrun.
    inv_bind Hrun as statusResult w0 Hstatus.
    destruct (JSON_parse _) as [payload|message] eqn:Hp; [eauto|discriminate Hrun]. }
  destruct (runTailscaleShadowSync_steps JSON_parse localeCompare cfg w statusResult w0 payload
              Hstatus Hparse) as (previousState & Hsnap & _ & Hs & _ & Hhost & Hsteps).
  cbv zeta in Hsteps. rewrite Hsteps in Hrun. clear Hsteps.
  set (next := extractActivePeerIps localeCompare payload) in *.
  destruct (scan_sets localeCompare cfg previousState next) as (_ & Hadd & Hrem & Hch).
  cbv zeta in Hadd, Hrem, Hch.
  set (res := scan localeCompare previousState (desired_state cfg next) next) in *.
  destruct (changed res) eqn:Hc.
  - change (negb true) with false in Hrun. cbv iota in Hrun.
    inv_bind Hrun as u w1 Happly. destruct u.
    inv_bind Hrun as u1 w2 Hlog. inversion Hrun; subst. clear Hrun.
    unfold Logger.info, Logger.write, modify in Hlog. inversion Hlog; subst. clear Hlog.
    cbn [changed nextIps] in Hclear. specialize (Hclear eq_refl).
    apply applyStateWithRollback_ok in Happly as (w3 & Hwrite & Htest).
    apply keeps_test_and_reload in Htest as [Hsh _].
    assert (Hd : shadow (scan_logged res w0) = shadow w) by (rewrite <- Hs; reflexivity).
    apply (writeShadowState_inv (shadowDir cfg) (platform w)) in Hwrite
      as [(Hw & _ & ops & ->)|(_ & e & He)]; [|discriminate He|exact Hhost|].
    2:{ rewrite Hd. apply Forall_forall. intros ip Hip. apply Hclear.
        by apply desired_state_keys in Hip. }
    rewrite shadow_set_shadow in Hsh. simpl. rewrite Hsh. rewrite Hd. clear Hd.
    split; [|split; [|done]].
    + intros ip. unfold on_disk. split.
      * intros [(i & content & Hfile) Hv].
        apply (desired_state_keys cfg next).
        by apply (written_member (platform w) (shadow w) (desired_state cfg next) ip i content).
      * intros Hin. split; [|by apply (extractActivePeerIps_valid localeCompare payload)].
        destruct (written_conf (platform w) (shadow w) (desired_state cfg next) ip)
          as (i & content & _ & Hf); [by apply desired_state_keys|]. eauto.
    + intros _ ip Hin.
      destruct (written_conf (platform w) (shadow w) (desired_state cfg next) ip)
        as (i & content & Hst & Hf); [by apply desired_state_keys|].
      exists i. by rewrite Hf, (desired_state_rendered cfg next ip content Hst).
  - change (negb false) with true in Hrun. cbv iota in Hrun.
    inversion Hrun; subst. clear Hrun. cbn [fst snd].
    change (shadow (scan_logged res w0)) with (shadow w0). rewrite Hs.
    split; [|split; [done|done]].
    intros ip. rewrite <- (snapshot_on_disk _ _ _ ip Hsnap).
    assert (Ha : added res = []).
    { destruct (added res) as [|a l] eqn:E; [done|].
      assert (false = true) by (apply Hch; by left). done. }
    assert (Hr : removed res = []).
    { destruct (removed res) as [|a l] eqn:E; [done|].
      assert (false = true) by (apply Hch; by right). done. }
    split.
    + intros Hp. destruct (decide (ip ∈ next)) as [?|Hn]; [done|]. exfalso.
      assert (ip ∈ removed res) as Hin by (by apply Hrem). rewrite Hr in Hin.
      by apply elem_of_nil in Hin.
    + intros Hn. destruct (decide (ip ∈ previousState.*1)) as [?|Hp]; [done|]. exfalso.
      assert (ip ∈ added res) as Hin by (by apply Hadd). rewrite Ha in Hin.
      by apply elem_of_nil in Hin.
Qed.

End Convergence.

(** The cycle of a process whose commands all succeed, next to the
    directory that holds the backend 10.0.0.2, a regular file left at
    the temporary path of 10.0.0.5, and a symbolic link. *)
Definition world_ready : State.world := State.set_shadow dir_one [] (fresh quiet).

Lemma successful_cycle_converges_witness :
  ∃ result,
    fst (ShadowSync.runTailscaleShadowSync parse_peers compare_equal Config.default_config
           world_ready) = State.Ok result ∧
    State.changed result = true ∧
    (∀ ip, on_disk (State.shadow
                      (snd (ShadowSync.runTailscaleShadowSync parse_peers compare_equal
                              Config.default_config world_ready))) ip
           ↔ ip ∈ State.nextIps result) ∧
    (State.changed result = true →
     ∀ ip, ip ∈ State.nextIps result →
       ∃ i, State.shadow (snd (ShadowSync.runTailscaleShadowSync parse_peers compare_equal
                                 Config.default_config world_ready)) !! conf ip
            = Some (State.File i (ShadowSync.renderShadowContent ip
                                    (Config.shadowPort Config.default_config)))) ∧
    (State.changed result = false →
     State.shadow (snd (ShadowSync.runTailscaleShadowSync parse_peers compare_equal
                          Config.default_config world_ready))
     = State.shadow world_ready).
Proof.
  eexists. split; [vm_compute; reflexivity|]. split; [reflexivity|].
  eapply (successful_cycle_converges parse_peers compare_equal Config.default_config
            world_ready).
  - vm_compute. reflexivity.
  - intros _ ip Hin. vm_compute in Hin. apply list_elem_of_singleton in Hin.
    apply dir_one_clear. by right.
Defined.

(** ** Dotted quads *)

Section DottedQuads.
Import Config State ShadowSync.

Lemma split_char_split_on c s : Js.split_char c s = Js.split_on (Ascii.eqb c) s.
Proof. induction s as [|d r IH]; [done|]. simpl. by rewrite IH. Qed.

(** The text of the address with the four octets. *)
Definition quad (a b c d : Z) : string :=
  Js.string_of_Z a +:+ "." +:+ Js.string_of_Z b +:+ "." +:+ Js.string_of_Z c +:+ "."
    +:+ Js.string_of_Z d.

Lemma octet_text n :
  0 ≤ n ≤ 999 →
  octet_shape (Js.string_of_Z n) = true ∧
  all_chars (fun c => negb (Ascii.eqb "." c)) (Js.string_of_Z n) = true.
Proof.
  intros Hn.
  assert (Hall : Forall (fun n => octet_shape (Js.string_of_Z n) = true ∧
                   all_chars (fun c => negb (Ascii.eqb "." c)) (Js.string_of_Z n) = true)
                  (seqZ 0 1000)).
  { apply Forall_forall. intros k Hk.
    assert (Hb : forallb (fun n => octet_shape (Js.string_of_Z n) &&
                     all_chars (fun c => negb (Ascii.eqb "." c)) (Js.string_of_Z n))
                   (seqZ 0 1000) = true) by (vm_compute; reflexivity).
    rewrite forallb_forall in Hb. apply andb_true_iff, Hb. by apply list_elem_of_In. }
  rewrite Forall_forall in Hall. apply Hall, elem_of_seqZ. lia.
Qed.

Lemma quad_split a b c d :
  0 ≤ a ≤ 999 → 0 ≤ b ≤ 999 → 0 ≤ c ≤ 999 → 0 ≤ d ≤ 999 →
  Js.split_char "." (quad a b c d)
  = [Js.string_of_Z a; Js.string_of_Z b; Js.string_of_Z c; Js.string_of_Z d].
Proof.
  intros Ha Hb Hc Hd. unfold quad. rewrite split_char_split_on.
  destruct (octet_text a Ha) as [_ Pa]. destruct (octet_text b Hb) as [_ Pb].
  destruct (octet_text c Hc) as [_ Pc]. destruct (octet_text d Hd) as [_ Pd].
  rewrite !append_cons, !append_nil.
  rewrite (split_on_append _ _ "." _ Pa eq_refl), (split_on_append _ _ "." _ Pb eq_refl),
    (split_on_append _ _ "." _ Pc eq_refl), (split_on_plain _ _ Pd). done.
Qed.

Lemma quad_trimmed a b c d : normalizeValue (quad a b c d) = quad a b c d.
Proof.
  apply trim_solid. unfold quad.
  by rewrite !all_chars_app, !string_of_Z_solid.
Qed.

Lemma octet_ok_string_of_Z n :
  0 ≤ n ≤ 999 → octet_ok (Js.parseInt10 (Js.string_of_Z n)) = bool_decide (n ≤ 255).
Proof.
  intros Hn. rewrite parseInt10_string_of_Z.
  - simpl. case_bool_decide; [apply andb_true_iff; split; lia|].
    apply andb_false_iff. right. lia.
  - pose proof threshold_large. lia.
Qed.

(** The validator of addresses on the text of four numbers with dots
    between them, each number of at most three digits: the text is an
    address exactly when none of the numbers exceeds 255. *)
Theorem isIpv4_quad (a b c d : Z) :
  0 ≤ a ≤ 999 → 0 ≤ b ≤ 999 → 0 ≤ c ≤ 999 → 0 ≤ d ≤ 999 →
  (isIpv4 (quad a b c d) = true ↔ a ≤ 255 ∧ b ≤ 255 ∧ c ≤ 255 ∧ d ≤ 255).
Proof.
  intros Ha Hb Hc Hd. unfold isIpv4, IPV4_PATTERN.
  rewrite quad_trimmed, (quad_split a b c d Ha Hb Hc Hd).
  destruct (octet_text a Ha) as [-> _]. destruct (octet_text b Hb) as [-> _].
  destruct (octet_text c Hc) as [-> _]. destruct (octet_text d Hd) as [-> _].
  simpl. rewrite !octet_ok_string_of_Z by done.
  rewrite andb_true_r, !andb_true_iff, !bool_decide_eq_true. tauto.
Qed.

Lemma isIpv4_quad_witness :
  isIpv4 (quad 100 64 0 255) = true ↔ 100 ≤ 255 ∧ 64 ≤ 255 ∧ 0 ≤ 255 ∧ 255 ≤ 255.
Proof. apply (isIpv4_quad 100 64 0 255); lia. Defined.

End DottedQuads.

(** ** The name that a resolution returns *)

Section ResolvedName.
Import Config State CommandRunner DockerClient.

(** A resolution that succeeds was asked for a valid name and returns a
    name that is not empty: a command inside a container always names
    its container. *)
Theorem resolveContainerTarget_named (cfg : config) (name : string) (w : world)
    (resolved : string) :
  fst (resolveContainerTarget cfg name w) = Ok resolved →
  isContainerNameValid name = true ∧ resolved ≠ EmptyString.
Proof.
  destruct (resolveContainerTarget cfg name w) as [r w'] eqn:H. simpl. intros ->.
  unfold resolveContainerTarget in H.
  inv_bind H as u w0 Hassert. apply assertContainerName_inv in Hassert as [-> Hvalid].
  specialize (Hvalid u eq_refl). split; [done|].
  inv_bind H as cached w1 Hread.
  destruct (Js.truthy cached) eqn:Hc.
  { inversion H; subst. by apply truthy_ne. }
  inv_bind H as directInspect w2 Hrun.
  destruct (code directInspect =? 0).
  { inv_bind H as u1 w3 Hwrite. inversion H; subst.
    apply truthy_ne. by apply valid_name_truthy. }
  inv_bind H as composeResolved w3 Hfind.
  destruct (Js.truthy composeResolved) eqn:Ht; [|discriminate H].
  inv_bind H as u1 w4 Hw1. inv_bind H as u2 w5 Hw2. inv_bind H as u3 w6 Hlog.
  inversion H; subst. by apply truthy_ne.
Qed.

Lemma resolveContainerTarget_named_witness :
  isContainerNameValid "web" = true ∧ "web" ≠ EmptyString.
Proof.
  apply (resolveContainerTarget_named default_config "web" (fresh quiet) "web").
  vm_compute. reflexivity.
Defined.

End ResolvedName.

(** ** The record of the scheduled cycle *)

Section CycleRecord.
Import Config State CommandRunner DockerClient ShadowSync Server.

(** A computation that leaves the record of the cycles as it is. *)
Definition keeps_sync {A} (m : M A) : Prop := ∀ w r w', m w = (r, w') → sync w' = sync w.

Ltac keeps_sync_primitive :=
  let H := fresh "H" in
  intros ? ? ? H;
  repeat match type of H with
         | context [match ?x with _ => _ end] => destruct x
         end;
  inversion H; subst; reflexivity.

Lemma keeps_sync_ret {A} (a : A) : keeps_sync (ret a).
Proof. keeps_sync_primitive. Qed.

Lemma keeps_sync_throw {A} e : keeps_sync (@throw A e).
Proof. keeps_sync_primitive. Qed.

Lemma keeps_sync_bind {A B} (m : M A) (k : A → M B) :
  keeps_sync m → (∀ a, keeps_sync (k a)) → keeps_sync (bind m k).
Proof.
  intros Hm Hk w r w' H. apply bind_inv in H as [(a & w1 & H1 & H2)|(e & H1 & ->)].
  - rewrite (Hk a _ _ _ H2). by eapply Hm.
  - by eapply Hm.
Qed.

Lemma keeps_sync_try_catch {A} (m : M A) (handler : error → M A) :
  keeps_sync m → (∀ e, keeps_sync (handler e)) → keeps_sync (try_catch m handler).
Proof.
  intros Hm Hh w r w' H. unfold try_catch in H. destruct (m w) as [[a|e] w1] eqn:E1.
  - inversion H; subst. by eapply Hm.
  - rewrite (Hh e _ _ _ H). by eapply Hm.
Qed.

Lemma keeps_sync_log level scope message meta :
  keeps_sync (Logger.write level scope message meta).
Proof. keeps_sync_primitive. Qed.

Lemma keeps_sync_runCommand command args t : keeps_sync (runCommand command args t).
Proof. unfold runCommand. keeps_sync_primitive. Qed.

Lemma keeps_sync_runDocker cfg args o : keeps_sync (runDocker cfg args o).
Proof.
  unfold runDocker. apply keeps_sync_bind; [apply keeps_sync_runCommand|].
  intros result. destruct (_ && _); [apply keeps_sync_throw|apply keeps_sync_ret].
Qed.

Lemma keeps_sync_readResolveCache name : keeps_sync (readResolveCache name).
Proof. unfold readResolveCache. keeps_sync_primitive. Qed.

Lemma keeps_sync_writeResolveCache name v : keeps_sync (writeResolveCache name v).
Proof. unfold writeResolveCache. keeps_sync_primitive. Qed.

Lemma keeps_sync_assertContainerName name : keeps_sync (assertContainerName name).
Proof.
  unfold assertContainerName. destruct (isContainerNameValid name);
    [apply keeps_sync_ret|apply keeps_sync_throw].
Qed.

Lemma keeps_sync_findContainerByComposeService cfg service :
  keeps_sync (findContainerByComposeService cfg service).
Proof.
  unfold findContainerByComposeService. destruct (negb _); [apply keeps_sync_ret|].
  apply keeps_sync_bind; [apply keeps_sync_runDocker|intros running].
  destruct (Js.truthy _); [apply keeps_sync_ret|].
  apply keeps_sync_bind; [apply keeps_sync_runDocker|intros; apply keeps_sync_ret].
Qed.

Lemma keeps_sync_resolveContainerTarget cfg name : keeps_sync (resolveContainerTarget cfg name).
Proof.
  unfold resolveContainerTarget.
  apply keeps_sync_bind; [apply keeps_sync_assertContainerName|intros _].
  apply keeps_sync_bind; [apply keeps_sync_readResolveCache|intros cached].
  destruct (Js.truthy cached); [apply keeps_sync_ret|].
  apply keeps_sync_bind; [apply keeps_sync_runDocker|intros directInspect].
  destruct (code directInspect =? 0).
  { apply keeps_sync_bind; [apply keeps_sync_writeResolveCache|intros; apply keeps_sync_ret]. }
  apply keeps_sync_bind; [apply keeps_sync_findContainerByComposeService|intros composeResolved].
  destruct (Js.truthy composeResolved); [|apply keeps_sync_throw].
  apply keeps_sync_bind; [apply keeps_sync_writeResolveCache|intros _].
  apply keeps_sync_bind; [apply keeps_sync_writeResolveCache|intros _].
  apply keeps_sync_bind; [apply keeps_sync_log|intros _]. apply keeps_sync_ret.
Qed.

Lemma keeps_sync_execInContainer cfg name args o : keeps_sync (execInContainer cfg name args o).
Proof.
  apply keeps_sync_bind; [apply keeps_sync_resolveContainerTarget|].
  intros c. apply keeps_sync_runDocker.
Qed.

Lemma keeps_sync_test_and_reload cfg name : keeps_sync (test_and_reload cfg name).
Proof.
  unfold test_and_reload, nginxTest.
  apply keeps_sync_bind; [apply keeps_sync_execInContainer|intros _].
  apply keeps_sync_bind; [apply keeps_sync_execInContainer|intros _]. apply keeps_sync_ret.
Qed.

Lemma keeps_sync_readFileSync dir name : keeps_sync (readFileSync dir name).
Proof. unfold readFileSync. keeps_sync_primitive. Qed.

Lemma keeps_sync_writeFileSync dir name content : keeps_sync (writeFileSync dir name content).
Proof. unfold writeFileSync. keeps_sync_primitive. Qed.

Lemma keeps_sync_renameSync dir src dst : keeps_sync (renameSync dir src dst).
Proof. unfold renameSync. keeps_sync_primitive. Qed.

Lemma keeps_sync_rmSync dir name : keeps_sync (rmSync dir name).
Proof. unfold rmSync. keeps_sync_primitive. Qed.

Lemma keeps_sync_readdirSync : keeps_sync readdirSync.
Proof. keeps_sync_primitive. Qed.

Lemma keeps_sync_readShadowFiles dir : keeps_sync (readShadowFiles dir).
Proof.
  unfold readShadowFiles. apply keeps_sync_bind; [apply keeps_sync_readdirSync|].
  intros entries. generalize (@nil (string * string)) as state.
  induction entries as [|[name entry] entries IH]; intros state; simpl;
    [apply keeps_sync_ret|].
  destruct (member_ip name entry); [|apply IH].
  apply keeps_sync_bind; [apply keeps_sync_readFileSync|intros; apply IH].
Qed.

Lemma keeps_sync_writeShadowState dir desired : keeps_sync (writeShadowState dir desired).
Proof.
  unfold writeShadowState. apply keeps_sync_bind; [apply keeps_sync_readdirSync|].
  intros entries. apply keeps_sync_bind.
  - generalize (scan_existing entries []) as existing.
    induction desired as [|[ip content] desired IH]; intros existing; simpl;
      [apply keeps_sync_ret|].
    apply keeps_sync_bind; [apply keeps_sync_writeFileSync|intros _].
    apply keeps_sync_bind; [apply keeps_sync_renameSync|intros _]. apply IH.
  - intros existing. induction existing as [|ip existing IH]; simpl; [apply keeps_sync_ret|].
    apply keeps_sync_bind; [apply keeps_sync_rmSync|intros _; apply IH].
Qed.

Lemma keeps_sync_applyStateWithRollback cfg dir previous desired name :
  keeps_sync (applyStateWithRollback cfg dir previous desired name).
Proof.
  unfold applyStateWithRollback.
  apply keeps_sync_bind; [apply keeps_sync_writeShadowState|intros _].
  apply keeps_sync_try_catch; [apply keeps_sync_test_and_reload|intros e].
  apply keeps_sync_bind; [apply keeps_sync_log|intros _].
  apply keeps_sync_bind; [apply keeps_sync_writeShadowState|intros _].
  apply keeps_sync_bind; [|intros _; apply keeps_sync_throw].
  apply keeps_sync_try_catch; [apply keeps_sync_test_and_reload|intros; apply keeps_sync_log].
Qed.

Lemma keeps_sync_runTailscaleShadowSync JSON_parse localeCompare cfg :
  keeps_sync (runTailscaleShadowSync JSON_parse localeCompare cfg).
Proof.
  unfold runTailscaleShadowSync.
  apply keeps_sync_bind.
  { unfold tailscaleStatus. apply keeps_sync_execInContainer. }
  intros statusResult. destruct (JSON_parse _); [|apply keeps_sync_throw].
  apply keeps_sync_bind; [apply keeps_sync_readShadowFiles|intros previousState].
  cbv zeta. apply keeps_sync_bind; [apply keeps_sync_log|intros _].
  destruct (negb _); [apply keeps_sync_ret|].
  apply keeps_sync_bind; [apply keeps_sync_applyStateWithRollback|intros _].
  apply keeps_sync_bind; [apply keeps_sync_log|intros _]. apply keeps_sync_ret.
Qed.

(** A cycle that a timer starts when the cycles are enabled and none is
    in progress: the call returns with no cycle in progress, whatever
    the cycle did, and the cycle is counted.  When the cycle returned,
    its result is recorded and the last error is cleared; when it
    threw, the failure is counted and its message recorded, and the
    result of the last success stays. *)
Theorem scheduled_cycle_is_recorded
    (JSON_parse : string → Json.value + string) (localeCompare : string → string → Z)
    (cfg : config) (source : string) (w : world) :
  tailscaleSyncEnabled cfg = true →
  inProgress (sync w) = false →
  fst (runScheduledSync JSON_parse localeCompare cfg source w) = Ok tt ∧
  inProgress (sync (snd (runScheduledSync JSON_parse localeCompare cfg source w))) = false ∧
  totalRuns (sync (snd (runScheduledSync JSON_parse localeCompare cfg source w)))
    = totalRuns (sync w) + 1 ∧
  lastRunAt (sync (snd (runScheduledSync JSON_parse localeCompare cfg source w)))
    = Some (now w) ∧
  match fst (runTailscaleShadowSync JSON_parse localeCompare cfg
               (snd (sync_begin cfg source w))) with
  | Ok result =>
      lastResult (sync (snd (runScheduledSync JSON_parse localeCompare cfg source w)))
        = Some result ∧
      lastError (sync (snd (runScheduledSync JSON_parse localeCompare cfg source w)))
        = EmptyString ∧
      totalFailures (sync (snd (runScheduledSync JSON_parse localeCompare cfg source w)))
        = totalFailures (sync w)
  | Throw e =>
      totalFailures (sync (snd (runScheduledSync JSON_parse localeCompare cfg source w)))
        = totalFailures (sync w) + 1 ∧
      lastError (sync (snd (runScheduledSync JSON_parse localeCompare cfg source w)))
        = Js.or_else (message e) "Error" ∧
      lastResult (sync (snd (runScheduledSync JSON_parse localeCompare cfg source w)))
        = lastResult (sync w) ∧
      lastSuccessAt (sync (snd (runScheduledSync JSON_parse localeCompare cfg source w)))
        = lastSuccessAt (sync w)
  end.
Proof.
  intros Hen Hidle.
  set (w0 := set_sync {| enabled := enabled (sync w);
                         inProgress := true;
                         lastRunAt := Some (now w);
                         lastSuccessAt := lastSuccessAt (sync w);
                         lastError := lastError (sync w);
                         lastResult := lastResult (sync w);
                         totalRuns := totalRuns (sync w) + 1;
                         totalFailures := totalFailures (sync w) |} w).
  assert (Hbegin : sync_begin cfg source w = (Ok true, w0)).
  { unfold sync_begin. rewrite Hen. cbn [negb]. unfold bind, get, modify, ret.
    by rewrite Hidle. }
  destruct (runTailscaleShadowSync JSON_parse localeCompare cfg w0) as [r w1] eqn:Hrun.
  pose proof (keeps_sync_runTailscaleShadowSync JSON_parse localeCompare cfg w0 r w1 Hrun)
    as Hsync.
  assert (Hsettle : runScheduledSync JSON_parse localeCompare cfg source w
                    = sync_settle source r w1).
  { unfold runScheduledSync. unfold bind at 1. by rewrite Hbegin, Hrun. }
  rewrite Hsettle, Hbegin. cbn [snd]. rewrite Hrun. cbn [fst].
  assert (H0 : sync w0 = {| enabled := enabled (sync w);
                            inProgress := true;
                            lastRunAt := Some (now w);
                            lastSuccessAt := lastSuccessAt (sync w);
                            lastError := lastError (sync w);
                            lastResult := lastResult (sync w);
                            totalRuns := totalRuns (sync w) + 1;
                            totalFailures := totalFailures (sync w) |}) by by destruct w.
  rewrite H0 in Hsync. clearbody w0.
  destruct r as [result|e];
    unfold sync_settle, finally, Logger.error, Logger.write, bind, modify;
    destruct w1; cbn in *; rewrite Hsync; cbn; repeat split; reflexivity.
Qed.

End CycleRecord.

Lemma scheduled_cycle_is_recorded_witness :
  fst (Server.runScheduledSync parse_peers compare_equal Config.default_config "startup"
         (fresh invalid_config)) = State.Ok tt ∧
  State.inProgress
    (State.sync (snd (Server.runScheduledSync parse_peers compare_equal Config.default_config
                        "startup" (fresh invalid_config)))) = false ∧
  State.totalRuns
    (State.sync (snd (Server.runScheduledSync parse_peers compare_equal Config.default_config
                        "startup" (fresh invalid_config))))
    = State.totalRuns (State.sync (fresh invalid_config)) + 1 ∧
  State.lastRunAt
    (State.sync (snd (Server.runScheduledSync parse_peers compare_equal Config.default_config
                        "startup" (fresh invalid_config))))
    = Some (State.now (fresh invalid_config)) ∧
  match fst (ShadowSync.runTailscaleShadowSync parse_peers compare_equal Config.default_config
               (snd (Server.sync_begin Config.default_config "startup"
                       (fresh invalid_config)))) with
  | State.Ok result =>
      State.lastResult
        (State.sync (snd (Server.runScheduledSync parse_peers compare_equal
                            Config.default_config "startup" (fresh invalid_config))))
        = Some result ∧
      State.lastError
        (State.sync (snd (Server.runScheduledSync parse_peers compare_equal
                            Config.default_config "startup" (fresh invalid_config))))
        = EmptyString ∧
      State.totalFailures
        (State.sync (snd (Server.runScheduledSync parse_peers compare_equal
                            Config.default_config "startup" (fresh invalid_config))))
        = State.totalFailures (State.sync (fresh invalid_config))
  | State.Throw e =>
      State.totalFailures
        (State.sync (snd (Server.runScheduledSync parse_peers compare_equal
                            Config.default_config "startup" (fresh invalid_config))))
        = State.totalFailures (State.sync (fresh invalid_config)) + 1 ∧
      State.lastError
        (State.sync (snd (Server.runScheduledSync parse_peers compare_equal
                            Config.default_config "startup" (fresh invalid_config))))
        = Js.or_else (State.message e) "Error" ∧
      State.lastResult
        (State.sync (snd (Server.runScheduledSync parse_peers compare_equal
                            Config.default_config "startup" (fresh invalid_config))))
        = State.lastResult (State.sync (fresh invalid_config)) ∧
      State.lastSuccessAt
        (State.sync (snd (Server.runScheduledSync parse_peers compare_equal
                            Config.default_config "startup" (fresh invalid_config))))
        = State.lastSuccessAt (State.sync (fresh invalid_config))
  end.
Proof.
  apply (scheduled_cycle_is_recorded parse_peers compare_equal Config.default_config "startup"
           (fresh invalid_config)); reflexivity.
Defined.

